(** * The implicit contact model (imc.py) of the elastic rod simulator

    A shallow embedding of [src/imc.py]: the class [IMC] with its edge-pair
    table, the vectorised collision detector, the chain rule of the contact
    energy, the friction force, the scatter into the shared buffers, the
    stiffness controller and one iteration of the request/reply loop.

    Python floats and NumPy float64 values are the binary64 floats of the
    kernel ([PrimFloat]), NumPy arrays are lists (row major, one list per
    axis), Python ints are [Z], the int32 ids of the edge-pair table are [Z]
    with the wrap-around written out, exceptions are an error result. *)

From Stdlib Require Import ZArith List Bool Lia Floats Sorted.
Import ListNotations.

Set Warnings "-inexact-float".
Local Open Scope Z_scope.

(** ** Arrays *)

Abbreviation vec := (list float).
Abbreviation mat := (list (list float)).

(** A matrix whose rows have [n] entries. *)
Definition width (n : nat) (m : mat) : Prop :=
  Forall (fun r => length r = n) m.

(** ** The numerical libraries

    Four operations of the program are carried out by library routines
    that add up products or terms in an order of their own, which [imc.py]
    does not fix: [np.sum] (NumPy adds in blocks, with eight accumulators),
    the products [u.dot(v)] and [a @ b] of compiled code (handed to the dot,
    gemv and gemm routines of the BLAS the interpreter is linked with) and
    the product [a @ b] of NumPy arrays (NumPy's matmul, which calls the
    same BLAS where it can). Their last bits depend on the build of the
    libraries, so the program is embedded over any implementation of them;
    [reference] below is one. *)
Class Numerics := {
  (** [np.sum(a)] of a contiguous array, [a] given in memory order *)
  np_sum : vec -> float;
  (** [u.dot(v)] in compiled code *)
  jit_dot : vec -> vec -> float;
  (** [a @ b] in compiled code, for [b] of [m] columns *)
  jit_matmul : nat -> mat -> mat -> mat;
  (** [a @ b] in NumPy for one matrix of a stack, for [b] of [m] columns *)
  np_matmul : nat -> mat -> mat -> mat
}.

(** ** Exceptions

    [AssertionError] carries the number of its message; [AttributeError] is
    the read of [.shape] on [None]; [ValueError] and [OverflowError] come
    from [int] of a float, from NumPy shape mismatches and from [np.min] of
    an empty array; [TypeError] stands for the typing error reported when a
    compiled function is called with [None] for an array;
    [ZeroDivisionError] is the division of a Python float by zero. *)

Inductive exn :=
| AssertionError (msg : nat)
| AttributeError
| ValueError
| OverflowError
| TypeError
| ZeroDivisionError.

(** The messages of the four assertions of the validity check. *)
Definition Force_had_a_nan : nat := 0.
Definition Force_had_an_inf : nat := 1.
Definition Jacobian_had_a_nan : nat := 2.
Definition Jacobian_had_an_inf : nat := 3.

Inductive result (A : Type) :=
| Ok (a : A)
| Raise (e : exn).
Arguments Ok {A} a.
Arguments Raise {A} e.

Definition bind {A B} (r : result A) (k : A -> result B) : result B :=
  match r with
  | Ok a => k a
  | Raise e => Raise e
  end.

Notation "x <- r ;; k" := (bind r (fun x => k))
  (at level 61, r at next level, right associativity).
Notation "' p <- r ;; k" := (bind r (fun p => k))
  (at level 61, p pattern, r at next level, right associativity).

(** ** Python built-ins *)

(** [range(a, b)] *)
Definition range (a b : Z) : list Z :=
  map (fun k => a + Z.of_nat k) (seq 0 (Z.to_nat (b - a))).

(** [i in range(a, b)] *)
Definition in_range (i a b : Z) : bool := (a <=? i) && (i <? b).

(** A slice bound [x] of a sequence of length [len], as [slice.indices]
    resolves it for step 1: a negative bound counts from the end, and the
    result is clipped to [0, len]. *)
Definition slice_index (len x : Z) : Z :=
  if x <? 0 then Z.max 0 (x + len) else Z.min x len.

(** [l[start:stop]] *)
Definition getslice {A} (l : list A) (start stop : Z) : list A :=
  let n := Z.of_nat (length l) in
  let a := slice_index n start in
  let b := slice_index n stop in
  firstn (Z.to_nat (b - a)) (skipn (Z.to_nat a) l).

(** [l[start:]] *)
Definition getslice_from {A} (l : list A) (start : Z) : list A :=
  skipn (Z.to_nat (slice_index (Z.of_nat (length l)) start)) l.

(** [l[:stop]] *)
Definition getslice_to {A} (l : list A) (stop : Z) : list A :=
  firstn (Z.to_nat (slice_index (Z.of_nat (length l)) stop)) l.

(** [l[-1]] of a non-empty sequence, [d] standing for the IndexError. *)
Definition last_item {A} (l : list A) (d : A) : A := last l d.

(** [l[start:stop, cols] = x] with a scalar or a single row [x], broadcast
    over the rows of the slice: [f] stores [x] into the columns of a row. *)
Definition setslice_bcast {A} (f : A -> A) (l : list A) (start stop : Z)
  : list A :=
  let n := Z.of_nat (length l) in
  let a := slice_index n start in
  let b := slice_index n stop in
  firstn (Z.to_nat a) l
    ++ map f (firstn (Z.to_nat (b - a)) (skipn (Z.to_nat a) l))
    ++ skipn (Z.to_nat (Z.max a b)) l.

(** [l[start:stop, cols] = xs] with one value of [xs] per row of the slice;
    NumPy raises ValueError when the shapes do not agree ([xs] of length 1
    would be broadcast; the program never assigns such a value to a longer
    slice, and the model refuses it as well). *)
Definition setslice_rows {A B} (f : A -> B -> A) (l : list A)
  (start stop : Z) (xs : list B) : result (list A) :=
  let n := Z.of_nat (length l) in
  let a := slice_index n start in
  let b := slice_index n stop in
  let rows := firstn (Z.to_nat (b - a)) (skipn (Z.to_nat a) l) in
  if Nat.eqb (length rows) (length xs)
  then Ok (firstn (Z.to_nat a) l
             ++ map (fun rx => f (fst rx) (snd rx)) (combine rows xs)
             ++ skipn (Z.to_nat (Z.max a b)) l)
  else Raise ValueError.

(** [int(x)] of a float: truncation toward zero; ValueError on NaN,
    OverflowError on an infinity. *)
Definition py_int (x : float) : result Z :=
  match Prim2SF x with
  | S754_zero _ => Ok 0
  | S754_finite s m e =>
      let a := if 0 <=? e then Zpos m * 2 ^ e else Zpos m / 2 ^ (- e) in
      Ok (if s then - a else a)
  | S754_nan => Raise ValueError
  | S754_infinity _ => Raise OverflowError
  end.

(** [x / y] for two Python floats: ZeroDivisionError when [y] is a zero of
    either sign; NaN and the infinities divide as in binary64. *)
Definition py_div (x y : float) : result float :=
  if (y =? 0)%float then Raise ZeroDivisionError else Ok (x / y)%float.

(** A value stored into an [int32] array. *)
Definition wrap32 (x : Z) : Z := (x + 2 ^ 31) mod 2 ^ 32 - 2 ^ 31.

(** ** NumPy *)

Module np.

(** [np.zeros(n)], [np.zeros((n, m))], [np.zeros((n, m, k))] *)
Definition zeros (n : nat) : vec := repeat 0%float n.
Definition zeros2 (n m : nat) : mat := repeat (zeros m) n.
Definition zeros3 (n m k : nat) : list mat := repeat (zeros2 m k) n.

(** [a.sum(axis=1)] in compiled code, for one row of [a]: a loop that adds
    the entries to a zero in the order of the index. *)
Definition sum_loop (l : vec) : float := fold_left PrimFloat.add l 0%float.

(** [np.sum] of an array of two or three axes adds up all the elements; the
    array is contiguous and NumPy walks it in memory order. *)
Definition sum2 {num : Numerics} (m : mat) : float := np_sum (concat m).
Definition sum3 {num : Numerics} (t : list mat) : float :=
  np_sum (concat (concat t)).

Definition isnan (x : float) : bool := is_nan x.
Definition isinf (x : float) : bool := is_infinity x.

(** [np.min] as the jit compiler implements it for a float array: the
    first NaN met is returned at once, an empty array is a ValueError. *)
Fixpoint min_from (min_value : float) (l : vec) : float :=
  match l with
  | [] => min_value
  | v :: l' =>
      if is_nan v then v
      else if (v <? min_value)%float then min_from v l'
      else min_from min_value l'
  end.

Definition min (l : vec) : result float :=
  match l with
  | [] => Raise ValueError
  | v :: l' => if is_nan v then Ok v else Ok (min_from v l')
  end.

(** [np.where(mask)] on one axis: the indices of the true entries. *)
Fixpoint where_from (i : Z) (mask : list bool) : list Z :=
  match mask with
  | [] => []
  | b :: mask' =>
      if b then i :: where_from (i + 1) mask' else where_from (i + 1) mask'
  end.

Definition where_ (mask : list bool) : list Z := where_from 0 mask.

(** [a[idx]]: the rows of [a] at the indices [idx]. *)
Definition take {A} (d : A) (a : list A) (idx : list Z) : list A :=
  map (fun i => nth (Z.to_nat i) a d) idx.

End np.

(** ** Element-wise arithmetic *)

(** Arrays of equal shape, element by element. *)
Definition map2 {A B C} (f : A -> B -> C) (u : list A) (v : list B) : list C :=
  map (fun p => f (fst p) (snd p)) (combine u v).

Definition vadd (u v : vec) : vec := map2 PrimFloat.add u v.
Definition vsub (u v : vec) : vec := map2 PrimFloat.sub u v.
Definition vmul (u v : vec) : vec := map2 PrimFloat.mul u v.
Definition vneg (u : vec) : vec := map PrimFloat.opp u.
(** [a * v] and [v / a] with a scalar [a] *)
Definition vscale (a : float) (v : vec) : vec := map (PrimFloat.mul a) v.
Definition vdiv (v : vec) (a : float) : vec := map (fun x => (x / a)%float) v.

Definition madd (a b : mat) : mat := map2 vadd a b.
Definition mscale (a : float) (m : mat) : mat := map (vscale a) m.

(** *** Reference products

    The textbook products: every entry is accumulated from zero in the
    order of the summation index, each product rounded before it is added.
    A BLAS may fuse the multiplication with the addition or add in another
    order. *)
Definition dot (u v : vec) : float :=
  fold_left (fun acc p => (acc + fst p * snd p)%float) (combine u v) 0%float.

(** One row [a] times a matrix [b] of [m] columns. *)
Definition vecmat (m : nat) (a : vec) (b : mat) : vec :=
  fold_left (fun acc p => vadd acc (vscale (fst p) (snd p)))
            (combine a b) (np.zeros m).

Definition matmul (m : nat) (a b : mat) : mat := map (fun r => vecmat m r b) a.

(** *** Reference sum

    The sum of a contiguous array of doubles as NumPy's [add.reduce]
    computes it. The array is handed over in pieces of [bufsize] elements
    and the sum of each piece is added to the result, which starts at zero.
    A piece of fewer than 8 elements is added up by a loop. A piece of 8 to
    128 elements goes through eight accumulators: they take the first eight
    elements, then one element each of every further group of eight, they
    are added in pairs, and the fewer than eight elements that remain are
    added one by one. A longer piece is cut in two, the first part of
    [n / 2] elements rounded down to a multiple of 8, and the sums of the
    parts are added. (Later releases start at a negative zero; the sign of
    a zero sum is all that this changes, and the program does not look at
    it.) *)
Fixpoint chunks_aux {A} (fuel k : nat) (l : list A) : list (list A) :=
  match fuel, l with
  | S fuel', _ :: _ => firstn k l :: chunks_aux fuel' k (skipn k l)
  | _, _ => []
  end.

(** [l] cut into consecutive pieces of [k >= 1] elements; the last one is
    shorter when [k] does not divide the length. *)
Definition chunks {A} (k : nat) (l : list A) : list (list A) :=
  chunks_aux (length l) k l.

(** [for (; i < n; i++) res += a[i]] *)
Definition add_loop (res : float) (a : vec) : float :=
  fold_left PrimFloat.add a res.

(** [((r[0] + r[1]) + (r[2] + r[3])) + ((r[4] + r[5]) + (r[6] + r[7]))] *)
Definition sum8 (r : vec) : float :=
  let x k := nth k r 0%float in
  ((x 0%nat + x 1%nat) + (x 2%nat + x 3%nat)
   + ((x 4%nat + x 5%nat) + (x 6%nat + x 7%nat)))%float.

Definition unrolled_sum (a : vec) : float :=
  let n := length a in
  let full := (n - n mod 8)%nat in
  let r := fold_left vadd (chunks 8 (firstn (full - 8) (skipn 8 a)))
                     (firstn 8 a) in
  add_loop (sum8 r) (skipn full a).

Definition small_sum (a : vec) : float :=
  if (length a <? 8)%nat then add_loop 0 a else unrolled_sum a.

Fixpoint pairwise_sum (fuel : nat) (a : vec) : float :=
  match fuel with
  | O => small_sum a
  | S fuel' =>
      if (length a <=? 128)%nat then small_sum a
      else
        let n2 := (length a / 2)%nat in
        let n2 := (n2 - n2 mod 8)%nat in
        (pairwise_sum fuel' (firstn n2 a)
         + pairwise_sum fuel' (skipn n2 a))%float
  end.

Definition bufsize : nat := (64 * 128)%nat.

Definition numpy_sum (a : vec) : float :=
  fold_left (fun res piece =>
               (res + pairwise_sum (length piece) piece)%float)
            (chunks bufsize a) 0%float.

(** The reference implementation of the libraries. *)
#[global] Instance reference : Numerics :=
  {| np_sum := numpy_sum; jit_dot := dot;
     jit_matmul := matmul; np_matmul := matmul |}.

(** Column slices of a matrix: [a[:, :k]] and [a[:, k:]] for [0 <= k]. *)
Definition cols_to (k : nat) (a : mat) : mat := map (firstn k) a.
Definition cols_from (k : nat) (a : mat) : mat := map (skipn k) a.

(** ** Loops that can raise *)

Fixpoint foldM {S A} (f : S -> A -> result S) (l : list A) (s : S)
  : result S :=
  match l with
  | [] => Ok s
  | a :: l' => s' <- f s a ;; foldM f l' s'
  end.

Fixpoint mapM2 {A B C} (f : A -> B -> result C) (u : list A) (v : list B)
  : result (list C) :=
  match u, v with
  | a :: u', b :: v' => c <- f a b ;; cs <- mapM2 f u' v' ;; Ok (c :: cs)
  | _, _ => Ok []
  end.

(** [m[r0:r1, c0:c1] += blk] *)
Definition addblock (m : mat) (r0 r1 c0 c1 : Z) (blk : mat) : result mat :=
  let n := Z.of_nat (length m) in
  let a := slice_index n r0 in
  let b := slice_index n r1 in
  let rows := firstn (Z.to_nat (b - a)) (skipn (Z.to_nat a) m) in
  if Nat.eqb (length rows) (length blk)
  then rows' <- mapM2 (fun row x => setslice_rows PrimFloat.add row c0 c1 x)
                      rows blk ;;
       Ok (firstn (Z.to_nat a) m ++ rows' ++ skipn (Z.to_nat (Z.max a b)) m)
  else Raise ValueError.

(** ** The class [IMC] *)

(** The functions generated offline and loaded from [grads_hessian_functions]
    are opaque to the program. They are applied to a batch (one row per
    active pair) and give one value per pair: a row of 12 for a first-layer
    gradient, a scalar for a second-layer gradient, a row of 15 for a
    second-layer Hessian, a 12 x 12 matrix for the variable first-layer
    Hessian and a 6 x 24 matrix for the friction jacobian. *)
Record IMC := {
  scale : float;
  radius : float;
  num_edges : Z;
  collision_limit : float;
  contact_stiffness : float;
  mu_k : float;
  contact_len : float;
  dd_grads : mat;
  f_grad_funcs : list (mat -> mat);
  f_hess_const : list mat;
  f_hess_func : mat -> list mat;
  s_grad_funcs : list (mat -> vec);
  s_hess_funcs : list (mat -> mat);
  ffr_jacobian_func : mat -> list mat;
  friction : Z;
  ia : Z;
  indices : list Z;
  edges : mat;
  edge_combos : mat;
  edge_ids : list (Z * Z);
  port_no : Z;
  forces : vec;
  hessian : mat;
  node_coordinates : vec;
  velocities : vec;
  meta_data : vec
}.

(** Assignments to the attributes that the program mutates. *)
Definition set_contact_stiffness (k : float) (self : IMC) : IMC :=
  {| scale := scale self; radius := radius self; num_edges := num_edges self;
     collision_limit := collision_limit self; contact_stiffness := k;
     mu_k := mu_k self; contact_len := contact_len self;
     dd_grads := dd_grads self; f_grad_funcs := f_grad_funcs self;
     f_hess_const := f_hess_const self; f_hess_func := f_hess_func self;
     s_grad_funcs := s_grad_funcs self; s_hess_funcs := s_hess_funcs self;
     ffr_jacobian_func := ffr_jacobian_func self; friction := friction self;
     ia := ia self; indices := indices self; edges := edges self;
     edge_combos := edge_combos self; edge_ids := edge_ids self;
     port_no := port_no self; forces := forces self; hessian := hessian self;
     node_coordinates := node_coordinates self;
     velocities := velocities self; meta_data := meta_data self |}.

Definition set_friction (b : Z) (self : IMC) : IMC :=
  {| scale := scale self; radius := radius self; num_edges := num_edges self;
     collision_limit := collision_limit self;
     contact_stiffness := contact_stiffness self;
     mu_k := mu_k self; contact_len := contact_len self;
     dd_grads := dd_grads self; f_grad_funcs := f_grad_funcs self;
     f_hess_const := f_hess_const self; f_hess_func := f_hess_func self;
     s_grad_funcs := s_grad_funcs self; s_hess_funcs := s_hess_funcs self;
     ffr_jacobian_func := ffr_jacobian_func self; friction := b;
     ia := ia self; indices := indices self; edges := edges self;
     edge_combos := edge_combos self; edge_ids := edge_ids self;
     port_no := port_no self; forces := forces self; hessian := hessian self;
     node_coordinates := node_coordinates self;
     velocities := velocities self; meta_data := meta_data self |}.

Definition set_scratch (e c : mat) (self : IMC) : IMC :=
  {| scale := scale self; radius := radius self; num_edges := num_edges self;
     collision_limit := collision_limit self;
     contact_stiffness := contact_stiffness self;
     mu_k := mu_k self; contact_len := contact_len self;
     dd_grads := dd_grads self; f_grad_funcs := f_grad_funcs self;
     f_hess_const := f_hess_const self; f_hess_func := f_hess_func self;
     s_grad_funcs := s_grad_funcs self; s_hess_funcs := s_hess_funcs self;
     ffr_jacobian_func := ffr_jacobian_func self; friction := friction self;
     ia := ia self; indices := indices self; edges := e;
     edge_combos := c; edge_ids := edge_ids self;
     port_no := port_no self; forces := forces self; hessian := hessian self;
     node_coordinates := node_coordinates self;
     velocities := velocities self; meta_data := meta_data self |}.

Definition set_forces (f : vec) (self : IMC) : IMC :=
  {| scale := scale self; radius := radius self; num_edges := num_edges self;
     collision_limit := collision_limit self;
     contact_stiffness := contact_stiffness self;
     mu_k := mu_k self; contact_len := contact_len self;
     dd_grads := dd_grads self; f_grad_funcs := f_grad_funcs self;
     f_hess_const := f_hess_const self; f_hess_func := f_hess_func self;
     s_grad_funcs := s_grad_funcs self; s_hess_funcs := s_hess_funcs self;
     ffr_jacobian_func := ffr_jacobian_func self; friction := friction self;
     ia := ia self; indices := indices self; edges := edges self;
     edge_combos := edge_combos self; edge_ids := edge_ids self;
     port_no := port_no self; forces := f; hessian := hessian self;
     node_coordinates := node_coordinates self;
     velocities := velocities self; meta_data := meta_data self |}.

Definition set_hessian (h : mat) (self : IMC) : IMC :=
  {| scale := scale self; radius := radius self; num_edges := num_edges self;
     collision_limit := collision_limit self;
     contact_stiffness := contact_stiffness self;
     mu_k := mu_k self; contact_len := contact_len self;
     dd_grads := dd_grads self; f_grad_funcs := f_grad_funcs self;
     f_hess_const := f_hess_const self; f_hess_func := f_hess_func self;
     s_grad_funcs := s_grad_funcs self; s_hess_funcs := s_hess_funcs self;
     ffr_jacobian_func := ffr_jacobian_func self; friction := friction self;
     ia := ia self; indices := indices self; edges := edges self;
     edge_combos := edge_combos self; edge_ids := edge_ids self;
     port_no := port_no self; forces := forces self; hessian := h;
     node_coordinates := node_coordinates self;
     velocities := velocities self; meta_data := meta_data self |}.

Definition set_node_coordinates (x : vec) (self : IMC) : IMC :=
  {| scale := scale self; radius := radius self; num_edges := num_edges self;
     collision_limit := collision_limit self;
     contact_stiffness := contact_stiffness self;
     mu_k := mu_k self; contact_len := contact_len self;
     dd_grads := dd_grads self; f_grad_funcs := f_grad_funcs self;
     f_hess_const := f_hess_const self; f_hess_func := f_hess_func self;
     s_grad_funcs := s_grad_funcs self; s_hess_funcs := s_hess_funcs self;
     ffr_jacobian_func := ffr_jacobian_func self; friction := friction self;
     ia := ia self; indices := indices self; edges := edges self;
     edge_combos := edge_combos self; edge_ids := edge_ids self;
     port_no := port_no self; forces := forces self; hessian := hessian self;
     node_coordinates := x;
     velocities := velocities self; meta_data := meta_data self |}.

Definition set_velocities (v : vec) (self : IMC) : IMC :=
  {| scale := scale self; radius := radius self; num_edges := num_edges self;
     collision_limit := collision_limit self;
     contact_stiffness := contact_stiffness self;
     mu_k := mu_k self; contact_len := contact_len self;
     dd_grads := dd_grads self; f_grad_funcs := f_grad_funcs self;
     f_hess_const := f_hess_const self; f_hess_func := f_hess_func self;
     s_grad_funcs := s_grad_funcs self; s_hess_funcs := s_hess_funcs self;
     ffr_jacobian_func := ffr_jacobian_func self; friction := friction self;
     ia := ia self; indices := indices self; edges := edges self;
     edge_combos := edge_combos self; edge_ids := edge_ids self;
     port_no := port_no self; forces := forces self; hessian := hessian self;
     node_coordinates := node_coordinates self;
     velocities := v; meta_data := meta_data self |}.

Definition set_meta_data (m : vec) (self : IMC) : IMC :=
  {| scale := scale self; radius := radius self; num_edges := num_edges self;
     collision_limit := collision_limit self;
     contact_stiffness := contact_stiffness self;
     mu_k := mu_k self; contact_len := contact_len self;
     dd_grads := dd_grads self; f_grad_funcs := f_grad_funcs self;
     f_hess_const := f_hess_const self; f_hess_func := f_hess_func self;
     s_grad_funcs := s_grad_funcs self; s_hess_funcs := s_hess_funcs self;
     ffr_jacobian_func := ffr_jacobian_func self; friction := friction self;
     ia := ia self; indices := indices self; edges := edges self;
     edge_combos := edge_combos self; edge_ids := edge_ids self;
     port_no := port_no self; forces := forces self; hessian := hessian self;
     node_coordinates := node_coordinates self;
     velocities := velocities self; meta_data := m |}.

(** *** [__init__] *)

(** The dictionary [params]. *)
Record Params := {
  param_radius : float;
  param_S : float;
  param_num_nodes : Z;
  param_collision_limit : float;
  param_contact_stiffness : float;
  param_ce_k : float;
  param_mu_k : float
}.

(** The seven objects unpickled from [grads_hessian_functions], in the order
    of [func_names]. *)
Record Functions := {
  fn_dd : mat;
  fn_first_grad : list (mat -> mat);
  fn_constant_hess : list mat;
  fn_first_hess : mat -> list mat;
  fn_second_grad : list (mat -> vec);
  fn_second_hess : list (mat -> mat);
  fn_friction_jacobian : mat -> list mat
}.

(** The five shared memory segments as the solver left them. *)
Record SharedMemory := {
  shm_node_coordinates : vec;
  shm_velocities : vec;
  shm_contact_forces : vec;
  shm_contact_hessian : mat;
  shm_meta_data : vec
}.

(** The number of eligible pairs, counted by the double loop:
    [if i in range(j-ia, j+ia+1): continue]. *)
Definition count_edge_combos (num_edges ia : Z) : Z :=
  fold_left
    (fun n i =>
       fold_left
         (fun n j => if in_range i (j - ia) (j + ia + 1) then n else n + 1)
         (range i num_edges) n)
    (range 0 num_edges) 0.

(** The loop that fills [edge_ids]; the state is [(ri, edge_ids)]. *)
Definition fill_edge_ids (num_edges ia : Z) (indices : list Z)
  (edge_ids : list (Z * Z)) : result (Z * list (Z * Z)) :=
  foldM
    (fun st i =>
       let ri := fst st in
       let add := num_edges - i - (ia + 1) in
       let ids := setslice_bcast (fun row => (wrap32 i, snd row))
                                 (snd st) ri (ri + add) in
       ids' <- setslice_rows (fun row j => (fst row, wrap32 j))
                             ids ri (ri + add)
                             (getslice_from indices (i + ia + 1)) ;;
       Ok (ri + add, ids'))
    (range 0 num_edges) (0, edge_ids).

Definition __init__ (params : Params) (functions : Functions)
  (argv1 : Z) (shm : SharedMemory) : result IMC :=
  let scale := param_S params in
  let radius := (param_radius params * scale)%float in
  let num_nodes := param_num_nodes params in
  let num_edges := num_nodes - 1 in
  let contact_len := (radius * 2)%float in
  let ia := 2 in
  let num_edge_combos := count_edge_combos num_edges ia in
  let indices := range 0 num_edges in
  if num_edges <? 0 then Raise ValueError else
  let edges := np.zeros2 (Z.to_nat num_edges) 6 in
  let edge_combos := np.zeros2 (Z.to_nat num_edge_combos) 12 in
  let edge_ids := repeat (0, 0) (Z.to_nat num_edge_combos) in
  st <- fill_edge_ids num_edges ia indices edge_ids ;;
  Ok {| scale := scale; radius := radius; num_edges := num_edges;
        collision_limit := param_collision_limit params;
        contact_stiffness := param_contact_stiffness params;
        mu_k := param_mu_k params; contact_len := contact_len;
        dd_grads := fn_dd functions;
        f_grad_funcs := fn_first_grad functions;
        f_hess_const := fn_constant_hess functions;
        f_hess_func := fn_first_hess functions;
        s_grad_funcs := fn_second_grad functions;
        s_hess_funcs := fn_second_hess functions;
        ffr_jacobian_func := fn_friction_jacobian functions;
        friction := 0; ia := ia; indices := indices; edges := edges;
        edge_combos := edge_combos; edge_ids := snd st;
        port_no := argv1;
        forces := shm_contact_forces shm;
        hessian := shm_contact_hessian shm;
        node_coordinates := shm_node_coordinates shm;
        velocities := shm_velocities shm;
        meta_data := shm_meta_data shm |}.

(** *** [_get_ffr] *)

(** [d[d > 0.0] = 1.0; d[d < 0.0] = -1.0; d[d == 0.0] = 0.0] for one entry. *)
Definition sign_masks (d : float) : float :=
  let d := if (0 <? d)%float then 1%float else d in
  let d := if (d <? 0)%float then (-1)%float else d in
  if (d =? 0)%float then 0%float else d.

(** [np.sqrt((a**2).sum(axis=1))] for one row. *)
Definition row_norm (a : vec) : float := sqrt (np.sum_loop (vmul a a)).

(** [a[:, 0:3] = x] and the like on one row of [a]: the columns from [k]
    on are replaced by the entries of [x]. *)
Definition set_cols (k : nat) (x row : vec) : vec :=
  firstn k row ++ x ++ skipn (k + length x) row.

Definition _get_ffr {num : Numerics} (edges velocities forces : mat)
  (mu_k : float) : mat :=
  let x1s := cols_to 3 edges in
  let x1e := cols_to 3 (cols_from 3 edges) in
  let x2s := cols_to 3 (cols_from 6 edges) in
  let x2e := cols_from 9 edges in
  let v1s := cols_to 3 velocities in
  let v1e := cols_to 3 (cols_from 3 velocities) in
  let v2s := cols_to 3 (cols_from 6 velocities) in
  let v2e := cols_from 9 velocities in
  let f1s := cols_to 3 forces in
  let f1e := cols_to 3 (cols_from 3 forces) in
  let T1 := map (fun d => vdiv d (row_norm d)) (map2 vsub x2e x2s) in
  let T2 := map (fun d => vdiv d (row_norm d)) (map2 vsub x1e x1s) in
  let fn := map row_norm (madd f1s f1e) in
  let ffr_val := map (PrimFloat.mul mu_k) fn in
  let v1 := mscale 0.5 (madd v1s v1e) in
  let v2 := mscale 0.5 (madd v2s v2e) in
  let vr1 := map2 vsub v1 v2 in
  let dir1 := map2 (fun vrx Tx => jit_dot vrx Tx) vr1 T1 in
  let dir2 := map2 (fun vrx Ty => jit_dot (vneg vrx) Ty) vr1 T2 in
  let dir1 := map sign_masks dir1 in
  let dir2 := map sign_masks dir2 in
  let ffr1 := map2 (fun dT f => map (fun x => (x * f)%float) dT)
                   (map2 vscale dir1 T1) ffr_val in
  let ffr2 := map2 (fun dT f => map (fun x => (x * f)%float) dT)
                   (map2 vscale dir2 T2) ffr_val in
  let ffr1x := mscale 0.50 (map2 vsub ffr1 ffr2) in
  let ffr2x := map vneg ffr1x in
  map2 (fun a b =>
          set_cols 9 (vscale 0.50 b)
            (set_cols 6 (vscale 0.50 b)
               (set_cols 3 (vscale 0.50 a)
                  (set_cols 0 (vscale 0.50 a) (np.zeros 12)))))
       ffr1x ffr2x.

(** *** Collision detection and the per-step geometry *)

Section imc_utils.
Context {num : Numerics}.

(** [from imc_utils import *]: the segment-segment minimum distance of every
    row of a batch of edge pairs, and the same together with the derived
    parameters that feed the second-layer functions. Both are external to
    [imc.py]. *)
Variable min_dist_vectorized : mat -> vec.
Variable min_dist_f_out_vectorized : mat -> vec * mat.

(** [edges[i] = x]: a row of the same width replaces row [i]. *)
Definition set_row (a : mat) (i : Z) (x : vec) : result mat :=
  match nth_error a (Z.to_nat i) with
  | Some row =>
      if Nat.eqb (length row) (length x)
      then Ok (firstn (Z.to_nat i) a ++ x :: skipn (S (Z.to_nat i)) a)
      else Raise ValueError
  | None => Raise ValueError
  end.

Definition _jit_detect_collisions (edges edge_combos : mat)
  (edge_ids : list (Z * Z)) (collision_limit : float) (node_data : vec)
  (contact_len : float) (ia : Z)
  : result (mat * mat * list (Z * Z) * float) :=
  let num_edges := Z.of_nat (length edges) in
  (* Construct list of all edge coordinates *)
  edges <- foldM (fun edges i =>
                    set_row edges i (getslice node_data (3 * i) (3 * i + 6)))
                 (range 0 num_edges) edges ;;
  (* Construct list of all possible edge combinations *)
  st <- foldM
          (fun st i =>
             let ri := fst st in
             let base_edge := nth (Z.to_nat i) edges [] in
             let add := num_edges - i - (ia + 1) in
             let combos := setslice_bcast (set_cols 0 base_edge)
                                          (snd st) ri (ri + add) in
             combos' <- setslice_rows (fun row e => set_cols 6 e row)
                                      combos ri (ri + add)
                                      (getslice_from edges (i + ia + 1)) ;;
             Ok (ri + add, combos'))
          (range 0 num_edges) (0, edge_combos) ;;
  let edge_combos := snd st in
  (* Compute the min-distances of all possible edge combinations *)
  let minDs := min_dist_vectorized edge_combos in
  (* Compute the indices of all edge combinations within the collision limit *)
  let col_indices :=
    np.where_ (map (fun d => (d - contact_len <? collision_limit)%float)
                   minDs) in
  (* Extract data for "in contact" edges *)
  let f_edge_ids := np.take (0, 0) edge_ids col_indices in
  closest_distance <- np.min minDs ;;
  Ok (edges, edge_combos, f_edge_ids, closest_distance).

(** The wrapper; the two scratch arrays of [self] are mutated in place. *)
Definition _detect_collisions (self : IMC)
  : result (IMC * list (Z * Z) * float) :=
  r <- _jit_detect_collisions (edges self) (edge_combos self) (edge_ids self)
         (collision_limit self) (node_coordinates self) (contact_len self)
         (ia self) ;;
  let '(e, c, f_edge_ids, closest_distance) := r in
  Ok (set_scratch e c self, f_edge_ids, closest_distance).

(** One row of [_jit_prepare_velocities] and of [_jit_prepare_edges]:
    [row[:6] = data[3*x:3*x+6]; row[6:] = data[3*y:3*y+6]]. *)
Definition pair_row (data : vec) (ids : Z * Z) : vec :=
  let '(x, y) := ids in
  set_cols 6 (getslice data (3 * y) (3 * y + 6))
    (set_cols 0 (getslice data (3 * x) (3 * x + 6)) (np.zeros 12)).

Definition _jit_prepare_velocities (edge_ids : list (Z * Z))
  (velocity_data : vec) : mat :=
  map (pair_row velocity_data) edge_ids.

Definition _prepare_velocities (self : IMC) (edge_ids : list (Z * Z)) : mat :=
  _jit_prepare_velocities edge_ids (velocities self).

Definition _jit_prepare_edges (edge_ids : list (Z * Z)) (node_data : vec)
  : result (mat * float * mat) :=
  let edge_combos := map (pair_row node_data) edge_ids in
  let '(dists, f_out_vals) := min_dist_f_out_vectorized edge_combos in
  closest_distance <- np.min dists ;;
  Ok (edge_combos, closest_distance, f_out_vals).

Definition _prepare_edges (self : IMC) (edge_ids : list (Z * Z))
  : result (mat * float * mat) :=
  _jit_prepare_edges edge_ids (node_coordinates self).

(** *** The chain rule of the contact energy *)

(** [s[:, k] * f] for a batch: the scalar [s[p, k]] of pair [p] times the
    row [f[p]]. *)
Definition col_times_rows (s_grad_vals : mat) (k : nat) (f : mat) : mat :=
  map2 (fun s_p f_p => vscale (nth k s_p 0%float) f_p) s_grad_vals f.

(** [s[:, k] * row] for a batch and one constant row. *)
Definition col_times_row (s : mat) (k : nat) (row : vec) : mat :=
  map (fun s_p => vscale (nth k s_p 0%float) row) s.

(** [u.reshape((12, 1)) @ v.reshape((1, 12))] for one pair of a stack: a
    column times a row, in NumPy. *)
Definition outer (u v : vec) : mat :=
  np_matmul 12 (map (fun x => [x]) u) [v].

Definition nat_range (n : nat) : list nat := seq 0 n.

Definition _chain_rule_contact_nohess (dd_grads : mat) (f_grad_vals : list mat)
  (s_grad_vals : mat) : mat :=
  let num_inputs := length s_grad_vals in
  let dE_dx := np.zeros2 num_inputs 12 in
  let dE_dx :=
    madd dE_dx (jit_matmul 12 (cols_to 9 s_grad_vals) dd_grads) in
  fold_left
    (fun dE_dx i =>
       madd dE_dx (col_times_rows s_grad_vals (i + 9) (nth i f_grad_vals [])))
    (nat_range 6) dE_dx.

(** [s_hess_vals] and [dE_dx] are mutated in place; the new values are
    returned. *)
Definition _optimize_chain_rule (dd_grads : mat) (f_grad_vals : list mat)
  (s_grad_vals : mat) (s_hess_vals_pre s_hess_vals : list mat) (dE_dx : mat)
  : mat * list mat :=
  (* Perform chain rule for contact gradient (forces) *)
  let dE_dx :=
    madd dE_dx (jit_matmul 12 (cols_to 9 s_grad_vals) dd_grads) in
  let dE_dx :=
    fold_left
      (fun dE_dx i =>
         madd dE_dx
              (col_times_rows s_grad_vals (i + 9) (nth i f_grad_vals [])))
      (nat_range 6) dE_dx in
  (* Perform chain rule to obtain d^2E/dd1x, d^2E/dd2x, and so on *)
  let s_hess_vals :=
    map2 (fun curr_s acc =>
            let acc :=
              fold_left
                (fun acc j =>
                   madd acc (col_times_row curr_s j (nth j dd_grads [])))
                (nat_range 9) acc in
            fold_left
              (fun acc j =>
                 madd acc
                      (col_times_rows curr_s (j + 9) (nth j f_grad_vals [])))
              (nat_range 6) acc)
         (firstn 15 s_hess_vals_pre) s_hess_vals in
  (dE_dx, s_hess_vals).

(** [d2E_dx2[:] += t], one 12 x 12 matrix per pair. *)
Definition tadd (a b : list mat) : list mat := map2 madd a b.

Definition _chain_rule_contact_hess (self : IMC) (f_grad_vals : list mat)
  (s_grad_vals : mat) (f_hess_vals s_hess_vals_pre : list mat)
  : mat * list mat :=
  let num_inputs := length s_grad_vals in
  let dE_dx := np.zeros2 num_inputs 12 in
  let d2E_dx2 := np.zeros3 num_inputs 12 12 in
  let s_hess_vals := repeat (np.zeros2 num_inputs 12) 15 in
  let '(dE_dx, s_hess_vals) :=
    _optimize_chain_rule (dd_grads self) f_grad_vals s_grad_vals
                         s_hess_vals_pre s_hess_vals dE_dx in
  (* Perform chain rule for contact hessian *)
  let dd := dd_grads self in
  let d2E_dx2 :=
    fold_left
      (fun d2E i =>
         tadd d2E (map (fun u => outer u (nth i dd [])) (nth i s_hess_vals [])))
      (nat_range 9) d2E_dx2 in
  let d2E_dx2 :=
    fold_left
      (fun d2E i =>
         let d2E :=
           tadd d2E (map (fun s_p => mscale (nth (i + 9) s_p 0%float)
                                            (nth i (f_hess_const self) []))
                         s_grad_vals) in
         tadd d2E (map2 outer (nth (i + 9) s_hess_vals [])
                              (nth i f_grad_vals [])))
      (nat_range 5) d2E_dx2 in
  let d2E_dx2 :=
    tadd d2E_dx2 (map2 (fun s_p h => mscale (last s_p 0%float) h)
                       s_grad_vals f_hess_vals) in
  let d2E_dx2 :=
    tadd d2E_dx2 (map2 outer (last s_hess_vals []) (last f_grad_vals [])) in
  (dE_dx, d2E_dx2).

(** *** The friction jacobian *)

Definition _get_ffr_jacobian_inputs (edges velocities dE_dx : mat)
  (mu_k : float) : mat :=
  let num_inputs := length edges in
  let ffr_jac_input := np.zeros2 num_inputs 37 in
  let add_cols k x row :=
    set_cols k (vadd (firstn (length x) (skipn k row)) x) row in
  let ffr_jac_input := map2 (fun row x => add_cols 0%nat x row)
                            ffr_jac_input edges in
  let ffr_jac_input := map2 (fun row x => add_cols 12%nat x row)
                            ffr_jac_input velocities in
  let ffr_jac_input := map2 (fun row x => add_cols 24%nat x row)
                            ffr_jac_input dE_dx in
  map (fun row => add_cols 36%nat [mu_k] row) ffr_jac_input.

Definition _chain_rule_friction_jacobian (ffr_grad_s d2E_dx2 : list mat)
  : list mat :=
  let num_inputs := length ffr_grad_s in
  let ffr_jacobian := np.zeros3 num_inputs 12 12 in
  let ffr1_grad :=
    map2 (fun g h => madd (cols_to 12 (firstn 3 g))
                          (np_matmul 12 (cols_from 12 (firstn 3 g)) h))
         ffr_grad_s d2E_dx2 in
  let ffr2_grad :=
    map2 (fun g h => madd (cols_to 12 (skipn 3 g))
                          (np_matmul 12 (cols_from 12 (skipn 3 g)) h))
         ffr_grad_s d2E_dx2 in
  let add_rows k x (m : mat) : mat :=
    firstn k m ++ madd (firstn (length x) (skipn k m)) x
      ++ skipn (k + length x) m in
  let ffr_jacobian := map2 (fun m x => add_rows 0%nat x m)
                           ffr_jacobian ffr1_grad in
  let ffr_jacobian := map2 (fun m x => add_rows 3%nat x m)
                           ffr_jacobian ffr1_grad in
  let ffr_jacobian := map2 (fun m x => add_rows 6%nat x m)
                           ffr_jacobian ffr2_grad in
  map2 (fun m x => add_rows 9%nat x m) ffr_jacobian ffr2_grad.

(** *** Scatter into the shared buffers *)

(** The body of both scatter loops for the forces of one pair. *)
Definition scatter_forces (cpp_forces : vec) (forces : vec) (ids : Z * Z)
  : result vec :=
  let '(e1, e2) := ids in
  cpp_forces <- setslice_rows PrimFloat.add cpp_forces
                  (3 * e1) (3 * e1 + 6) (getslice_to forces 6) ;;
  setslice_rows PrimFloat.add cpp_forces
    (3 * e2) (3 * e2 + 6) (getslice_from forces 6).

Definition _jit_py_to_cpp_hess (py_forces : mat) (py_jacobian : list mat)
  (cpp_forces : vec) (cpp_jacobian : mat) (edge_ids : list (Z * Z))
  : result (vec * mat) :=
  foldM
    (fun st x =>
       let '(forces, jacobian, ids) := x in
       let '(e1, e2) := ids in
       cpp_forces <- scatter_forces (fst st) forces ids ;;
       h <- addblock (snd st) (3 * e1) (3 * e1 + 6) (3 * e1) (3 * e1 + 6)
                     (cols_to 6 (getslice_to jacobian 6)) ;;
       h <- addblock h (3 * e1) (3 * e1 + 6) (3 * e2) (3 * e2 + 6)
                     (cols_from 6 (getslice_to jacobian 6)) ;;
       h <- addblock h (3 * e2) (3 * e2 + 6) (3 * e1) (3 * e1 + 6)
                     (cols_to 6 (getslice_from jacobian 6)) ;;
       h <- addblock h (3 * e2) (3 * e2 + 6) (3 * e2) (3 * e2 + 6)
                     (cols_from 6 (getslice_from jacobian 6)) ;;
       Ok (cpp_forces, h))
    (combine (combine py_forces py_jacobian) edge_ids)
    (cpp_forces, cpp_jacobian).

Definition _py_to_cpp_hess (self : IMC) (py_forces : mat)
  (py_jacobian : list mat) (edge_ids : list (Z * Z)) : result IMC :=
  r <- _jit_py_to_cpp_hess py_forces py_jacobian (forces self) (hessian self)
                           edge_ids ;;
  Ok (set_hessian (snd r) (set_forces (fst r) self)).

Definition _py_to_cpp_nohess (py_forces : mat) (cpp_forces : vec)
  (edge_ids : list (Z * Z)) : result vec :=
  foldM (fun cpp_forces x => scatter_forces cpp_forces (fst x) (snd x))
        (combine py_forces edge_ids) cpp_forces.

(** *** Forces, and forces with the Hessian *)

(** [np.array(rows).T] for [n] columns. *)
Definition transpose (n : nat) (rows : mat) : mat :=
  map (fun p => map (fun row => nth p row 0%float) rows) (nat_range n).

(** [assert cond, msg] *)
Definition assert (cond : bool) (msg : nat) : result unit :=
  if cond then Ok tt else Raise (AssertionError msg).

(** [(edges, edge_ids, velocities, s_input_vals)] *)
Definition contact_points : Type := mat * list (Z * Z) * mat * mat.

Definition _get_forces (self : IMC) (contact_points : contact_points)
  : result IMC :=
  let '(edges, edge_ids, velocities, s_input_vals) := contact_points in
  let num_inputs := length edges in
  (* Obtain first contact energy gradients *)
  let f_grad_vals := map (fun f_grad => f_grad edges) (f_grad_funcs self) in
  (* Get second contact energy gradients *)
  let s_grad_vals :=
    transpose num_inputs
      (map (fun s_grad => s_grad s_input_vals) (s_grad_funcs self)) in
  (* Perform chain ruling to get contact gradient and hessian *)
  let dE_dx :=
    _chain_rule_contact_nohess (dd_grads self) f_grad_vals s_grad_vals in
  (* Calculate friction forces on all four nodes *)
  let ffr := _get_ffr edges velocities dE_dx (mu_k self) in
  let total_forces :=
    if friction self =? 0 then dE_dx else madd dE_dx ffr in
  (* Check to make sure no nan or infs are added to simulator *)
  let f_test := np.sum2 total_forces in
  _ <- assert (negb (np.isnan f_test)) Force_had_a_nan ;;
  _ <- assert (negb (np.isinf f_test)) Force_had_an_inf ;;
  (* Write gradient and hessian to shared memory location for DER *)
  cpp_forces <- _py_to_cpp_nohess total_forces (forces self) edge_ids ;;
  (* Apply contact stiffness to gradient and hessian *)
  Ok (set_forces
        (map (fun x => (x * contact_stiffness self)%float) cpp_forces) self).

(** The four assertions inside the [try] block. *)
Definition validity_check (f_test h_test : float) : result unit :=
  _ <- assert (negb (np.isnan f_test)) Force_had_a_nan ;;
  _ <- assert (negb (np.isinf f_test)) Force_had_an_inf ;;
  _ <- assert (negb (np.isnan h_test)) Jacobian_had_a_nan ;;
  assert (negb (np.isinf h_test)) Jacobian_had_an_inf.

Definition _get_forces_and_hessian (self : IMC)
  (contact_points : contact_points) : result IMC :=
  let '(edges, edge_ids, velocities, s_input_vals) := contact_points in
  let num_inputs := length edges in
  (* Obtain first contact energy gradients *)
  let f_grad_vals := map (fun f_grad => f_grad edges) (f_grad_funcs self) in
  (* Obtain first contact energy hessians *)
  let f_hess_vals := f_hess_func self edges in
  (* Get second contact energy gradients *)
  let s_grad_vals :=
    transpose num_inputs
      (map (fun s_grad => s_grad s_input_vals) (s_grad_funcs self)) in
  (* Get second contact energy hessians *)
  let s_hess_vals_pre :=
    map (fun s_hess => s_hess s_input_vals) (s_hess_funcs self) in
  (* Perform chain ruling to get contact gradient and hessian *)
  let '(dE_dx, d2E_dx2) :=
    _chain_rule_contact_hess self f_grad_vals s_grad_vals f_hess_vals
                             s_hess_vals_pre in
  (* Prepare inputs for friction force functions *)
  let ffr_jacobian_input :=
    _get_ffr_jacobian_inputs edges velocities dE_dx (mu_k self) in
  (* Calculate friction forces on all four nodes *)
  let ffr := _get_ffr edges velocities dE_dx (mu_k self) in
  (* Calculate the incomplete friction force gradients *)
  let ffr_grad_s := ffr_jacobian_func self ffr_jacobian_input in
  let ffr_jacobian := _chain_rule_friction_jacobian ffr_grad_s d2E_dx2 in
  let total_forces :=
    if friction self =? 0 then dE_dx else madd dE_dx ffr in
  let total_jacobian :=
    if friction self =? 0 then d2E_dx2 else tadd d2E_dx2 ffr_jacobian in
  (* Check to make sure no nan or infs are added to simulator *)
  total_jacobian <-
    match validity_check (np.sum2 total_forces) (np.sum3 total_jacobian) with
    | Ok _ => Ok total_jacobian
    | Raise (AssertionError _) => Ok d2E_dx2 (* remove ffr jacobian *)
    | Raise e => Raise e
    end ;;
  (* Write gradient and hessian to shared memory location for DER *)
  self <- _py_to_cpp_hess self total_forces total_jacobian edge_ids ;;
  (* Apply contact stiffness to gradient and hessian *)
  let k := contact_stiffness self in
  Ok (set_hessian (map (map (fun x => (x * k)%float)) (hessian self))
        (set_forces (map (fun x => (x * k)%float) (forces self)) self)).

(** *** The stiffness controller *)

Definition _update_contact_stiffness (self : IMC) (curr_cd last_cd : float)
  : IMC :=
  let diff := (curr_cd - last_cd)%float in
  let k := contact_stiffness self in
  if (contact_len self + 0.005 <? curr_cd)%float && (0 <? diff)%float
  then set_contact_stiffness (k * 0.999)%float self
  else if (diff <? 0)%float then
    if (curr_cd <? contact_len self - 0.004)%float
    then set_contact_stiffness (k * 1.01)%float self
    else if (curr_cd <? contact_len self - 0.002)%float
    then set_contact_stiffness (k * 1.005)%float self
    else if (curr_cd <? contact_len self - 0.001)%float
    then set_contact_stiffness (k * 1.003)%float self
    else if (curr_cd <? contact_len self)%float
    then set_contact_stiffness (k * 1.001)%float self
    else self
  else self.

(** *** [start_server] *)

(** The local variables of [start_server] that live across requests. *)
Record Locals := {
  l_edge_ids : option (list (Z * Z));
  l_velocities : option mat;
  l_closest_distance : float;
  l_last_cd : float
}.

(** [edge_ids = None; velocities = None; closest_distance = 0; last_cd = 0] *)
Definition initial_locals : Locals :=
  {| l_edge_ids := None; l_velocities := None;
     l_closest_distance := 0%float; l_last_cd := 0%float |}.

(** What the solver has written into the shared memory when its request
    arrives: positions, velocities and the control vector. *)
Record Request := {
  req_node_coordinates : vec;
  req_velocities : vec;
  req_meta_data : vec
}.

Definition socket_recv (req : Request) (self : IMC) : IMC :=
  set_meta_data (req_meta_data req)
    (set_velocities (req_velocities req)
       (set_node_coordinates (req_node_coordinates req) self)).

(** [a[i] = x] *)
Definition set_item (a : vec) (i : nat) (x : float) : vec :=
  firstn i a ++ match skipn i a with [] => [] | _ :: t => x :: t end.

(** The body of the loop from [socket.recv()] to [socket.send(b'')]: a
    result [Ok] means that the reply has been sent. The flag [first_iter] and
    [num_con] are returned for the summary that follows. *)
Definition start_server_request (self : IMC) (vars : Locals)
  : result (IMC * Locals * Z * nat) :=
  hessian_flag <- py_int (nth 5 (meta_data self) 0%float) ;;
  first_iter <- py_int (nth 0 (meta_data self) 0%float) ;;
  fr <- py_int (nth 1 (meta_data self) 0%float) ;;
  let self := set_friction fr self in
  (* Scale the nodal coordinates by scaling factor *)
  let self :=
    set_node_coordinates
      (map (fun x => (x * scale self)%float) (node_coordinates self)) self in
  (* Run collision detection algorithm and get edge ids at the start of
     every time step *)
  st <- (if first_iter =? 0 then Ok (self, vars)
         else
           let self :=
             set_velocities
               (map (fun x => (x * scale self)%float) (velocities self))
               self in
           r <- _detect_collisions self ;;
           let '(self, edge_ids, closest_distance) := r in
           Ok (self, {| l_edge_ids := Some edge_ids;
                        l_velocities := l_velocities vars;
                        l_closest_distance := closest_distance;
                        l_last_cd := l_last_cd vars |})) ;;
  let '(self, vars) := st in
  (* Reset all gradient and hessian values to 0 *)
  let self := set_forces (map (fun _ => 0%float) (forces self)) self in
  let self :=
    if hessian_flag =? 0 then self
    else set_hessian (map (map (fun _ => 0%float)) (hessian self)) self in
  (* Generate forces is contact is detected *)
  match l_edge_ids vars with
  | None => Raise AttributeError
  | Some edge_ids =>
      let num_con := length edge_ids in
      st <- (if Nat.eqb num_con 0 then Ok (self, vars)
             else
               (* Obtain edge combinations and velocities *)
               let velocities :=
                 if first_iter =? 0 then l_velocities vars
                 else Some (_prepare_velocities self edge_ids) in
               r <- _prepare_edges self edge_ids ;;
               let '(edge_combos, closest_distance, f_out_vals) := r in
               let vars :=
                 {| l_edge_ids := l_edge_ids vars;
                    l_velocities := velocities;
                    l_closest_distance := closest_distance;
                    l_last_cd := l_last_cd vars |} in
               (* Increase/decrease contact stiffness depending on
                  penetration severity *)
               let self :=
                 if first_iter =? 0 then self
                 else _update_contact_stiffness self closest_distance
                                                (l_last_cd vars) in
               (* If contact exists, compute contact gradient and hessian *)
               match velocities with
               | None => Raise TypeError
               | Some velocities =>
                   let contact_data :=
                     (edge_combos, edge_ids, velocities, f_out_vals) in
                   self <- (if hessian_flag =? 0
                            then _get_forces self contact_data
                            else _get_forces_and_hessian self contact_data) ;;
                   Ok (self, vars)
               end) ;;
      let '(self, vars) := st in
      (* [closest_distance] comes out of compiled code and [self.scale] out
         of [float(sys.argv[8])]: both are Python floats *)
      quotient <- py_div (l_closest_distance vars) (scale self) ;;
      let self :=
        set_meta_data (set_item (meta_data self) 4 quotient) self in
      (* Unblock DER *)
      Ok (self, vars, first_iter, num_con)
  end.

(** After each time step, print out summary information. *)
Definition start_server_summary (self : IMC) (vars : Locals) (first_iter : Z)
  : result Locals :=
  if first_iter =? 0 then Ok vars
  else
    let vars :=
      {| l_edge_ids := l_edge_ids vars; l_velocities := l_velocities vars;
         l_closest_distance := l_closest_distance vars;
         l_last_cd := l_closest_distance vars |} in
    _ <- py_int (nth 3 (meta_data self) 0%float) ;;
    Ok vars.

(** The [while 1] loop over the requests of a finite run. *)
Fixpoint serve (reqs : list Request) (self : IMC) (vars : Locals)
  : result (IMC * Locals) :=
  match reqs with
  | [] => Ok (self, vars)
  | req :: reqs' =>
      r <- start_server_request (socket_recv req self) vars ;;
      let '(self, vars, first_iter, _) := r in
      vars <- start_server_summary self vars first_iter ;;
      serve reqs' self vars
  end.

Definition start_server (self : IMC) (reqs : list Request)
  : result (IMC * Locals) :=
  serve reqs self initial_locals.

End imc_utils.

(** ** A small rod for the examples

    A rod of five nodes has four edges and one eligible pair, (0, 3). The
    functions that [imc.py] imports or unpickles are replaced by stand-ins of
    the right shapes: the distance of two segments by the distance of their
    closest end points (which is the segment distance in the configurations
    used below, where the closest points are end points), the generated
    gradients and Hessians by constants. *)

Definition dist3 (a b : vec) : float := row_norm (vsub a b).

Definition endpoint_min_dist (row : vec) : float :=
  let x1s := firstn 3 row in
  let x1e := firstn 3 (skipn 3 row) in
  let x2s := firstn 3 (skipn 6 row) in
  let x2e := skipn 9 row in
  match np.min [dist3 x1s x2s; dist3 x1s x2e; dist3 x1e x2s; dist3 x1e x2e]
  with
  | Ok d => d
  | Raise _ => nan
  end.

Definition ex_min_dist_vectorized (edge_combos : mat) : vec :=
  map endpoint_min_dist edge_combos.

Definition ex_min_dist_f_out_vectorized (edge_combos : mat) : vec * mat :=
  (map endpoint_min_dist edge_combos, edge_combos).

(** Generated functions that return a constant in every entry: [c] for the
    energy model, [cj] for the friction jacobian. *)
Definition ex_functions (c cj : float) : Functions :=
  {| fn_dd := repeat (repeat c 12) 9;
     fn_first_grad := repeat (fun edges => map (fun _ => repeat c 12) edges) 6;
     fn_constant_hess := repeat (repeat (repeat c 12) 12) 5;
     fn_first_hess := fun edges => map (fun _ => repeat (repeat c 12) 12) edges;
     fn_second_grad := repeat (fun s => map (fun _ => c) s) 15;
     fn_second_hess := repeat (fun s => map (fun _ => repeat c 15) s) 15;
     fn_friction_jacobian :=
       fun inp => map (fun _ => repeat (repeat cj 24) 6) inp |}.

(** Radius 0.05 at scale 1, so that [contact_len] is 0.1; collision limit
    0.01; stiffness 1. *)
Definition ex_params : Params :=
  {| param_radius := 0.05; param_S := 1; param_num_nodes := 5;
     param_collision_limit := 0.01; param_contact_stiffness := 1;
     param_ce_k := 50; param_mu_k := 0.5 |}.

Definition ex_shm (x v f : vec) (h : mat) (m : vec) : SharedMemory :=
  {| shm_node_coordinates := x; shm_velocities := v;
     shm_contact_forces := f; shm_contact_hessian := h; shm_meta_data := m |}.

(** A straight rod along the x axis: edges 0 and 3 are two apart. *)
Definition ex_straight : vec :=
  [0; 0; 0;  1; 0; 0;  2; 0; 0;  3; 0; 0;  4; 0; 0]%float.

(** A hairpin: edge 3 runs back above edge 0 at distance 0.08. *)
Definition ex_hairpin : vec :=
  [0; 0; 0;  1; 0; 0;  1.5; 0.04; 0;  1; 0.08; 0;  0; 0.08; 0]%float.

(** ** Properties stated in the claims *)

(** A value that is NaN or infinite. *)
Definition nonfinite (x : float) : bool := np.isnan x || np.isinf x.

(** What the development assumes of the libraries. A product has the
    shape of a product: one row per row of its left operand and as many
    entries per row as its right operand has columns. A NaN or an infinity
    among the terms of a sum makes the sum NaN or infinite, as binary64
    additions do in whatever order they are carried out. *)
Definition product_shaped (f : nat -> mat -> mat -> mat) : Prop :=
  forall m a b,
    length (f m a b) = length a /\ (width m b -> width m (f m a b)).

Definition sum_propagates (f : vec -> float) : Prop :=
  forall a, existsb nonfinite a = true -> nonfinite (f a) = true.

Definition lawful (num : Numerics) : Prop :=
  product_shaped jit_matmul /\ product_shaped np_matmul
  /\ sum_propagates np_sum.

(** Any order in which the elements of an array can be added up: a tree
    whose leaves, from left to right, are the elements. *)
Inductive sum_tree :=
| Leaf (x : float)
| Node (l r : sum_tree).

Fixpoint leaves (t : sum_tree) : vec :=
  match t with
  | Leaf x => [x]
  | Node l r => leaves l ++ leaves r
  end.

Fixpoint tree_sum (t : sum_tree) : float :=
  match t with
  | Leaf x => x
  | Node l r => (tree_sum l + tree_sum r)%float
  end.

(** The update law of the stiffness controller in the words of the
    specification. The distance increased (decreased) when the current
    closest distance is above (below) the previous one. *)
Definition stiffness_law (contact_len k current previous : float) : float :=
  let increasing := (previous <? current)%float in
  let decreasing := (current <? previous)%float in
  if (contact_len + 0.005 <? current)%float && increasing
  then (k * 0.999)%float
  else if decreasing then
    if (current <? contact_len - 0.004)%float
    then (k * 1.01)%float
    else if (contact_len - 0.004 <=? current)%float
            && (current <? contact_len - 0.002)%float
    then (k * 1.005)%float
    else if (contact_len - 0.002 <=? current)%float
            && (current <? contact_len - 0.001)%float
    then (k * 1.003)%float
    else if (contact_len - 0.001 <=? current)%float
            && (current <? contact_len)%float
    then (k * 1.001)%float
    else k
  else k.

(** The four blocks of three columns of a row of twelve: the two end points
    of edge 1, then those of edge 2. *)
Definition block (k : nat) (row : vec) : vec := firstn 3 (skipn (3 * k) row).

(** Two entries that cancel when the first is finite. *)
Definition cancels (x y : float) : Prop :=
  nonfinite x = false -> (x + y)%float = 0%float.

(** The shape of a row of the friction force: the same vector on both end
    points of edge 1, its negation on both end points of edge 2, and the
    finite entries of edge 1 cancel against the matching entries of
    edge 2. *)
Definition friction_row_shape (row : vec) : Prop :=
  length row = 12%nat
  /\ block 1 row = block 0 row
  /\ block 2 row = vneg (block 0 row)
  /\ block 3 row = vneg (block 0 row)
  /\ block 0 row = vneg (block 2 row)
  /\ block 1 row = vneg (block 3 row)
  /\ Forall2 cancels (block 0 row) (block 2 row)
  /\ Forall2 cancels (block 1 row) (block 3 row).

(** The twelve entries added up in the order of a blocked sum with eight
    accumulators, as a [sum_tree]. *)
Definition blocked_sum12 (row : vec) : sum_tree :=
  let x k := Leaf (nth k row 0%float) in
  Node (Node (Node (Node
    (Node (Node (Node (x 0%nat) (x 1%nat)) (Node (x 2%nat) (x 3%nat)))
          (Node (Node (x 4%nat) (x 5%nat)) (Node (x 6%nat) (x 7%nat))))
    (x 8%nat)) (x 9%nat)) (x 10%nat)) (x 11%nat).

(** An edge pair that crosses at an angle, edge 1 moving, with a normal
    force along z. *)
Definition ex_crossing_edges : mat :=
  [[0; 0; 0;  1; 0; 0;  0.3; -0.5; 0.08;  0.7; 0.6; 0.08]]%float.
Definition ex_crossing_velocities : mat :=
  [[0.1; 0.2; 0.3;  0.1; 0.2; 0.3;  0; 0; 0;  0; 0; 0]]%float.
Definition ex_crossing_forces : mat :=
  [[0; 0; 1.5;  0; 0; 1.5;  0; 0; -1.5;  0; 0; -1.5]]%float.




(** The object that [__init__] builds for the small rod, with generated
    functions of constant values [c] and [cj], and with the shared memory
    holding the
    positions [x], the velocities [v], the control vector [m], and sevens
    left over in the force and Hessian buffers. *)
Definition ex_imc (c cj : float) (x v m : vec) : IMC :=
  {| scale := 1; radius := (0.05 * 1)%float; num_edges := 4;
     collision_limit := 0.01; contact_stiffness := 1;
     mu_k := 0.5; contact_len := (0.05 * 1 * 2)%float;
     dd_grads := fn_dd (ex_functions c cj);
     f_grad_funcs := fn_first_grad (ex_functions c cj);
     f_hess_const := fn_constant_hess (ex_functions c cj);
     f_hess_func := fn_first_hess (ex_functions c cj);
     s_grad_funcs := fn_second_grad (ex_functions c cj);
     s_hess_funcs := fn_second_hess (ex_functions c cj);
     ffr_jacobian_func := fn_friction_jacobian (ex_functions c cj);
     friction := 0; ia := 2; indices := [0; 1; 2; 3];
     edges := np.zeros2 4 6; edge_combos := np.zeros2 1 12;
     edge_ids := [(0, 3)]; port_no := 5555;
     forces := repeat 7%float 15;
     hessian := repeat (repeat 7%float 15) 15;
     node_coordinates := x; velocities := v; meta_data := m |}.


(** The small rod at rest in the hairpin configuration. *)
Definition ex_self : IMC :=
  ex_imc 1 1 ex_hairpin (repeat 0%float 15) (repeat 0%float 6).

(** The eligible pairs in the words of the specification: all [(i, j)] with
    [i < j] and [j - i > ia], in ascending lexicographic order. *)
Definition eligible_pairs (num_edges ia : Z) : list (Z * Z) :=
  flat_map (fun i => map (fun j => (i, j)) (range (i + ia + 1) num_edges))
           (range 0 num_edges).

Definition lex_lt (p q : Z * Z) : Prop :=
  fst p < fst q \/ (fst p = fst q /\ snd p < snd q).

(** [Sigma_i max(0, num_edges - i - (ia + 1))] *)
Definition sum_Z (l : list Z) : Z := fold_right Z.add 0 l.
Definition pair_count (num_edges ia : Z) : Z :=
  sum_Z (map (fun i => Z.max 0 (num_edges - i - (ia + 1)))
             (range 0 num_edges)).

(** The loop over [i] that [__init__] runs on [edge_ids] and
    [_jit_detect_collisions] on [edge_combos], with its two slice
    assignments abstracted: [f i] stores the value of edge [i] into a row,
    [g] stores one element of the source slice [src[i+ia+1:]]. *)
Definition fill_loop {A B} (f : Z -> A -> A) (g : A -> B -> A) (src : list B)
  (num_edges ia : Z) (table : list A) : result (Z * list A) :=
  foldM
    (fun st i =>
       let ri := fst st in
       let add := num_edges - i - (ia + 1) in
       let t := setslice_bcast (f i) (snd st) ri (ri + add) in
       t' <- setslice_rows g t ri (ri + add) (getslice_from src (i + ia + 1)) ;;
       Ok (ri + add, t'))
    (range 0 num_edges) (0, table).

(** The table that the loop is meant to build when a row made for edge [i]
    and source element [x] is [mk i x]. *)
Definition filled {A B} (mk : Z -> B -> A) (src : list B) (num_edges ia : Z)
  : list A :=
  flat_map (fun i => map (mk i) (skipn (Z.to_nat (i + ia + 1)) src))
           (range 0 num_edges).

(** The attributes that are set in [__init__] and never assigned again: two
    objects agree on them. *)
Definition frame (self self' : IMC) : Prop :=
  scale self' = scale self
  /\ radius self' = radius self
  /\ num_edges self' = num_edges self
  /\ collision_limit self' = collision_limit self
  /\ mu_k self' = mu_k self
  /\ contact_len self' = contact_len self
  /\ dd_grads self' = dd_grads self
  /\ f_grad_funcs self' = f_grad_funcs self
  /\ f_hess_const self' = f_hess_const self
  /\ f_hess_func self' = f_hess_func self
  /\ s_grad_funcs self' = s_grad_funcs self
  /\ s_hess_funcs self' = s_hess_funcs self
  /\ ffr_jacobian_func self' = ffr_jacobian_func self
  /\ ia self' = ia self
  /\ indices self' = indices self
  /\ edge_ids self' = edge_ids self
  /\ port_no self' = port_no self.

(** ** The phases of a request

    [start_server_request] cut into the pieces that the properties talk
    about; [request_phases] below shows that the pieces, put together, are
    the function. *)

Section Phases.
Context {num : Numerics}.
Variable min_dist_vectorized : mat -> vec.
Variable min_dist_f_out_vectorized : mat -> vec * mat.

(** Reading the three flags and scaling the positions. *)
Definition flags_phase (self : IMC) : result (Z * Z * IMC) :=
  hessian_flag <- py_int (nth 5 (meta_data self) 0%float) ;;
  first_iter <- py_int (nth 0 (meta_data self) 0%float) ;;
  fr <- py_int (nth 1 (meta_data self) 0%float) ;;
  let self := set_friction fr self in
  Ok (hessian_flag, first_iter,
      set_node_coordinates
        (map (fun x => (x * scale self)%float) (node_coordinates self)) self).

(** [if first_iter: ...]: collision detection. *)
Definition detect_phase (first_iter : Z) (self : IMC) (vars : Locals)
  : result (IMC * Locals) :=
  if first_iter =? 0 then Ok (self, vars)
  else
    let self :=
      set_velocities
        (map (fun x => (x * scale self)%float) (velocities self)) self in
    r <- _detect_collisions min_dist_vectorized self ;;
    let '(self, edge_ids, closest_distance) := r in
    Ok (self, {| l_edge_ids := Some edge_ids;
                 l_velocities := l_velocities vars;
                 l_closest_distance := closest_distance;
                 l_last_cd := l_last_cd vars |}).

(** Reset all gradient and hessian values to 0. *)
Definition zero_phase (hessian_flag : Z) (self : IMC) : IMC :=
  let self := set_forces (map (fun _ => 0%float) (forces self)) self in
  if hessian_flag =? 0 then self
  else set_hessian (map (map (fun _ => 0%float)) (hessian self)) self.

(** [if num_con != 0: ...]: geometry, stiffness update, forces. *)
Definition contact_phase (hessian_flag first_iter : Z) (self : IMC)
  (vars : Locals) (edge_ids : list (Z * Z)) : result (IMC * Locals) :=
  if Nat.eqb (length edge_ids) 0 then Ok (self, vars)
  else
    let velocities :=
      if first_iter =? 0 then l_velocities vars
      else Some (_prepare_velocities self edge_ids) in
    r <- _prepare_edges min_dist_f_out_vectorized self edge_ids ;;
    let '(edge_combos, closest_distance, f_out_vals) := r in
    let vars :=
      {| l_edge_ids := l_edge_ids vars;
         l_velocities := velocities;
         l_closest_distance := closest_distance;
         l_last_cd := l_last_cd vars |} in
    let self :=
      if first_iter =? 0 then self
      else _update_contact_stiffness self closest_distance
                                     (l_last_cd vars) in
    match velocities with
    | None => Raise TypeError
    | Some velocities =>
        let contact_data :=
          (edge_combos, edge_ids, velocities, f_out_vals) in
        self <- (if hessian_flag =? 0
                 then _get_forces self contact_data
                 else _get_forces_and_hessian self contact_data) ;;
        Ok (self, vars)
    end.

(** [self.meta_data[4] = closest_distance / self.scale], once the division
    has returned. *)
Definition report_phase (self : IMC) (vars : Locals) : IMC :=
  set_meta_data
    (set_item (meta_data self) 4
              (l_closest_distance vars / scale self)%float) self.

End Phases.

(** A computation that can only raise exceptions of the class [P]. *)
Definition raises_only {A} (P : exn -> Prop) (r : result A) : Prop :=
  forall e, r = Raise e -> P e.

Definition is_ValueError (e : exn) : Prop := e = ValueError.
Definition is_AssertionError (e : exn) : Prop := exists msg, e = AssertionError msg.

(** The coordinates of edge [i], and the combined 12-vector of the edge pair
    [(i, j)], read from the position buffer. *)
Definition edge_of (node_data : vec) (i : Z) : vec :=
  getslice node_data (3 * i) (3 * i + 6).
Definition combined (node_data : vec) (ids : Z * Z) : vec :=
  edge_of node_data (fst ids) ++ edge_of node_data (snd ids).

(** The shapes that [__init__] gives to the table, to the two scratch
    arrays and to the position buffer of a rod of [num_edges + 1] nodes. *)
Definition table_shapes (self : IMC) : Prop :=
  0 <= num_edges self
  /\ ia self = 2
  /\ edge_ids self = eligible_pairs (num_edges self) 2
  /\ Z.of_nat (length (edges self)) = num_edges self
  /\ width 6 (edges self)
  /\ length (edge_combos self) = length (edge_ids self)
  /\ width 12 (edge_combos self)
  /\ Z.of_nat (length (node_coordinates self)) = 3 * (num_edges self + 1).

(** The entries of a table whose distance minus [contact_len] is below
    [collision_limit], in the order of the table. *)
Definition within_limit (minDs : vec) (table : list (Z * Z))
  (contact_len collision_limit : float) : list (Z * Z) :=
  map snd
      (filter (fun p => (fst p - contact_len <? collision_limit)%float)
              (combine minDs table)).

(** The distance of every entry of the edge-pair table, as the external
    primitive [min_dist_vectorized] gives it for the current positions. *)
Definition pair_distances (min_dist_vectorized : mat -> vec) (self : IMC)
  : vec :=
  min_dist_vectorized (map (combined (node_coordinates self)) (edge_ids self)).

(** Control vectors: [first_iteration] set or not, Hessian requested or not,
    friction off. *)
Definition ex_meta (first_iter hessian_flag : float) : vec :=
  [first_iter; 0; 0; 0; 0; hessian_flag]%float.

(** ** The terms of the Hessian-requested path

    The conservative contact terms [(dE_dx, d2E_dx2)] and the aggregate
    [(total_forces, total_jacobian)] of contact plus friction, computed as
    [_get_forces_and_hessian] computes them, and the write-out that follows
    the validity check. *)
Definition conservative_terms {num : Numerics} (self : IMC)
  (cp : contact_points) : mat * list mat :=
  let '(edges, edge_ids, velocities, s_input_vals) := cp in
  _chain_rule_contact_hess self
    (map (fun f_grad => f_grad edges) (f_grad_funcs self))
    (transpose (length edges)
       (map (fun s_grad => s_grad s_input_vals) (s_grad_funcs self)))
    (f_hess_func self edges)
    (map (fun s_hess => s_hess s_input_vals) (s_hess_funcs self)).

Definition aggregate_terms {num : Numerics} (self : IMC)
  (cp : contact_points) : mat * list mat :=
  let '(edges, edge_ids, velocities, s_input_vals) := cp in
  let '(dE_dx, d2E_dx2) := conservative_terms self cp in
  let ffr := _get_ffr edges velocities dE_dx (mu_k self) in
  let ffr_jacobian :=
    _chain_rule_friction_jacobian
      (ffr_jacobian_func self
         (_get_ffr_jacobian_inputs edges velocities dE_dx (mu_k self)))
      d2E_dx2 in
  (if friction self =? 0 then dE_dx else madd dE_dx ffr,
   if friction self =? 0 then d2E_dx2 else tadd d2E_dx2 ffr_jacobian).

Definition pairs_of (cp : contact_points) : list (Z * Z) :=
  let '(edges, edge_ids, velocities, s_input_vals) := cp in edge_ids.

Definition write_out (self : IMC) (total_forces : mat)
  (total_jacobian : list mat) (edge_ids : list (Z * Z)) : result IMC :=
  self <- _py_to_cpp_hess self total_forces total_jacobian edge_ids ;;
  let k := contact_stiffness self in
  Ok (set_hessian (map (map (fun x => (x * k)%float)) (hessian self))
        (set_forces (map (fun x => (x * k)%float) (forces self)) self)).

(** The aggregate contains a NaN or an infinite value. *)
Definition invalid_aggregate (total_forces : mat) (total_jacobian : list mat)
  : bool :=
  existsb nonfinite (concat total_forces)
  || existsb nonfinite (concat (concat total_jacobian)).

(** Control vector with friction enabled. *)
Definition ex_meta_friction (first_iter hessian_flag : float) : vec :=
  [first_iter; 1; 0; 0; 0; hessian_flag]%float.

(** The one active pair of the hairpin, at rest. *)
Definition ex_contact : contact_points :=
  ([combined ex_hairpin (0, 3)], [(0, 3)], [repeat 0%float 12],
   [combined ex_hairpin (0, 3)]).

(** The first request of a run on the hairpin. *)
Definition ex_request (m : vec) : Request :=
  {| req_node_coordinates := ex_hairpin;
     req_velocities := repeat 0%float 15;
     req_meta_data := m |}.

(** ** Shapes at the write-out

    Both end points of both edges of a pair lie inside a buffer of [n]
    entries. *)
Definition pair_in_range (n : nat) (ids : Z * Z) : Prop :=
  0 <= 3 * fst ids /\ 3 * fst ids + 6 <= Z.of_nat n
  /\ 0 <= 3 * snd ids /\ 3 * snd ids + 6 <= Z.of_nat n.

(** A force row of 12 entries with its 12 x 12 jacobian and a pair in
    range. *)
Definition scatter_item (n : nat) (x : vec * mat * (Z * Z)) : Prop :=
  length (fst (fst x)) = 12%nat
  /\ length (snd (fst x)) = 12%nat /\ width 12 (snd (fst x))
  /\ pair_in_range n (snd x).

(** The force buffer has [n] entries and the Hessian buffer is n x n. *)
Definition buffers (n : nat) (cpp_forces : vec) (cpp_jacobian : mat) : Prop :=
  length cpp_forces = n /\ length cpp_jacobian = n /\ width n cpp_jacobian.

(** The aggregate force of the force-only path, as [_get_forces] computes
    it. *)
Definition force_terms {num : Numerics} (self : IMC) (cp : contact_points)
  : mat :=
  let '(edges, edge_ids, velocities, s_input_vals) := cp in
  let dE_dx :=
    _chain_rule_contact_nohess (dd_grads self)
      (map (fun f_grad => f_grad edges) (f_grad_funcs self))
      (transpose (length edges)
         (map (fun s_grad => s_grad s_input_vals) (s_grad_funcs self))) in
  if friction self =? 0 then dE_dx
  else madd dE_dx (_get_ffr edges velocities dE_dx (mu_k self)).

(** The example rod before its first request, with first-layer and
    second-layer gradients of value [c] and a friction jacobian of value
    [cj]. *)
Definition ex_server (c cj : float) : IMC := ex_imc c cj [] [] [].

(** The example rod at the force computation, friction enabled. *)
Definition ex_friction_self (c cj : float) : IMC :=
  set_friction 1
    (ex_imc c cj ex_hairpin (repeat 0%float 15) (ex_meta_friction 1 1)).

(** The local variables of [start_server] that a request reads are defined:
    the active set is an array and, when it is not empty, so are the
    velocities of its pairs. *)
Definition locals_defined (vars : Locals) : Prop :=
  exists ids, l_edge_ids vars = Some ids
              /\ (ids <> [] -> l_velocities vars <> None).

(** The exceptions of a read of an undefined local. *)
Definition undefined_read (e : exn) : Prop :=
  e = AttributeError \/ e = TypeError.

(** ** Values of the specification of binary64

    [nonfinite] on the side of [SpecFloat]. *)
Definition SFnonfinite (x : spec_float) : bool :=
  match x with
  | S754_nan | S754_infinity _ => true
  | _ => false
  end.

(** Any value but the negative zero. *)
Definition not_neg_zero (x : float) : Prop := Prim2SF x <> S754_zero true.

(** ** Entries of the shared buffers

    Entry [i] of the force buffer belongs to one of the two nodes of edge
    [e], or to one of the four nodes of a pair. *)
Definition on_edge (e : Z) (i : nat) : bool :=
  (3 * e <=? Z.of_nat i) && (Z.of_nat i <? 3 * e + 6).

Definition on_pair (ids : Z * Z) (i : nat) : bool :=
  on_edge (fst ids) i || on_edge (snd ids) i.

Definition touched (edge_ids : list (Z * Z)) (i : nat) : bool :=
  existsb (fun p => on_pair p i) edge_ids.

(** Entry [(r, c)] of the Hessian buffer lies in a block of a pair: row and
    column both belong to nodes of the pair. *)
Definition touched2 (edge_ids : list (Z * Z)) (r c : nat) : bool :=
  existsb (fun p => on_pair p r && on_pair p c) edge_ids.

(** ** What the write-out leaves in the buffers

    Entry [i] of the force buffer once the forces of one pair have been
    added to it: [forces[k]] goes to entry [3*e1 + k] and [forces[6 + k]]
    to entry [3*e2 + k], for [k = 0..5], the first edge first. *)
Definition add_pair_force (forces : vec) (ids : Z * Z) (i : nat) (x : float)
  : float :=
  let '(e1, e2) := ids in
  let x := if on_edge e1 i
           then (x + nth (i - Z.to_nat (3 * e1)) forces 0)%float
           else x in
  if on_edge e2 i
  then (x + nth (i - Z.to_nat (3 * e2) + 6) forces 0)%float
  else x.

(** Entry [i] after the forces of a batch: the pairs in their order. *)
Definition written_force (py_forces : mat) (edge_ids : list (Z * Z))
  (i : nat) (x : float) : float :=
  fold_left (fun x p => add_pair_force (fst p) (snd p) i x)
            (combine py_forces edge_ids) x.

(** Entry [(r, c)] of the Hessian buffer once the jacobian of one pair has
    been added to it, in four blocks of 6 x 6: the rows [0..5] of the
    jacobian go to the rows of edge 1 and the rows [6..11] to those of
    edge 2, and likewise for the columns; the blocks are added in the order
    (e1, e1), (e1, e2), (e2, e1), (e2, e2). *)
Definition add_pair_jacobian (jacobian : mat) (ids : Z * Z) (r c : nat)
  (x : float) : float :=
  let '(e1, e2) := ids in
  let entry a b := nth b (nth a jacobian []) 0%float in
  let r1 := (r - Z.to_nat (3 * e1))%nat in
  let r2 := (r - Z.to_nat (3 * e2) + 6)%nat in
  let c1 := (c - Z.to_nat (3 * e1))%nat in
  let c2 := (c - Z.to_nat (3 * e2) + 6)%nat in
  let x := if on_edge e1 r && on_edge e1 c
           then (x + entry r1 c1)%float else x in
  let x := if on_edge e1 r && on_edge e2 c
           then (x + entry r1 c2)%float else x in
  let x := if on_edge e2 r && on_edge e1 c
           then (x + entry r2 c1)%float else x in
  if on_edge e2 r && on_edge e2 c then (x + entry r2 c2)%float else x.

(** Entry [(r, c)] after the jacobians of a batch. *)
Definition written_hessian (py_jacobian : list mat)
  (edge_ids : list (Z * Z)) (r c : nat) (x : float) : float :=
  fold_left (fun x p => add_pair_jacobian (fst p) (snd p) r c x)
            (combine py_jacobian edge_ids) x.

(** ** The friction jacobian of one pair

    [g[:, :12] + g[:, 12:] @ h] for three rows [g] of the generated
    jacobian and the contact Hessian [h] of the pair. *)
Definition ffr_rows {num : Numerics} (g h : mat) : mat :=
  madd (cols_to 12 g) (np_matmul 12 (cols_from 12 g) h).

(** A 12 x 12 matrix whose rows of the two nodes of edge 1 are the same
    three rows, and likewise for edge 2. *)
Definition jacobian_blocks (m : mat) : Prop :=
  length m = 12%nat /\ width 12 m
  /\ firstn 3 m = firstn 3 (skipn 3 m)
  /\ firstn 3 (skipn 6 m) = skipn 9 m.

(** ** Shapes of the generated functions

    One row of 12 per pair; a 12 x 12 matrix; one 12 x 12 matrix per pair. *)
Definition shape2 (n : nat) (m : mat) : Prop := length m = n /\ width 12 m.
Definition square12 (m : mat) : Prop := length m = 12%nat /\ width 12 m.
Definition shape3 (n : nat) (t : list mat) : Prop :=
  length t = n /\ Forall square12 t.

(** What the force computation needs of the gradients: [dd] has rows of 12,
    there are six first-layer gradients, each giving one row of 12 per
    pair, the rows of edge coordinates have 12 entries and there is one row
    of velocities and one pair of edge numbers per row of coordinates. *)
Definition gradient_shapes (self : IMC) (cp : contact_points) : Prop :=
  let '(edges, edge_ids, velocities, s_input_vals) := cp in
  width 12 (dd_grads self)
  /\ length (f_grad_funcs self) = 6%nat
  /\ Forall (fun f_grad : mat -> mat => shape2 (length edges) (f_grad edges))
            (f_grad_funcs self)
  /\ width 12 edges
  /\ length velocities = length edges
  /\ length edge_ids = length edges.

(** What the Hessian needs on top: nine rows in [dd], five constant 12 x 12
    Hessians, one variable 12 x 12 Hessian per pair, fifteen second-layer
    Hessians with one row per pair, and a friction jacobian of 6 x 24 per
    row of its input. *)
Definition hessian_shapes (self : IMC) (cp : contact_points) : Prop :=
  let '(edges, edge_ids, velocities, s_input_vals) := cp in
  length (dd_grads self) = 9%nat
  /\ length (f_hess_const self) = 5%nat
  /\ Forall square12 (f_hess_const self)
  /\ shape3 (length edges) (f_hess_func self edges)
  /\ length (s_hess_funcs self) = 15%nat
  /\ Forall (fun s_hess : mat -> mat =>
               length (s_hess s_input_vals) = length edges)
            (s_hess_funcs self)
  /\ forall inp,
       length (ffr_jacobian_func self inp) = length inp
       /\ Forall (fun g : mat => length g = 6%nat /\ width 24 g)
                 (ffr_jacobian_func self inp).

(** The generated functions give arrays of their shapes on every input. *)
Definition generated_ok (self : IMC) : Prop :=
  width 12 (dd_grads self) /\ length (dd_grads self) = 9%nat
  /\ length (f_grad_funcs self) = 6%nat
  /\ (forall edges,
        Forall (fun f_grad : mat -> mat =>
                  shape2 (length edges) (f_grad edges))
               (f_grad_funcs self))
  /\ length (f_hess_const self) = 5%nat
  /\ Forall square12 (f_hess_const self)
  /\ (forall edges, shape3 (length edges) (f_hess_func self edges))
  /\ length (s_hess_funcs self) = 15%nat
  /\ (forall s_input_vals,
        Forall (fun s_hess : mat -> mat =>
                  length (s_hess s_input_vals) = length s_input_vals)
               (s_hess_funcs self))
  /\ forall inp,
       length (ffr_jacobian_func self inp) = length inp
       /\ Forall (fun g : mat => length g = 6%nat /\ width 24 g)
                 (ffr_jacobian_func self inp).

(** * Facts about binary64 arithmetic *)

Lemma SFcompare_refl x : x <> S754_nan -> SFcompare x x = Some Eq.
Proof.
  destruct x as [s|s| |s m e]; intros H; try congruence; cbn.
  - reflexivity.
  - destruct s; reflexivity.
  - rewrite Z.compare_refl.
    replace (Pos.compare_cont Eq m m) with (Pos.compare m m) by reflexivity.
    rewrite Pos.compare_refl. destruct s; reflexivity.
Qed.

Lemma is_nan_spec x : is_nan x = true <-> Prim2SF x = S754_nan.
Proof.
  unfold is_nan. rewrite eqb_spec. unfold SFeqb. split.
  - intros H. destruct (Prim2SF x) eqn:E; try reflexivity;
      rewrite SFcompare_refl in H by congruence; discriminate.
  - intros ->. reflexivity.
Qed.

Lemma is_infinity_spec x :
  is_infinity x = true <-> exists s, Prim2SF x = S754_infinity s.
Proof.
  unfold is_infinity. rewrite eqb_spec, abs_spec.
  change (Prim2SF infinity) with (S754_infinity false).
  split.
  - destruct (Prim2SF x) as [s|s| |s m e]; cbn; try discriminate.
    intros _. now exists s.
  - intros [s ->]. reflexivity.
Qed.

Lemma nonfinite_spec x : nonfinite x = SFnonfinite (Prim2SF x).
Proof.
  unfold nonfinite, np.isnan, np.isinf.
  destruct (SFnonfinite (Prim2SF x)) eqn:E.
  - apply orb_true_iff. destruct (Prim2SF x) as [s|s| |s m e] eqn:Ex;
      try discriminate.
    + right. apply is_infinity_spec. now exists s.
    + left. now apply is_nan_spec.
  - apply orb_false_iff. split.
    + destruct (is_nan x) eqn:N; [|reflexivity].
      apply is_nan_spec in N. rewrite N in E. discriminate.
    + destruct (is_infinity x) eqn:N; [|reflexivity].
      apply is_infinity_spec in N. destruct N as [s N].
      rewrite N in E. discriminate.
Qed.

Lemma SFadd_nonfinite_l x y :
  SFnonfinite x = true -> SFnonfinite (SF64add x y) = true.
Proof.
  destruct x as [s|s| |s m e]; try discriminate; intros _.
  - destruct y as [sy|sy| |sy my ey]; try reflexivity.
    destruct s, sy; reflexivity.
  - reflexivity.
Qed.

Lemma SFadd_nonfinite_r x y :
  SFnonfinite y = true -> SFnonfinite (SF64add x y) = true.
Proof.
  destruct y as [s|s| |s m e]; try discriminate; intros _.
  - destruct x as [sx|sx| |sx mx ex]; try reflexivity.
    destruct sx, s; reflexivity.
  - destruct x; reflexivity.
Qed.

Lemma add_nonfinite_l x y : nonfinite x = true -> nonfinite (x + y) = true.
Proof.
  rewrite !nonfinite_spec, add_spec. apply SFadd_nonfinite_l.
Qed.

Lemma add_nonfinite_r x y : nonfinite y = true -> nonfinite (x + y) = true.
Proof.
  rewrite !nonfinite_spec, add_spec. apply SFadd_nonfinite_r.
Qed.

(** A NaN or an infinity among the terms makes the sum NaN or infinite, in
    whatever order the terms are added. *)
Lemma tree_sum_nonfinite t :
  existsb nonfinite (leaves t) = true -> nonfinite (tree_sum t) = true.
Proof.
  induction t as [x|l IHl r IHr]; cbn.
  - now rewrite orb_false_r.
  - rewrite existsb_app, orb_true_iff. intros [H|H].
    + now apply add_nonfinite_l, IHl.
    + now apply add_nonfinite_r, IHr.
Qed.

Lemma fold_add_nonfinite_acc l acc :
  nonfinite acc = true -> nonfinite (fold_left PrimFloat.add l acc) = true.
Proof.
  revert acc. induction l as [|x l IH]; cbn; intros acc H; [assumption|].
  now apply IH, add_nonfinite_l.
Qed.

Lemma add_loop_nonfinite a : forall res,
  nonfinite res = true \/ existsb nonfinite a = true ->
  nonfinite (add_loop res a) = true.
Proof.
  unfold add_loop.
  induction a as [|x a IH]; cbn [fold_left existsb]; intros res [H|H];
    try discriminate; try assumption.
  - apply IH. left. now apply add_nonfinite_l.
  - apply orb_true_iff in H. destruct H as [H|H].
    + apply IH. left. now apply add_nonfinite_r.
    + apply IH. now right.
Qed.

(** *** The reference sum *)

Lemma concat_chunks_aux {A} k (fuel : nat) :
  forall l : list A,
    (0 < k)%nat -> (length l <= fuel)%nat ->
    concat (chunks_aux fuel k l) = l.
Proof.
  induction fuel as [|fuel IH]; intros [|x l] Hk Hl; cbn [chunks_aux concat];
    try reflexivity.
  - cbn in Hl. lia.
  - rewrite IH; [apply firstn_skipn|exact Hk|].
    rewrite length_skipn. cbn [length] in *. lia.
Qed.

Lemma concat_chunks {A} k (l : list A) :
  (0 < k)%nat -> concat (chunks k l) = l.
Proof. intros Hk. now apply concat_chunks_aux. Qed.

Lemma chunks_aux_full {A} k (fuel : nat) :
  forall (l : list A) q,
    (0 < k)%nat -> length l = (q * k)%nat ->
    Forall (fun c => length c = k) (chunks_aux fuel k l).
Proof.
  induction fuel as [|fuel IH]; intros [|x l] q Hk Hl; cbn [chunks_aux];
    try constructor.
  - rewrite length_firstn. destruct q as [|q]; [discriminate|].
    rewrite Hl. cbn. lia.
  - destruct q as [|q]; [discriminate|].
    apply (IH _ q Hk). rewrite length_skipn, Hl. cbn. lia.
Qed.

Lemma existsb_concat {A} (f : A -> bool) (ls : list (list A)) :
  existsb f (concat ls) = existsb (existsb f) ls.
Proof.
  induction ls as [|l ls IH]; cbn; [reflexivity|].
  now rewrite existsb_app, IH.
Qed.

Lemma vadd_nonfinite r : forall b,
  length r = length b ->
  existsb nonfinite r = true \/ existsb nonfinite b = true ->
  existsb nonfinite (vadd r b) = true.
Proof.
  unfold vadd, map2.
  induction r as [|x r IH]; intros [|y b] Hl H; try discriminate.
  - destruct H; discriminate.
  - cbn [combine map existsb fst snd] in *. apply orb_true_iff.
    destruct H as [H|H]; apply orb_true_iff in H; destruct H as [H|H].
    + left. now apply add_nonfinite_l.
    + right. apply IH; [now inversion Hl|now left].
    + left. now apply add_nonfinite_r.
    + right. apply IH; [now inversion Hl|now right].
Qed.

Lemma fold_vadd_nonfinite blocks : forall r,
  Forall (fun c => length c = length r) blocks ->
  existsb nonfinite r = true \/ existsb (existsb nonfinite) blocks = true ->
  existsb nonfinite (fold_left vadd blocks r) = true
  /\ length (fold_left vadd blocks r) = length r.
Proof.
  induction blocks as [|b blocks IH]; intros r Hb H; cbn [fold_left].
  - destruct H as [H|H]; [auto|discriminate].
  - inversion Hb as [|? ? Hl Hbs]; subst.
    assert (L : length (vadd r b) = length r).
    { unfold vadd, map2. rewrite length_map, length_combine. lia. }
    destruct (IH (vadd r b)) as [E L'].
    + revert Hbs. apply Forall_impl. intros c ->. now rewrite L.
    + cbn [existsb] in H. rewrite orb_true_iff in H.
      destruct H as [H|[H|H]].
      * left. apply vadd_nonfinite; auto.
      * left. apply vadd_nonfinite; auto.
      * now right.
    + split; [exact E|congruence].
Qed.

Lemma sum8_nonfinite r :
  length r = 8%nat -> existsb nonfinite r = true ->
  nonfinite (sum8 r) = true.
Proof.
  intros L H.
  do 8 (destruct r as [|? r]; [discriminate|]).
  destruct r; [|discriminate].
  unfold sum8. cbn [nth].
  match goal with
  | |- nonfinite (?a + ?b + (?c + ?d) + (?e + ?f + (?g + ?h))) = true =>
      change (nonfinite
                (tree_sum
                   (Node (Node (Node (Leaf a) (Leaf b))
                               (Node (Leaf c) (Leaf d)))
                         (Node (Node (Leaf e) (Leaf f))
                               (Node (Leaf g) (Leaf h))))) = true)
  end.
  apply tree_sum_nonfinite. exact H.
Qed.

Lemma unrolled_sum_nonfinite a :
  (8 <= length a)%nat -> existsb nonfinite a = true ->
  nonfinite (unrolled_sum a) = true.
Proof.
  intros Hn H. unfold unrolled_sum. cbv zeta.
  set (n := length a) in *.
  pose proof (Nat.div_mod_eq n 8) as Hdm.
  pose proof (Nat.mod_upper_bound n 8 ltac:(lia)) as Hm.
  set (full := (n - n mod 8)%nat).
  assert (Hfull : (full = (n / 8) * 8 /\ 8 <= full <= n)%nat)
    by (unfold full; lia).
  assert (Ha : a = firstn 8 a
                   ++ firstn (full - 8) (skipn 8 a) ++ skipn full a).
  { rewrite <- (firstn_skipn 8 a) at 1. f_equal.
    rewrite <- (firstn_skipn (full - 8) (skipn 8 a)) at 1. f_equal.
    rewrite skipn_skipn. f_equal. lia. }
  rewrite Ha in H. rewrite !existsb_app, !orb_true_iff in H.
  assert (L8 : length (firstn 8 a) = 8%nat)
    by (rewrite length_firstn; fold n; lia).
  assert (Hblocks : Forall (fun c => length c = length (firstn 8 a))
                           (chunks 8 (firstn (full - 8) (skipn 8 a)))).
  { rewrite L8. apply (chunks_aux_full 8 _ _ (n / 8 - 1)%nat); [lia|].
    rewrite length_firstn, length_skipn. fold n. lia. }
  apply add_loop_nonfinite.
  destruct H as [H|[H|H]]; [left|left|now right].
  - destruct (fold_vadd_nonfinite _ _ Hblocks (or_introl H)) as [E L].
    apply sum8_nonfinite; [congruence|exact E].
  - destruct (fold_vadd_nonfinite _ (firstn 8 a) Hblocks) as [E L].
    { right. rewrite <- existsb_concat, concat_chunks by lia. exact H. }
    apply sum8_nonfinite; [congruence|exact E].
Qed.

Lemma small_sum_nonfinite a :
  existsb nonfinite a = true -> nonfinite (small_sum a) = true.
Proof.
  intros H. unfold small_sum.
  destruct (Nat.ltb_spec (length a) 8).
  - apply add_loop_nonfinite. now right.
  - now apply unrolled_sum_nonfinite.
Qed.

Lemma pairwise_sum_nonfinite fuel : forall a,
  existsb nonfinite a = true -> nonfinite (pairwise_sum fuel a) = true.
Proof.
  induction fuel as [|fuel IH]; intros a H; cbn [pairwise_sum].
  - now apply small_sum_nonfinite.
  - destruct (length a <=? 128)%nat; [now apply small_sum_nonfinite|].
    cbv zeta.
    set (n2 := (length a / 2 - (length a / 2) mod 8)%nat).
    rewrite <- (firstn_skipn n2 a), existsb_app, orb_true_iff in H.
    destruct H as [H|H].
    + apply add_nonfinite_l. now apply IH.
    + apply add_nonfinite_r. now apply IH.
Qed.

(** A NaN or an infinity in the array comes out of the reference sum. *)
Lemma numpy_sum_nonfinite a :
  existsb nonfinite a = true -> nonfinite (numpy_sum a) = true.
Proof.
  intros H. unfold numpy_sum.
  rewrite <- (concat_chunks bufsize a) in H by (cbv; lia).
  rewrite existsb_concat in H. revert H.
  generalize (chunks bufsize a) as pieces. generalize 0%float as res.
  intros res pieces. revert res.
  assert (Hacc : forall ps res,
             nonfinite res = true ->
             nonfinite
               (fold_left
                  (fun res piece =>
                     (res + pairwise_sum (length piece) piece)%float)
                  ps res) = true).
  { induction ps as [|p ps IHp]; intros res Hr; cbn [fold_left];
      [exact Hr|]. apply IHp. now apply add_nonfinite_l. }
  induction pieces as [|p ps IH]; intros res H; cbn [existsb fold_left] in *;
    [discriminate|].
  apply orb_true_iff in H. destruct H as [H|H].
  - apply Hacc. apply add_nonfinite_r. now apply pairwise_sum_nonfinite.
  - now apply IH.
Qed.

(** *** Comparisons *)

Lemma SFcompare_antisym x y :
  SFcompare y x = option_map CompOpp (SFcompare x y).
Proof.
  destruct x as [s1|s1| |s1 m1 e1], y as [s2|s2| |s2 m2 e2]; cbn;
    try reflexivity;
    try (destruct s1; reflexivity); try (destruct s2; reflexivity);
    try (destruct s1, s2; reflexivity).
  rewrite (Z.compare_antisym e1 e2).
  change (Pos.compare_cont Eq m2 m1) with (Pos.compare m2 m1).
  change (Pos.compare_cont Eq m1 m2) with (Pos.compare m1 m2).
  rewrite (Pos.compare_antisym m1 m2).
  destruct s1, s2; try reflexivity;
    destruct (e1 ?= e2); cbn; try reflexivity;
    destruct (m1 ?= m2)%positive; reflexivity.
Qed.

Lemma SFcompare_not_nan x y :
  x <> S754_nan -> y <> S754_nan -> SFcompare x y <> None.
Proof.
  destruct x as [s1|s1| |s1 m1 e1], y as [s2|s2| |s2 m2 e2]; cbn; congruence.
Qed.

Lemma ltb_true_not_nan x y :
  (x <? y)%float = true -> Prim2SF x <> S754_nan /\ Prim2SF y <> S754_nan.
Proof.
  rewrite ltb_spec. unfold SFltb.
  destruct (Prim2SF x), (Prim2SF y); cbn; intros H; split; congruence.
Qed.

(** For numbers that are no NaN, [not (x < y)] is [y <= x]. *)
Lemma ltb_false_leb x y :
  Prim2SF x <> S754_nan -> Prim2SF y <> S754_nan ->
  (x <? y)%float = false -> (y <=? x)%float = true.
Proof.
  intros Hx Hy. rewrite ltb_spec, leb_spec. unfold SFltb, SFleb.
  rewrite (SFcompare_antisym (Prim2SF x) (Prim2SF y)).
  pose proof (SFcompare_not_nan _ _ Hx Hy) as H.
  destruct (SFcompare (Prim2SF x) (Prim2SF y)) as [[]|]; cbn; congruence.
Qed.

Lemma leb_true_ltb x y : (y <=? x)%float = true -> (x <? y)%float = false.
Proof.
  rewrite ltb_spec, leb_spec. unfold SFltb, SFleb.
  rewrite (SFcompare_antisym (Prim2SF x) (Prim2SF y)).
  destruct (SFcompare (Prim2SF x) (Prim2SF y)) as [[]|]; cbn; congruence.
Qed.

(** *** Rounding never produces a NaN *)

Section Iter.
Context {A : Type} (f : A -> A) (P : A -> Prop).
Hypothesis step : forall a, P a -> P (f a).

Lemma iter_pos_invariant n a : P a -> P (iter_pos f n a).
Proof.
  revert a. induction n as [n IH|n IH|]; cbn; intros a H; auto.
Qed.
End Iter.

Lemma shr_1_nonneg mrs : 0 <= shr_m mrs -> 0 <= shr_m (shr_1 mrs).
Proof.
  destruct mrs as [m r s]. cbn. destruct m as [|[p|p|]|p]; cbn; lia.
Qed.

Lemma shr_nonneg mrs e n : 0 <= shr_m mrs -> 0 <= shr_m (fst (shr mrs e n)).
Proof.
  intros H. destruct n; cbn; try assumption.
  apply iter_pos_invariant; [apply shr_1_nonneg | assumption].
Qed.

Lemma shr_fexp_nonneg m e l :
  0 <= m -> 0 <= shr_m (fst (shr_fexp prec emax m e l)).
Proof.
  intros H. unfold shr_fexp. apply shr_nonneg.
  destruct l as [|[]]; assumption.
Qed.

Lemma round_nearest_even_nonneg m l : 0 <= m -> 0 <= round_nearest_even m l.
Proof.
  intros H. destruct l as [|[]]; cbn; try lia. destruct (Z.even m); lia.
Qed.

Lemma binary_round_aux_not_nan s m e l :
  0 <= m -> binary_round_aux prec emax s m e l <> S754_nan.
Proof.
  intros H. unfold binary_round_aux.
  pose proof (shr_fexp_nonneg m e l H) as H1.
  destruct (shr_fexp prec emax m e l) as [mrs' e']. cbn [fst] in H1.
  pose proof (shr_fexp_nonneg _ e' loc_Exact
                (round_nearest_even_nonneg _ (loc_of_shr_record mrs') H1))
    as H2.
  destruct (shr_fexp prec emax _ e' loc_Exact) as [mrs'' e'']. cbn [fst] in H2.
  destruct (shr_m mrs''); try discriminate; try lia.
  destruct (e'' <=? emax - prec); discriminate.
Qed.

Lemma binary_normalize_not_nan m e sz :
  binary_normalize prec emax m e sz <> S754_nan.
Proof.
  destruct m; cbn; try discriminate; unfold binary_round;
    destruct (shl_align _ _ _); apply binary_round_aux_not_nan; lia.
Qed.

Lemma SFsub_finite_not_nan x s m e :
  x <> S754_nan -> SF64sub x (S754_finite s m e) <> S754_nan.
Proof.
  destruct x as [sx|sx| |sx mx ex]; cbn; try congruence.
  intros _. apply binary_normalize_not_nan.
Qed.

Lemma SFsub_nan_l y : SF64sub S754_nan y = S754_nan.
Proof. reflexivity. Qed.

(** [x - c] for a finite constant [c] is a NaN exactly when [x] is. *)
Lemma sub_const_not_nan x c c' :
  (exists s m e, Prim2SF c = S754_finite s m e) ->
  Prim2SF (x - c') <> S754_nan -> Prim2SF (x - c) <> S754_nan.
Proof.
  intros (s & m & e & Hc). rewrite !sub_spec, Hc. intros H.
  apply SFsub_finite_not_nan. intros Hx. apply H. now rewrite Hx.
Qed.

(** * The stiffness controller *)

Lemma set_contact_stiffness_same self :
  set_contact_stiffness (contact_stiffness self) self = self.
Proof. destruct self; reflexivity. Qed.

(** A lower bound of the law that the code does not test: when the code
    finds [current < contact_len - b] after [not (current < contact_len - a)],
    then [contact_len - a <= current]. *)
Lemma lower_bound_holds cl cur a b :
  (exists s m e, Prim2SF a = S754_finite s m e) ->
  (cur <? cl - a)%float = false ->
  (cur <? cl - b)%float = true ->
  (cl - a <=? cur)%float = true.
Proof.
  intros Ha Hlt Hb. apply ltb_true_not_nan in Hb. destruct Hb as [Hcur Hclb].
  apply ltb_false_leb; try assumption.
  now apply (sub_const_not_nan cl a b).
Qed.

Lemma lower_bound_holds_0 cl cur a :
  (exists s m e, Prim2SF a = S754_finite s m e) ->
  (cur <? cl - a)%float = false ->
  (cur <? cl)%float = true ->
  (cl - a <=? cur)%float = true.
Proof.
  intros (s & m & e & Ha) Hlt Hb. apply ltb_true_not_nan in Hb.
  destruct Hb as [Hcur Hcl].
  apply ltb_false_leb; try assumption.
  rewrite sub_spec, Ha. now apply SFsub_finite_not_nan.
Qed.

Ltac finite_const := do 3 eexists; vm_compute; reflexivity.

(** *** Negation *)

Lemma opp_involutive x : (- - x)%float = x.
Proof.
  apply Prim2SF_inj. rewrite !opp_spec.
  destruct (Prim2SF x) as [s|s| |s m e]; cbn; try reflexivity;
    now rewrite negb_involutive.
Qed.

Lemma binary_round_aux_opp s m e l :
  binary_round_aux prec emax (negb s) m e l
  = SFopp (binary_round_aux prec emax s m e l).
Proof.
  unfold binary_round_aux.
  destruct (shr_fexp prec emax m e l) as [mrs' e'].
  destruct (shr_fexp prec emax _ e' loc_Exact) as [mrs'' e''].
  destruct (shr_m mrs''); try reflexivity.
  destruct (e'' <=? emax - prec); reflexivity.
Qed.

Lemma SFmul_opp_r x y : SF64mul x (SFopp y) = SFopp (SF64mul x y).
Proof.
  destruct x as [sx|sx| |sx mx ex], y as [sy|sy| |sy my ey]; cbn;
    try reflexivity;
    try (destruct sx, sy; reflexivity).
  rewrite <- binary_round_aux_opp. destruct sx, sy; reflexivity.
Qed.

(** Rounding is symmetric: [x * (-y)] is [-(x * y)], bit for bit. *)
Lemma mul_opp_r x y : (x * - y)%float = (- (x * y))%float.
Proof.
  apply Prim2SF_inj. rewrite opp_spec, !mul_spec, opp_spec.
  apply SFmul_opp_r.
Qed.

(** A finite number and its negation add up to [+0]. *)
Lemma add_opp_finite x : nonfinite x = false -> (x + - x)%float = 0%float.
Proof.
  rewrite nonfinite_spec. intros H. apply Prim2SF_inj.
  rewrite add_spec, opp_spec. change (Prim2SF 0) with (S754_zero false).
  destruct (Prim2SF x) as [s|s| |s m e]; try discriminate.
  - destruct s; reflexivity.
  - unfold SF64add, SFadd, SFopp.
    rewrite Z.min_id. unfold shl_align. rewrite Z.sub_diag. cbn [fst].
    replace (cond_Zopp s (Z.pos m) + cond_Zopp (negb s) (Z.pos m)) with 0
      by (destruct s; unfold cond_Zopp; cbn [negb]; lia).
    reflexivity.
Qed.

(** * Lists as arrays *)

Lemma length_map2 {A B C} (f : A -> B -> C) u v :
  length (map2 f u v) = Nat.min (length u) (length v).
Proof. unfold map2. now rewrite length_map, length_combine. Qed.

Lemma map2_map_r {A B C} (f : A -> B -> C) (g : A -> B) u :
  map2 f u (map g u) = map (fun x => f x (g x)) u.
Proof.
  unfold map2. induction u as [|a u IH]; cbn; [reflexivity|].
  now rewrite IH.
Qed.

Lemma Forall_map2 {A B C} (P : A -> Prop) (Q : B -> Prop) (R : C -> Prop)
  (f : A -> B -> C) u v :
  Forall P u -> Forall Q v -> (forall a b, P a -> Q b -> R (f a b)) ->
  Forall R (map2 f u v).
Proof.
  intros Hu. revert v. unfold map2.
  induction Hu as [|a u Ha Hu IH]; intros v Hv Hf; cbn; [constructor|].
  destruct Hv as [|b v Hb Hv]; cbn; constructor; auto.
Qed.

Lemma Forall_map_impl {A B} (P : A -> Prop) (Q : B -> Prop) (f : A -> B) u :
  Forall P u -> (forall a, P a -> Q (f a)) -> Forall Q (map f u).
Proof.
  intros Hu Hf. apply Forall_map. revert Hu. apply Forall_impl. exact Hf.
Qed.

Lemma Forall_trivial {A} (u : list A) : Forall (fun _ => True) u.
Proof. apply Forall_forall. intros; exact I. Qed.

(** * The friction force *)

Lemma width_cols_to k n m :
  (k <= n)%nat -> width n m -> width k (cols_to k m).
Proof.
  intros Hk H. unfold cols_to. eapply Forall_map_impl; [exact H|].
  cbn. intros a Ha. rewrite length_firstn. lia.
Qed.

Lemma width_cols_from k n m : width n m -> width (n - k) (cols_from k m).
Proof.
  intros H. unfold cols_from. eapply Forall_map_impl; [exact H|].
  cbn. intros a Ha. rewrite length_skipn. lia.
Qed.

Lemma width_map2 n (f : vec -> vec -> vec) u v :
  (forall a b, length a = n -> length b = n -> length (f a b) = n) ->
  width n u -> width n v -> width n (map2 f u v).
Proof. intros Hf Hu Hv. eapply Forall_map2; eauto. Qed.

Lemma width_map2_l {B} n (f : vec -> B -> vec) u (v : list B) :
  (forall a b, length a = n -> length (f a b) = n) ->
  width n u -> width n (map2 f u v).
Proof.
  intros Hf Hu. eapply Forall_map2; [exact Hu|apply Forall_trivial|].
  cbn. auto.
Qed.

Lemma width_map2_r {A} n (f : A -> vec -> vec) (u : list A) v :
  (forall a b, length b = n -> length (f a b) = n) ->
  width n v -> width n (map2 f u v).
Proof.
  intros Hf Hv. eapply Forall_map2; [apply Forall_trivial|exact Hv|].
  cbn. auto.
Qed.

Lemma width_map n (f : vec -> vec) u :
  (forall a, length a = n -> length (f a) = n) ->
  width n u -> width n (map f u).
Proof. intros Hf Hu. eapply Forall_map_impl; eauto. Qed.

Lemma length_vsub a b n :
  length a = n -> length b = n -> length (vsub a b) = n.
Proof. intros. unfold vsub. rewrite length_map2. lia. Qed.

Lemma length_vscale c a : length (vscale c a) = length a.
Proof. apply length_map. Qed.

Lemma length_vdiv a c : length (vdiv a c) = length a.
Proof. apply length_map. Qed.

Lemma vscale_vneg c a : vscale c (vneg a) = vneg (vscale c a).
Proof.
  unfold vscale, vneg. rewrite !map_map. apply map_ext. intros x.
  apply mul_opp_r.
Qed.

Lemma vneg_involutive a : vneg (vneg a) = a.
Proof.
  unfold vneg. rewrite map_map. rewrite <- (map_id a) at 2.
  apply map_ext. apply opp_involutive.
Qed.

(** The row that the four column assignments build from the friction
    vector [a] of edge 1 and [b] of edge 2. *)
Lemma friction_row a b :
  length a = 3%nat -> length b = 3%nat ->
  set_cols 9 b (set_cols 6 b (set_cols 3 a (set_cols 0 a (np.zeros 12))))
  = a ++ a ++ b ++ b.
Proof.
  destruct a as [|a0 [|a1 [|a2 [|]]]]; try discriminate.
  destruct b as [|b0 [|b1 [|b2 [|]]]]; try discriminate.
  reflexivity.
Qed.

Lemma cancel_finite a :
  Forall2 (fun x y => nonfinite x = false -> (x + y)%float = 0%float)
          a (vneg a).
Proof.
  induction a as [|x a IH]; cbn; constructor; [|exact IH].
  apply add_opp_finite.
Qed.

Lemma friction_row_shape_intro a :
  length a = 3%nat -> friction_row_shape (a ++ a ++ vneg a ++ vneg a).
Proof.
  destruct a as [|x [|y [|z [|]]]]; try discriminate. intros _.
  unfold friction_row_shape, block. cbn [length app vneg map skipn firstn
                                         Nat.mul Nat.add].
  pose proof (cancel_finite [x; y; z]) as Hc.
  repeat split; try reflexivity; try exact Hc;
    now rewrite !opp_involutive.
Qed.

(** C9 (as amended): for every batch whose rows of edge coordinates have
    twelve entries, each row of the friction force of [_get_ffr] carries
    one 3-vector on both end points of edge 1 and the exact negation of
    that vector on both end points of edge 2
    ([ffr[:, 0:3] = ffr[:, 3:6] = -ffr[:, 6:9] = -ffr[:, 9:12]]);
    consequently every finite entry of edge 1 and the matching entry of
    edge 2 add up to exactly zero. *)
Theorem get_ffr_antisymmetric (edges velocities forces : mat) (mu_k : float) :
  width 12 edges ->
  Forall friction_row_shape (_get_ffr edges velocities forces mu_k).
Proof.
  intros He. unfold _get_ffr. cbv zeta. rewrite map2_map_r.
  assert (H9 : width 3 (cols_from 9 edges))
    by apply (width_cols_from 9 12 _ He).
  assert (H6 : width 3 (cols_to 3 (cols_from 6 edges)))
    by (apply (width_cols_to 3 6); [lia|apply (width_cols_from 6 12 _ He)]).
  assert (H3 : width 3 (cols_to 3 (cols_from 3 edges)))
    by (apply (width_cols_to 3 9); [lia|apply (width_cols_from 3 12 _ He)]).
  assert (H0 : width 3 (cols_to 3 edges))
    by (apply (width_cols_to 3 12); [lia|exact He]).
  assert (Hdir : forall (x y : mat) (d : list float) (fv : list float),
             width 3 x -> width 3 y ->
             width 3 (map2 (fun dT f => map (fun x => (x * f)%float) dT)
                        (map2 vscale d
                           (map (fun d => vdiv d (row_norm d))
                                (map2 vsub x y))) fv)).
  { intros x y d fv Hx Hy.
    apply width_map2_l; [intros; now rewrite length_map|].
    apply width_map2_r; [intros; now rewrite length_vscale|].
    apply width_map; [intros; now rewrite length_vdiv|].
    apply width_map2; [intros; now apply length_vsub|assumption|assumption]. }
  eapply Forall_map_impl.
  - apply width_map; [intros a Ha; rewrite length_vscale; exact Ha|].
    apply width_map2; [intros; now apply length_vsub| |];
      apply Hdir; assumption.
  - cbn beta. intros a Ha. rewrite vscale_vneg.
    rewrite friction_row by (unfold vneg; now rewrite ?length_map, ?length_vscale).
    apply friction_row_shape_intro. now rewrite length_vscale.
Qed.

Lemma get_ffr_antisymmetric_witness :
  width 12 ex_crossing_edges
  /\ Forall friction_row_shape
       (_get_ffr ex_crossing_edges ex_crossing_velocities ex_crossing_forces
                 0.5%float).
Proof.
  assert (H : width 12 ex_crossing_edges)
    by (repeat constructor).
  split; [exact H|].
  exact (get_ffr_antisymmetric ex_crossing_edges ex_crossing_velocities
           ex_crossing_forces 0.5%float H).
Defined.

(** C9 as it was stated fails: for the crossing pair the twelve entries of
    the friction force are finite and antisymmetric, and yet their sum is
    not zero, neither added from left to right nor in the blocked order. *)
Lemma get_ffr_sum_not_zero :
  exists row,
    _get_ffr ex_crossing_edges ex_crossing_velocities ex_crossing_forces
             0.5%float = [row]
    /\ existsb nonfinite row = false
    /\ (np.sum_loop row =? 0)%float = false
    /\ leaves (blocked_sum12 row) = row
    /\ (tree_sum (blocked_sum12 row) =? 0)%float = false.
Proof.
  eexists. split; [vm_compute; reflexivity|].
  repeat split; vm_compute; reflexivity.
Qed.

(** * Addition never underflows *)

Lemma digits2_pos_lower m : 2 ^ (Z.pos (digits2_pos m) - 1) <= Z.pos m.
Proof.
  induction m as [m IH|m IH|]; cbn [digits2_pos];
    rewrite ?Pos2Z.inj_succ.
  - replace (Z.succ (Z.pos (digits2_pos m)) - 1)
      with (Z.succ (Z.pos (digits2_pos m) - 1)) by lia.
    rewrite Z.pow_succ_r by lia. lia.
  - replace (Z.succ (Z.pos (digits2_pos m)) - 1)
      with (Z.succ (Z.pos (digits2_pos m) - 1)) by lia.
    rewrite Z.pow_succ_r by lia. lia.
  - cbn. lia.
Qed.

Lemma shr_1_div2 mrs :
  0 <= shr_m mrs -> shr_m (shr_1 mrs) = shr_m mrs / 2.
Proof.
  intros H. rewrite <- Z.div2_div.
  destruct mrs as [m r s]. cbn in *. destruct m as [|[p|p|]|p];
    try reflexivity; lia.
Qed.

Lemma iter_shr_1 n mrs :
  0 <= shr_m mrs ->
  shr_m (iter_pos shr_1 n mrs) = shr_m mrs / 2 ^ Z.pos n.
Proof.
  revert mrs. induction n as [n IH|n IH|]; intros mrs H; cbn [iter_pos].
  - assert (H1 : 0 <= shr_m (shr_1 mrs)) by now apply shr_1_nonneg.
    assert (H2 : 0 <= shr_m (iter_pos shr_1 n (shr_1 mrs)))
      by (apply iter_pos_invariant; [apply shr_1_nonneg|assumption]).
    rewrite IH, IH, shr_1_div2 by assumption.
    rewrite !Z.div_div by (try apply Z.pow_pos_nonneg; lia).
    f_equal. replace (Z.pos n~1) with (1 + Z.pos n + Z.pos n) by lia.
    rewrite !Z.pow_add_r by lia. rewrite Z.pow_1_r. lia.
  - assert (H2 : 0 <= shr_m (iter_pos shr_1 n mrs))
      by (apply iter_pos_invariant; [apply shr_1_nonneg|assumption]).
    rewrite IH, IH by assumption.
    rewrite !Z.div_div by (try apply Z.pow_pos_nonneg; lia).
    f_equal. replace (Z.pos n~0) with (Z.pos n + Z.pos n) by lia.
    rewrite !Z.pow_add_r by lia. reflexivity.
  - now apply shr_1_div2.
Qed.

Lemma shr_record_of_loc_m m l : shr_m (shr_record_of_loc m l) = m.
Proof. destruct l as [|[]]; reflexivity. Qed.

(** Shifting a positive mantissa to its canonical exponent leaves it
    positive, when the exponent is not below [emin]. *)
Lemma shr_fexp_pos m e l :
  0 < m -> emin <= e ->
  0 < shr_m (fst (shr_fexp prec emax m e l))
  /\ emin <= snd (shr_fexp prec emax m e l).
Proof.
  intros Hm He. unfold shr_fexp, shr.
  destruct m as [|p|p]; try lia. cbn [Zdigits2].
  pose proof (digits2_pos_lower p) as Hd.
  set (d := Z.pos (digits2_pos p)) in *.
  assert (Hd1 : 1 <= d) by (unfold d; lia).
  unfold fexp, SpecFloat.emin in *.
  destruct (Z.max (d + e - prec) (3 - emax - prec) - e) as [|n|n] eqn:En;
    cbn [fst snd]; rewrite ?shr_record_of_loc_m; try (split; lia).
  rewrite iter_shr_1 by (rewrite shr_record_of_loc_m; lia).
  rewrite shr_record_of_loc_m. split; [|lia].
  apply Z.div_str_pos. split; [apply Z.pow_pos_nonneg; lia|].
  apply Z.le_trans with (2 ^ (d - 1)); [|exact Hd].
  apply Z.pow_le_mono_r; [lia|]. unfold prec, emax in *. lia.
Qed.

Lemma round_nearest_even_pos m l : 0 < m -> 0 < round_nearest_even m l.
Proof.
  intros H. destruct l as [|[]]; cbn; try lia. destruct (Z.even m); lia.
Qed.

Lemma binary_round_aux_not_zero s m e l s' :
  0 < m -> emin <= e -> binary_round_aux prec emax s m e l <> S754_zero s'.
Proof.
  intros Hm He. unfold binary_round_aux.
  destruct (shr_fexp_pos m e l Hm He) as [H1 H1e].
  destruct (shr_fexp prec emax m e l) as [mrs' e']. cbn [fst snd] in *.
  destruct (shr_fexp_pos _ e' loc_Exact
              (round_nearest_even_pos _ (loc_of_shr_record mrs') H1) H1e)
    as [H2 _].
  destruct (shr_fexp prec emax _ e' loc_Exact) as [mrs'' e''].
  cbn [fst] in H2.
  destruct (shr_m mrs''); try lia.
  destruct (e'' <=? emax - prec); discriminate.
Qed.

Lemma binary_round_not_zero s m e s' :
  emin <= e -> binary_round prec emax s m e <> S754_zero s'.
Proof.
  intros He. unfold binary_round.
  destruct (shl_align m e _) as [mz ez] eqn:E.
  apply binary_round_aux_not_zero; [lia|].
  unfold shl_align in E.
  destruct (fexp prec emax (Z.pos (digits2_pos m) + e) - e) eqn:E1;
    inversion E; subst; try assumption.
  unfold fexp. apply Z.le_max_r.
Qed.

Lemma valid_binary_emin s m e :
  valid_binary (S754_finite s m e) = true -> emin <= e.
Proof.
  unfold SpecFloat.valid_binary, bounded, canonical_mantissa, fexp.
  intros H. apply andb_true_iff in H. destruct H as [H _].
  apply Z.eqb_eq in H. rewrite <- H. apply Z.le_max_r.
Qed.

(** A sum is [-0] only when both terms are. *)
Lemma SFadd_neg_zero x y :
  valid_binary x = true -> valid_binary y = true ->
  SF64add x y = S754_zero true -> x = S754_zero true.
Proof.
  intros Vx Vy.
  destruct x as [sx|sx| |sx mx ex], y as [sy|sy| |sy my ey]; cbn;
    try discriminate; try (destruct sx; discriminate);
    try (destruct sx, sy; discriminate);
    try (destruct sx, sy; congruence).
  apply valid_binary_emin in Vx, Vy.
  intros H. exfalso. revert H.
  destruct (_ + _) eqn:E; cbn; try discriminate;
    apply binary_round_not_zero; lia.
Qed.

Lemma add_not_neg_zero x y : not_neg_zero x -> not_neg_zero (x + y).
Proof.
  unfold not_neg_zero. intros H E. apply H. rewrite add_spec in E.
  apply (SFadd_neg_zero _ _ (Prim2SF_valid x) (Prim2SF_valid y) E).
Qed.

Lemma add_zero_l x : not_neg_zero x -> (0 + x)%float = x.
Proof.
  unfold not_neg_zero. intros H. apply Prim2SF_inj. rewrite add_spec.
  change (Prim2SF 0) with (S754_zero false).
  destruct (Prim2SF x) as [s|s| |s m e]; try reflexivity.
  destruct s; [congruence|reflexivity].
Qed.

(** * The sign of a difference *)

Lemma digits2_pos_upper m : Z.pos m < 2 ^ Z.pos (digits2_pos m).
Proof.
  induction m as [m IH|m IH|]; cbn [digits2_pos];
    rewrite ?Pos2Z.inj_succ, ?Z.pow_succ_r by lia; lia.
Qed.

Lemma iter_xO m d : Z.pos (Pos.iter xO m d) = Z.pos m * 2 ^ Z.pos d.
Proof.
  revert m. induction d as [d IH|d IH|]; intros m; cbn [Pos.iter].
  - rewrite Pos2Z.inj_xO, IH, IH.
    replace (Z.pos d~1) with (1 + Z.pos d + Z.pos d) by lia.
    rewrite !Z.pow_add_r by lia. rewrite Z.pow_1_r. lia.
  - rewrite IH, IH.
    replace (Z.pos d~0) with (Z.pos d + Z.pos d) by lia.
    rewrite !Z.pow_add_r by lia. lia.
  - rewrite Z.pow_1_r. lia.
Qed.

Lemma shl_align_value m e e' :
  e' <= e -> Z.pos (fst (shl_align m e e')) = Z.pos m * 2 ^ (e - e').
Proof.
  intros H. unfold shl_align.
  destruct (e' - e) as [|d|d] eqn:E; cbn [fst]; try lia.
  - replace (e - e') with 0 by lia. lia.
  - rewrite iter_xO. f_equal. f_equal. lia.
Qed.

Lemma valid_digits s m e :
  valid_binary (S754_finite s m e) = true ->
  Z.pos (digits2_pos m) <= prec
  /\ (emin < e -> Z.pos (digits2_pos m) = prec).
Proof.
  unfold SpecFloat.valid_binary, bounded, canonical_mantissa, fexp.
  intros H. apply andb_true_iff in H. destruct H as [H _].
  apply Z.eqb_eq in H. unfold SpecFloat.emin in *. unfold emin. lia.
Qed.

Lemma aligned_lt s1 m1 e1 s2 m2 e2 :
  valid_binary (S754_finite s1 m1 e1) = true ->
  valid_binary (S754_finite s2 m2 e2) = true ->
  e1 < e2 -> Z.pos m1 < Z.pos m2 * 2 ^ (e2 - e1).
Proof.
  intros V1 V2 He.
  pose proof (valid_binary_emin _ _ _ V1) as Hmin.
  destruct (valid_digits _ _ _ V1) as [Hd1 _].
  destruct (valid_digits _ _ _ V2) as [_ Hd2].
  pose proof (digits2_pos_upper m1) as Hu.
  pose proof (digits2_pos_lower m2) as Hl.
  rewrite Hd2 in Hl by lia.
  assert (H1 : 2 ^ Z.pos (digits2_pos m1) <= 2 ^ prec)
    by (apply Z.pow_le_mono_r; lia).
  assert (H2 : 2 ^ 1 <= 2 ^ (e2 - e1)) by (apply Z.pow_le_mono_r; lia).
  assert (H3 : 2 ^ prec = 2 * 2 ^ (prec - 1)) by reflexivity.
  rewrite Z.pow_1_r in H2. nia.
Qed.

(** The order of two finite numbers is the order of their mantissas
    aligned on a common exponent. *)
Lemma SFcompare_aligned s1 m1 e1 s2 m2 e2 :
  valid_binary (S754_finite s1 m1 e1) = true ->
  valid_binary (S754_finite s2 m2 e2) = true ->
  SFcompare (S754_finite s1 m1 e1) (S754_finite s2 m2 e2)
  = Some (Z.compare
            (cond_Zopp s1 (Z.pos (fst (shl_align m1 e1 (Z.min e1 e2)))))
            (cond_Zopp s2 (Z.pos (fst (shl_align m2 e2 (Z.min e1 e2)))))).
Proof.
  intros V1 V2. cbn [SFcompare]. f_equal.
  rewrite !shl_align_value by lia.
  change (Pos.compare_cont Eq m1 m2) with (Z.pos m1 ?= Z.pos m2).
  assert (P1 : 0 < Z.pos m1 * 2 ^ (e1 - Z.min e1 e2))
    by (apply Z.mul_pos_pos; [lia|apply Z.pow_pos_nonneg; lia]).
  assert (P2 : 0 < Z.pos m2 * 2 ^ (e2 - Z.min e1 e2))
    by (apply Z.mul_pos_pos; [lia|apply Z.pow_pos_nonneg; lia]).
  destruct (Z.compare_spec e1 e2) as [E|E|E].
  - subst e2. rewrite Z.min_id, Z.sub_diag, Z.pow_0_r, !Z.mul_1_r.
    destruct s1, s2; reflexivity.
  - pose proof (aligned_lt _ _ _ _ _ _ V1 V2 E) as H.
    rewrite Z.min_l in * by lia.
    rewrite Z.sub_diag, Z.pow_0_r, Z.mul_1_r in *.
    destruct s1, s2; cbn [cond_Zopp]; symmetry.
    + apply Z.compare_gt_iff. lia.
    + apply Z.compare_lt_iff. lia.
    + apply Z.compare_gt_iff. lia.
    + apply Z.compare_lt_iff. lia.
  - pose proof (aligned_lt _ _ _ _ _ _ V2 V1 E) as H.
    rewrite Z.min_r in * by lia.
    rewrite Z.sub_diag, Z.pow_0_r, Z.mul_1_r in *.
    destruct s1, s2; cbn [cond_Zopp]; symmetry.
    + apply Z.compare_lt_iff. lia.
    + apply Z.compare_lt_iff. lia.
    + apply Z.compare_gt_iff. lia.
    + apply Z.compare_gt_iff. lia.
Qed.

Lemma binary_round_aux_sign s m e l :
  match binary_round_aux prec emax s m e l with
  | S754_finite s' _ _ | S754_infinity s' | S754_zero s' => s' = s
  | S754_nan => True
  end.
Proof.
  unfold binary_round_aux.
  destruct (shr_fexp prec emax m e l) as [mrs' e'].
  destruct (shr_fexp prec emax _ e' loc_Exact) as [mrs'' e''].
  destruct (shr_m mrs''); try exact I; [reflexivity|].
  destruct (e'' <=? emax - prec); reflexivity.
Qed.

(** A rounded non-zero integer keeps its sign. *)
Lemma binary_round_sign s m e :
  emin <= e ->
  SFcompare (S754_zero false) (binary_round prec emax s m e)
  = Some (if s then Gt else Lt).
Proof.
  intros He.
  pose proof (binary_round_not_zero s m e) as Hz.
  specialize (fun s' => Hz s' He).
  assert (Hn : binary_round prec emax s m e <> S754_nan).
  { unfold binary_round. destruct (shl_align _ _ _) as [mz ez].
    apply binary_round_aux_not_nan. lia. }
  assert (Hs : match binary_round prec emax s m e with
               | S754_finite s' _ _ | S754_infinity s' | S754_zero s' => s' = s
               | S754_nan => True
               end).
  { unfold binary_round. destruct (shl_align _ _ _) as [mz ez].
    apply binary_round_aux_sign. }
  destruct (binary_round prec emax s m e) as [s'|s'| |s' m' e'].
  - now destruct (Hz s').
  - subst s'. reflexivity.
  - now destruct Hn.
  - subst s'. reflexivity.
Qed.

Lemma binary_normalize_sign d e :
  emin <= e ->
  SFcompare (S754_zero false) (binary_normalize prec emax d e false)
  = Some (0 ?= d).
Proof.
  intros He. destruct d as [|p|p]; cbn [binary_normalize].
  - reflexivity.
  - now rewrite binary_round_sign.
  - now rewrite binary_round_sign.
Qed.

(** The sign of a difference is the order of its terms. *)
Lemma SFsub_sign_finite sx mx ex sy my ey :
  valid_binary (S754_finite sx mx ex) = true ->
  valid_binary (S754_finite sy my ey) = true ->
  SFcompare (S754_zero false)
            (SF64sub (S754_finite sx mx ex) (S754_finite sy my ey))
  = SFcompare (S754_finite sy my ey) (S754_finite sx mx ex).
Proof.
  intros Vx Vy. unfold SF64sub, SFsub.
  pose proof (valid_binary_emin _ _ _ Vx) as Hx.
  pose proof (valid_binary_emin _ _ _ Vy) as Hy.
  rewrite binary_normalize_sign by lia.
  rewrite (SFcompare_aligned _ _ _ _ _ _ Vy Vx), (Z.min_comm ey ex).
  f_equal.
  match goal with
  | |- (0 ?= ?X - ?Y) = _ =>
      destruct (Z.compare_spec 0 (X - Y)), (Z.compare_spec Y X);
      try reflexivity; lia
  end.
Qed.

Lemma SFsub_pos x y :
  valid_binary x = true -> valid_binary y = true ->
  SFltb (S754_zero false) (SF64sub x y) = SFltb y x.
Proof.
  intros Vx Vy. unfold SFltb.
  destruct x as [sx|sx| |sx mx ex], y as [sy|sy| |sy my ey];
    try reflexivity;
    try (destruct sx, sy; reflexivity);
    try (destruct sx; reflexivity);
    try (destruct sy; reflexivity).
  now rewrite SFsub_sign_finite.
Qed.

Lemma SFsub_neg x y :
  valid_binary x = true -> valid_binary y = true ->
  SFltb (SF64sub x y) (S754_zero false) = SFltb x y.
Proof.
  intros Vx Vy. unfold SFltb.
  destruct x as [sx|sx| |sx mx ex], y as [sy|sy| |sy my ey];
    try reflexivity;
    try (destruct sx, sy; reflexivity);
    try (destruct sx; reflexivity);
    try (destruct sy; reflexivity).
  rewrite (SFcompare_antisym (S754_zero false)), SFsub_sign_finite
    by assumption.
  rewrite (SFcompare_antisym (S754_finite sx mx ex)).
  destruct (SFcompare (S754_finite sx mx ex) (S754_finite sy my ey))
    as [[]|]; reflexivity.
Qed.

Lemma sub_pos x y : (0 <? x - y)%float = (y <? x)%float.
Proof.
  rewrite !ltb_spec, sub_spec. apply SFsub_pos; apply Prim2SF_valid.
Qed.

Lemma sub_neg x y : (x - y <? 0)%float = (x <? y)%float.
Proof.
  rewrite !ltb_spec, sub_spec. apply SFsub_neg; apply Prim2SF_valid.
Qed.

(** * The update law of the stiffness controller *)

(** C7: for every current and previous closest distance,
    [_update_contact_stiffness] changes [contact_stiffness], and nothing
    else, as the update law says: times 0.999 exactly when
    [current > contact_len + 0.005] and the distance increased; otherwise,
    when the distance decreased, times 1.01 for
    [current < contact_len - 0.004], times 1.005 for
    [contact_len - 0.004 <= current < contact_len - 0.002], times 1.003 for
    [contact_len - 0.002 <= current < contact_len - 0.001], times 1.001 for
    [contact_len - 0.001 <= current < contact_len]; unchanged in every
    other case, in particular when the distance did not change. *)
Theorem update_contact_stiffness_law (self : IMC) (curr_cd last_cd : float) :
  _update_contact_stiffness self curr_cd last_cd
  = set_contact_stiffness
      (stiffness_law (contact_len self) (contact_stiffness self)
                     curr_cd last_cd)
      self.
Proof.
  unfold _update_contact_stiffness, stiffness_law. cbv zeta.
  rewrite sub_pos, sub_neg.
  destruct ((contact_len self + 0.005 <? curr_cd)%float
            && (last_cd <? curr_cd)%float); [reflexivity|].
  destruct (curr_cd <? last_cd)%float;
    [|now rewrite set_contact_stiffness_same].
  destruct (curr_cd <? contact_len self - 0.004)%float eqn:L4; [reflexivity|].
  destruct (curr_cd <? contact_len self - 0.002)%float eqn:L2.
  { rewrite (lower_bound_holds _ _ 0.004 0.002)%float;
      [reflexivity|finite_const|assumption|assumption]. }
  rewrite andb_false_r.
  destruct (curr_cd <? contact_len self - 0.001)%float eqn:L1.
  { rewrite (lower_bound_holds _ _ 0.002 0.001)%float;
      [reflexivity|finite_const|assumption|assumption]. }
  rewrite andb_false_r.
  destruct (curr_cd <? contact_len self)%float eqn:L0.
  { rewrite (lower_bound_holds_0 _ _ 0.001)%float;
      [reflexivity|finite_const|assumption|assumption]. }
  rewrite andb_false_r. now rewrite set_contact_stiffness_same.
Qed.

(** * The chain rule of the forces *)

Lemma nth_map2 {A B C} (f : A -> B -> C) u v p du dv d :
  (p < length u)%nat -> (p < length v)%nat ->
  nth p (map2 f u v) d = f (nth p u du) (nth p v dv).
Proof.
  unfold map2. revert v p.
  induction u as [|a u IH]; intros [|b v] p Hu Hv; cbn in *; try lia.
  destruct p; [reflexivity|]. apply IH; lia.
Qed.

Lemma nth_map_lt {A B} (g : A -> B) l p d d' :
  (p < length l)%nat -> nth p (map g l) d' = g (nth p l d).
Proof.
  revert p. induction l as [|a l IH]; intros [|p] H; cbn in *; try lia;
    [reflexivity|]. apply IH. lia.
Qed.

Lemma fold_left_pointwise {A B} (f g : A -> B -> A) l a :
  (forall a b, f a b = g a b) -> fold_left f l a = fold_left g l a.
Proof.
  intros H. revert a. induction l as [|b l IH]; intros a; cbn;
    [reflexivity|]. now rewrite H, IH.
Qed.


Lemma vecmat_invariant n a b :
  (length (vecmat n a b) <= n)%nat /\ Forall not_neg_zero (vecmat n a b).
Proof.
  unfold vecmat.
  assert (H0 : (length (np.zeros n) <= n)%nat
               /\ Forall not_neg_zero (np.zeros n)).
  { unfold np.zeros. rewrite repeat_length. split; [lia|].
    apply Forall_forall. intros x Hx. apply repeat_spec in Hx. subst.
    unfold not_neg_zero. vm_compute. discriminate. }
  revert H0. generalize (np.zeros n) as acc. generalize (combine a b) as l.
  induction l as [|[c row] l IH]; intros acc [Hl Hz]; cbn [fold_left];
    [now split|].
  apply IH. cbn [fst snd]. split.
  - unfold vadd. rewrite length_map2. lia.
  - unfold vadd. eapply Forall_map2; [exact Hz|apply Forall_trivial|].
    cbn. intros x y Hx _. now apply add_not_neg_zero.
Qed.

Lemma vadd_zeros_l n a :
  (length a <= n)%nat -> Forall not_neg_zero a -> vadd (np.zeros n) a = a.
Proof.
  revert n. induction a as [|x a IH]; intros n Hl Hz.
  - unfold vadd, map2. now rewrite combine_nil.
  - destruct n as [|n]; cbn in Hl; [lia|].
    inversion Hz as [|? ? Hx Ha]; subst.
    unfold vadd, map2, np.zeros. cbn.
    rewrite (add_zero_l x Hx). f_equal. apply IH; [lia|assumption].
Qed.



Section ChainRule.
Context {num : Numerics}.



End ChainRule.

Example init_small_rod c cj x v m :
  __init__ ex_params (ex_functions c cj) 5555
           (ex_shm x v (repeat 7%float 15) (repeat (repeat 7%float 15) 15) m)
  = Ok (ex_imc c cj x v m).
Proof. reflexivity. Qed.


(** * The edge-pair table *)

Lemma range_nil a b : b <= a -> range a b = [].
Proof. intros H. unfold range. now replace (Z.to_nat (b - a)) with 0%nat by lia. Qed.

Lemma range_cons a b : a < b -> range a b = a :: range (a + 1) b.
Proof.
  intros H. unfold range.
  replace (Z.to_nat (b - a)) with (S (Z.to_nat (b - (a + 1)))) by lia.
  cbn [seq map]. f_equal; [lia|].
  rewrite <- seq_shift, map_map. apply map_ext. intros k. lia.
Qed.

Lemma length_range a b : length (range a b) = Z.to_nat (b - a).
Proof. unfold range. now rewrite length_map, length_seq. Qed.

Lemma in_range_iff x a b : In x (range a b) <-> a <= x < b.
Proof.
  unfold range. rewrite in_map_iff. split.
  - intros (k & <- & Hk). apply in_seq in Hk. lia.
  - intros H. exists (Z.to_nat (x - a)). split; [lia|]. apply in_seq. lia.
Qed.

Lemma range_app a b c : a <= b <= c -> range a c = range a b ++ range b c.
Proof.
  remember (Z.to_nat (b - a)) as n eqn:En. revert a En.
  induction n as [|n IH]; intros a En H.
  - replace b with a by lia. now rewrite (range_nil a a) by lia.
  - rewrite (range_cons a c), (range_cons a b) by lia. cbn [app]. f_equal.
    apply IH; lia.
Qed.

Lemma range_snoc a b : a <= b -> range a (b + 1) = range a b ++ [b].
Proof.
  intros H. rewrite (range_app a b (b + 1)) by lia. f_equal.
  rewrite range_cons by lia. now rewrite range_nil by lia.
Qed.

Lemma skipn_range k a b :
  0 <= k -> skipn (Z.to_nat k) (range a b) = range (a + k) b.
Proof.
  intros Hk. destruct (Z.le_gt_cases (a + k) b) as [H|H].
  - rewrite (range_app a (a + k) b) by lia.
    rewrite skipn_app, length_range.
    replace (Z.to_nat k - Z.to_nat (a + k - a))%nat with 0%nat by lia.
    rewrite skipn_all2 by (rewrite length_range; lia). reflexivity.
  - rewrite skipn_all2 by (rewrite length_range; lia).
    now rewrite range_nil by lia.
Qed.

(** ** Slice assignments *)

Lemma firstn_length_app {A} (l1 l2 : list A) :
  firstn (length l1) (l1 ++ l2) = l1.
Proof. induction l1 as [|a l1 IH]; cbn; [now destruct l2|now rewrite IH]. Qed.

Lemma skipn_length_app {A} (l1 l2 : list A) :
  skipn (length l1) (l1 ++ l2) = l2.
Proof. induction l1 as [|a l1 IH]; cbn; auto. Qed.

Lemma slice_index_in_range n x : 0 <= x <= n -> slice_index n x = x.
Proof. intros H. unfold slice_index. destruct (Z.ltb_spec x 0); lia. Qed.

Lemma slice_index_bounds n x : 0 <= n -> 0 <= slice_index n x <= n.
Proof. intros H. unfold slice_index. destruct (Z.ltb_spec x 0); lia. Qed.

Section Slices.
Context {A B : Type}.

Lemma slice_parts (l1 mid l2 : list A) :
  let l := l1 ++ mid ++ l2 in
  let a := Z.of_nat (length l1) in
  let b := Z.of_nat (length l1) + Z.of_nat (length mid) in
  let n := Z.of_nat (length l) in
  firstn (Z.to_nat (slice_index n a)) l = l1
  /\ firstn (Z.to_nat (slice_index n b - slice_index n a))
            (skipn (Z.to_nat (slice_index n a)) l) = mid
  /\ skipn (Z.to_nat (Z.max (slice_index n a) (slice_index n b))) l = l2.
Proof.
  intros l a b n.
  assert (Hn : n = a + Z.of_nat (length mid) + Z.of_nat (length l2)).
  { unfold n, l, a. rewrite !length_app. lia. }
  rewrite (slice_index_in_range n a), (slice_index_in_range n b)
    by (unfold a, b in *; lia).
  unfold a, b, l. rewrite Nat2Z.id.
  replace (Z.to_nat (Z.of_nat (length l1) + Z.of_nat (length mid)
                     - Z.of_nat (length l1))) with (length mid) by lia.
  replace (Z.to_nat (Z.max (Z.of_nat (length l1))
                           (Z.of_nat (length l1) + Z.of_nat (length mid))))
    with (length (l1 ++ mid)) by (rewrite length_app; lia).
  rewrite firstn_length_app, skipn_length_app, firstn_length_app.
  rewrite app_assoc, skipn_length_app. auto.
Qed.

Lemma setslice_bcast_exact (f : A -> A) (l1 mid l2 : list A) :
  setslice_bcast f (l1 ++ mid ++ l2) (Z.of_nat (length l1))
                 (Z.of_nat (length l1) + Z.of_nat (length mid))
  = l1 ++ map f mid ++ l2.
Proof.
  unfold setslice_bcast.
  destruct (slice_parts l1 mid l2) as (H1 & H2 & H3).
  cbv zeta in H1, H2, H3. now rewrite H1, H2, H3.
Qed.

Lemma setslice_rows_exact (g : A -> B -> A) (l1 mid l2 : list A) xs :
  length xs = length mid ->
  setslice_rows g (l1 ++ mid ++ l2) (Z.of_nat (length l1))
                (Z.of_nat (length l1) + Z.of_nat (length mid)) xs
  = Ok (l1 ++ map2 g mid xs ++ l2).
Proof.
  intros Hx. unfold setslice_rows.
  destruct (slice_parts l1 mid l2) as (H1 & H2 & H3).
  cbv zeta in H1, H2, H3. rewrite H1, H2, H3.
  rewrite Hx, Nat.eqb_refl. reflexivity.
Qed.

(** A slice whose stop does not lie after its start is empty, and an
    assignment to it changes nothing. *)
Lemma setslice_bcast_empty (f : A -> A) (l : list A) a b :
  slice_index (Z.of_nat (length l)) b <= slice_index (Z.of_nat (length l)) a ->
  setslice_bcast f l a b = l.
Proof.
  intros H. unfold setslice_bcast.
  replace (Z.to_nat (_ - _)) with 0%nat by lia.
  rewrite Z.max_l by assumption. cbn [firstn map app].
  apply firstn_skipn.
Qed.

Lemma setslice_rows_empty (g : A -> B -> A) (l : list A) a b :
  slice_index (Z.of_nat (length l)) b <= slice_index (Z.of_nat (length l)) a ->
  setslice_rows g l a b [] = Ok l.
Proof.
  intros H. unfold setslice_rows.
  replace (Z.to_nat (_ - _)) with 0%nat by lia.
  rewrite Z.max_l by assumption. cbn [firstn length Nat.eqb combine map app].
  now rewrite firstn_skipn.
Qed.

End Slices.

(** ** The loop that fills a table of pairs *)

Lemma foldM_app {S A} (f : S -> A -> result S) l1 l2 s :
  foldM f (l1 ++ l2) s = (s' <- foldM f l1 s ;; foldM f l2 s').
Proof.
  revert s. induction l1 as [|a l1 IH]; intros s; cbn; [reflexivity|].
  destruct (f s a); cbn; [apply IH|reflexivity].
Qed.

Lemma map2_map_l {A B C} (g : A -> B -> A) (f : A -> A) (mk : B -> C)
  (h : A -> C) old xs :
  length old = length xs ->
  (forall row x, In row old -> In x xs -> h (g (f row) x) = mk x) ->
  map h (map2 g (map f old) xs) = map mk xs.
Proof.
  unfold map2. revert xs.
  induction old as [|row old IH]; intros [|x xs] Hl H; cbn in *;
    try discriminate; [reflexivity|].
  rewrite H by auto. f_equal. apply IH; [lia|]. intros; apply H; auto.
Qed.

Lemma In_skipn {A} (x : A) n l : In x (skipn n l) -> In x l.
Proof.
  intros H. rewrite <- (firstn_skipn n l). apply in_or_app. now right.
Qed.

Section FillLoop.
Context {A B : Type}.
Variables (f : Z -> A -> A) (g : A -> B -> A) (mk : Z -> B -> A).
Variables (src : list B) (num_edges : Z).
Hypothesis Hsrc : Z.of_nat (length src) = num_edges.

Let rows (i : Z) : list A := map (mk i) (skipn (Z.to_nat (i + 2 + 1)) src).
Let prefix (k : Z) : list A := flat_map rows (range 0 k).
Let step (st : Z * list A) (i : Z) : result (Z * list A) :=
  let ri := fst st in
  let add := num_edges - i - (2 + 1) in
  let t := setslice_bcast (f i) (snd st) ri (ri + add) in
  t' <- setslice_rows g t ri (ri + add) (getslice_from src (i + 2 + 1)) ;;
  Ok (ri + add, t').

(** Rows of the table on which the two assignments of iteration [i] leave
    [mk i x] whatever they held before. *)
Let overwritten (row : A) : Prop :=
  forall i x, 0 <= i < num_edges -> In x src -> g (f i row) x = mk i x.

Lemma length_rows i : 0 <= i -> length (rows i) = Z.to_nat (num_edges - i - 3).
Proof. intros H. unfold rows. rewrite length_map, length_skipn. lia. Qed.

Lemma prefix_snoc k : 0 <= k -> prefix (k + 1) = prefix k ++ rows k.
Proof.
  intros H. unfold prefix. rewrite range_snoc by assumption.
  rewrite flat_map_app. cbn. now rewrite app_nil_r.
Qed.

Lemma getslice_from_src i :
  0 <= i -> getslice_from src (i + 2 + 1)
            = skipn (Z.to_nat (i + 2 + 1)) src.
Proof.
  intros H. unfold getslice_from, slice_index.
  destruct (Z.ltb_spec (i + 2 + 1) 0); [lia|]. rewrite Hsrc.
  destruct (Z.le_gt_cases (i + 2 + 1) num_edges).
  - now rewrite Z.min_l by assumption.
  - rewrite Z.min_r by lia. rewrite !skipn_all2; [reflexivity|lia|lia].
Qed.

Lemma step_fills i l1 old l2 :
  0 <= i -> i + 3 <= num_edges ->
  length old = length (rows i) -> Forall overwritten old ->
  step (Z.of_nat (length l1), l1 ++ old ++ l2) i
  = Ok (Z.of_nat (length (l1 ++ rows i)), l1 ++ rows i ++ l2).
Proof.
  intros Hi Hadd Hold Hov. unfold step. cbn [fst snd].
  assert (Ha : num_edges - i - (2 + 1) = Z.of_nat (length old))
    by (rewrite Hold, length_rows; lia).
  rewrite Ha, setslice_bcast_exact.
  rewrite <- (length_map (f i) old) at 1.
  rewrite getslice_from_src by assumption.
  rewrite setslice_rows_exact
    by (rewrite length_map, Hold; unfold rows; now rewrite length_map).
  cbn [bind]. rewrite length_app, Hold. f_equal. f_equal; [lia|].
  f_equal. f_equal. unfold rows.
  rewrite <- (map_id (map2 g (map (f i) old) _)).
  apply (map2_map_l g (f i) (mk i) (fun a => a)).
  - rewrite Hold. unfold rows. now rewrite length_map.
  - intros row x Hrow Hx. rewrite Forall_forall in Hov.
    apply (Hov row Hrow); [lia|]. eapply In_skipn; eassumption.
Qed.

Lemma main_phase (n : nat) :
  Z.of_nat n + 2 <= num_edges ->
  forall table rest,
    length table = length (prefix (Z.of_nat n)) ->
    Forall overwritten table ->
    foldM step (range 0 (Z.of_nat n)) (0, table ++ rest)
    = Ok (Z.of_nat (length (prefix (Z.of_nat n))),
          prefix (Z.of_nat n) ++ rest).
Proof.
  induction n as [|n IH]; intros Hn table rest Hl Hov.
  - cbn in Hl. destruct table; [reflexivity|discriminate].
  - rewrite Nat2Z.inj_succ, <- Z.add_1_r in *.
    rewrite prefix_snoc in * by lia. rewrite length_app in Hl.
    rewrite range_snoc, foldM_app by lia.
    set (c := length (prefix (Z.of_nat n))) in *.
    pose proof (firstn_skipn c table) as Htab.
    assert (Hl1 : length (firstn c table) = c)
      by (rewrite length_firstn; lia).
    assert (Hl2 : length (skipn c table) = length (rows (Z.of_nat n)))
      by (rewrite length_skipn; lia).
    rewrite <- Htab in Hov. apply Forall_app in Hov.
    destruct Hov as [Hov1 Hov2].
    rewrite <- Htab, <- app_assoc.
    rewrite IH by (assumption || lia).
    cbn [bind foldM]. subst c.
    rewrite step_fills by (assumption || lia).
    cbn [bind]. now rewrite <- app_assoc.
Qed.

Lemma step_noop i ri l :
  0 <= i -> num_edges <= i + 3 ->
  slice_index (Z.of_nat (length l)) (ri + (num_edges - i - (2 + 1)))
  <= slice_index (Z.of_nat (length l)) ri ->
  step (ri, l) i = Ok (ri + (num_edges - i - (2 + 1)), l).
Proof.
  intros Hi Hadd Hs. unfold step. cbn [fst snd].
  rewrite getslice_from_src by assumption.
  rewrite skipn_all2 by lia.
  rewrite setslice_bcast_empty by assumption.
  now rewrite setslice_rows_empty by assumption.
Qed.

Lemma rows_nil i : 0 <= i -> num_edges <= i + 3 -> rows i = [].
Proof.
  intros Hi H. apply length_zero_iff_nil. rewrite length_rows; lia.
Qed.

Theorem fill_loop_filled table :
  0 <= num_edges ->
  length table = length (filled mk src num_edges 2) ->
  (forall row, In row table ->
     forall i x, 0 <= i < num_edges -> In x src -> g (f i row) x = mk i x) ->
  exists ri,
    fill_loop f g src num_edges 2 table
    = Ok (ri, filled mk src num_edges 2).
Proof.
  intros Hne Hl Hov. apply Forall_forall in Hov.
  change (filled mk src num_edges 2) with (prefix num_edges) in *.
  change (fill_loop f g src num_edges 2 table)
    with (foldM step (range 0 num_edges) (0, table)).
  destruct (Z.eq_dec num_edges 0) as [E0|N0];
    [|destruct (Z.eq_dec num_edges 1) as [E1|N1]].
  - rewrite E0 in *. cbn in Hl. destruct table; [|discriminate].
    exists 0. reflexivity.
  - rewrite E1 in Hl |- *. unfold prefix in Hl |- *.
    replace (range 0 1) with [0] in * by reflexivity.
    cbn [flat_map] in Hl |- *.
    rewrite rows_nil in * by lia. cbn in Hl.
    destruct table; [|discriminate].
    eexists. cbn [foldM]. rewrite step_noop; [reflexivity|lia|lia|].
    rewrite E1. unfold slice_index. cbn. lia.
  - assert (Hp : prefix num_edges = prefix (num_edges - 2)).
    { replace num_edges with (num_edges - 2 + 1 + 1) at 1 by lia.
      rewrite !prefix_snoc by lia.
      rewrite !rows_nil by lia. now rewrite !app_nil_r. }
    rewrite Hp in *.
    rewrite (range_app 0 (num_edges - 2) num_edges) by lia.
    rewrite (range_cons (num_edges - 2)), (range_cons (num_edges - 2 + 1)),
      (range_nil (num_edges - 2 + 1 + 1)) by lia.
    rewrite foldM_app.
    replace (num_edges - 2) with (Z.of_nat (Z.to_nat (num_edges - 2))) in *
      by lia.
    rewrite <- (app_nil_r table).
    rewrite main_phase by (assumption || lia).
    rewrite app_nil_r. cbn [bind foldM].
    set (l := prefix _) in *. set (P := Z.of_nat (length l)).
    assert (HP : 0 <= P) by (unfold P; lia).
    eexists.
    rewrite step_noop; [cbn [bind]|lia|lia|].
    + rewrite step_noop; [reflexivity|lia|lia|].
      fold P. unfold slice_index.
      repeat match goal with
             | |- context [?a <? ?b] => destruct (Z.ltb_spec a b)
             end; lia.
    + fold P. unfold slice_index.
      repeat match goal with
             | |- context [?a <? ?b] => destruct (Z.ltb_spec a b)
             end; lia.
Qed.

End FillLoop.

(** ** The eligible pairs *)

Lemma wrap32_small x : - 2 ^ 31 <= x < 2 ^ 31 -> wrap32 x = x.
Proof. intros H. unfold wrap32. rewrite Z.mod_small; lia. Qed.

Lemma fold_count_true {A} (c : A -> bool) l n :
  (forall j, In j l -> c j = true) ->
  fold_left (fun n j => if c j then n else n + 1) l n = n.
Proof.
  revert n. induction l as [|j l IH]; intros n H; cbn; [reflexivity|].
  rewrite H by now left. apply IH. intros; apply H; now right.
Qed.

Lemma fold_count_false {A} (c : A -> bool) l n :
  (forall j, In j l -> c j = false) ->
  fold_left (fun n j => if c j then n else n + 1) l n
  = n + Z.of_nat (length l).
Proof.
  revert n. induction l as [|j l IH]; intros n H; cbn [fold_left length];
    [lia|].
  rewrite H by now left. rewrite IH by (intros; apply H; now right). lia.
Qed.

Lemma inner_count num_edges ia i n :
  0 <= ia ->
  fold_left (fun n j => if in_range i (j - ia) (j + ia + 1) then n else n + 1)
            (range i num_edges) n
  = n + Z.max 0 (num_edges - i - (ia + 1)).
Proof.
  intros Hia. destruct (Z.le_gt_cases num_edges (i + ia + 1)) as [H|H].
  - rewrite fold_count_true; [lia|].
    intros j Hj. apply in_range_iff in Hj. unfold in_range.
    apply andb_true_iff. split; [apply Z.leb_le|apply Z.ltb_lt]; lia.
  - rewrite (range_app i (i + ia + 1) num_edges), fold_left_app by lia.
    rewrite (fold_count_false _ (range (i + ia + 1) num_edges)).
    + rewrite fold_count_true; [rewrite length_range; lia|].
      intros j Hj. apply in_range_iff in Hj. unfold in_range.
      apply andb_true_iff. split; [apply Z.leb_le|apply Z.ltb_lt]; lia.
    + intros j Hj. apply in_range_iff in Hj. unfold in_range.
      apply andb_false_iff. left. apply Z.leb_gt. lia.
Qed.

Lemma fold_add_sum {A} (h : A -> Z) l n :
  fold_left (fun n a => n + h a) l n = n + sum_Z (map h l).
Proof.
  unfold sum_Z. revert n.
  induction l as [|a l IH]; intros n; cbn [fold_left map fold_right];
    [lia|].
  rewrite IH. lia.
Qed.

(** The double loop counts [Sigma_i max(0, num_edges - i - (ia + 1))]. *)
Lemma count_edge_combos_sum num_edges ia :
  0 <= ia -> count_edge_combos num_edges ia = pair_count num_edges ia.
Proof.
  intros Hia. unfold count_edge_combos, pair_count.
  rewrite (fold_left_pointwise _
             (fun n i => n + Z.max 0 (num_edges - i - (ia + 1)))).
  - now rewrite fold_add_sum.
  - intros n i. now apply inner_count.
Qed.

Lemma length_flat_map_sum {A B} (h : A -> list B) l :
  Z.of_nat (length (flat_map h l))
  = sum_Z (map (fun a => Z.of_nat (length (h a))) l).
Proof.
  unfold sum_Z.
  induction l as [|a l IH]; cbn [flat_map map fold_right length];
    [reflexivity|].
  rewrite length_app. lia.
Qed.

Lemma length_eligible_pairs num_edges ia :
  Z.of_nat (length (eligible_pairs num_edges ia)) = pair_count num_edges ia.
Proof.
  unfold eligible_pairs, pair_count. rewrite length_flat_map_sum.
  f_equal. apply map_ext. intros i. rewrite length_map, length_range. lia.
Qed.

Lemma in_eligible_pairs num_edges ia i j :
  In (i, j) (eligible_pairs num_edges ia)
  <-> 0 <= i < num_edges /\ i + ia + 1 <= j < num_edges.
Proof.
  unfold eligible_pairs. rewrite in_flat_map. split.
  - intros (i' & Hi & Hj). apply in_map_iff in Hj.
    destruct Hj as (j' & E & Hj). inversion E; subst.
    apply in_range_iff in Hi, Hj. lia.
  - intros [Hi Hj]. exists i. split; [now apply in_range_iff|].
    apply in_map_iff. exists j. split; [reflexivity|now apply in_range_iff].
Qed.

Lemma sorted_app {A} (R : A -> A -> Prop) l1 l2 :
  StronglySorted R l1 -> StronglySorted R l2 ->
  (forall x y, In x l1 -> In y l2 -> R x y) ->
  StronglySorted R (l1 ++ l2).
Proof.
  intros H1 H2 H. induction H1 as [|a l1 Hs IH Ha]; cbn; [assumption|].
  constructor.
  - apply IH. intros; apply H; [now right|assumption].
  - apply Forall_app. split; [assumption|].
    apply Forall_forall. intros y Hy. apply H; [now left|assumption].
Qed.

Lemma sorted_range a b : StronglySorted Z.lt (range a b).
Proof.
  remember (Z.to_nat (b - a)) as n eqn:En. revert a En.
  induction n as [|n IH]; intros a En.
  - rewrite range_nil by lia. constructor.
  - rewrite range_cons by lia. constructor; [apply IH; lia|].
    apply Forall_forall. intros x Hx. apply in_range_iff in Hx. lia.
Qed.

Lemma sorted_map {A B} (R : A -> A -> Prop) (S : B -> B -> Prop)
  (h : A -> B) l :
  (forall x y, R x y -> S (h x) (h y)) ->
  StronglySorted R l -> StronglySorted S (map h l).
Proof.
  intros H Hl. induction Hl as [|a l Hs IH Ha]; cbn; constructor;
    [assumption|].
  apply Forall_map. revert Ha. apply Forall_impl. auto.
Qed.

Lemma sorted_flat_map {B} (R : B -> B -> Prop) (h : Z -> list B) l :
  StronglySorted Z.lt l ->
  (forall i, StronglySorted R (h i)) ->
  (forall i i' x y, i < i' -> In x (h i) -> In y (h i') -> R x y) ->
  StronglySorted R (flat_map h l).
Proof.
  intros Hl Hh Hc. induction Hl as [|i l Hs IH Hi]; cbn; [constructor|].
  apply sorted_app; [apply Hh|assumption|].
  intros x y Hx Hy. apply in_flat_map in Hy. destruct Hy as (i' & Hi' & Hy).
  rewrite Forall_forall in Hi. eapply Hc; eauto.
Qed.

Lemma sorted_eligible_pairs num_edges ia :
  StronglySorted lex_lt (eligible_pairs num_edges ia).
Proof.
  unfold eligible_pairs. apply sorted_flat_map.
  - apply sorted_range.
  - intros i. apply (sorted_map Z.lt); [|apply sorted_range].
    intros x y H. right. cbn. auto.
  - intros i i' x y Hi Hx Hy. apply in_map_iff in Hx, Hy.
    destruct Hx as (j & <- & _), Hy as (j' & <- & _). left. exact Hi.
Qed.

Lemma lex_lt_irrefl p : ~ lex_lt p p.
Proof. unfold lex_lt. lia. Qed.

Lemma sorted_NoDup {A} (R : A -> A -> Prop) l :
  (forall x, ~ R x x) -> StronglySorted R l -> NoDup l.
Proof.
  intros Hirr Hl. induction Hl as [|a l Hs IH Ha]; constructor;
    [|assumption].
  intros Hin. rewrite Forall_forall in Ha. exact (Hirr a (Ha a Hin)).
Qed.

(** ** The attributes that a request leaves alone *)

Lemma frame_refl self : frame self self.
Proof. unfold frame. repeat split. Qed.

Lemma frame_trans a b c : frame a b -> frame b c -> frame a c.
Proof.
  unfold frame. intros H1 H2.
  repeat match goal with H : _ /\ _ |- _ => destruct H end.
  repeat split; etransitivity; eassumption.
Qed.

Ltac frame_setter := intros; unfold frame; repeat split.

Lemma frame_set_contact_stiffness k s : frame s (set_contact_stiffness k s).
Proof. frame_setter. Qed.
Lemma frame_set_friction b s : frame s (set_friction b s).
Proof. frame_setter. Qed.
Lemma frame_set_scratch e c s : frame s (set_scratch e c s).
Proof. frame_setter. Qed.
Lemma frame_set_forces f s : frame s (set_forces f s).
Proof. frame_setter. Qed.
Lemma frame_set_hessian h s : frame s (set_hessian h s).
Proof. frame_setter. Qed.
Lemma frame_set_node_coordinates x s : frame s (set_node_coordinates x s).
Proof. frame_setter. Qed.
Lemma frame_set_velocities v s : frame s (set_velocities v s).
Proof. frame_setter. Qed.
Lemma frame_set_meta_data m s : frame s (set_meta_data m s).
Proof. frame_setter. Qed.

(** Peels the assignments off the right-hand object. *)
Ltac frame_chain :=
  lazymatch goal with
  | |- frame ?a ?a => apply frame_refl
  | |- frame ?a (set_contact_stiffness _ ?b) =>
      apply (frame_trans a b);
      [frame_chain|apply frame_set_contact_stiffness]
  | |- frame ?a (set_friction _ ?b) =>
      apply (frame_trans a b); [frame_chain|apply frame_set_friction]
  | |- frame ?a (set_scratch _ _ ?b) =>
      apply (frame_trans a b); [frame_chain|apply frame_set_scratch]
  | |- frame ?a (set_forces _ ?b) =>
      apply (frame_trans a b); [frame_chain|apply frame_set_forces]
  | |- frame ?a (set_hessian _ ?b) =>
      apply (frame_trans a b); [frame_chain|apply frame_set_hessian]
  | |- frame ?a (set_node_coordinates _ ?b) =>
      apply (frame_trans a b); [frame_chain|apply frame_set_node_coordinates]
  | |- frame ?a (set_velocities _ ?b) =>
      apply (frame_trans a b); [frame_chain|apply frame_set_velocities]
  | |- frame ?a (set_meta_data _ ?b) =>
      apply (frame_trans a b); [frame_chain|apply frame_set_meta_data]
  | _ => assumption
  end.

(** Inversion of a [bind] that returns. *)
Lemma bind_Ok {A B} (r : result A) (k : A -> result B) b :
  bind r k = Ok b -> exists a, r = Ok a /\ k a = Ok b.
Proof. destruct r as [a|e]; cbn; [eauto|discriminate]. Qed.

Lemma update_contact_stiffness_sets self curr_cd last_cd :
  exists k,
    _update_contact_stiffness self curr_cd last_cd
    = set_contact_stiffness k self.
Proof.
  unfold _update_contact_stiffness. cbv zeta.
  repeat match goal with
         | |- context [if ?c then _ else _] => destruct c
         end;
    try (eexists; reflexivity);
    exists (contact_stiffness self); now rewrite set_contact_stiffness_same.
Qed.

Lemma frame_update_contact_stiffness self curr_cd last_cd :
  frame self (_update_contact_stiffness self curr_cd last_cd).
Proof.
  destruct (update_contact_stiffness_sets self curr_cd last_cd) as (k & ->).
  apply frame_set_contact_stiffness.
Qed.

(** The new stiffness depends on the object through [contact_len] and
    the old stiffness only. *)
Lemma update_contact_stiffness_ext s s' curr_cd last_cd :
  contact_len s' = contact_len s ->
  contact_stiffness s' = contact_stiffness s ->
  contact_stiffness (_update_contact_stiffness s' curr_cd last_cd)
  = contact_stiffness (_update_contact_stiffness s curr_cd last_cd).
Proof.
  intros Hl Hk. unfold _update_contact_stiffness. cbv zeta. rewrite Hl, Hk.
  repeat match goal with
         | |- context [if ?c then _ else _] => destruct c
         end; cbn; auto.
Qed.

Lemma get_forces_Ok {num : Numerics} self cp self' :
  _get_forces self cp = Ok self' ->
  exists f, self' = set_forces f self.
Proof.
  unfold _get_forces. destruct cp as [[[e ids] v] s]. cbv zeta.
  intros H.
  apply bind_Ok in H. destruct H as (_ & _ & H).
  apply bind_Ok in H. destruct H as (_ & _ & H).
  apply bind_Ok in H. destruct H as (f & _ & H).
  inversion H. eauto.
Qed.

Lemma get_forces_and_hessian_Ok {num : Numerics} self cp self' :
  _get_forces_and_hessian self cp = Ok self' ->
  exists f h, self' = set_hessian h (set_forces f self).
Proof.
  unfold _get_forces_and_hessian. destruct cp as [[[e ids] v] s]. cbv zeta.
  destruct (_chain_rule_contact_hess _ _ _ _ _) as [dE_dx d2E_dx2].
  intros H.
  apply bind_Ok in H. destruct H as (tj & _ & H).
  apply bind_Ok in H. destruct H as (s1 & H1 & H).
  unfold _py_to_cpp_hess in H1.
  apply bind_Ok in H1. destruct H1 as (r & _ & H1).
  inversion H1; subst. inversion H. do 2 eexists. reflexivity.
Qed.

(** * Exceptions *)

Lemma raises_only_Ok {A} (P : exn -> Prop) (a : A) : raises_only P (Ok a).
Proof. intros e H. discriminate. Qed.

Lemma raises_only_Raise {A} (P : exn -> Prop) e :
  P e -> raises_only P (@Raise A e).
Proof. intros H e' E. now inversion E; subst. Qed.

Lemma raises_only_bind {A B} (P : exn -> Prop) (r : result A)
  (k : A -> result B) :
  raises_only P r -> (forall a, r = Ok a -> raises_only P (k a)) ->
  raises_only P (bind r k).
Proof.
  intros Hr Hk e. destruct r as [a|e']; cbn; intros H.
  - now apply (Hk a eq_refl).
  - apply Hr. now inversion H.
Qed.

Lemma raises_only_impl {A} (P Q : exn -> Prop) (r : result A) :
  (forall e, P e -> Q e) -> raises_only P r -> raises_only Q r.
Proof. intros H Hr e E. auto. Qed.

Lemma raises_only_foldM {S A} (P : exn -> Prop) (f : S -> A -> result S) l :
  (forall s a, raises_only P (f s a)) -> forall s, raises_only P (foldM f l s).
Proof.
  intros Hf. induction l as [|a l IH]; intros s; cbn [foldM].
  - apply raises_only_Ok.
  - apply raises_only_bind; [apply Hf|]. intros; apply IH.
Qed.

Lemma raises_only_mapM2 {A B C} (P : exn -> Prop) (f : A -> B -> result C) u :
  (forall a b, raises_only P (f a b)) -> forall v, raises_only P (mapM2 f u v).
Proof.
  intros Hf. induction u as [|a u IH]; intros [|b v]; cbn [mapM2];
    try apply raises_only_Ok.
  apply raises_only_bind; [apply Hf|]. intros c _.
  apply raises_only_bind; [apply IH|]. intros; apply raises_only_Ok.
Qed.

Lemma setslice_rows_raises {A B} (g : A -> B -> A) l a b xs :
  raises_only is_ValueError (setslice_rows g l a b xs).
Proof.
  unfold setslice_rows. destruct (Nat.eqb _ _).
  - apply raises_only_Ok.
  - now apply raises_only_Raise.
Qed.

Lemma addblock_raises m r0 r1 c0 c1 blk :
  raises_only is_ValueError (addblock m r0 r1 c0 c1 blk).
Proof.
  unfold addblock. destruct (Nat.eqb _ _).
  - apply raises_only_bind; [|intros; apply raises_only_Ok].
    apply raises_only_mapM2. intros; apply setslice_rows_raises.
  - now apply raises_only_Raise.
Qed.

Lemma np_min_raises l : raises_only is_ValueError (np.min l).
Proof.
  destruct l as [|x l]; cbn.
  - now apply raises_only_Raise.
  - destruct (is_nan x); apply raises_only_Ok.
Qed.

Lemma set_row_raises a i x : raises_only is_ValueError (set_row a i x).
Proof.
  unfold set_row. destruct (nth_error a (Z.to_nat i)) as [row|].
  - destruct (Nat.eqb _ _); [apply raises_only_Ok|now apply raises_only_Raise].
  - now apply raises_only_Raise.
Qed.

Lemma py_int_raises x :
  raises_only (fun e => e = ValueError \/ e = OverflowError) (py_int x).
Proof.
  unfold py_int. destruct (Prim2SF x); try apply raises_only_Ok;
    apply raises_only_Raise; auto.
Qed.

Lemma scatter_forces_raises cpp forces ids :
  raises_only is_ValueError (scatter_forces cpp forces ids).
Proof.
  unfold scatter_forces. destruct ids as [e1 e2].
  apply raises_only_bind; [apply setslice_rows_raises|].
  intros; apply setslice_rows_raises.
Qed.

Lemma py_to_cpp_nohess_raises py cpp ids :
  raises_only is_ValueError (_py_to_cpp_nohess py cpp ids).
Proof.
  unfold _py_to_cpp_nohess. apply raises_only_foldM.
  intros; apply scatter_forces_raises.
Qed.

Lemma jit_py_to_cpp_hess_raises pf pj cf cj ids :
  raises_only is_ValueError (_jit_py_to_cpp_hess pf pj cf cj ids).
Proof.
  unfold _jit_py_to_cpp_hess. apply raises_only_foldM.
  intros st [[forces jacobian] [e1 e2]].
  apply raises_only_bind; [apply scatter_forces_raises|]. intros ? _.
  repeat (apply raises_only_bind; [apply addblock_raises|]; intros ? _).
  apply raises_only_Ok.
Qed.

(** * The request loop *)

Lemma bind_ext {A B} (r : result A) (k1 k2 : A -> result B) :
  (forall a, k1 a = k2 a) -> bind r k1 = bind r k2.
Proof. intros H. destruct r; cbn; [apply H|reflexivity]. Qed.

Section Requests.
Context {num : Numerics}.
Variable min_dist_vectorized : mat -> vec.
Variable min_dist_f_out_vectorized : mat -> vec * mat.

Local Abbreviation request :=
  (start_server_request min_dist_vectorized min_dist_f_out_vectorized).
Local Abbreviation detect := (detect_phase min_dist_vectorized).
Local Abbreviation contact := (contact_phase min_dist_f_out_vectorized).

Lemma request_phases self vars :
  request self vars
  = (fl <- flags_phase self ;;
     let '(hessian_flag, first_iter, self) := fl in
     st <- detect first_iter self vars ;;
     let '(self, vars) := st in
     match l_edge_ids vars with
     | None => Raise AttributeError
     | Some edge_ids =>
         st <- contact hessian_flag first_iter
                       (zero_phase hessian_flag self) vars edge_ids ;;
         let '(self, vars) := st in
         _ <- py_div (l_closest_distance vars) (scale self) ;;
         Ok (report_phase self vars, vars, first_iter, length edge_ids)
     end).
Proof.
  unfold start_server_request, flags_phase.
  destruct (py_int (nth 5 (meta_data self) 0%float)) as [hf|]; cbn [bind];
    [|reflexivity].
  destruct (py_int (nth 0 (meta_data self) 0%float)) as [fi|]; cbn [bind];
    [|reflexivity].
  destruct (py_int (nth 1 (meta_data self) 0%float)) as [fr|]; cbn [bind];
    [|reflexivity].
  unfold detect_phase, contact_phase, zero_phase. cbv beta zeta.
  apply bind_ext. intros [s2 v2].
  destruct (l_edge_ids v2) as [ids|]; [|reflexivity].
  apply bind_ext. intros [s3 v3]. unfold py_div, report_phase.
  destruct (scale s3 =? 0)%float; reflexivity.
Qed.

(** ** What each phase can raise *)

Lemma flags_phase_raises self :
  raises_only (fun e => e = ValueError \/ e = OverflowError)
              (flags_phase self).
Proof.
  unfold flags_phase.
  repeat (apply raises_only_bind; [apply py_int_raises|]; intros ? _).
  apply raises_only_Ok.
Qed.

Lemma jit_detect_collisions_raises e c ids lim nd cl ia :
  raises_only is_ValueError
    (_jit_detect_collisions min_dist_vectorized e c ids lim nd cl ia).
Proof.
  unfold _jit_detect_collisions. cbv zeta.
  apply raises_only_bind.
  { apply raises_only_foldM. intros; apply set_row_raises. }
  intros edges' _. apply raises_only_bind.
  { apply raises_only_foldM. intros st i.
    apply raises_only_bind; [apply setslice_rows_raises|].
    intros; apply raises_only_Ok. }
  intros st _. apply raises_only_bind; [apply np_min_raises|].
  intros; apply raises_only_Ok.
Qed.

Lemma detect_phase_raises fi self vars :
  raises_only is_ValueError (detect fi self vars).
Proof.
  unfold detect_phase. destruct (fi =? 0); [apply raises_only_Ok|].
  cbv zeta. unfold _detect_collisions.
  apply raises_only_bind.
  - apply raises_only_bind; [apply jit_detect_collisions_raises|].
    intros [[[e c] ids] cd] _. apply raises_only_Ok.
  - intros [[s ids] cd] _. apply raises_only_Ok.
Qed.

Lemma prepare_edges_raises self ids :
  raises_only is_ValueError
    (_prepare_edges min_dist_f_out_vectorized self ids).
Proof.
  unfold _prepare_edges, _jit_prepare_edges. cbv zeta.
  destruct (min_dist_f_out_vectorized _) as [dists fo].
  apply raises_only_bind; [apply np_min_raises|].
  intros; apply raises_only_Ok.
Qed.

Lemma assert_raises c msg : raises_only is_AssertionError (assert c msg).
Proof.
  unfold assert. destruct c; [apply raises_only_Ok|].
  apply raises_only_Raise. now exists msg.
Qed.

Lemma get_forces_raises self cp :
  raises_only (fun e => is_AssertionError e \/ is_ValueError e)
              (_get_forces self cp).
Proof.
  unfold _get_forces. destruct cp as [[[e ids] v] s]. cbv zeta.
  apply raises_only_bind.
  { eapply raises_only_impl; [|apply assert_raises]. auto. }
  intros _ _. apply raises_only_bind.
  { eapply raises_only_impl; [|apply assert_raises]. auto. }
  intros _ _. apply raises_only_bind.
  { eapply raises_only_impl; [|apply py_to_cpp_nohess_raises]. auto. }
  intros; apply raises_only_Ok.
Qed.

Lemma validity_check_raises f_test h_test :
  raises_only is_AssertionError (validity_check f_test h_test).
Proof.
  unfold validity_check.
  repeat (apply raises_only_bind; [apply assert_raises|]; intros _ _).
  apply assert_raises.
Qed.

(** The Hessian path raises no assertion error: whatever the validity check
    finds is caught. *)
Lemma get_forces_and_hessian_raises self cp :
  raises_only is_ValueError (_get_forces_and_hessian self cp).
Proof.
  unfold _get_forces_and_hessian. destruct cp as [[[e ids] v] s]. cbv zeta.
  destruct (_chain_rule_contact_hess _ _ _ _ _) as [dE_dx d2E_dx2].
  apply raises_only_bind.
  { pose proof (validity_check_raises
                  (np.sum2 (if friction self =? 0 then dE_dx
                            else madd dE_dx
                                   (_get_ffr e v dE_dx (mu_k self))))
                  (np.sum3 (if friction self =? 0 then d2E_dx2
                            else tadd d2E_dx2
                                   (_chain_rule_friction_jacobian
                                      (ffr_jacobian_func self
                                         (_get_ffr_jacobian_inputs
                                            e v dE_dx (mu_k self)))
                                      d2E_dx2)))) as Hv.
    destruct (validity_check _ _) as [|ex]; [apply raises_only_Ok|].
    destruct (Hv ex eq_refl) as [msg ->]. apply raises_only_Ok. }
  intros tj _. apply raises_only_bind; [|intros; apply raises_only_Ok].
  unfold _py_to_cpp_hess.
  apply raises_only_bind; [apply jit_py_to_cpp_hess_raises|].
  intros; apply raises_only_Ok.
Qed.

Lemma contact_phase_raises hf fi self vars ids :
  raises_only
    (fun e => is_ValueError e \/ e = TypeError
              \/ (is_AssertionError e /\ hf = 0))
    (contact hf fi self vars ids).
Proof.
  unfold contact_phase. destruct (Nat.eqb _ _); [apply raises_only_Ok|].
  cbv zeta. apply raises_only_bind.
  { eapply raises_only_impl; [|apply prepare_edges_raises]. auto. }
  intros [[ec cd] fo] _.
  destruct (if fi =? 0 then l_velocities vars else _) as [vel|];
    [|apply raises_only_Raise; auto].
  apply raises_only_bind; [|intros; apply raises_only_Ok].
  destruct (Z.eqb_spec hf 0) as [->|Hhf].
  - eapply raises_only_impl; [|apply get_forces_raises].
    cbn. intros ex [H|H]; auto.
  - eapply raises_only_impl; [|apply get_forces_and_hessian_raises]. auto.
Qed.

(** ** What each phase returns *)

Lemma flags_phase_Ok self hf fi self1 :
  flags_phase self = Ok (hf, fi, self1) ->
  py_int (nth 5 (meta_data self) 0%float) = Ok hf
  /\ py_int (nth 0 (meta_data self) 0%float) = Ok fi
  /\ exists fr,
       py_int (nth 1 (meta_data self) 0%float) = Ok fr
       /\ self1 = set_node_coordinates
                    (map (fun x => (x * scale self)%float)
                         (node_coordinates self))
                    (set_friction fr self).
Proof.
  unfold flags_phase. intros H.
  apply bind_Ok in H. destruct H as (hf' & H5 & H).
  apply bind_Ok in H. destruct H as (fi' & H0 & H).
  apply bind_Ok in H. destruct H as (fr & H1 & H).
  inversion H; subst. eauto.
Qed.

Lemma detect_phase_Ok fi self1 vars self2 vars2 :
  detect fi self1 vars = Ok (self2, vars2) ->
  (fi = 0 /\ self2 = self1 /\ vars2 = vars)
  \/ (fi <> 0 /\ exists e c ids cd,
        _jit_detect_collisions min_dist_vectorized
          (edges self1) (edge_combos self1) (edge_ids self1)
          (collision_limit self1)
          (node_coordinates self1) (contact_len self1) (ia self1)
        = Ok (e, c, ids, cd)
        /\ self2 = set_scratch e c
                     (set_velocities
                        (map (fun x => (x * scale self1)%float)
                             (velocities self1)) self1)
        /\ vars2 = {| l_edge_ids := Some ids;
                      l_velocities := l_velocities vars;
                      l_closest_distance := cd;
                      l_last_cd := l_last_cd vars |}).
Proof.
  unfold detect_phase. destruct (Z.eqb_spec fi 0) as [->|Hfi].
  - intros H. inversion H. auto.
  - cbv zeta. unfold _detect_collisions. intros H. right. split; [assumption|].
    apply bind_Ok in H. destruct H as ([[s ids] cd] & H & H').
    apply bind_Ok in H. destruct H as ([[[e c] ids'] cd'] & H & H'').
    inversion H''; subst. inversion H'; subst.
    exists e, c, ids, cd. auto.
Qed.

Lemma contact_phase_nil hf fi self vars :
  contact hf fi self vars [] = Ok (self, vars).
Proof. reflexivity. Qed.

Lemma contact_phase_Ok hf fi s vars2 ids self3 vars3 :
  ids <> [] ->
  contact hf fi s vars2 ids = Ok (self3, vars3) ->
  exists ec cd fo vel,
    _jit_prepare_edges min_dist_f_out_vectorized ids (node_coordinates s)
    = Ok (ec, cd, fo)
    /\ (if fi =? 0 then l_velocities vars2
        else Some (_prepare_velocities s ids)) = Some vel
    /\ vars3 = {| l_edge_ids := l_edge_ids vars2;
                  l_velocities := Some vel;
                  l_closest_distance := cd;
                  l_last_cd := l_last_cd vars2 |}
    /\ (if hf =? 0
        then _get_forces
               (if fi =? 0 then s
                else _update_contact_stiffness s cd (l_last_cd vars2))
               (ec, ids, vel, fo)
        else _get_forces_and_hessian
               (if fi =? 0 then s
                else _update_contact_stiffness s cd (l_last_cd vars2))
               (ec, ids, vel, fo)) = Ok self3.
Proof.
  intros Hids. unfold contact_phase.
  destruct ids as [|id ids]; [congruence|]. cbn [length Nat.eqb]. cbv zeta.
  intros H. apply bind_Ok in H. destruct H as ([[ec cd] fo] & Hp & H).
  unfold _prepare_edges in Hp.
  destruct (if fi =? 0 then l_velocities vars2 else _) as [vel|] eqn:Hv;
    [|discriminate].
  apply bind_Ok in H. destruct H as (s3 & Hf & H).
  inversion H; subst. cbn [l_last_cd] in Hf.
  exists ec, cd, fo, vel. auto.
Qed.

Lemma request_Ok self vars self' vars' fi nc :
  request self vars = Ok (self', vars', fi, nc) ->
  exists hf self1 self2 vars2 ids self3,
    flags_phase self = Ok (hf, fi, self1)
    /\ detect fi self1 vars = Ok (self2, vars2)
    /\ l_edge_ids vars2 = Some ids /\ nc = length ids
    /\ contact hf fi (zero_phase hf self2) vars2 ids = Ok (self3, vars')
    /\ self' = report_phase self3 vars'.
Proof.
  rewrite request_phases. intros H.
  apply bind_Ok in H. destruct H as ([[hf fi'] self1] & Hfl & H).
  apply bind_Ok in H. destruct H as ([self2 vars2] & Hd & H).
  destruct (l_edge_ids vars2) as [ids|] eqn:Hids; [|discriminate].
  apply bind_Ok in H. destruct H as ([self3 vars3] & Hc & H).
  apply bind_Ok in H. destruct H as (q & _ & H).
  inversion H; subst.
  exists hf, self1, self2, vars2, ids, self3. auto 10.
Qed.

(** A request is answered only when [scale] is not a zero. *)
Lemma request_scale self vars self' vars' fi nc :
  request self vars = Ok (self', vars', fi, nc) ->
  (scale self' =? 0)%float = false.
Proof.
  rewrite request_phases. intros H.
  apply bind_Ok in H. destruct H as ([[hf fi'] self1] & Hfl & H).
  apply bind_Ok in H. destruct H as ([self2 vars2] & Hd & H).
  destruct (l_edge_ids vars2) as [ids|] eqn:Hids; [|discriminate].
  apply bind_Ok in H. destruct H as ([self3 vars3] & Hc & H).
  apply bind_Ok in H. destruct H as (q & Hq & H).
  inversion H; subst. unfold report_phase. cbn [scale set_meta_data].
  unfold py_div in Hq. destruct (scale self3 =? 0)%float;
    [discriminate|reflexivity].
Qed.

(** The active set of a request stays in the local variable. *)
Lemma contact_phase_edge_ids hf fi s vars2 ids self3 vars3 :
  contact hf fi s vars2 ids = Ok (self3, vars3) ->
  l_edge_ids vars3 = l_edge_ids vars2.
Proof.
  destruct ids as [|id ids].
  - rewrite contact_phase_nil. intros H. now inversion H.
  - intros H. apply contact_phase_Ok in H; [|discriminate].
    destruct H as (ec & cd & fo & vel & _ & _ & -> & _). reflexivity.
Qed.

(** ** The attributes a run leaves alone *)

Lemma request_frame self vars self' vars' fi nc :
  request self vars = Ok (self', vars', fi, nc) -> frame self self'.
Proof.
  intros H. apply request_Ok in H.
  destruct H as (hf & self1 & self2 & vars2 & ids & self3
                 & Hfl & Hd & Hids & Hnc & Hc & ->).
  apply flags_phase_Ok in Hfl. destruct Hfl as (_ & _ & fr & _ & ->).
  unfold report_phase.
  assert (F2 : frame self self2).
  { apply detect_phase_Ok in Hd.
    destruct Hd as [(_ & -> & _)|(_ & e & c & ids' & cd & _ & -> & _)];
      frame_chain. }
  assert (Fz : frame self (zero_phase hf self2)).
  { unfold zero_phase. destruct (hf =? 0); frame_chain. }
  destruct ids as [|id ids].
  - rewrite contact_phase_nil in Hc. inversion Hc; subst. frame_chain.
  - apply contact_phase_Ok in Hc; [|discriminate].
    destruct Hc as (ec & cd & fo & vel & _ & _ & _ & Hf).
    assert (Fk : frame self
                   (if fi =? 0 then zero_phase hf self2
                    else _update_contact_stiffness (zero_phase hf self2) cd
                           (l_last_cd vars2))).
    { destruct (fi =? 0); [exact Fz|].
      eapply frame_trans; [exact Fz|apply frame_update_contact_stiffness]. }
    destruct (hf =? 0).
    + apply get_forces_Ok in Hf. destruct Hf as (f & ->). frame_chain.
    + apply get_forces_and_hessian_Ok in Hf. destruct Hf as (f & h & ->).
      frame_chain.
Qed.

Lemma contact_phase_frame hf fi s vars ids self3 vars3 :
  contact hf fi s vars ids = Ok (self3, vars3) -> frame s self3.
Proof.
  intros Hc. destruct ids as [|id ids].
  - rewrite contact_phase_nil in Hc. inversion Hc; subst. apply frame_refl.
  - apply contact_phase_Ok in Hc; [|discriminate].
    destruct Hc as (ec & cd & fo & vel & _ & _ & _ & Hf).
    assert (Fk : frame s
                   (if fi =? 0 then s
                    else _update_contact_stiffness s cd (l_last_cd vars))).
    { destruct (fi =? 0); [apply frame_refl|].
      apply frame_update_contact_stiffness. }
    destruct (hf =? 0).
    + apply get_forces_Ok in Hf. destruct Hf as (f & ->). frame_chain.
    + apply get_forces_and_hessian_Ok in Hf. destruct Hf as (f & h & ->).
      frame_chain.
Qed.

Lemma socket_recv_frame req self : frame self (socket_recv req self).
Proof. unfold socket_recv, frame. repeat split. Qed.

Lemma serve_frame reqs :
  forall self vars self' vars',
    serve min_dist_vectorized min_dist_f_out_vectorized reqs self vars
    = Ok (self', vars') ->
    frame self self'.
Proof.
  induction reqs as [|req reqs IH]; intros self vars self' vars' H;
    cbn [serve] in H.
  - inversion H. apply frame_refl.
  - apply bind_Ok in H. destruct H as ([[[s1 v1] fi] nc] & Hr & H).
    apply bind_Ok in H. destruct H as (v2 & _ & H).
    apply request_frame in Hr. apply IH in H.
    eapply frame_trans; [apply socket_recv_frame|].
    eapply frame_trans; eassumption.
Qed.

End Requests.

(** * The edge-pair table of [__init__] *)

Lemma flat_map_ext_in {A B} (f g : A -> list B) l :
  (forall a, In a l -> f a = g a) -> flat_map f l = flat_map g l.
Proof.
  induction l as [|a l IH]; intros H; cbn; [reflexivity|].
  rewrite H by now left. f_equal. apply IH. intros; apply H; now right.
Qed.

Lemma filled_eligible_pairs num_edges :
  0 <= num_edges <= 2 ^ 31 ->
  filled (fun i j => (wrap32 i, wrap32 j)) (range 0 num_edges) num_edges 2
  = eligible_pairs num_edges 2.
Proof.
  intros Hne. unfold filled, eligible_pairs.
  apply flat_map_ext_in. intros i Hi. apply in_range_iff in Hi.
  rewrite skipn_range by lia. rewrite Z.add_0_l.
  apply map_ext_in. intros j Hj. apply in_range_iff in Hj.
  now rewrite !wrap32_small by lia.
Qed.

Lemma init_Ok params functions argv1 shm :
  0 <= param_num_nodes params - 1 <= 2 ^ 31 ->
  exists self,
    __init__ params functions argv1 shm = Ok self
    /\ edge_ids self = eligible_pairs (param_num_nodes params - 1) 2
    /\ num_edges self = param_num_nodes params - 1
    /\ ia self = 2
    /\ edges self = np.zeros2 (Z.to_nat (param_num_nodes params - 1)) 6
    /\ edge_combos self
       = np.zeros2 (Z.to_nat (count_edge_combos
                                (param_num_nodes params - 1) 2)) 12
    /\ node_coordinates self = shm_node_coordinates shm
    /\ collision_limit self = param_collision_limit params.
Proof.
  intros Hne. unfold __init__. cbv zeta.
  set (ne := param_num_nodes params - 1) in *.
  destruct (Z.ltb_spec ne 0) as [?|_]; [lia|].
  assert (Hsrc : Z.of_nat (length (range 0 ne)) = ne)
    by (rewrite length_range; lia).
  destruct (fill_loop_filled
              (fun i row => (wrap32 i, snd row))
              (fun row j => (fst row, wrap32 j))
              (fun i j => (wrap32 i, wrap32 j))
              (range 0 ne) ne Hsrc
              (repeat (0, 0) (Z.to_nat (count_edge_combos ne 2))))
    as (ri & Hfill).
  - lia.
  - rewrite repeat_length, filled_eligible_pairs by assumption.
    rewrite count_edge_combos_sum, <- length_eligible_pairs by lia. lia.
  - intros row _ i x _ _. reflexivity.
  - change (fill_edge_ids ne 2 (range 0 ne)
              (repeat (0, 0) (Z.to_nat (count_edge_combos ne 2))))
      with (fill_loop (fun i row => (wrap32 i, snd row))
                      (fun row j => (fst row, wrap32 j))
                      (range 0 ne) ne 2
                      (repeat (0, 0) (Z.to_nat (count_edge_combos ne 2)))).
    rewrite Hfill. cbn [bind snd].
    eexists. split; [reflexivity|]. cbn.
    rewrite filled_eligible_pairs by assumption. auto 10.
Qed.

(** C4: for every number of edges from 0 up to the range of the int32 ids,
    the table that [__init__] builds holds exactly the pairs [(i, j)] with
    [0 <= i < j < num_edges] and [j - i > 2], each once, in ascending
    lexicographic order; the size counted for its allocation is
    [Sigma_i max(0, num_edges - i - 3)], which is the length of the table;
    and no run of the request loop changes the table. *)
Theorem edge_pair_table (params : Params) (functions : Functions)
  (argv1 : Z) (shm : SharedMemory) :
  0 <= param_num_nodes params - 1 <= 2 ^ 31 ->
  exists self,
    __init__ params functions argv1 shm = Ok self
    /\ edge_ids self = eligible_pairs (param_num_nodes params - 1) 2
    /\ (forall i j,
          In (i, j) (edge_ids self)
          <-> 0 <= i /\ i < j /\ j < param_num_nodes params - 1 /\ j - i > 2)
    /\ NoDup (edge_ids self)
    /\ StronglySorted lex_lt (edge_ids self)
    /\ count_edge_combos (param_num_nodes params - 1) 2
       = pair_count (param_num_nodes params - 1) 2
    /\ Z.of_nat (length (edge_ids self))
       = pair_count (param_num_nodes params - 1) 2
    /\ forall min_dist_vectorized min_dist_f_out_vectorized reqs self' vars',
         start_server min_dist_vectorized min_dist_f_out_vectorized self reqs
         = Ok (self', vars') ->
         edge_ids self' = edge_ids self.
Proof.
  intros Hne.
  destruct (init_Ok params functions argv1 shm Hne)
    as (self & Hinit & Hids & _).
  exists self. rewrite Hids.
  repeat split; try assumption.
  - apply in_eligible_pairs in H. lia.
  - apply in_eligible_pairs in H. lia.
  - apply in_eligible_pairs in H. lia.
  - apply in_eligible_pairs in H. lia.
  - intros (H1 & H2 & H3 & H4). apply in_eligible_pairs. lia.
  - apply (sorted_NoDup lex_lt); [apply lex_lt_irrefl|].
    apply sorted_eligible_pairs.
  - apply sorted_eligible_pairs.
  - apply count_edge_combos_sum. lia.
  - apply length_eligible_pairs.
  - intros md mdf reqs self' vars' H. unfold start_server in H.
    apply serve_frame in H. rewrite <- Hids. apply H.
Qed.

Lemma edge_pair_table_witness :
  0 <= param_num_nodes ex_params - 1 <= 2 ^ 31
  /\ exists self,
       __init__ ex_params (ex_functions 1 1) 5555
                (ex_shm ex_hairpin (repeat 0%float 15) (repeat 7%float 15)
                        (repeat (repeat 7%float 15) 15) (repeat 0%float 6))
       = Ok self
       /\ edge_ids self = [(0, 3)].
Proof.
  assert (H : 0 <= param_num_nodes ex_params - 1 <= 2 ^ 31)
    by (cbn; lia).
  split; [exact H|].
  destruct (edge_pair_table ex_params (ex_functions 1 1) 5555
              (ex_shm ex_hairpin (repeat 0%float 15) (repeat 7%float 15)
                      (repeat (repeat 7%float 15) 15) (repeat 0%float 6)) H)
    as (self & Hinit & Hids & _).
  exists self. split; [exact Hinit|]. rewrite Hids. reflexivity.
Defined.

(** * The order of binary64 numbers *)

Lemma SFleb_trans x y z :
  SFleb x y = true -> SFleb y z = true -> SFleb x z = true.
Proof.
  unfold SFleb, SFcompare.
  destruct x as [s1|s1| |s1 m1 e1], y as [s2|s2| |s2 m2 e2],
           z as [s3|s3| |s3 m3 e3];
    try discriminate; try reflexivity;
    try (destruct s1, s2, s3; (discriminate || reflexivity));
    try (destruct s1, s2; (discriminate || reflexivity));
    try (destruct s1, s3; (discriminate || reflexivity));
    try (destruct s2, s3; (discriminate || reflexivity));
    try (destruct s1; (discriminate || reflexivity));
    try (destruct s2; (discriminate || reflexivity));
    try (destruct s3; (discriminate || reflexivity)).
  change (Pos.compare_cont Eq m1 m2) with (Pos.compare m1 m2).
  change (Pos.compare_cont Eq m2 m3) with (Pos.compare m2 m3).
  change (Pos.compare_cont Eq m1 m3) with (Pos.compare m1 m3).
  destruct s1, s2, s3; try discriminate; try reflexivity;
    destruct (Z.compare_spec e1 e2), (Z.compare_spec e2 e3),
             (Z.compare_spec e1 e3);
    try discriminate; try reflexivity; try lia;
    destruct (Pos.compare_spec m1 m2), (Pos.compare_spec m2 m3),
             (Pos.compare_spec m1 m3);
    cbn; try discriminate; try reflexivity; lia.
Qed.

Lemma leb_trans x y z :
  (x <=? y)%float = true -> (y <=? z)%float = true -> (x <=? z)%float = true.
Proof. rewrite !leb_spec. apply SFleb_trans. Qed.

Lemma ltb_leb x y : (x <? y)%float = true -> (x <=? y)%float = true.
Proof.
  rewrite ltb_spec, leb_spec. unfold SFltb, SFleb.
  destruct (SFcompare _ _) as [[]|]; congruence.
Qed.

Lemma leb_refl x : is_nan x = false -> (x <=? x)%float = true.
Proof.
  intros H. rewrite leb_spec. unfold SFleb. rewrite SFcompare_refl; auto.
  intros E. apply is_nan_spec in E. congruence.
Qed.

Lemma is_nan_false x : is_nan x = false -> Prim2SF x <> S754_nan.
Proof. intros H E. apply is_nan_spec in E. congruence. Qed.

(** ** [np.min] returns a minimum *)

Lemma min_from_spec l : forall m,
  is_nan m = false -> existsb is_nan l = false ->
  let r := np.min_from m l in
  is_nan r = false /\ In r (m :: l) /\ (r <=? m)%float = true
  /\ Forall (fun x => (r <=? x)%float = true) l.
Proof.
  induction l as [|v l IH]; intros m Hm Hl; cbn [np.min_from].
  - cbn. repeat split; auto using leb_refl.
  - cbn [existsb] in Hl. apply orb_false_iff in Hl. destruct Hl as [Hv Hl].
    rewrite Hv. destruct (v <? m)%float eqn:E.
    + destruct (IH v Hv Hl) as (Hr & Hin & Hle & Hall).
      repeat split; auto.
      * destruct Hin as [<-|Hin]; [right; now left|right; now right].
      * eapply leb_trans; [exact Hle|now apply ltb_leb].
    + destruct (IH m Hm Hl) as (Hr & Hin & Hle & Hall).
      repeat split; auto.
      * destruct Hin as [<-|Hin]; [now left|right; now right].
      * constructor; [|assumption].
        eapply leb_trans; [exact Hle|].
        apply ltb_false_leb; auto using is_nan_false.
Qed.

Lemma np_min_spec l m :
  np.min l = Ok m -> existsb is_nan l = false ->
  In m l /\ Forall (fun x => (m <=? x)%float = true) l.
Proof.
  destruct l as [|v l]; cbn [np.min existsb]; [discriminate|].
  intros H Hl. apply orb_false_iff in Hl. destruct Hl as [Hv Hl].
  rewrite Hv in H. inversion H; subst.
  destruct (min_from_spec l v Hv Hl) as (_ & Hin & Hle & Hall).
  split; [exact Hin|]. constructor; assumption.
Qed.

(** A NaN among the distances comes out of [np.min]. *)
Lemma min_from_nan l : forall m,
  existsb is_nan l = true -> is_nan (np.min_from m l) = true.
Proof.
  induction l as [|v l IH]; intros m Hl; cbn [np.min_from existsb] in *;
    [discriminate|].
  destruct (is_nan v) eqn:Hv; [exact Hv|]. cbn [orb] in Hl.
  destruct (v <? m)%float; now apply IH.
Qed.

Lemma np_min_nan l m :
  np.min l = Ok m -> existsb is_nan l = true -> is_nan m = true.
Proof.
  destruct l as [|v l]; cbn [np.min existsb]; [discriminate|].
  destruct (is_nan v) eqn:Hv; intros H Hl; inversion H; subst;
    [exact Hv|]. now apply min_from_nan.
Qed.

Lemma np_min_Ok l : l <> [] -> exists m, np.min l = Ok m.
Proof.
  destruct l as [|v l]; [congruence|]. intros _. cbn.
  destruct (is_nan v); eauto.
Qed.

(** * The collision detector *)

Lemma take_where_from {A} (d : A) (c : float -> bool) :
  forall (ds : vec) (l pre : list A),
    length ds = length l ->
    np.take d (pre ++ l)
            (np.where_from (Z.of_nat (length pre)) (map c ds))
    = map snd (filter (fun p => c (fst p)) (combine ds l)).
Proof.
  induction ds as [|x ds IH]; intros [|a l] pre Hl; cbn in Hl;
    try discriminate; [reflexivity|].
  cbn [map np.where_from combine filter fst].
  assert (E : pre ++ a :: l = (pre ++ [a]) ++ l)
    by now rewrite <- app_assoc.
  assert (Hn : Z.of_nat (length pre) + 1 = Z.of_nat (length (pre ++ [a])))
    by (rewrite length_app; cbn; lia).
  destruct (c x); cbn [np.take map snd].
  - f_equal.
    + rewrite Nat2Z.id. now rewrite nth_middle.
    + rewrite Hn, E. apply IH. lia.
  - rewrite Hn, E. apply IH. lia.
Qed.

Lemma take_where {A} (d : A) (c : float -> bool) ds (l : list A) :
  length ds = length l ->
  np.take d l (np.where_ (map c ds))
  = map snd (filter (fun p => c (fst p)) (combine ds l)).
Proof. intros H. apply (take_where_from d c ds l [] H). Qed.

Lemma length_getslice {A} (l : list A) a b :
  0 <= a <= b -> b <= Z.of_nat (length l) ->
  length (getslice l a b) = Z.to_nat (b - a).
Proof.
  intros Hab Hb. unfold getslice.
  rewrite !slice_index_in_range by lia.
  rewrite length_firstn, length_skipn. lia.
Qed.

Lemma length_edge_of nd i n :
  Z.of_nat (length nd) = 3 * (n + 1) -> 0 <= i < n ->
  length (edge_of nd i) = 6%nat.
Proof.
  intros Hn Hi. unfold edge_of. rewrite length_getslice; lia.
Qed.

(** The two column assignments of a row of twelve. *)
Lemma set_cols_pair (b x row : vec) :
  length b = 6%nat -> length x = 6%nat -> length row = 12%nat ->
  set_cols 6 x (set_cols 0 b row) = b ++ x.
Proof.
  intros Hb Hx Hr.
  do 6 (destruct b as [|? b]; [discriminate|]).
  destruct b; [|discriminate].
  do 6 (destruct x as [|? x]; [discriminate|]).
  destruct x; [|discriminate].
  do 12 (destruct row as [|? row]; [discriminate|]).
  destruct row; [|discriminate].
  reflexivity.
Qed.

Lemma set_row_middle (l1 : mat) (row : vec) (l2 : mat) (x : vec) :
  length row = length x ->
  set_row (l1 ++ row :: l2) (Z.of_nat (length l1)) x = Ok (l1 ++ x :: l2).
Proof.
  intros H. unfold set_row. rewrite Nat2Z.id.
  rewrite nth_error_app2 by lia. rewrite Nat.sub_diag. cbn [nth_error].
  rewrite H, Nat.eqb_refl, firstn_length_app.
  replace (S (length l1)) with (length (l1 ++ [row]))
    by (rewrite length_app; cbn; lia).
  change (l1 ++ row :: l2) with (l1 ++ [row] ++ l2).
  now rewrite app_assoc, skipn_length_app.
Qed.

(** The first loop: [edges[i] = node_data[3*i:3*i+6]]. *)
Lemma edges_loop nd (k : nat) :
  forall old rest,
    length old = k -> width 6 old ->
    Forall (fun i => length (edge_of nd i) = 6%nat) (range 0 (Z.of_nat k)) ->
    foldM (fun edges i => set_row edges i (getslice nd (3 * i) (3 * i + 6)))
          (range 0 (Z.of_nat k)) (old ++ rest)
    = Ok (map (edge_of nd) (range 0 (Z.of_nat k)) ++ rest).
Proof.
  induction k as [|k IH]; intros old rest Hl Hw Hs.
  - destruct old; [reflexivity|discriminate].
  - rewrite Nat2Z.inj_succ, <- Z.add_1_r in *.
    rewrite range_snoc in * by lia. rewrite foldM_app.
    apply Forall_app in Hs. destruct Hs as [Hs Hk].
    inversion Hk as [|? ? Hk' _]; subst.
    pose proof (firstn_skipn k old) as Ho.
    assert (H1 : length (firstn k old) = k) by (rewrite length_firstn; lia).
    destruct (skipn k old) as [|row [|? ?]] eqn:Esk;
      try (apply (f_equal (@length _)) in Esk;
           rewrite length_skipn in Esk; cbn [length] in Esk; lia).
    rewrite <- Ho in Hw |- *. apply Forall_app in Hw. destruct Hw as [Hw1 Hw2].
    inversion Hw2 as [|? ? Hrow _]; subst.
    rewrite <- app_assoc. rewrite IH by assumption.
    cbn [bind foldM app].
    assert (Hlen : length (map (edge_of nd) (range 0 (Z.of_nat k))) = k)
      by (rewrite length_map, length_range; lia).
    pose proof (set_row_middle (map (edge_of nd) (range 0 (Z.of_nat k)))
                  row rest (edge_of nd (Z.of_nat k))) as Hset.
    rewrite Hlen in Hset.
    change (getslice nd (3 * Z.of_nat k) (3 * Z.of_nat k + 6))
      with (edge_of nd (Z.of_nat k)).
    rewrite Hset by (rewrite Hrow; symmetry; exact Hk').
    cbn [bind]. rewrite map_app. cbn [map]. now rewrite <- app_assoc.
Qed.

Lemma map_flat_map {A B C} (h : B -> C) (g : A -> list B) l :
  map h (flat_map g l) = flat_map (fun a => map h (g a)) l.
Proof.
  induction l as [|a l IH]; cbn; [reflexivity|]. now rewrite map_app, IH.
Qed.

Lemma nth_map_range {A} (h : Z -> A) n i d :
  0 <= i < n -> nth (Z.to_nat i) (map h (range 0 n)) d = h i.
Proof.
  intros Hi. rewrite (nth_map_lt h _ _ 0 d) by (rewrite length_range; lia).
  f_equal. unfold range.
  rewrite (nth_map_lt _ _ _ 0%nat 0) by (rewrite length_seq; lia).
  rewrite seq_nth by lia. lia.
Qed.

(** The table that the second loop builds from the edges. *)
Lemma filled_combined nd n :
  0 <= n ->
  Forall (fun i => length (edge_of nd i) = 6%nat) (range 0 n) ->
  filled (fun i e => nth (Z.to_nat i) (map (edge_of nd) (range 0 n)) [] ++ e)
         (map (edge_of nd) (range 0 n)) n 2
  = map (combined nd) (eligible_pairs n 2).
Proof.
  intros Hn Hlen. unfold filled, eligible_pairs. rewrite map_flat_map.
  apply flat_map_ext_in. intros i Hi. apply in_range_iff in Hi.
  rewrite skipn_map, skipn_range, Z.add_0_l by lia.
  rewrite !map_map. apply map_ext. intros j. unfold combined. cbn [fst snd].
  now rewrite nth_map_range by lia.
Qed.

Section Detector.
Context {num : Numerics}.
Variable min_dist_vectorized : mat -> vec.
Hypothesis one_distance_per_pair :
  forall rows, length (min_dist_vectorized rows) = length rows.

Lemma jit_detect_collisions_Ok self :
  table_shapes self -> edge_ids self <> [] ->
  exists closest,
    _jit_detect_collisions min_dist_vectorized (edges self) (edge_combos self)
      (edge_ids self) (collision_limit self) (node_coordinates self)
      (contact_len self) (ia self)
    = Ok (map (edge_of (node_coordinates self)) (range 0 (num_edges self)),
          map (combined (node_coordinates self)) (edge_ids self),
          within_limit (pair_distances min_dist_vectorized self)
                       (edge_ids self) (contact_len self)
                       (collision_limit self),
          closest)
    /\ np.min (pair_distances min_dist_vectorized self) = Ok closest.
Proof.
  intros (Hne & Hia & Hids & Hel & Hew & Hcl & Hcw & Hnd) Hne0.
  set (nd := node_coordinates self) in *.
  set (n := num_edges self) in *.
  assert (Hsl : Forall (fun i => length (edge_of nd i) = 6%nat) (range 0 n)).
  { apply Forall_forall. intros i Hi. apply in_range_iff in Hi.
    now apply (length_edge_of nd i n). }
  unfold _jit_detect_collisions. cbv zeta. rewrite Hel, Hia.
  (* first loop *)
  pose proof (edges_loop nd (length (edges self)) (edges self) []
                eq_refl Hew) as H1.
  rewrite Hel, !app_nil_r in H1. rewrite (H1 Hsl). cbn [bind]. clear H1.
  set (E := map (edge_of nd) (range 0 n)).
  assert (HE : Z.of_nat (length E) = n)
    by (unfold E; rewrite length_map, length_range; lia).
  (* second loop *)
  destruct (fill_loop_filled
              (fun i row => set_cols 0 (nth (Z.to_nat i) E []) row)
              (fun row e => set_cols 6 e row)
              (fun i e => nth (Z.to_nat i) E [] ++ e)
              E n HE (edge_combos self)) as (ri & Hfill).
  - exact Hne.
  - unfold E. rewrite filled_combined by assumption.
    now rewrite length_map, <- Hids.
  - intros row Hrow i x Hi Hx. apply set_cols_pair.
    + unfold E. rewrite nth_map_range by lia.
      now apply (length_edge_of nd i n).
    + unfold E in Hx. apply in_map_iff in Hx. destruct Hx as (j & <- & Hj).
      apply in_range_iff in Hj. now apply (length_edge_of nd j n).
    + unfold width in Hcw. rewrite Forall_forall in Hcw. now apply Hcw.
  - match goal with
    | |- context [foldM ?F (range 0 n) (0, edge_combos self)] =>
        change (foldM F (range 0 n) (0, edge_combos self))
          with (fill_loop
                  (fun i row => set_cols 0 (nth (Z.to_nat i) E []) row)
                  (fun row e => set_cols 6 e row) E n 2 (edge_combos self))
    end.
    assert (Hfc : filled (fun i e => nth (Z.to_nat i) E [] ++ e) E n 2
                  = map (combined nd) (edge_ids self))
      by (unfold E; rewrite filled_combined by assumption; now rewrite Hids).
    rewrite Hfc in Hfill. rewrite Hfill. cbn [bind snd].
    change (min_dist_vectorized (map (combined nd) (edge_ids self)))
      with (pair_distances min_dist_vectorized self).
    assert (Hlen : length (pair_distances min_dist_vectorized self)
                   = length (edge_ids self)).
    { unfold pair_distances.
      now rewrite one_distance_per_pair, length_map. }
    destruct (np_min_Ok (pair_distances min_dist_vectorized self))
      as (closest & Hmin).
    { intros E0. rewrite E0 in Hlen. destruct (edge_ids self);
        [congruence|discriminate]. }
    exists closest. rewrite Hmin. cbn [bind]. split; [|reflexivity].
    unfold within_limit.
    rewrite <- (take_where (0, 0)
                  (fun d => (d - contact_len self <? collision_limit self)%float))
      by assumption.
    reflexivity.
Qed.

End Detector.

Lemma in_within_limit minDs table cl lim p :
  In p (within_limit minDs table cl lim)
  <-> exists d, In (d, p) (combine minDs table)
                /\ (d - cl <? lim)%float = true.
Proof.
  unfold within_limit. rewrite in_map_iff. split.
  - intros ([d q] & <- & H). apply filter_In in H. cbn in *. eauto.
  - intros (d & Hin & Hd). exists (d, p). split; [reflexivity|].
    apply filter_In. auto.
Qed.

(** * One request *)

Section OneRequest.
Context {num : Numerics}.
Variable min_dist_vectorized : mat -> vec.
Variable min_dist_f_out_vectorized : mat -> vec * mat.

Local Abbreviation request :=
  (start_server_request min_dist_vectorized min_dist_f_out_vectorized).
Local Abbreviation contact := (contact_phase min_dist_f_out_vectorized).

(** The state in which the contact phase starts. *)
Lemma request_before_contact self vars self' vars' fi nc :
  request self vars = Ok (self', vars', fi, nc) ->
  exists hf self2 vars2 ids self3,
    py_int (nth 5 (meta_data self) 0%float) = Ok hf
    /\ py_int (nth 0 (meta_data self) 0%float) = Ok fi
    /\ l_edge_ids vars2 = Some ids /\ nc = length ids
    /\ l_last_cd vars2 = l_last_cd vars
    /\ (fi = 0 -> vars2 = vars)
    /\ contact_len self2 = contact_len self
    /\ contact_stiffness self2 = contact_stiffness self
    /\ forces self2 = forces self
    /\ hessian self2 = hessian self
    /\ node_coordinates self2
       = map (fun x => (x * scale self)%float) (node_coordinates self)
    /\ contact hf fi (zero_phase hf self2) vars2 ids = Ok (self3, vars')
    /\ self' = report_phase self3 vars'.
Proof.
  intros H. apply request_Ok in H.
  destruct H as (hf & self1 & self2 & vars2 & ids & self3
                 & Hfl & Hd & Hids & Hnc & Hc & ->).
  apply flags_phase_Ok in Hfl. destruct Hfl as (H5 & H0 & fr & _ & ->).
  exists hf, self2, vars2, ids, self3.
  apply detect_phase_Ok in Hd.
  destruct Hd as [(Hfi & -> & ->)|(Hfi & e & c & ids' & cd & _ & -> & ->)];
    cbn; repeat split; auto; try lia.
Qed.

Lemma zero_phase_fields hf s :
  contact_len (zero_phase hf s) = contact_len s
  /\ contact_stiffness (zero_phase hf s) = contact_stiffness s
  /\ node_coordinates (zero_phase hf s) = node_coordinates s
  /\ forces (zero_phase hf s) = map (fun _ => 0%float) (forces s)
  /\ hessian (zero_phase hf s)
     = if hf =? 0 then hessian s
       else map (map (fun _ => 0%float)) (hessian s).
Proof. unfold zero_phase. destruct (hf =? 0); cbn; auto. Qed.

(** What the contact phase does to the stiffness. *)
Lemma contact_phase_stiffness hf fi s vars2 ids self3 vars3 :
  contact hf fi s vars2 ids = Ok (self3, vars3) ->
  contact_stiffness self3
  = if (fi =? 0) || Nat.eqb (length ids) 0 then contact_stiffness s
    else contact_stiffness
           (_update_contact_stiffness s (l_closest_distance vars3)
                                      (l_last_cd vars2)).
Proof.
  destruct ids as [|id ids].
  - rewrite contact_phase_nil. intros H. inversion H; subst.
    now rewrite orb_true_r.
  - intros H. apply contact_phase_Ok in H; [|discriminate].
    destruct H as (ec & cd & fo & vel & _ & _ & -> & Hf).
    cbn [length Nat.eqb orb l_closest_distance]. rewrite orb_false_r.
    assert (E : contact_stiffness self3
                = contact_stiffness
                    (if fi =? 0 then s
                     else _update_contact_stiffness s cd (l_last_cd vars2))).
    { destruct (hf =? 0).
      - apply get_forces_Ok in Hf. destruct Hf as (f & ->). reflexivity.
      - apply get_forces_and_hessian_Ok in Hf.
        destruct Hf as (f & h & ->). reflexivity. }
    rewrite E. now destruct (fi =? 0).
Qed.

(** The closest distance that reaches the stiffness controller is the
    minimum over the active pairs. *)
Lemma contact_phase_distance hf fi s vars2 ids self3 vars3 :
  ids <> [] ->
  contact hf fi s vars2 ids = Ok (self3, vars3) ->
  np.min (fst (min_dist_f_out_vectorized
                 (map (pair_row (node_coordinates s)) ids)))
  = Ok (l_closest_distance vars3).
Proof.
  intros Hids H. apply contact_phase_Ok in H; [|assumption].
  destruct H as (ec & cd & fo & vel & Hp & _ & -> & _).
  unfold _jit_prepare_edges in Hp. cbv zeta in Hp.
  destruct (min_dist_f_out_vectorized _) as [dists fo'].
  apply bind_Ok in Hp. destruct Hp as (cd' & Hmin & Hp).
  inversion Hp; subst. exact Hmin.
Qed.

End OneRequest.

(** * The claims about a request *)

(** C3 (as amended): if the active contact set of a request is empty, then
    after the request is serviced the force buffer is exactly zero, whatever
    it held before and whatever the Hessian flag; the Hessian buffer is
    exactly zero when the Hessian is requested, and keeps its contents when
    it is not. *)
Theorem zero_contact_step (min_dist_vectorized : mat -> vec)
  (min_dist_f_out_vectorized : mat -> vec * mat)
  (self : IMC) (vars : Locals) (self' : IMC) (vars' : Locals)
  (first_iter : Z) (num_con : nat) :
  start_server_request min_dist_vectorized min_dist_f_out_vectorized
                       self vars
  = Ok (self', vars', first_iter, num_con) ->
  l_edge_ids vars' = Some [] ->
  forces self' = map (fun _ => 0%float) (forces self)
  /\ exists hessian_flag,
       py_int (nth 5 (meta_data self) 0%float) = Ok hessian_flag
       /\ hessian self'
          = if hessian_flag =? 0 then hessian self
            else map (map (fun _ => 0%float)) (hessian self).
Proof.
  intros H Hempty. apply request_before_contact in H.
  destruct H as (hf & self2 & vars2 & ids & self3 & H5 & H0 & Hids & Hnc
                 & Hlast & Hvars & Hcl & Hk & Hf & Hh & Hx & Hc & ->).
  pose proof (contact_phase_edge_ids _ _ _ _ _ _ _ _ Hc) as Hsame.
  rewrite Hempty, Hids in Hsame. inversion Hsame; subst ids.
  rewrite contact_phase_nil in Hc. inversion Hc; subst.
  destruct (zero_phase_fields hf self2) as (_ & _ & _ & Hzf & Hzh).
  cbn [report_phase forces hessian set_meta_data].
  rewrite Hzf, Hzh, Hf, Hh. eauto.
Qed.

Lemma zero_contact_step_witness :
  exists self' vars',
    start_server_request ex_min_dist_vectorized ex_min_dist_f_out_vectorized
      (ex_imc 1 1 ex_straight (repeat 0%float 15) (ex_meta 1 1))
      initial_locals
    = Ok (self', vars', 1, 0%nat)
    /\ l_edge_ids vars' = Some []
    /\ forces self' = repeat 0%float 15
    /\ hessian self' = repeat (repeat 0%float 15) 15.
Proof.
  destruct (start_server_request ex_min_dist_vectorized
              ex_min_dist_f_out_vectorized
              (ex_imc 1 1 ex_straight (repeat 0%float 15) (ex_meta 1 1))
              initial_locals)
    as [[[[self' vars'] fi] nc]|e] eqn:E.
  - assert (Hv : l_edge_ids vars' = Some [] /\ fi = 1 /\ nc = 0%nat).
    { pose proof E as E'. vm_compute in E'. inversion E'. auto. }
    destruct Hv as (Hv & -> & ->).
    destruct (zero_contact_step _ _ _ _ _ _ _ _ E Hv)
      as (Hf & hf & H5 & Hh).
    exists self', vars'. repeat split; try assumption.
    vm_compute in H5. inversion H5; subst hf. exact Hh.
  - vm_compute in E. discriminate.
Defined.

(** C3 as it was stated fails when the Hessian is not requested: the
    straight rod has no active pair, and the sevens in the Hessian buffer
    are still there after the request. *)
Lemma zero_contact_keeps_hessian :
  exists self' vars',
    start_server_request ex_min_dist_vectorized ex_min_dist_f_out_vectorized
      (ex_imc 1 1 ex_straight (repeat 0%float 15) (ex_meta 1 0))
      initial_locals
    = Ok (self', vars', 1, 0%nat)
    /\ l_edge_ids vars' = Some []
    /\ forces self' = repeat 0%float 15
    /\ hessian self' = repeat (repeat 7%float 15) 15
    /\ hessian self' <> repeat (repeat 0%float 15) 15.
Proof.
  do 2 eexists. split; [vm_compute; reflexivity|].
  repeat split; try reflexivity. cbn. discriminate.
Qed.

(** C2 (as amended): a request without the [first_iteration] flag leaves
    [contact_stiffness] unchanged; so does a request whose active contact
    set is empty, with or without the flag; on a request with the flag and
    a non-empty active set the stiffness controller is run exactly once, on
    the old stiffness, with the previous time step's closest distance and
    the closest distance just recomputed over the active pairs from the
    scaled positions. *)
Theorem stiffness_update_once (min_dist_vectorized : mat -> vec)
  (min_dist_f_out_vectorized : mat -> vec * mat)
  (self : IMC) (vars : Locals) (self' : IMC) (vars' : Locals)
  (first_iter : Z) (num_con : nat) :
  start_server_request min_dist_vectorized min_dist_f_out_vectorized
                       self vars
  = Ok (self', vars', first_iter, num_con) ->
  (first_iter = 0 -> contact_stiffness self' = contact_stiffness self)
  /\ (num_con = 0%nat -> contact_stiffness self' = contact_stiffness self)
  /\ (first_iter <> 0 -> num_con <> 0%nat ->
      contact_stiffness self'
      = contact_stiffness
          (_update_contact_stiffness self (l_closest_distance vars')
                                     (l_last_cd vars))
      /\ exists active,
           l_edge_ids vars' = Some active /\ length active = num_con
           /\ np.min
                (fst (min_dist_f_out_vectorized
                        (map (pair_row
                                (map (fun x => (x * scale self)%float)
                                     (node_coordinates self)))
                             active)))
              = Ok (l_closest_distance vars')).
Proof.
  intros H. apply request_before_contact in H.
  destruct H as (hf & self2 & vars2 & ids & self3 & H5 & H0 & Hids & Hnc
                 & Hlast & Hvars & Hcl & Hk & Hf & Hh & Hx & Hc & ->).
  destruct (zero_phase_fields hf self2) as (Hzl & Hzk & Hzx & _ & _).
  pose proof (contact_phase_stiffness _ _ _ _ _ _ _ _ Hc) as Hs.
  cbn [report_phase contact_stiffness set_meta_data].
  rewrite Hs, Hzk, Hk, <- Hnc. clear Hs.
  split; [|split].
  - intros ->. reflexivity.
  - intros ->. now rewrite orb_true_r.
  - intros Hfi Hn.
    destruct (Z.eqb_spec first_iter 0) as [?|_]; [contradiction|].
    destruct (Nat.eqb_spec num_con 0) as [?|_]; [contradiction|].
    cbn [orb]. split.
    + rewrite Hlast. apply update_contact_stiffness_ext; congruence.
    + exists ids. rewrite <- (contact_phase_edge_ids _ _ _ _ _ _ _ _ Hc) in Hids.
      split; [exact Hids|]. split; [now symmetry|].
      rewrite <- Hx, <- Hzx.
      eapply contact_phase_distance; [|exact Hc].
      intros ->. now apply Hn.
Qed.

Lemma stiffness_update_once_witness :
  exists self' vars',
    start_server_request ex_min_dist_vectorized ex_min_dist_f_out_vectorized
      (ex_imc 1 1 ex_hairpin (repeat 0%float 15) (ex_meta 1 0))
      {| l_edge_ids := None; l_velocities := None;
         l_closest_distance := 0.1; l_last_cd := 0.1 |}
    = Ok (self', vars', 1, 1%nat)
    /\ l_closest_distance vars' = 0.08%float
    /\ contact_stiffness self' = 1.01%float.
Proof.
  destruct (start_server_request ex_min_dist_vectorized
              ex_min_dist_f_out_vectorized
              (ex_imc 1 1 ex_hairpin (repeat 0%float 15) (ex_meta 1 0))
              {| l_edge_ids := None; l_velocities := None;
                 l_closest_distance := 0.1; l_last_cd := 0.1 |})
    as [[[[self' vars'] fi] nc]|e] eqn:E.
  - assert (Hv : l_closest_distance vars' = 0.08%float /\ fi = 1
                 /\ nc = 1%nat).
    { pose proof E as E'. vm_compute in E'. inversion E'. auto. }
    destruct Hv as (Hv & -> & ->).
    destruct (stiffness_update_once _ _ _ _ _ _ _ _ E) as (_ & _ & H).
    destruct H as (Hk & _); [discriminate|discriminate|].
    exists self', vars'. split; [reflexivity|]. split; [exact Hv|].
    rewrite Hk, Hv. vm_compute. reflexivity.
  - vm_compute in E. discriminate.
Defined.

(** C2 as it was stated fails on a first iteration without contact: the
    straight rod has an empty active set, the global minimum distance just
    computed is 2, the previous one 0; the controller run on these would
    decay the stiffness to 0.999, and the request leaves it at 1. *)
Lemma stiffness_not_updated_without_contact :
  exists self' vars',
    start_server_request ex_min_dist_vectorized ex_min_dist_f_out_vectorized
      (ex_imc 1 1 ex_straight (repeat 0%float 15) (ex_meta 1 0))
      initial_locals
    = Ok (self', vars', 1, 0%nat)
    /\ l_edge_ids vars' = Some []
    /\ l_closest_distance vars' = 2%float
    /\ contact_stiffness self' = 1%float
    /\ contact_stiffness
         (_update_contact_stiffness
            (ex_imc 1 1 ex_straight (repeat 0%float 15) (ex_meta 1 0))
            2 (l_last_cd initial_locals))
       = 0.999%float.
Proof.
  do 2 eexists. split; [vm_compute; reflexivity|].
  repeat split; vm_compute; reflexivity.
Qed.

(** * The validity check *)

Lemma isnan_isinf_nonfinite x :
  nonfinite x = true -> np.isnan x = false -> np.isinf x = true.
Proof.
  unfold nonfinite. intros H Hn. rewrite Hn in H. exact H.
Qed.

(** The force-only path aborts on an invalid sum of the forces... *)
Lemma assert_forces_raise f_test :
  nonfinite f_test = true ->
  exists msg,
    (_ <- assert (negb (np.isnan f_test)) Force_had_a_nan ;;
     assert (negb (np.isinf f_test)) Force_had_an_inf)
    = Raise (AssertionError msg).
Proof.
  intros H. destruct (np.isnan f_test) eqn:Hn.
  - cbn [negb assert bind]. eauto.
  - rewrite (isnan_isinf_nonfinite _ H Hn). cbn [negb assert bind]. eauto.
Qed.

(** ... and so does the check of the Hessian path, on an invalid sum of the
    forces or of the jacobian. *)
Lemma validity_check_fails f_test h_test :
  nonfinite f_test || nonfinite h_test = true ->
  exists msg, validity_check f_test h_test = Raise (AssertionError msg).
Proof.
  intros H. unfold validity_check.
  destruct (nonfinite f_test) eqn:Hf.
  - destruct (np.isnan f_test) eqn:Hn; [cbn [negb assert bind]; eauto|].
    rewrite (isnan_isinf_nonfinite _ Hf Hn). cbn [negb assert bind]. eauto.
  - cbn [orb] in H. unfold nonfinite in Hf. apply orb_false_iff in Hf.
    destruct Hf as [-> ->]. cbn [negb assert bind].
    destruct (np.isnan h_test) eqn:Hn; [cbn [negb assert bind]; eauto|].
    rewrite (isnan_isinf_nonfinite _ H Hn). cbn [negb assert bind]. eauto.
Qed.

Lemma invalid_aggregate_sums {num : Numerics} total_forces total_jacobian :
  sum_propagates np_sum ->
  invalid_aggregate total_forces total_jacobian = true ->
  nonfinite (np.sum2 total_forces) || nonfinite (np.sum3 total_jacobian)
  = true.
Proof.
  unfold invalid_aggregate, np.sum2, np.sum3. intros Hs H.
  apply orb_true_iff in H. apply orb_true_iff.
  destruct H as [H|H]; [left|right]; now apply Hs.
Qed.

(** The Hessian path is the write-out of the aggregate forces with either
    the aggregate jacobian or, after a failed check, the conservative one. *)
Lemma get_forces_and_hessian_write_out {num : Numerics} self cp :
  _get_forces_and_hessian self cp
  = write_out self (fst (aggregate_terms self cp))
      (match validity_check (np.sum2 (fst (aggregate_terms self cp)))
                            (np.sum3 (snd (aggregate_terms self cp))) with
       | Ok _ => snd (aggregate_terms self cp)
       | Raise _ => snd (conservative_terms self cp)
       end)
      (pairs_of cp).
Proof.
  unfold _get_forces_and_hessian, aggregate_terms, conservative_terms,
    pairs_of, write_out.
  destruct cp as [[[e ids] v] s]. cbv zeta.
  destruct (_chain_rule_contact_hess _ _ _ _ _) as [dE_dx d2E_dx2].
  cbn [fst snd].
  pose proof (validity_check_raises
                (np.sum2 (if friction self =? 0 then dE_dx
                          else madd dE_dx (_get_ffr e v dE_dx (mu_k self))))
                (np.sum3 (if friction self =? 0 then d2E_dx2
                          else tadd d2E_dx2
                                 (_chain_rule_friction_jacobian
                                    (ffr_jacobian_func self
                                       (_get_ffr_jacobian_inputs
                                          e v dE_dx (mu_k self)))
                                    d2E_dx2)))) as Hv.
  destruct (validity_check _ _) as [|ex]; [reflexivity|].
  destruct (Hv ex eq_refl) as [msg ->]. reflexivity.
Qed.

(** * The write-out succeeds on well-shaped data *)

Lemma setslice_rows_Ok {A B} (g : A -> B -> A) (l : list A) a b xs :
  0 <= a -> a + Z.of_nat (length xs) = b -> b <= Z.of_nat (length l) ->
  exists l', setslice_rows g l a b xs = Ok l' /\ length l' = length l.
Proof.
  intros Ha Hb Hl. unfold setslice_rows.
  rewrite !slice_index_in_range by lia.
  assert (Hrows : length (firstn (Z.to_nat (b - a)) (skipn (Z.to_nat a) l))
                  = length xs).
  { rewrite length_firstn, length_skipn. lia. }
  rewrite Hrows, Nat.eqb_refl. eexists. split; [reflexivity|].
  rewrite !length_app, length_map, length_combine, Hrows, length_firstn,
    length_skipn.
  lia.
Qed.

Lemma mapM2_Ok {A B C} (P : C -> Prop) (f : A -> B -> result C) u :
  forall v,
    length u = length v ->
    (forall a b, In a u -> In b v -> exists c, f a b = Ok c /\ P c) ->
    exists cs, mapM2 f u v = Ok cs /\ length cs = length u /\ Forall P cs.
Proof.
  induction u as [|a u IH]; intros [|b v] Hl Hf; try discriminate.
  - exists []. repeat split. constructor.
  - destruct (Hf a b) as (c & Hc & Pc); [now left..|].
    destruct (IH v) as (cs & Hcs & Hlen & HP).
    { now inversion Hl. }
    { intros a' b' Ha' Hb'. apply Hf; now right. }
    exists (c :: cs). cbn [mapM2]. rewrite Hc. cbn [bind]. rewrite Hcs.
    cbn [bind]. repeat split.
    + cbn. now rewrite Hlen.
    + now constructor.
Qed.

Lemma In_firstn {A} (x : A) n l : In x (firstn n l) -> In x l.
Proof.
  intros H. rewrite <- (firstn_skipn n l). apply in_or_app. now left.
Qed.

Lemma Forall_firstn_of {A} (P : A -> Prop) k l :
  Forall P l -> Forall P (firstn k l).
Proof.
  intros H. apply Forall_forall. intros x Hx.
  apply (proj1 (Forall_forall P l) H). eapply In_firstn; eassumption.
Qed.

Lemma Forall_skipn_of {A} (P : A -> Prop) k l :
  Forall P l -> Forall P (skipn k l).
Proof.
  intros H. apply Forall_forall. intros x Hx.
  apply (proj1 (Forall_forall P l) H). eapply In_skipn; eassumption.
Qed.

Lemma addblock_Ok n (m : mat) r0 r1 c0 c1 (blk : mat) :
  length m = n -> width n m ->
  0 <= r0 -> r0 + Z.of_nat (length blk) = r1 -> r1 <= Z.of_nat n ->
  0 <= c0 -> c1 <= Z.of_nat n ->
  Forall (fun x => c0 + Z.of_nat (length x) = c1) blk ->
  exists m', addblock m r0 r1 c0 c1 blk = Ok m'
             /\ length m' = n /\ width n m'.
Proof.
  intros Hm Hw Hr0 Hr1 Hrn Hc0 Hc1 Hblk. unfold addblock.
  rewrite !slice_index_in_range by lia.
  set (rows := firstn (Z.to_nat (r1 - r0)) (skipn (Z.to_nat r0) m)).
  assert (Hrows : length rows = length blk).
  { unfold rows. rewrite length_firstn, length_skipn. lia. }
  rewrite Hrows, Nat.eqb_refl.
  destruct (mapM2_Ok (fun row : vec => length row = n)
              (fun row x => setslice_rows PrimFloat.add row c0 c1 x)
              rows blk Hrows) as (rows' & -> & Hlen & Hw').
  { intros row x Hrow Hx.
    assert (Hrl : length row = n).
    { apply (proj1 (Forall_forall _ m) Hw).
      unfold rows in Hrow. apply In_firstn in Hrow.
      eapply In_skipn; eassumption. }
    pose proof (proj1 (Forall_forall _ blk) Hblk x Hx) as Hxl.
    cbv beta in Hxl.
    destruct (setslice_rows_Ok PrimFloat.add row c0 c1 x) as (row' & E & L);
      [lia..|].
    exists row'. split; [exact E|congruence]. }
  cbn [bind]. eexists. split; [reflexivity|]. split.
  - rewrite !length_app, Hlen, Hrows, length_firstn, length_skipn. lia.
  - unfold width. rewrite !Forall_app. repeat split.
    + now apply Forall_firstn_of.
    + exact Hw'.
    + now apply Forall_skipn_of.
Qed.

Lemma length_halves {A} (l : list A) :
  length l = 12%nat ->
  length (getslice_to l 6) = 6%nat /\ length (getslice_from l 6) = 6%nat.
Proof.
  intros H. unfold getslice_to, getslice_from. rewrite H.
  change (Z.to_nat (slice_index (Z.of_nat 12) 6)) with 6%nat.
  rewrite length_firstn, length_skipn, H. split; reflexivity.
Qed.

Lemma quarter_shapes (jacobian : mat) c0 :
  length jacobian = 12%nat -> width 12 jacobian ->
  let fits := Forall (fun x : vec => c0 + Z.of_nat (length x) = c0 + 6) in
  fits (cols_to 6 (getslice_to jacobian 6))
  /\ fits (cols_from 6 (getslice_to jacobian 6))
  /\ fits (cols_to 6 (getslice_from jacobian 6))
  /\ fits (cols_from 6 (getslice_from jacobian 6)).
Proof.
  intros Hl Hw fits.
  assert (Hto : width 12 (getslice_to jacobian 6)).
  { unfold getslice_to. now apply Forall_firstn_of. }
  assert (Hfrom : width 12 (getslice_from jacobian 6)).
  { unfold getslice_from. now apply Forall_skipn_of. }
  assert (H6 : forall m : mat, width 6 m -> fits m).
  { intros m. apply Forall_impl. intros a ->. reflexivity. }
  repeat split; apply H6.
  - apply (width_cols_to 6 12); [lia|exact Hto].
  - apply (width_cols_from 6 12 _ Hto).
  - apply (width_cols_to 6 12); [lia|exact Hfrom].
  - apply (width_cols_from 6 12 _ Hfrom).
Qed.

Lemma scatter_forces_Ok n cpp_forces forces ids :
  length cpp_forces = n -> length forces = 12%nat -> pair_in_range n ids ->
  exists cpp_forces',
    scatter_forces cpp_forces forces ids = Ok cpp_forces'
    /\ length cpp_forces' = n.
Proof.
  intros Hn Hf (H1 & H2 & H3 & H4). destruct ids as [e1 e2].
  cbn [fst snd] in *. destruct (length_halves forces Hf) as [Hto Hfrom].
  unfold scatter_forces.
  destruct (setslice_rows_Ok PrimFloat.add cpp_forces (3 * e1) (3 * e1 + 6)
              (getslice_to forces 6)) as (c1 & -> & L1); [lia..|].
  cbn [bind].
  destruct (setslice_rows_Ok PrimFloat.add c1 (3 * e2) (3 * e2 + 6)
              (getslice_from forces 6)) as (c2 & -> & L2); [lia..|].
  exists c2. split; [reflexivity|congruence].
Qed.

Lemma scatter_item_Ok n st x :
  buffers n (fst st) (snd st) -> scatter_item n x ->
  exists st',
    (let '(forces, jacobian, ids) := x in
     let '(e1, e2) := ids in
     cpp_forces <- scatter_forces (fst st) forces ids ;;
     h <- addblock (snd st) (3 * e1) (3 * e1 + 6) (3 * e1) (3 * e1 + 6)
                   (cols_to 6 (getslice_to jacobian 6)) ;;
     h <- addblock h (3 * e1) (3 * e1 + 6) (3 * e2) (3 * e2 + 6)
                   (cols_from 6 (getslice_to jacobian 6)) ;;
     h <- addblock h (3 * e2) (3 * e2 + 6) (3 * e1) (3 * e1 + 6)
                   (cols_to 6 (getslice_from jacobian 6)) ;;
     h <- addblock h (3 * e2) (3 * e2 + 6) (3 * e2) (3 * e2 + 6)
                   (cols_from 6 (getslice_from jacobian 6)) ;;
     Ok (cpp_forces, h)) = Ok st'
    /\ buffers n (fst st') (snd st').
Proof.
  intros (Hf & Hh & Hw) (Hx & Hj & Hjw & Hids).
  destruct x as [[forces jacobian] [e1 e2]]. cbn [fst snd] in *.
  destruct (scatter_forces_Ok n (fst st) forces (e1, e2) Hf Hx Hids)
    as (c & -> & Lc).
  destruct Hids as (H1 & H2 & H3 & H4). cbn [fst snd] in *.
  destruct (length_halves jacobian Hj) as [Hto Hfrom].
  destruct (quarter_shapes jacobian (3 * e1) Hj Hjw) as (Q1 & _ & Q3 & _).
  destruct (quarter_shapes jacobian (3 * e2) Hj Hjw) as (_ & Q2 & _ & Q4).
  cbv zeta in Q1, Q2, Q3, Q4. cbn [bind].
  destruct (addblock_Ok n (snd st) (3 * e1) (3 * e1 + 6) (3 * e1)
              (3 * e1 + 6) (cols_to 6 (getslice_to jacobian 6)))
    as (h1 & -> & L1 & W1);
    [assumption|assumption|lia|unfold cols_to; rewrite length_map; lia
     |lia|lia|lia|exact Q1|].
  cbn [bind].
  destruct (addblock_Ok n h1 (3 * e1) (3 * e1 + 6) (3 * e2)
              (3 * e2 + 6) (cols_from 6 (getslice_to jacobian 6)))
    as (h2 & -> & L2 & W2);
    [assumption|assumption|lia|unfold cols_from; rewrite length_map; lia
     |lia|lia|lia|exact Q2|].
  cbn [bind].
  destruct (addblock_Ok n h2 (3 * e2) (3 * e2 + 6) (3 * e1)
              (3 * e1 + 6) (cols_to 6 (getslice_from jacobian 6)))
    as (h3 & -> & L3 & W3);
    [assumption|assumption|lia|unfold cols_to; rewrite length_map; lia
     |lia|lia|lia|exact Q3|].
  cbn [bind].
  destruct (addblock_Ok n h3 (3 * e2) (3 * e2 + 6) (3 * e2)
              (3 * e2 + 6) (cols_from 6 (getslice_from jacobian 6)))
    as (h4 & -> & L4 & W4);
    [assumption|assumption|lia|unfold cols_from; rewrite length_map; lia
     |lia|lia|lia|exact Q4|].
  cbn [bind]. eexists. split; [reflexivity|]. now repeat split.
Qed.

Lemma foldM_Ok {S A} (I : S -> Prop) (Q : A -> Prop)
  (f : S -> A -> result S) l :
  (forall s a, I s -> Q a -> exists s', f s a = Ok s' /\ I s') ->
  Forall Q l ->
  forall s, I s -> exists s', foldM f l s = Ok s' /\ I s'.
Proof.
  intros Hf. induction 1 as [|a l Ha Hl IH]; intros s Hs; cbn [foldM].
  - eauto.
  - destruct (Hf s a Hs Ha) as (s1 & -> & H1). cbn [bind]. now apply IH.
Qed.

Lemma Forall_combine3 {A B C} (P : A -> Prop) (Q : B -> Prop) (R : C -> Prop)
  (u : list A) (v : list B) (w : list C) :
  Forall P u -> Forall Q v -> Forall R w ->
  Forall (fun x => P (fst (fst x)) /\ Q (snd (fst x)) /\ R (snd x))
         (combine (combine u v) w).
Proof.
  intros Hu Hv Hw. apply Forall_forall. intros [[a b] c] H.
  pose proof (in_combine_l _ _ _ _ H) as Hab.
  pose proof (in_combine_r _ _ _ _ H) as Hc.
  pose proof (in_combine_l _ _ _ _ Hab) as Ha.
  pose proof (in_combine_r _ _ _ _ Hab) as Hb.
  cbn [fst snd]. repeat split.
  - exact (proj1 (Forall_forall P u) Hu a Ha).
  - exact (proj1 (Forall_forall Q v) Hv b Hb).
  - exact (proj1 (Forall_forall R w) Hw c Hc).
Qed.

(** Rows of 12 forces, 12 x 12 jacobians and pairs inside the buffers: the
    write-out of the Hessian path raises nothing. *)
Lemma write_out_Ok self total_forces total_jacobian edge_ids :
  buffers (length (forces self)) (forces self) (hessian self) ->
  width 12 total_forces ->
  Forall (fun j : mat => length j = 12%nat /\ width 12 j) total_jacobian ->
  Forall (pair_in_range (length (forces self))) edge_ids ->
  exists self',
    write_out self total_forces total_jacobian edge_ids = Ok self'.
Proof.
  intros Hb Hf Hj Hids. unfold write_out, _py_to_cpp_hess,
    _jit_py_to_cpp_hess.
  destruct (foldM_Ok
              (fun st : vec * mat =>
                 buffers (length (forces self)) (fst st) (snd st))
              (scatter_item (length (forces self)))
              (fun st x =>
                 let '(forces, jacobian, ids) := x in
                 let '(e1, e2) := ids in
                 cpp_forces <- scatter_forces (fst st) forces ids ;;
                 h <- addblock (snd st) (3 * e1) (3 * e1 + 6) (3 * e1)
                               (3 * e1 + 6)
                               (cols_to 6 (getslice_to jacobian 6)) ;;
                 h <- addblock h (3 * e1) (3 * e1 + 6) (3 * e2) (3 * e2 + 6)
                               (cols_from 6 (getslice_to jacobian 6)) ;;
                 h <- addblock h (3 * e2) (3 * e2 + 6) (3 * e1) (3 * e1 + 6)
                               (cols_to 6 (getslice_from jacobian 6)) ;;
                 h <- addblock h (3 * e2) (3 * e2 + 6) (3 * e2) (3 * e2 + 6)
                               (cols_from 6 (getslice_from jacobian 6)) ;;
                 Ok (cpp_forces, h))
              (combine (combine total_forces total_jacobian) edge_ids))
    with (s := (forces self, hessian self)) as (st' & -> & _).
  - intros s a. apply scatter_item_Ok.
  - pose proof (Forall_combine3 _ _ _ _ _ _ Hf Hj Hids) as H.
    revert H. apply Forall_impl. intros [[a b] c]. cbn [fst snd].
    unfold scatter_item. cbn [fst snd]. tauto.
  - exact Hb.
  - cbn [bind]. eauto.
Qed.

(** * Invalid values in the forces and in the Hessian *)

Lemma aggregate_forces {num : Numerics} self cp :
  fst (aggregate_terms self cp) = force_terms self cp.
Proof.
  unfold aggregate_terms, conservative_terms, force_terms.
  destruct cp as [[[e ids] v] s].
  unfold _chain_rule_contact_hess, _optimize_chain_rule. reflexivity.
Qed.

(** The force-only path aborts whenever its aggregate force contains a NaN
    or an infinite value. *)
Lemma get_forces_aborts {num : Numerics} self cp :
  sum_propagates np_sum ->
  existsb nonfinite (concat (force_terms self cp)) = true ->
  exists msg, _get_forces self cp = Raise (AssertionError msg).
Proof.
  intros Hs H. apply Hs in H.
  unfold _get_forces, force_terms in *. destruct cp as [[[e ids] v] s].
  cbv zeta in *. unfold np.sum2.
  destruct (assert_forces_raise _ H) as (msg & Hmsg).
  exists msg. revert Hmsg.
  destruct (assert (negb (np.isnan _)) Force_had_a_nan) as [[]|ex];
    cbn [bind].
  - destruct (assert (negb (np.isinf _)) Force_had_an_inf) as [[]|ex];
      cbn [bind]; [discriminate|]. intros H'. now inversion H'.
  - intros H'. now inversion H'.
Qed.

Lemma py_div_raises x y :
  raises_only (fun e => e = ZeroDivisionError) (py_div x y).
Proof.
  unfold py_div. destruct (y =? 0)%float;
    [now apply raises_only_Raise|apply raises_only_Ok].
Qed.

(** A request can raise an assertion error only when no Hessian is
    requested. *)
Lemma request_raises {num : Numerics} min_dist_vectorized
  min_dist_f_out_vectorized self vars hessian_flag :
  py_int (nth 5 (meta_data self) 0%float) = Ok hessian_flag ->
  raises_only
    (fun e => e = ValueError \/ e = OverflowError \/ e = TypeError
              \/ e = AttributeError
              \/ (is_AssertionError e /\ hessian_flag = 0)
              \/ e = ZeroDivisionError)
    (start_server_request min_dist_vectorized min_dist_f_out_vectorized
                          self vars).
Proof.
  intros H5. rewrite request_phases. apply raises_only_bind.
  { eapply raises_only_impl; [|apply flags_phase_raises].
    cbv beta. intros e [->| ->]; auto. }
  intros [[hf fi] s1] Hfl. apply flags_phase_Ok in Hfl.
  destruct Hfl as (H5' & _). rewrite H5 in H5'. inversion H5'; subst hf.
  apply raises_only_bind.
  { eapply raises_only_impl; [|apply detect_phase_raises].
    cbv beta. intros e ->. auto. }
  intros [s2 v2] _. destruct (l_edge_ids v2) as [ids|].
  - apply raises_only_bind.
    + eapply raises_only_impl; [|apply contact_phase_raises].
      cbv beta. intros e [->|[->|H]]; auto 6.
    + intros [s3 v3] _. apply raises_only_bind.
      * eapply raises_only_impl; [|apply py_div_raises].
        cbv beta. intros e ->. auto 7.
      * intros; apply raises_only_Ok.
  - apply raises_only_Raise. auto 6.
Qed.

(** C1: the two paths differ on an invalid force. With first-layer and
    second-layer gradients that are NaN, the aggregate force of the one
    active pair of the hairpin is NaN. The force-only path stops with the
    assertion error [Force had a nan], at [_get_forces] and for the whole
    first request of a run. With the Hessian flag set, the same assertion
    fails inside the [try] block whose handler only replaces the jacobian:
    [_get_forces_and_hessian] returns, the request is answered, and the
    shared force buffer holds NaN. *)
Theorem invalid_force_written_with_hessian :
  existsb nonfinite (concat (force_terms (ex_friction_self nan 1) ex_contact))
  = true
  /\ _get_forces (ex_friction_self nan 1) ex_contact
     = Raise (AssertionError Force_had_a_nan)
  /\ (exists self',
        _get_forces_and_hessian (ex_friction_self nan 1) ex_contact
        = Ok self'
        /\ existsb np.isnan (forces self') = true)
  /\ start_server ex_min_dist_vectorized ex_min_dist_f_out_vectorized
                  (ex_server nan 1) [ex_request (ex_meta 1 0)]
     = Raise (AssertionError Force_had_a_nan)
  /\ exists self' vars',
       start_server ex_min_dist_vectorized ex_min_dist_f_out_vectorized
                    (ex_server nan 1) [ex_request (ex_meta 1 1)]
       = Ok (self', vars')
       /\ existsb np.isnan (forces self') = true.
Proof.
  split; [vm_compute; reflexivity|].
  split; [vm_compute; reflexivity|].
  split; [|split; [vm_compute; reflexivity|]].
  - assert (H : match _get_forces_and_hessian (ex_friction_self nan 1)
                        ex_contact with
                | Ok s => existsb np.isnan (forces s)
                | Raise _ => false
                end = true) by (vm_compute; reflexivity).
    destruct (_get_forces_and_hessian _ _) as [s|]; [eauto|discriminate].
  - assert (H : match start_server ex_min_dist_vectorized
                        ex_min_dist_f_out_vectorized (ex_server nan 1)
                        [ex_request (ex_meta 1 1)] with
                | Ok (s, _) => existsb np.isnan (forces s)
                | Raise _ => false
                end = true) by (vm_compute; reflexivity).
    destruct (start_server _ _ _ _) as [[s v]|]; [eauto|discriminate].
Qed.

(** * The local variables of the server loop *)

Lemma bind_Raise {A B} (r : result A) (k : A -> result B) e :
  bind r k = Raise e ->
  r = Raise e \/ exists a, r = Ok a /\ k a = Raise e.
Proof.
  destruct r as [a|e']; cbn [bind]; intros H.
  - right. eauto.
  - left. now inversion H.
Qed.

Section Locals.
Context {num : Numerics}.
Variable min_dist_vectorized : mat -> vec.
Variable min_dist_f_out_vectorized : mat -> vec * mat.

Local Abbreviation request :=
  (start_server_request min_dist_vectorized min_dist_f_out_vectorized).
Local Abbreviation detect := (detect_phase min_dist_vectorized).
Local Abbreviation contact := (contact_phase min_dist_f_out_vectorized).

(** In the contact phase only the velocities can be undefined, and only
    when the request is not the first of its time step. *)
Lemma contact_phase_undefined hf fi s vars ids e :
  contact hf fi s vars ids = Raise e -> undefined_read e ->
  ids <> [] /\ fi = 0 /\ l_velocities vars = None.
Proof.
  unfold contact_phase. destruct ids as [|id ids]; [discriminate|].
  cbn [length Nat.eqb]. cbv zeta. intros H Hu.
  apply bind_Raise in H. destruct H as [H|([[ec cd] fo] & _ & H)].
  { apply prepare_edges_raises in H. rewrite H in Hu.
    destruct Hu; discriminate. }
  destruct (Z.eqb_spec fi 0) as [->|Hfi].
  - destruct (l_velocities vars) as [vel|]; [|repeat split; discriminate].
    exfalso. apply bind_Raise in H. destruct H as [H|(s' & _ & H)];
      [|discriminate].
    destruct (hf =? 0).
    + apply get_forces_raises in H. destruct Hu; subst e.
      * destruct H as [[msg H]|H]; discriminate.
      * destruct H as [[msg H]|H]; discriminate.
    + apply get_forces_and_hessian_raises in H. rewrite H in Hu.
      destruct Hu; discriminate.
  - exfalso. apply bind_Raise in H. destruct H as [H|(s' & _ & H)];
      [|discriminate].
    destruct (hf =? 0).
    + apply get_forces_raises in H. destruct Hu; subst e.
      * destruct H as [[msg H]|H]; discriminate.
      * destruct H as [[msg H]|H]; discriminate.
    + apply get_forces_and_hessian_raises in H. rewrite H in Hu.
      destruct Hu; discriminate.
Qed.

(** A request that fails on an undefined local has the flag
    [first_iter] unset and found its locals undefined. *)
Lemma request_undefined self vars e :
  request self vars = Raise e -> undefined_read e ->
  py_int (nth 0 (meta_data self) 0%float) = Ok 0 /\ ~ locals_defined vars.
Proof.
  rewrite request_phases. intros H Hu.
  apply bind_Raise in H. destruct H as [H|([[hf fi] s1] & Hfl & H)].
  { apply flags_phase_raises in H. destruct Hu, H; congruence. }
  apply flags_phase_Ok in Hfl. destruct Hfl as (_ & H0 & _).
  apply bind_Raise in H. destruct H as [H|([s2 v2] & Hd & H)].
  { apply detect_phase_raises in H. rewrite H in Hu.
    destruct Hu; discriminate. }
  apply detect_phase_Ok in Hd.
  destruct (l_edge_ids v2) as [ids|] eqn:Hids.
  - apply bind_Raise in H. destruct H as [H|([s3 v3] & _ & H)].
    2:{ exfalso. apply bind_Raise in H. destruct H as [H|(q & _ & H)];
          [|discriminate].
        apply py_div_raises in H. destruct Hu; congruence. }
    destruct (contact_phase_undefined _ _ _ _ _ _ H Hu) as (Hne & -> & Hv).
    destruct Hd as [(_ & _ & ->)|(Hfi & _)]; [|congruence].
    split; [exact H0|]. intros (ids' & Hids' & Hvel).
    rewrite Hids in Hids'. inversion Hids'; subst ids'. now apply Hvel.
  - destruct Hd as [(-> & _ & ->)|(_ & e' & c & ids & cd & _ & _ & ->)];
      [|discriminate].
    split; [exact H0|]. intros (ids' & Hids' & _). congruence.
Qed.

(** An answered request leaves the locals defined. *)
Lemma request_defines self vars self' vars' fi nc :
  request self vars = Ok (self', vars', fi, nc) -> locals_defined vars'.
Proof.
  intros H. apply request_Ok in H.
  destruct H as (hf & self1 & self2 & vars2 & ids & self3
                 & _ & _ & Hids & _ & Hc & _).
  exists ids. destruct ids as [|id ids].
  - rewrite contact_phase_nil in Hc. inversion Hc; subst.
    split; [exact Hids|congruence].
  - apply contact_phase_Ok in Hc; [|discriminate].
    destruct Hc as (ec & cd & fo & vel & _ & _ & -> & _).
    cbn [l_edge_ids l_velocities]. split; [exact Hids|discriminate].
Qed.

Lemma summary_defined self vars fi vars' :
  start_server_summary self vars fi = Ok vars' ->
  locals_defined vars -> locals_defined vars'.
Proof.
  unfold start_server_summary. destruct (fi =? 0).
  - intros H. now inversion H.
  - intros H Hd. apply bind_Ok in H. destruct H as (_ & _ & H).
    inversion H. exact Hd.
Qed.

Lemma summary_raises self vars fi :
  raises_only (fun e => e = ValueError \/ e = OverflowError)
              (start_server_summary self vars fi).
Proof.
  unfold start_server_summary. destruct (fi =? 0); [apply raises_only_Ok|].
  apply raises_only_bind; [apply py_int_raises|].
  intros; apply raises_only_Ok.
Qed.

(** Once the locals are defined, no later request of the run reads an
    undefined local, and the run ends with its locals defined. *)
Lemma serve_defined reqs :
  forall self vars,
    locals_defined vars ->
    (forall e,
       serve min_dist_vectorized min_dist_f_out_vectorized reqs self vars
       = Raise e -> ~ undefined_read e)
    /\ (forall self' vars',
          serve min_dist_vectorized min_dist_f_out_vectorized reqs self vars
          = Ok (self', vars') -> locals_defined vars').
Proof.
  induction reqs as [|req reqs IH]; intros self vars Hd; cbn [serve].
  - split; [discriminate|]. intros self' vars' H. inversion H; subst.
    exact Hd.
  - split.
    + intros e H Hu.
      apply bind_Raise in H. destruct H as [H|([[[s1 v1] fi] nc] & Hr & H)].
      { destruct (request_undefined _ _ _ H Hu) as [_ Hn]. now apply Hn. }
      apply bind_Raise in H. destruct H as [H|(v2 & Hs & H)].
      { apply summary_raises in H. destruct Hu, H; congruence. }
      apply request_defines in Hr.
      apply (summary_defined _ _ _ _ Hs) in Hr.
      now apply (proj1 (IH s1 v2 Hr) e).
    + intros self' vars' H.
      apply bind_Ok in H. destruct H as ([[[s1 v1] fi] nc] & Hr & H).
      apply bind_Ok in H. destruct H as (v2 & Hs & H).
      apply request_defines in Hr.
      apply (summary_defined _ _ _ _ Hs) in Hr.
      now apply (proj2 (IH s1 v2 Hr) self' vars').
Qed.

(** A run whose first request carries [first_iter] never reads an
    undefined local. *)
Lemma first_request_set self vars req reqs fi e :
  py_int (nth 0 (req_meta_data req) 0%float) = Ok fi -> fi <> 0 ->
  serve min_dist_vectorized min_dist_f_out_vectorized (req :: reqs) self vars
  = Raise e ->
  ~ undefined_read e.
Proof.
  intros H0 Hfi H Hu. cbn [serve] in H.
  apply bind_Raise in H. destruct H as [H|([[[s1 v1] fi'] nc] & Hr & H)].
  { destruct (request_undefined _ _ _ H Hu) as [H0' _].
    cbn in H0'. congruence. }
  apply bind_Raise in H. destruct H as [H|(v2 & Hs & H)].
  { apply summary_raises in H. destruct Hu, H; congruence. }
  apply request_defines in Hr. apply (summary_defined _ _ _ _ Hs) in Hr.
  now apply (proj1 (serve_defined reqs s1 v2 Hr) e).
Qed.

(** A run whose first request comes with [first_iter] unset stops at the
    read of the size of the active set. *)
Lemma first_request_unset self req reqs hf fr :
  py_int (nth 5 (req_meta_data req) 0%float) = Ok hf ->
  py_int (nth 0 (req_meta_data req) 0%float) = Ok 0 ->
  py_int (nth 1 (req_meta_data req) 0%float) = Ok fr ->
  start_server min_dist_vectorized min_dist_f_out_vectorized self
               (req :: reqs)
  = Raise AttributeError.
Proof.
  intros H5 H0 H1. unfold start_server. cbn [serve].
  unfold start_server_request.
  cbn [socket_recv meta_data set_meta_data].
  rewrite H5, H0, H1. reflexivity.
Qed.

End Locals.

(** C10: when the first request of a run carries the flag [first_iter],
    no request of the run, the first or a later one, fails on the read of
    an undefined local (the active set, whose size is read in every
    request, or the velocities of its pairs), and a run that answers all
    its requests ends with these locals defined; when the control values of
    the first request are readable and [first_iter] is unset, the run stops
    in that request, before the reply, at the read of the size of the
    active set that is still [None]. *)
Theorem active_set_defined (min_dist_vectorized : mat -> vec)
  (min_dist_f_out_vectorized : mat -> vec * mat)
  (self : IMC) (req : Request) (reqs : list Request) :
  (forall first_iter,
     py_int (nth 0 (req_meta_data req) 0%float) = Ok first_iter ->
     first_iter <> 0 ->
     (forall e,
        start_server min_dist_vectorized min_dist_f_out_vectorized self
                     (req :: reqs) = Raise e ->
        ~ undefined_read e)
     /\ (forall self' vars',
           start_server min_dist_vectorized min_dist_f_out_vectorized self
                        (req :: reqs) = Ok (self', vars') ->
           locals_defined vars'))
  /\ (forall hessian_flag fr,
        py_int (nth 5 (req_meta_data req) 0%float) = Ok hessian_flag ->
        py_int (nth 0 (req_meta_data req) 0%float) = Ok 0 ->
        py_int (nth 1 (req_meta_data req) 0%float) = Ok fr ->
        start_server min_dist_vectorized min_dist_f_out_vectorized self
                     (req :: reqs) = Raise AttributeError).
Proof.
  split.
  - intros fi H0 Hfi. unfold start_server. split.
    + intros e. now apply first_request_set with (fi := fi).
    + intros self' vars' H. cbn [serve] in H.
      apply bind_Ok in H. destruct H as ([[[s1 v1] fi'] nc] & Hr & H).
      apply bind_Ok in H. destruct H as (v2 & Hs & H).
      apply request_defines in Hr. apply (summary_defined _ _ _ _ Hs) in Hr.
      exact (proj2 (serve_defined _ _ reqs s1 v2 Hr) self' vars' H).
  - intros hf fr. apply first_request_unset.
Qed.

Lemma active_set_defined_witness :
  py_int (nth 0 (req_meta_data (ex_request (ex_meta 1 0))) 0%float) = Ok 1
  /\ (exists self' vars',
        start_server ex_min_dist_vectorized ex_min_dist_f_out_vectorized
                     (ex_server 1 1)
                     [ex_request (ex_meta 1 0); ex_request (ex_meta 0 0)]
        = Ok (self', vars')
        /\ locals_defined vars')
  /\ start_server ex_min_dist_vectorized ex_min_dist_f_out_vectorized
                  (ex_server 1 1)
                  [ex_request (ex_meta 0 0); ex_request (ex_meta 1 0)]
     = Raise AttributeError.
Proof.
  split; [reflexivity|]. split.
  - destruct (active_set_defined ex_min_dist_vectorized
                ex_min_dist_f_out_vectorized (ex_server 1 1)
                (ex_request (ex_meta 1 0)) [ex_request (ex_meta 0 0)])
      as [Hset _].
    destruct (Hset 1 eq_refl) as [_ Hok]; [lia|].
    assert (H : match start_server ex_min_dist_vectorized
                        ex_min_dist_f_out_vectorized (ex_server 1 1)
                        [ex_request (ex_meta 1 0);
                         ex_request (ex_meta 0 0)] with
                | Ok _ => true
                | Raise _ => false
                end = true) by (vm_compute; reflexivity).
    destruct (start_server _ _ _ _) as [[s v]|]; [|discriminate].
    exists s, v. split; [reflexivity|]. now apply (Hok s v).
  - destruct (active_set_defined ex_min_dist_vectorized
                ex_min_dist_f_out_vectorized (ex_server 1 1)
                (ex_request (ex_meta 0 0)) [ex_request (ex_meta 1 0)])
      as [_ Hunset].
    apply (Hunset 0 0); reflexivity.
Defined.

(** The first request carries [first_iter], and yet it is not answered:
    with NaN gradients and no Hessian requested, the step stops at the
    assertion on the forces. *)
Lemma first_request_without_reply :
  py_int (nth 0 (req_meta_data (ex_request (ex_meta 1 0))) 0%float) = Ok 1
  /\ start_server ex_min_dist_vectorized ex_min_dist_f_out_vectorized
                  (ex_server nan 1) [ex_request (ex_meta 1 0)]
     = Raise (AssertionError Force_had_a_nan).
Proof. split; vm_compute; reflexivity. Qed.

(** * Entries of a slice that is added to *)

Lemma nth_combine_map {A B C} (h : A -> B -> C) (u : list A) (v : list B)
  i d da db :
  (i < length u)%nat -> (i < length v)%nat ->
  nth i (map (fun rx => h (fst rx) (snd rx)) (combine u v)) d
  = h (nth i u da) (nth i v db).
Proof. intros Hu Hv. now apply (nth_map2 h u v i da db d). Qed.

(** [l[a:b] += xs] with the bounds inside the array: the entries of the
    slice take the values of [xs], the other entries stay. *)
Lemma setslice_rows_nth {A B} (g : A -> B -> A) (l : list A) a b xs l' :
  setslice_rows g l a b xs = Ok l' ->
  0 <= a <= b -> b <= Z.of_nat (length l) ->
  length l' = length l
  /\ forall i d db,
       nth i l' d
       = if (a <=? Z.of_nat i) && (Z.of_nat i <? b)
         then g (nth i l d) (nth (i - Z.to_nat a) xs db)
         else nth i l d.
Proof.
  unfold setslice_rows. intros H Hab Hb.
  rewrite !slice_index_in_range in H by lia.
  set (rows := firstn (Z.to_nat (b - a)) (skipn (Z.to_nat a) l)) in *.
  assert (Hrows : length rows = Z.to_nat (b - a)).
  { unfold rows. rewrite length_firstn, length_skipn. lia. }
  destruct (Nat.eqb_spec (length rows) (length xs)) as [Hx|]; [|discriminate].
  inversion H; subst l'; clear H.
  replace (Z.max a b) with b by lia.
  split.
  { rewrite !length_app, length_map, length_combine, <- Hx, Nat.min_id,
      Hrows, length_firstn, length_skipn. lia. }
  intros i d db.
  assert (L1 : length (firstn (Z.to_nat a) l) = Z.to_nat a)
    by (rewrite length_firstn; lia).
  destruct (Z.leb_spec a (Z.of_nat i)) as [Ha|Ha]; cbn [andb].
  - rewrite app_nth2 by lia. rewrite L1.
    destruct (Z.ltb_spec (Z.of_nat i) b) as [Hi|Hi].
    + rewrite app_nth1
        by (rewrite length_map, length_combine, <- Hx, Nat.min_id; lia).
      rewrite (nth_combine_map g rows xs _ d d db) by lia.
      f_equal. unfold rows. rewrite nth_firstn.
      destruct (Nat.ltb_spec (i - Z.to_nat a) (Z.to_nat (b - a))); [|lia].
      rewrite nth_skipn. f_equal. lia.
    + rewrite app_nth2
        by (rewrite length_map, length_combine, <- Hx, Nat.min_id; lia).
      rewrite length_map, length_combine, <- Hx, Nat.min_id, Hrows.
      rewrite nth_skipn. f_equal. lia.
  - rewrite app_nth1 by lia. rewrite nth_firstn.
    destruct (Nat.ltb_spec i (Z.to_nat a)); [reflexivity|lia].
Qed.

(** * The scatter of the forces *)

Lemma on_edge_spec e i :
  on_edge e i = (3 * e <=? Z.of_nat i) && (Z.of_nat i <? 3 * e + 6).
Proof. reflexivity. Qed.

(** The two additions of one pair, entry by entry. *)
Lemma scatter_forces_nth cpp_forces forces e1 e2 cpp' :
  scatter_forces cpp_forces forces (e1, e2) = Ok cpp' ->
  pair_in_range (length cpp_forces) (e1, e2) ->
  length cpp' = length cpp_forces
  /\ forall i,
       nth i cpp' 0%float
       = let x := if on_edge e1 i
                  then (nth i cpp_forces 0
                        + nth (i - Z.to_nat (3 * e1)) (getslice_to forces 6) 0)
                         %float
                  else nth i cpp_forces 0%float in
         if on_edge e2 i
         then (x + nth (i - Z.to_nat (3 * e2)) (getslice_from forces 6) 0)
                %float
         else x.
Proof.
  unfold scatter_forces. intros H (H1 & H2 & H3 & H4). cbn [fst snd] in *.
  apply bind_Ok in H. destruct H as (c1 & Hc1 & Hc2).
  apply setslice_rows_nth in Hc1; [|lia..]. destruct Hc1 as [L1 N1].
  apply setslice_rows_nth in Hc2; [|lia..]. destruct Hc2 as [L2 N2].
  split; [congruence|]. intros i. cbv zeta.
  rewrite (N2 i 0%float 0%float), (N1 i 0%float 0%float), !on_edge_spec.
  reflexivity.
Qed.

Lemma on_pair_false ids i :
  on_pair ids i = false ->
  on_edge (fst ids) i = false /\ on_edge (snd ids) i = false.
Proof. unfold on_pair. apply orb_false_iff. Qed.

(** An answered scatter of one pair leaves the entries of the other nodes
    alone. *)
Lemma scatter_forces_frame cpp_forces forces ids cpp' :
  scatter_forces cpp_forces forces ids = Ok cpp' ->
  pair_in_range (length cpp_forces) ids ->
  length cpp' = length cpp_forces
  /\ forall i, on_pair ids i = false ->
               nth i cpp' 0%float = nth i cpp_forces 0%float.
Proof.
  destruct ids as [e1 e2]. intros H Hr.
  destruct (scatter_forces_nth _ _ _ _ _ H Hr) as [L N].
  split; [exact L|]. intros i Hi. apply on_pair_false in Hi.
  cbn [fst snd] in Hi. destruct Hi as [Hi1 Hi2].
  rewrite N. cbv zeta. now rewrite Hi1, Hi2.
Qed.

Lemma touched_cons p ids i :
  touched (p :: ids) i = false ->
  on_pair p i = false /\ touched ids i = false.
Proof. unfold touched. cbn [existsb]. apply orb_false_iff. Qed.

(** The same for a whole write-out, whatever it is zipped with. *)
Lemma scatter_loop_frame {X} (fs : X -> vec) (ps : X -> Z * Z) (xs : list X) :
  forall cpp_forces cpp',
    foldM (fun cpp x => scatter_forces cpp (fs x) (ps x)) xs cpp_forces
    = Ok cpp' ->
    Forall (fun x => pair_in_range (length cpp_forces) (ps x)) xs ->
    length cpp' = length cpp_forces
    /\ forall i, touched (map ps xs) i = false ->
                 nth i cpp' 0%float = nth i cpp_forces 0%float.
Proof.
  induction xs as [|x xs IH]; intros cpp cpp' H Hr; cbn [foldM] in H.
  - inversion H. auto.
  - apply bind_Ok in H. destruct H as (c1 & H1 & H).
    inversion Hr as [|? ? Hx Hxs]; subst.
    destruct (scatter_forces_frame _ _ _ _ H1 Hx) as [L1 N1].
    rewrite <- L1 in Hxs.
    destruct (IH _ _ H Hxs) as [L N].
    split; [congruence|]. intros i Hi. cbn [map] in Hi.
    apply touched_cons in Hi. destruct Hi as [Hp Ht].
    rewrite N, N1; auto.
Qed.

Lemma scatter_loop_Ok {X} (fs : X -> vec) (ps : X -> Z * Z) (xs : list X) :
  forall cpp_forces,
    Forall (fun x => length (fs x) = 12%nat
                     /\ pair_in_range (length cpp_forces) (ps x)) xs ->
    exists cpp',
      foldM (fun cpp x => scatter_forces cpp (fs x) (ps x)) xs cpp_forces
      = Ok cpp'.
Proof.
  induction xs as [|x xs IH]; intros cpp Hr; cbn [foldM].
  - eauto.
  - inversion Hr as [|? ? [Hf Hx] Hxs]; subst.
    destruct (scatter_forces_Ok _ cpp (fs x) (ps x) eq_refl Hf Hx)
      as (c1 & -> & L1).
    cbn [bind]. apply IH. now rewrite L1.
Qed.

Lemma Forall_combine {A B} (P : A -> Prop) (Q : B -> Prop) u v :
  Forall P u -> Forall Q v ->
  Forall (fun x => P (fst x) /\ Q (snd x)) (combine u v).
Proof.
  intros Hu Hv. apply Forall_forall. intros [a b] H. cbn [fst snd].
  split.
  - exact (proj1 (Forall_forall P u) Hu a (in_combine_l _ _ _ _ H)).
  - exact (proj1 (Forall_forall Q v) Hv b (in_combine_r _ _ _ _ H)).
Qed.

Lemma touched_sublist (ids ids' : list (Z * Z)) i :
  (forall p, In p ids' -> In p ids) ->
  touched ids i = false -> touched ids' i = false.
Proof.
  unfold touched. intros Hs H.
  destruct (existsb _ ids') eqn:E; [|reflexivity].
  apply existsb_exists in E. destruct E as (p & Hp & Hi).
  assert (existsb (fun p => on_pair p i) ids = true)
    by (apply existsb_exists; eauto).
  congruence.
Qed.

Lemma in_map_snd_combine {A B} (u : list A) (v : list B) b :
  In b (map snd (combine u v)) -> In b v.
Proof.
  intros H. apply in_map_iff in H. destruct H as ([a b'] & <- & H).
  now apply in_combine_r in H.
Qed.

(** X1: the write-out of the forces of one pair whose two edges share no
    node, into a buffer that holds the nodes of both edges: it returns
    normally, the buffer keeps its length, entry [3*e1 + k] receives
    [forces[k]] and entry [3*e2 + k] receives [forces[6 + k]], for
    [k = 0..5], each added to what the buffer held, and every other entry
    stays as it was. *)
Theorem scatter_one_pair (cpp_forces forces : vec) (e1 e2 : Z) :
  length forces = 12%nat ->
  pair_in_range (length cpp_forces) (e1, e2) ->
  e1 + 2 <= e2 ->
  exists cpp',
    _py_to_cpp_nohess [forces] cpp_forces [(e1, e2)] = Ok cpp'
    /\ length cpp' = length cpp_forces
    /\ forall i,
         nth i cpp' 0%float
         = if on_edge e1 i
           then (nth i cpp_forces 0
                 + nth (i - Z.to_nat (3 * e1)) forces 0)%float
           else if on_edge e2 i
           then (nth i cpp_forces 0
                 + nth (i - Z.to_nat (3 * e2) + 6) forces 0)%float
           else nth i cpp_forces 0%float.
Proof.
  intros Hf Hr He. unfold _py_to_cpp_nohess. cbn [combine foldM fst snd].
  destruct (scatter_forces_Ok _ cpp_forces forces (e1, e2) eq_refl Hf Hr)
    as (cpp' & E & _).
  rewrite E. cbn [bind]. exists cpp'. split; [reflexivity|].
  destruct (scatter_forces_nth _ _ _ _ _ E Hr) as [L N].
  split; [exact L|]. intros i. rewrite N. cbv zeta.
  destruct Hr as (H1 & H2 & H3 & H4). cbn [fst snd] in *.
  unfold getslice_to, getslice_from. rewrite Hf.
  change (Z.to_nat (slice_index (Z.of_nat 12) 6)) with 6%nat.
  rewrite nth_firstn, nth_skipn, !on_edge_spec.
  destruct (Z.leb_spec (3 * e1) (Z.of_nat i)),
           (Z.ltb_spec (Z.of_nat i) (3 * e1 + 6)),
           (Z.leb_spec (3 * e2) (Z.of_nat i)),
           (Z.ltb_spec (Z.of_nat i) (3 * e2 + 6));
    destruct (Nat.ltb_spec (i - Z.to_nat (3 * e1)) 6);
    cbn [andb]; try lia; try reflexivity.
  all: f_equal; f_equal; lia.
Qed.

Lemma scatter_one_pair_witness :
  exists cpp',
    _py_to_cpp_nohess [[1; 2; 3; 4; 5; 6; 7; 8; 9; 10; 11; 12]%float]
                      (repeat 7%float 15) [(0, 3)]
    = Ok cpp'
    /\ nth 0 cpp' 0%float = 8%float
    /\ nth 6 cpp' 0%float = 7%float
    /\ nth 14 cpp' 0%float = 19%float.
Proof.
  destruct (scatter_one_pair (repeat 7%float 15)
              [1; 2; 3; 4; 5; 6; 7; 8; 9; 10; 11; 12]%float 0 3)
    as (cpp' & E & _ & N).
  - reflexivity.
  - unfold pair_in_range. cbn. lia.
  - lia.
  - exists cpp'. split; [exact E|].
    repeat split; rewrite N; reflexivity.
Defined.

(** X2: the write-out of the forces of any number of pairs, each with its
    row of 12 forces and both edges inside the buffer: it returns normally,
    the buffer keeps its length, and the entries that belong to no node of any
    of the pairs are exactly what they were. *)
Theorem scatter_keeps_other_nodes (py_forces : mat) (cpp_forces : vec)
  (edge_ids : list (Z * Z)) :
  width 12 py_forces -> length edge_ids = length py_forces ->
  Forall (pair_in_range (length cpp_forces)) edge_ids ->
  exists cpp',
    _py_to_cpp_nohess py_forces cpp_forces edge_ids = Ok cpp'
    /\ length cpp' = length cpp_forces
    /\ forall i, touched edge_ids i = false ->
                 nth i cpp' 0%float = nth i cpp_forces 0%float.
Proof.
  intros Hf _ Hr. unfold _py_to_cpp_nohess.
  pose proof (Forall_combine _ _ _ _ Hf Hr) as Hc.
  destruct (scatter_loop_Ok fst snd _ cpp_forces Hc) as (cpp' & E).
  exists cpp'. split; [exact E|].
  destruct (scatter_loop_frame fst snd _ _ _ E) as [L N].
  { revert Hc. apply Forall_impl. tauto. }
  split; [exact L|]. intros i Hi. apply N.
  revert Hi. apply touched_sublist. apply in_map_snd_combine.
Qed.

Lemma scatter_keeps_other_nodes_witness :
  exists cpp',
    _py_to_cpp_nohess [repeat 1%float 12; repeat 2%float 12]
                      (repeat 7%float 18) [(0, 3); (0, 4)]
    = Ok cpp'
    /\ length cpp' = 18%nat
    /\ nth 6 cpp' 0%float = 7%float /\ nth 8 cpp' 0%float = 7%float.
Proof.
  destruct (scatter_keeps_other_nodes
              [repeat 1%float 12; repeat 2%float 12]
              (repeat 7%float 18) [(0, 3); (0, 4)])
    as (cpp' & E & L & N).
  - repeat constructor.
  - reflexivity.
  - repeat constructor; cbn; lia.
  - exists cpp'. split; [exact E|]. split; [exact L|].
    split; rewrite N; reflexivity.
Defined.

(** * The scatter of the Hessian *)

Lemma mapM2_nth {A B C} (f : A -> B -> result C) u :
  forall v cs,
    mapM2 f u v = Ok cs -> length u = length v ->
    length cs = length u
    /\ forall k da db dc,
         (k < length u)%nat ->
         f (nth k u da) (nth k v db) = Ok (nth k cs dc).
Proof.
  induction u as [|a u IH]; intros [|b v] cs H Hl; try discriminate;
    cbn [mapM2] in H.
  - inversion H. split; [reflexivity|]. intros k da db dc Hk. cbn in Hk. lia.
  - apply bind_Ok in H. destruct H as (c & Hc & H).
    apply bind_Ok in H. destruct H as (cs' & Hcs & H).
    inversion H; subst cs; clear H.
    destruct (IH v cs' Hcs) as [L N]; [now inversion Hl|].
    split; [cbn; now rewrite L|].
    intros [|k] da db dc Hk; cbn [nth]; [exact Hc|].
    apply N. cbn in Hk. lia.
Qed.

(** [m[r0:r1, c0:c1] += blk] with the block inside the matrix: the entries
    of the block take the values of [blk], the other entries stay, and every
    row keeps its length. *)
Lemma addblock_nth (m : mat) r0 r1 c0 c1 (blk : mat) m' :
  addblock m r0 r1 c0 c1 blk = Ok m' ->
  0 <= r0 <= r1 -> r1 <= Z.of_nat (length m) ->
  0 <= c0 <= c1 -> Forall (fun row => c1 <= Z.of_nat (length row)) m ->
  length m' = length m
  /\ forall r,
       length (nth r m' []) = length (nth r m [])
       /\ forall c,
            nth c (nth r m' []) 0%float
            = if (r0 <=? Z.of_nat r) && (Z.of_nat r <? r1)
                 && ((c0 <=? Z.of_nat c) && (Z.of_nat c <? c1))
              then (nth c (nth r m []) 0
                    + nth (c - Z.to_nat c0)
                          (nth (r - Z.to_nat r0) blk []) 0)%float
              else nth c (nth r m []) 0%float.
Proof.
  unfold addblock. intros H Hr Hr1 Hc Hw.
  rewrite !slice_index_in_range in H by lia.
  set (rows := firstn (Z.to_nat (r1 - r0)) (skipn (Z.to_nat r0) m)) in *.
  assert (Hrows : length rows = Z.to_nat (r1 - r0)).
  { unfold rows. rewrite length_firstn, length_skipn. lia. }
  destruct (Nat.eqb_spec (length rows) (length blk)) as [Hx|]; [|discriminate].
  apply bind_Ok in H. destruct H as (rows' & Hm & H).
  inversion H; subst m'; clear H.
  replace (Z.max r0 r1) with r1 by lia.
  destruct (mapM2_nth _ _ _ _ Hm Hx) as [L N].
  assert (L1 : length (firstn (Z.to_nat r0) m) = Z.to_nat r0)
    by (rewrite length_firstn; lia).
  split.
  { rewrite !length_app, L, Hrows, length_firstn, length_skipn. lia. }
  intros r.
  destruct (Z.leb_spec r0 (Z.of_nat r)) as [Ha|Ha]; cbn [andb].
  - rewrite app_nth2 by lia. rewrite L1.
    destruct (Z.ltb_spec (Z.of_nat r) r1) as [Hi|Hi]; cbn [andb].
    + rewrite app_nth1 by lia.
      assert (Hk : (r - Z.to_nat r0 < length rows)%nat) by lia.
      specialize (N (r - Z.to_nat r0)%nat [] [] [] Hk).
      assert (Hrow : nth (r - Z.to_nat r0) rows [] = nth r m []).
      { unfold rows. rewrite nth_firstn.
        destruct (Nat.ltb_spec (r - Z.to_nat r0) (Z.to_nat (r1 - r0)));
          [|lia].
        rewrite nth_skipn. f_equal. lia. }
      rewrite Hrow in N.
      assert (Hlen : c1 <= Z.of_nat (length (nth r m []))).
      { apply (proj1 (Forall_forall _ m) Hw). apply nth_In. lia. }
      apply setslice_rows_nth in N; [|lia..]. destruct N as [Lr Nr].
      split; [exact Lr|]. intros c.
      rewrite (Nr c 0%float 0%float). reflexivity.
    + rewrite app_nth2 by lia. rewrite L, Hrows, nth_skipn.
      replace (Z.to_nat r1 + (r - Z.to_nat r0 - Z.to_nat (r1 - r0)))%nat
        with r by lia.
      split; reflexivity.
  - rewrite app_nth1 by lia. rewrite nth_firstn.
    destruct (Nat.ltb_spec r (Z.to_nat r0)); [|lia].
    split; reflexivity.
Qed.

Lemma width_of_nth n (m m' : mat) :
  length m' = length m ->
  (forall r, length (nth r m' []) = length (nth r m [])) ->
  width n m -> width n m'.
Proof.
  intros L N Hw. apply Forall_forall. intros row Hrow.
  apply (In_nth _ _ []) in Hrow. destruct Hrow as (r & Hr & <-).
  rewrite N. apply (proj1 (Forall_forall _ m) Hw). apply nth_In. lia.
Qed.

(** One block of one pair: rows of edge [er], columns of edge [ec]. *)
Lemma addblock_frame n (m : mat) er ec (blk : mat) m' :
  addblock m (3 * er) (3 * er + 6) (3 * ec) (3 * ec + 6) blk = Ok m' ->
  length m = n -> width n m ->
  0 <= 3 * er -> 3 * er + 6 <= Z.of_nat n ->
  0 <= 3 * ec -> 3 * ec + 6 <= Z.of_nat n ->
  length m' = n /\ width n m'
  /\ forall r c,
       on_edge er r && on_edge ec c = false ->
       nth c (nth r m' []) 0%float = nth c (nth r m []) 0%float.
Proof.
  intros H L Hw Hr0 Hr1 Hc0 Hc1.
  apply addblock_nth in H; [|try lia..].
  - destruct H as [L' N]. split; [congruence|]. split.
    + apply (width_of_nth n m m' L'); [|exact Hw]. intros r. apply N.
    + intros r c Hrc. destruct (N r) as [_ Nr]. rewrite Nr.
      rewrite !on_edge_spec in Hrc. now rewrite Hrc.
  - revert Hw. apply Forall_impl. intros row ->. exact Hc1.
Qed.

Section HessianScatter.
Context {num : Numerics}.

Local Abbreviation hess_step :=
  (fun (st : vec * mat) (x : vec * mat * (Z * Z)) =>
     let '(forces, jacobian, ids) := x in
     let '(e1, e2) := ids in
     cpp_forces <- scatter_forces (fst st) forces ids ;;
     h <- addblock (snd st) (3 * e1) (3 * e1 + 6) (3 * e1) (3 * e1 + 6)
                   (cols_to 6 (getslice_to jacobian 6)) ;;
     h <- addblock h (3 * e1) (3 * e1 + 6) (3 * e2) (3 * e2 + 6)
                   (cols_from 6 (getslice_to jacobian 6)) ;;
     h <- addblock h (3 * e2) (3 * e2 + 6) (3 * e1) (3 * e1 + 6)
                   (cols_to 6 (getslice_from jacobian 6)) ;;
     h <- addblock h (3 * e2) (3 * e2 + 6) (3 * e2) (3 * e2 + 6)
                   (cols_from 6 (getslice_from jacobian 6)) ;;
     Ok (cpp_forces, h)).

Lemma hess_step_frame n st x st' :
  hess_step st x = Ok st' ->
  buffers n (fst st) (snd st) -> pair_in_range n (snd x) ->
  buffers n (fst st') (snd st')
  /\ scatter_forces (fst st) (fst (fst x)) (snd x) = Ok (fst st')
  /\ (forall i, on_pair (snd x) i = false ->
                nth i (fst st') 0%float = nth i (fst st) 0%float)
  /\ (forall r c,
        on_pair (snd x) r && on_pair (snd x) c = false ->
        nth c (nth r (snd st') []) 0%float
        = nth c (nth r (snd st) []) 0%float).
Proof.
  destruct x as [[forces jacobian] [e1 e2]]. cbn [fst snd].
  intros H (Lf & Lh & Wh) Hr.
  apply bind_Ok in H. destruct H as (c1 & Hs & H).
  apply bind_Ok in H. destruct H as (h1 & A1 & H).
  apply bind_Ok in H. destruct H as (h2 & A2 & H).
  apply bind_Ok in H. destruct H as (h3 & A3 & H).
  apply bind_Ok in H. destruct H as (h4 & A4 & H).
  inversion H; subst st'; clear H. cbn [fst snd].
  rewrite <- Lf in Hr.
  destruct (scatter_forces_frame _ _ _ _ Hs Hr) as [Lc Nc].
  rewrite Lf in Hr. destruct Hr as (H1 & H2 & H3 & H4). cbn [fst snd] in *.
  destruct (addblock_frame n _ _ _ _ _ A1 Lh Wh) as (L1 & W1 & N1);
    [lia..|].
  destruct (addblock_frame n _ _ _ _ _ A2 L1 W1) as (L2 & W2 & N2);
    [lia..|].
  destruct (addblock_frame n _ _ _ _ _ A3 L2 W2) as (L3 & W3 & N3);
    [lia..|].
  destruct (addblock_frame n _ _ _ _ _ A4 L3 W3) as (L4 & W4 & N4);
    [lia..|].
  split; [repeat split; congruence|].
  split; [exact Hs|]. split; [exact Nc|].
  intros r c Hrc. unfold on_pair in Hrc. cbn [fst snd] in Hrc.
  rewrite N4, N3, N2, N1; try reflexivity;
    destruct (on_edge e1 r), (on_edge e2 r), (on_edge e1 c), (on_edge e2 c);
    try reflexivity; discriminate.
Qed.

Lemma touched2_cons p ids r c :
  touched2 (p :: ids) r c = false ->
  on_pair p r && on_pair p c = false /\ touched2 ids r c = false.
Proof. unfold touched2. cbn [existsb]. apply orb_false_iff. Qed.

Lemma hess_loop_frame n xs :
  forall st st',
    foldM hess_step xs st = Ok st' ->
    buffers n (fst st) (snd st) ->
    Forall (fun x => pair_in_range n (snd x)) xs ->
    buffers n (fst st') (snd st')
    /\ foldM (fun cpp x => scatter_forces cpp (fst (fst x)) (snd x))
             xs (fst st) = Ok (fst st')
    /\ (forall i, touched (map snd xs) i = false ->
                  nth i (fst st') 0%float = nth i (fst st) 0%float)
    /\ (forall r c,
          touched2 (map snd xs) r c = false ->
          nth c (nth r (snd st') []) 0%float
          = nth c (nth r (snd st) []) 0%float).
Proof.
  induction xs as [|x xs IH]; intros st st' H Hb Hr; cbn [foldM] in *.
  - inversion H; subst. split; [exact Hb|]. split; [reflexivity|].
    split; reflexivity.
  - apply bind_Ok in H. destruct H as (s1 & H1 & H).
    inversion Hr as [|? ? Hx Hxs]; subst.
    destruct (hess_step_frame n _ _ _ H1 Hb Hx) as (B1 & S1 & F1 & G1).
    destruct (IH _ _ H B1 Hxs) as (B & S & F & G).
    split; [exact B|]. split; [|split].
    + rewrite S1. cbn [bind]. exact S.
    + intros i Hi. cbn [map] in Hi. apply touched_cons in Hi.
      destruct Hi as [Hp Ht]. rewrite F, F1; auto.
    + intros r c Hrc. cbn [map] in Hrc. apply touched2_cons in Hrc.
      destruct Hrc as [Hp Ht]. rewrite G, G1; auto.
Qed.

Lemma hess_step_forces st x st' :
  hess_step st x = Ok st' ->
  scatter_forces (fst st) (fst (fst x)) (snd x) = Ok (fst st').
Proof.
  destruct x as [[forces jacobian] [e1 e2]]. cbn [fst snd]. intros H.
  apply bind_Ok in H. destruct H as (c1 & Hs & H).
  apply bind_Ok in H. destruct H as (h1 & A1 & H).
  apply bind_Ok in H. destruct H as (h2 & A2 & H).
  apply bind_Ok in H. destruct H as (h3 & A3 & H).
  apply bind_Ok in H. destruct H as (h4 & A4 & H).
  inversion H; subst st'. exact Hs.
Qed.

(** The forces of the write-out with the Hessian are those of the write-out
    without it. *)
Lemma hess_loop_forces (py_forces : mat) :
  forall (py_jacobian : list mat) (edge_ids : list (Z * Z)) st st',
    length py_jacobian = length py_forces ->
    foldM hess_step (combine (combine py_forces py_jacobian) edge_ids) st
    = Ok st' ->
    foldM (fun cpp x => scatter_forces cpp (fst x) (snd x))
          (combine py_forces edge_ids) (fst st)
    = Ok (fst st').
Proof.
  induction py_forces as [|f pf IH]; intros [|j pj] [|p ids] st st' Hl H;
    try discriminate; cbn [combine foldM] in *;
    try (inversion H; reflexivity).
  apply bind_Ok in H. destruct H as (s1 & H1 & H).
  apply (hess_step_forces st (f, j, p)) in H1. cbn [fst snd] in *.
  rewrite H1. cbn [bind].
  apply (IH pj ids s1 st'); [now inversion Hl|exact H].
Qed.

Lemma touched2_sublist (ids ids' : list (Z * Z)) r c :
  (forall p, In p ids' -> In p ids) ->
  touched2 ids r c = false -> touched2 ids' r c = false.
Proof.
  unfold touched2. intros Hs H.
  destruct (existsb _ ids') eqn:E; [|reflexivity].
  apply existsb_exists in E. destruct E as (p & Hp & Hi).
  assert (existsb (fun p => on_pair p r && on_pair p c) ids = true)
    by (apply existsb_exists; eauto).
  congruence.
Qed.

Lemma hess_loop_Ok n xs :
  forall st,
    buffers n (fst st) (snd st) -> Forall (scatter_item n) xs ->
    exists st', foldM hess_step xs st = Ok st'.
Proof.
  intros st Hb Hx.
  destruct (foldM_Ok (fun st : vec * mat => buffers n (fst st) (snd st))
              (scatter_item n) hess_step xs) with (s := st)
    as (st' & E & _); eauto.
  intros s a. apply scatter_item_Ok.
Qed.

Lemma hess_loop_scatter xs :
  forall st st',
    foldM hess_step xs st = Ok st' ->
    foldM (fun cpp x => scatter_forces cpp (fst (fst x)) (snd x))
          xs (fst st)
    = Ok (fst st').
Proof.
  induction xs as [|x xs IH]; intros st st' H; cbn [foldM] in *.
  - now inversion H.
  - apply bind_Ok in H. destruct H as (s1 & H1 & H).
    apply (hess_step_forces st x) in H1. rewrite H1. cbn [bind].
    now apply IH.
Qed.

End HessianScatter.

(** * The entries that the write-out computes *)

Lemma nth_halves {A} (l : list A) d k :
  length l = 12%nat -> (k < 6)%nat ->
  nth k (getslice_to l 6) d = nth k l d
  /\ nth k (getslice_from l 6) d = nth (k + 6) l d.
Proof.
  intros H Hk. unfold getslice_to, getslice_from. rewrite H.
  change (Z.to_nat (slice_index (Z.of_nat 12) 6)) with 6%nat.
  rewrite nth_firstn, nth_skipn.
  destruct (Nat.ltb_spec k 6); [|lia]. split; [reflexivity|].
  f_equal. lia.
Qed.

Lemma on_edge_true e i :
  on_edge e i = true ->
  3 * e <= Z.of_nat i < 3 * e + 6.
Proof.
  rewrite on_edge_spec. intros H. apply andb_true_iff in H.
  destruct H as [Ha Hb]. apply Z.leb_le in Ha. apply Z.ltb_lt in Hb. lia.
Qed.

(** The two additions of one pair, in terms of the row of forces. *)
Lemma scatter_forces_entry cpp_forces forces ids cpp' :
  scatter_forces cpp_forces forces ids = Ok cpp' ->
  length forces = 12%nat -> pair_in_range (length cpp_forces) ids ->
  length cpp' = length cpp_forces
  /\ forall i,
       nth i cpp' 0%float
       = add_pair_force forces ids i (nth i cpp_forces 0%float).
Proof.
  destruct ids as [e1 e2]. intros H Hf Hr.
  destruct (scatter_forces_nth _ _ _ _ _ H Hr) as [L N].
  split; [exact L|]. intros i. rewrite N. unfold add_pair_force.
  cbv zeta. destruct Hr as (H1 & H2 & H3 & H4). cbn [fst snd] in *.
  destruct (on_edge e1 i) eqn:E1; destruct (on_edge e2 i) eqn:E2;
    try reflexivity.
  - apply on_edge_true in E1. apply on_edge_true in E2.
    rewrite (proj1 (nth_halves forces 0%float
                      (i - Z.to_nat (3 * e1)) Hf ltac:(lia))).
    rewrite (proj2 (nth_halves forces 0%float
                      (i - Z.to_nat (3 * e2)) Hf ltac:(lia))).
    reflexivity.
  - apply on_edge_true in E1.
    rewrite (proj1 (nth_halves forces 0%float
                      (i - Z.to_nat (3 * e1)) Hf ltac:(lia))).
    reflexivity.
  - apply on_edge_true in E2.
    rewrite (proj2 (nth_halves forces 0%float
                      (i - Z.to_nat (3 * e2)) Hf ltac:(lia))).
    reflexivity.
Qed.

(** The same for a whole write-out, whatever it is zipped with. *)
Lemma scatter_loop_entry {X} (fs : X -> vec) (ps : X -> Z * Z) (xs : list X) :
  forall cpp_forces cpp',
    foldM (fun cpp x => scatter_forces cpp (fs x) (ps x)) xs cpp_forces
    = Ok cpp' ->
    Forall (fun x => length (fs x) = 12%nat
                     /\ pair_in_range (length cpp_forces) (ps x)) xs ->
    length cpp' = length cpp_forces
    /\ forall i,
         nth i cpp' 0%float
         = fold_left (fun x p => add_pair_force (fs p) (ps p) i x) xs
                     (nth i cpp_forces 0%float).
Proof.
  induction xs as [|x xs IH]; intros cpp cpp' H Hr; cbn [foldM] in H.
  - inversion H. auto.
  - apply bind_Ok in H. destruct H as (c1 & H1 & H).
    inversion Hr as [|? ? [Hf Hx] Hxs]; subst.
    destruct (scatter_forces_entry _ _ _ _ H1 Hf Hx) as [L1 N1].
    rewrite <- L1 in Hxs.
    destruct (IH _ _ H Hxs) as [L N].
    split; [congruence|]. intros i. cbn [fold_left].
    now rewrite N, N1.
Qed.

Lemma nth_cols_to k (m : mat) a :
  nth a (cols_to k m) [] = firstn k (nth a m []).
Proof.
  unfold cols_to. rewrite <- (map_nth (firstn k)). now rewrite firstn_nil.
Qed.

Lemma nth_cols_from k (m : mat) a :
  nth a (cols_from k m) [] = skipn k (nth a m []).
Proof.
  unfold cols_from. rewrite <- (map_nth (skipn k)). now rewrite skipn_nil.
Qed.

(** The four blocks of a 12 x 12 jacobian. *)
Lemma nth_block (j : mat) a b :
  length j = 12%nat -> (a < 6)%nat -> (b < 6)%nat ->
  nth b (nth a (cols_to 6 (getslice_to j 6)) []) 0%float
  = nth b (nth a j []) 0%float
  /\ nth b (nth a (cols_from 6 (getslice_to j 6)) []) 0%float
     = nth (b + 6) (nth a j []) 0%float
  /\ nth b (nth a (cols_to 6 (getslice_from j 6)) []) 0%float
     = nth b (nth (a + 6) j []) 0%float
  /\ nth b (nth a (cols_from 6 (getslice_from j 6)) []) 0%float
     = nth (b + 6) (nth (a + 6) j []) 0%float.
Proof.
  intros Hj Ha Hb. rewrite !nth_cols_to, !nth_cols_from.
  destruct (nth_halves j [] a Hj Ha) as [-> ->].
  rewrite !nth_firstn, !nth_skipn.
  destruct (Nat.ltb_spec b 6); [|lia].
  repeat split; f_equal; lia.
Qed.

(** One block of one pair, entry by entry. *)
Lemma addblock_entry n (m : mat) er ec (blk : mat) m' :
  addblock m (3 * er) (3 * er + 6) (3 * ec) (3 * ec + 6) blk = Ok m' ->
  length m = n -> width n m ->
  0 <= 3 * er -> 3 * er + 6 <= Z.of_nat n ->
  0 <= 3 * ec -> 3 * ec + 6 <= Z.of_nat n ->
  length m' = n /\ width n m'
  /\ forall r c,
       nth c (nth r m' []) 0%float
       = if on_edge er r && on_edge ec c
         then (nth c (nth r m []) 0
               + nth (c - Z.to_nat (3 * ec))
                     (nth (r - Z.to_nat (3 * er)) blk []) 0)%float
         else nth c (nth r m []) 0%float.
Proof.
  intros H L Hw Hr0 Hr1 Hc0 Hc1.
  apply addblock_nth in H; [|try lia..].
  - destruct H as [L' N]. split; [congruence|]. split.
    + apply (width_of_nth n m m' L'); [|exact Hw]. intros r. apply N.
    + intros r c. destruct (N r) as [_ Nr]. rewrite Nr.
      rewrite !on_edge_spec. reflexivity.
  - revert Hw. apply Forall_impl. intros row ->. exact Hc1.
Qed.

Section HessianEntries.

Local Abbreviation hess_step :=
  (fun (st : vec * mat) (x : vec * mat * (Z * Z)) =>
     let '(forces, jacobian, ids) := x in
     let '(e1, e2) := ids in
     cpp_forces <- scatter_forces (fst st) forces ids ;;
     h <- addblock (snd st) (3 * e1) (3 * e1 + 6) (3 * e1) (3 * e1 + 6)
                   (cols_to 6 (getslice_to jacobian 6)) ;;
     h <- addblock h (3 * e1) (3 * e1 + 6) (3 * e2) (3 * e2 + 6)
                   (cols_from 6 (getslice_to jacobian 6)) ;;
     h <- addblock h (3 * e2) (3 * e2 + 6) (3 * e1) (3 * e1 + 6)
                   (cols_to 6 (getslice_from jacobian 6)) ;;
     h <- addblock h (3 * e2) (3 * e2 + 6) (3 * e2) (3 * e2 + 6)
                   (cols_from 6 (getslice_from jacobian 6)) ;;
     Ok (cpp_forces, h)).

Lemma hess_step_entry n st x st' :
  hess_step st x = Ok st' ->
  buffers n (fst st) (snd st) -> scatter_item n x ->
  buffers n (fst st') (snd st')
  /\ forall r c,
       nth c (nth r (snd st') []) 0%float
       = add_pair_jacobian (snd (fst x)) (snd x) r c
                           (nth c (nth r (snd st) []) 0%float).
Proof.
  destruct x as [[forces jacobian] [e1 e2]]. cbn [fst snd].
  intros H (Lf & Lh & Wh) (Hf & Hj & Wj & Hr). cbn [fst snd] in *.
  apply bind_Ok in H. destruct H as (c1 & Hs & H).
  apply bind_Ok in H. destruct H as (h1 & A1 & H).
  apply bind_Ok in H. destruct H as (h2 & A2 & H).
  apply bind_Ok in H. destruct H as (h3 & A3 & H).
  apply bind_Ok in H. destruct H as (h4 & A4 & H).
  inversion H; subst st'; clear H. cbn [fst snd].
  rewrite <- Lf in Hr.
  destruct (scatter_forces_frame _ _ _ _ Hs Hr) as [Lc _].
  rewrite Lf in Hr. destruct Hr as (H1 & H2 & H3 & H4). cbn [fst snd] in *.
  destruct (addblock_entry n _ _ _ _ _ A1 Lh Wh) as (L1 & W1 & N1);
    [lia..|].
  destruct (addblock_entry n _ _ _ _ _ A2 L1 W1) as (L2 & W2 & N2);
    [lia..|].
  destruct (addblock_entry n _ _ _ _ _ A3 L2 W2) as (L3 & W3 & N3);
    [lia..|].
  destruct (addblock_entry n _ _ _ _ _ A4 L3 W3) as (L4 & W4 & N4);
    [lia..|].
  split; [repeat split; congruence|].
  intros r c. rewrite N4, N3, N2, N1. unfold add_pair_jacobian. cbv zeta.
  assert (B : forall e e' : Z,
             on_edge e r && on_edge e' c = true ->
             (r - Z.to_nat (3 * e) < 6)%nat /\ (c - Z.to_nat (3 * e') < 6)%nat).
  { intros e e' E. apply andb_true_iff in E. destruct E as [Er Ec].
    apply on_edge_true in Er. apply on_edge_true in Ec. lia. }
  destruct (on_edge e1 r && on_edge e1 c) eqn:E11;
    [destruct (B _ _ E11) as [Ba Bb];
     rewrite (proj1 (nth_block jacobian _ _ Hj Ba Bb))|];
    (destruct (on_edge e1 r && on_edge e2 c) eqn:E12;
     [destruct (B _ _ E12) as [Ba' Bb'];
      rewrite (proj1 (proj2 (nth_block jacobian _ _ Hj Ba' Bb')))|]);
    (destruct (on_edge e2 r && on_edge e1 c) eqn:E21;
     [destruct (B _ _ E21) as [Ba'' Bb''];
      rewrite (proj1 (proj2 (proj2 (nth_block jacobian _ _ Hj Ba'' Bb''))))|]);
    (destruct (on_edge e2 r && on_edge e2 c) eqn:E22;
     [destruct (B _ _ E22) as [Ba3 Bb3];
      rewrite (proj2 (proj2 (proj2 (nth_block jacobian _ _ Hj Ba3 Bb3))))|]);
    reflexivity.
Qed.

Lemma hess_loop_entry n xs :
  forall st st',
    foldM hess_step xs st = Ok st' ->
    buffers n (fst st) (snd st) -> Forall (scatter_item n) xs ->
    buffers n (fst st') (snd st')
    /\ forall r c,
         nth c (nth r (snd st') []) 0%float
         = fold_left
             (fun x p => add_pair_jacobian (snd (fst p)) (snd p) r c x)
             xs (nth c (nth r (snd st) []) 0%float).
Proof.
  induction xs as [|x xs IH]; intros st st' H Hb Hx; cbn [foldM] in H.
  - inversion H; subst. split; [exact Hb|reflexivity].
  - apply bind_Ok in H. destruct H as (s1 & H1 & H).
    inversion Hx as [|? ? Hx1 Hxs]; subst.
    destruct (hess_step_entry n _ _ _ H1 Hb Hx1) as [B1 N1].
    destruct (IH _ _ H B1 Hxs) as [B N].
    split; [exact B|]. intros r c. cbn [fold_left]. now rewrite N, N1.
Qed.

End HessianEntries.

(** A fold over three zipped lists that only looks at two of them. *)
Lemma fold_combine3_l {A B C S} (g : S -> A * C -> S) (u : list A) :
  forall (v : list B) (w : list C) s,
    length v = length u ->
    fold_left (fun s p => g s (fst (fst p), snd p))
              (combine (combine u v) w) s
    = fold_left g (combine u w) s.
Proof.
  induction u as [|a u IH]; intros [|b v] [|c w] s Hl; try discriminate;
    cbn [combine fold_left fst snd]; try reflexivity.
  apply IH. now inversion Hl.
Qed.

Lemma fold_combine3_r {A B C S} (g : S -> B * C -> S) (u : list A) :
  forall (v : list B) (w : list C) s,
    length v = length u ->
    fold_left (fun s p => g s (snd (fst p), snd p))
              (combine (combine u v) w) s
    = fold_left g (combine v w) s.
Proof.
  induction u as [|a u IH]; intros [|b v] [|c w] s Hl; try discriminate;
    cbn [combine fold_left fst snd]; try reflexivity.
  apply IH. now inversion Hl.
Qed.

(** The write-out with the Hessian on well-shaped data, entry by entry. *)
Lemma jit_py_to_cpp_hess_entries n (py_forces : mat)
  (py_jacobian : list mat) (cpp_forces : vec) (cpp_jacobian : mat)
  (edge_ids : list (Z * Z)) :
  buffers n cpp_forces cpp_jacobian ->
  width 12 py_forces -> Forall square12 py_jacobian ->
  Forall (pair_in_range n) edge_ids ->
  length py_jacobian = length py_forces ->
  exists f h,
    _jit_py_to_cpp_hess py_forces py_jacobian cpp_forces cpp_jacobian
                        edge_ids
    = Ok (f, h)
    /\ buffers n f h
    /\ (forall i,
          nth i f 0%float
          = written_force py_forces edge_ids i (nth i cpp_forces 0%float))
    /\ (forall r c,
          nth c (nth r h []) 0%float
          = written_hessian py_jacobian edge_ids r c
                            (nth c (nth r cpp_jacobian []) 0%float)).
Proof.
  intros Hb Hf Hj Hids Hl. unfold _jit_py_to_cpp_hess.
  pose proof (Forall_combine3 _ _ _ _ _ _ Hf Hj Hids) as Hx.
  assert (Hitems : Forall (scatter_item n)
                          (combine (combine py_forces py_jacobian) edge_ids)).
  { revert Hx. apply Forall_impl. intros [[a b] c]. cbn [fst snd].
    unfold scatter_item, square12. cbn [fst snd]. tauto. }
  destruct (hess_loop_Ok n _ (cpp_forces, cpp_jacobian) Hb Hitems)
    as ([f h] & E).
  exists f, h. split; [exact E|].
  destruct (hess_loop_entry n _ _ _ E Hb Hitems) as [B N].
  split; [exact B|]. split.
  - apply hess_loop_scatter in E. cbn [fst] in E.
    destruct (scatter_loop_entry (fun x => fst (fst x)) snd _ _ _ E)
      as [_ Nf].
    { destruct Hb as (Lf & _). rewrite Lf. revert Hitems.
      apply Forall_impl. intros [[a b] c]. unfold scatter_item.
      cbn [fst snd]. tauto. }
    intros i. rewrite Nf. unfold written_force.
    apply (fold_combine3_l
             (fun x (p : vec * (Z * Z)) =>
                add_pair_force (fst p) (snd p) i x)).
    exact Hl.
  - intros r c. cbn [snd] in N. rewrite N. unfold written_hessian.
    apply (fold_combine3_r
             (fun x (p : mat * (Z * Z)) =>
                add_pair_jacobian (fst p) (snd p) r c x)).
    exact Hl.
Qed.

(** The write-out of the forces alone, entry by entry. *)
Lemma py_to_cpp_nohess_entries (py_forces : mat) (cpp_forces : vec)
  (edge_ids : list (Z * Z)) :
  width 12 py_forces ->
  Forall (pair_in_range (length cpp_forces)) edge_ids ->
  exists f,
    _py_to_cpp_nohess py_forces cpp_forces edge_ids = Ok f
    /\ length f = length cpp_forces
    /\ forall i,
         nth i f 0%float
         = written_force py_forces edge_ids i (nth i cpp_forces 0%float).
Proof.
  intros Hf Hr. unfold _py_to_cpp_nohess.
  pose proof (Forall_combine _ _ _ _ Hf Hr) as Hc.
  destruct (scatter_loop_Ok fst snd _ cpp_forces Hc) as (f & E).
  exists f. split; [exact E|].
  destruct (scatter_loop_entry fst snd _ _ _ E Hc) as [L N].
  split; [exact L|]. intros i. rewrite N. reflexivity.
Qed.

(** X3: whenever the write-out with the Hessian returns, for one jacobian
    and one pair per row of forces, the force buffer it leaves is the one
    that the write-out of the force-only path leaves on the same forces,
    buffer and pairs. *)
Theorem hess_scatter_same_forces (py_forces : mat) (py_jacobian : list mat)
  (cpp_forces : vec) (cpp_jacobian : mat) (edge_ids : list (Z * Z))
  (cpp_forces' : vec) (cpp_jacobian' : mat) :
  length py_jacobian = length py_forces ->
  length edge_ids = length py_forces ->
  _jit_py_to_cpp_hess py_forces py_jacobian cpp_forces cpp_jacobian edge_ids
  = Ok (cpp_forces', cpp_jacobian') ->
  _py_to_cpp_nohess py_forces cpp_forces edge_ids = Ok cpp_forces'.
Proof.
  intros Hl _ H. unfold _jit_py_to_cpp_hess in H. unfold _py_to_cpp_nohess.
  exact (hess_loop_forces _ _ _ _ _ Hl H).
Qed.

Lemma hess_scatter_same_forces_witness :
  exists cpp' h',
    _jit_py_to_cpp_hess [repeat 1%float 12] [repeat (repeat 2%float 12) 12]
                        (repeat 7%float 15) (repeat (repeat 7%float 15) 15)
                        [(0, 3)]
    = Ok (cpp', h')
    /\ _py_to_cpp_nohess [repeat 1%float 12] (repeat 7%float 15) [(0, 3)]
       = Ok cpp'.
Proof.
  destruct (_jit_py_to_cpp_hess [repeat 1%float 12]
              [repeat (repeat 2%float 12) 12]
              (repeat 7%float 15) (repeat (repeat 7%float 15) 15) [(0, 3)])
    as [[cpp' h']|e] eqn:E.
  - exists cpp', h'. split; [reflexivity|].
    apply (hess_scatter_same_forces _ [repeat (repeat 2%float 12) 12]
             _ (repeat (repeat 7%float 15) 15) _ _ h');
      [reflexivity|reflexivity|exact E].
  - vm_compute in E. discriminate.
Defined.

(** X4: the write-out with the Hessian, for rows of 12 forces, each with
    its 12 x 12 jacobian and its pair inside the buffers, a force buffer of
    [n] entries and an n x n Hessian buffer: it returns normally, both
    buffers keep their
    shapes, and every entry [(r, c)] of the Hessian buffer whose row and
    column do not both belong to nodes of one and the same pair is exactly
    what it was. *)
Theorem hess_scatter_keeps_other_entries (n : nat) (py_forces : mat)
  (py_jacobian : list mat) (cpp_forces : vec) (cpp_jacobian : mat)
  (edge_ids : list (Z * Z)) :
  buffers n cpp_forces cpp_jacobian ->
  width 12 py_forces ->
  Forall (fun j : mat => length j = 12%nat /\ width 12 j) py_jacobian ->
  Forall (pair_in_range n) edge_ids ->
  length py_jacobian = length py_forces ->
  length edge_ids = length py_forces ->
  exists cpp_forces' cpp_jacobian',
    _jit_py_to_cpp_hess py_forces py_jacobian cpp_forces cpp_jacobian
                        edge_ids
    = Ok (cpp_forces', cpp_jacobian')
    /\ buffers n cpp_forces' cpp_jacobian'
    /\ forall r c,
         touched2 edge_ids r c = false ->
         nth c (nth r cpp_jacobian' []) 0%float
         = nth c (nth r cpp_jacobian []) 0%float.
Proof.
  intros Hb Hf Hj Hids _ _. unfold _jit_py_to_cpp_hess.
  pose proof (Forall_combine3 _ _ _ _ _ _ Hf Hj Hids) as Hx.
  assert (Hitems : Forall (scatter_item n)
                          (combine (combine py_forces py_jacobian) edge_ids)).
  { revert Hx. apply Forall_impl. intros [[a b] c]. cbn [fst snd].
    unfold scatter_item. cbn [fst snd]. tauto. }
  destruct (hess_loop_Ok n _ (cpp_forces, cpp_jacobian) Hb Hitems)
    as ([f' h'] & E).
  exists f', h'. split; [exact E|].
  destruct (hess_loop_frame n _ _ _ E Hb) as (B & _ & _ & G).
  { revert Hitems. apply Forall_impl. intros x Hx'. apply Hx'. }
  split; [exact B|]. intros r c Hrc. apply G.
  revert Hrc. apply touched2_sublist. apply in_map_snd_combine.
Qed.

Lemma hess_scatter_keeps_other_entries_witness :
  exists cpp' h',
    _jit_py_to_cpp_hess [repeat 1%float 12] [repeat (repeat 2%float 12) 12]
                        (repeat 7%float 15) (repeat (repeat 7%float 15) 15)
                        [(0, 3)]
    = Ok (cpp', h')
    /\ nth 6 (nth 0 h' []) 0%float = 7%float
    /\ nth 0 (nth 7 h' []) 0%float = 7%float.
Proof.
  destruct (hess_scatter_keeps_other_entries 15
              [repeat 1%float 12] [repeat (repeat 2%float 12) 12]
              (repeat 7%float 15) (repeat (repeat 7%float 15) 15) [(0, 3)])
    as (cpp' & h' & E & _ & N).
  - repeat split. repeat constructor.
  - repeat constructor.
  - repeat constructor.
  - repeat constructor; cbn; lia.
  - reflexivity.
  - reflexivity.
  - exists cpp', h'. split; [exact E|].
    split; rewrite N; reflexivity.
Defined.

(** * The friction jacobian *)

Lemma length_vadd u v : length (vadd u v) = Nat.min (length u) (length v).
Proof. apply length_map2. Qed.

Lemma length_vecmat n a b : width n b -> length (vecmat n a b) = n.
Proof.
  intros Hb. unfold vecmat.
  assert (H : forall l acc,
             Forall (fun p : float * vec => length (snd p) = n) l ->
             length acc = n ->
             length (fold_left
                       (fun acc p => vadd acc (vscale (fst p) (snd p)))
                       l acc) = n).
  { induction l as [|p l IH]; intros acc Hl Ha; cbn [fold_left];
      [exact Ha|].
    inversion Hl; subst. apply IH; [assumption|].
    rewrite length_vadd, length_vscale. lia. }
  apply H.
  - apply Forall_forall. intros [x row] Hin. cbn [snd].
    apply in_combine_r in Hin. exact (proj1 (Forall_forall _ b) Hb row Hin).
  - apply repeat_length.
Qed.

(** The reference implementation is lawful. *)
Lemma matmul_shaped : product_shaped matmul.
Proof.
  intros m a b. unfold matmul. split; [apply length_map|].
  intros Hb. apply Forall_map. apply Forall_forall. intros r _.
  now apply length_vecmat.
Qed.

Lemma reference_lawful : lawful reference.
Proof.
  split; [exact matmul_shaped|]. split; [exact matmul_shaped|].
  exact numpy_sum_nonfinite.
Qed.

Lemma reference_np_matmul : product_shaped (@np_matmul reference).
Proof. exact matmul_shaped. Qed.

Section FrictionJacobian.
Context {num : Numerics}.
Hypothesis np_matmul_shaped : product_shaped np_matmul.

Lemma length_ffr_rows g h : length (ffr_rows g h) = length g.
Proof.
  unfold ffr_rows, madd, cols_to, cols_from.
  rewrite length_map2, (proj1 (np_matmul_shaped _ _ _)), !length_map. lia.
Qed.

Lemma width_ffr_rows g h : width 24 g -> width 12 h -> width 12 (ffr_rows g h).
Proof.
  intros Hg Hh. unfold ffr_rows, madd.
  eapply Forall_map2 with (P := fun r => length r = 12%nat)
                          (Q := fun r => length r = 12%nat).
  - unfold cols_to. eapply Forall_map_impl; [exact Hg|].
    cbv beta. intros a Ha. rewrite length_firstn. lia.
  - now apply np_matmul_shaped.
  - intros a b Ha Hb'. rewrite length_vadd. lia.
Qed.

(** The four additions into the zero matrix of one pair. *)
Lemma friction_jacobian_pair (A B : mat) :
  length A = 3%nat -> length B = 3%nat ->
  let add_rows k (x m : mat) : mat :=
    firstn k m ++ madd (firstn (length x) (skipn k m)) x
      ++ skipn (k + length x) m in
  add_rows 9%nat B
    (add_rows 6%nat B (add_rows 3%nat A (add_rows 0%nat A (np.zeros2 12 12))))
  = madd (np.zeros2 3 12) A ++ madd (np.zeros2 3 12) A
      ++ madd (np.zeros2 3 12) B ++ madd (np.zeros2 3 12) B.
Proof.
  intros HA HB.
  destruct A as [|a1 [|a2 [|a3 [|]]]]; try discriminate.
  destruct B as [|b1 [|b2 [|b3 [|]]]]; try discriminate.
  reflexivity.
Qed.

Lemma friction_jacobian_rows (ffr_grad_s : list mat) :
  forall d2E_dx2 : list mat,
    Forall (fun g : mat => length g = 6%nat) ffr_grad_s ->
    length d2E_dx2 = length ffr_grad_s ->
    _chain_rule_friction_jacobian ffr_grad_s d2E_dx2
    = map2 (fun g h =>
              madd (np.zeros2 3 12) (ffr_rows (firstn 3 g) h)
                ++ madd (np.zeros2 3 12) (ffr_rows (firstn 3 g) h)
                ++ madd (np.zeros2 3 12) (ffr_rows (skipn 3 g) h)
                ++ madd (np.zeros2 3 12) (ffr_rows (skipn 3 g) h))
           ffr_grad_s d2E_dx2.
Proof.
  unfold _chain_rule_friction_jacobian. cbv zeta.
  induction ffr_grad_s as [|g gs IH]; intros [|h hs] Hg Hl;
    try discriminate; [reflexivity|].
  inversion Hg as [|? ? Hg1 Hgs]; subst.
  specialize (IH hs Hgs ltac:(now inversion Hl)).
  unfold map2 in *. cbn [length np.zeros3 repeat combine map fst snd].
  f_equal; [|exact IH].
  apply friction_jacobian_pair.
  - change (length (ffr_rows (firstn 3 g) h) = 3%nat).
    rewrite length_ffr_rows, length_firstn. lia.
  - change (length (ffr_rows (skipn 3 g) h) = 3%nat).
    rewrite length_ffr_rows, length_skipn. lia.
Qed.

End FrictionJacobian.

Lemma blocks_of_rows (a b : mat) :
  length a = 3%nat -> length b = 3%nat -> width 12 a -> width 12 b ->
  jacobian_blocks (a ++ a ++ b ++ b).
Proof.
  intros Ha Hb Wa Wb. unfold jacobian_blocks.
  split; [rewrite !length_app; lia|].
  split; [unfold width; rewrite !Forall_app; auto|].
  destruct a as [|a1 [|a2 [|a3 [|]]]]; try discriminate.
  destruct b as [|b1 [|b2 [|b3 [|]]]]; try discriminate.
  split; reflexivity.
Qed.

Lemma zero_rows_shape (A : mat) :
  length A = 3%nat -> width 12 A ->
  length (madd (np.zeros2 3 12) A) = 3%nat
  /\ width 12 (madd (np.zeros2 3 12) A).
Proof.
  intros HA WA. unfold madd. split.
  - rewrite length_map2, HA. reflexivity.
  - eapply Forall_map2 with (P := fun r => length r = 12%nat)
                            (Q := fun r => length r = 12%nat);
      [repeat constructor|exact WA|].
    intros a b Ha Hb. rewrite length_vadd. lia.
Qed.

(** X5: for a generated friction jacobian of 6 rows of 24 entries per pair
    and one 12 x 12 contact Hessian per pair, the friction jacobian has one
    12 x 12 matrix per pair, and in each of them the three rows of the
    first node of an edge are repeated for its second node: rows 0-2 equal
    rows 3-5, and rows 6-8 equal rows 9-11. *)
Theorem friction_jacobian_shape (ffr_grad_s d2E_dx2 : list mat) :
  Forall (fun g : mat => length g = 6%nat /\ width 24 g) ffr_grad_s ->
  Forall (width 12) d2E_dx2 ->
  length d2E_dx2 = length ffr_grad_s ->
  length (_chain_rule_friction_jacobian ffr_grad_s d2E_dx2)
  = length ffr_grad_s
  /\ Forall jacobian_blocks
            (_chain_rule_friction_jacobian ffr_grad_s d2E_dx2).
Proof.
  intros Hg Hh Hl.
  rewrite (friction_jacobian_rows reference_np_matmul); [|
    revert Hg; apply Forall_impl; tauto|exact Hl].
  split; [rewrite length_map2; lia|].
  eapply Forall_map2; [exact Hg|exact Hh|].
  cbv beta. intros g h [Lg Wg] Wh.
  assert (W1 : width 24 (firstn 3 g)) by now apply Forall_firstn_of.
  assert (W2 : width 24 (skipn 3 g)) by now apply Forall_skipn_of.
  destruct (zero_rows_shape (ffr_rows (firstn 3 g) h)) as [La Wa].
  { rewrite (length_ffr_rows reference_np_matmul), length_firstn. lia. }
  { now apply (width_ffr_rows reference_np_matmul). }
  destruct (zero_rows_shape (ffr_rows (skipn 3 g) h)) as [Lb Wb].
  { rewrite (length_ffr_rows reference_np_matmul), length_skipn. lia. }
  { now apply (width_ffr_rows reference_np_matmul). }
  now apply blocks_of_rows.
Qed.

Lemma friction_jacobian_shape_witness :
  length (_chain_rule_friction_jacobian
            [repeat (repeat 1%float 24) 6] [repeat (repeat 2%float 12) 12])
  = 1%nat
  /\ Forall jacobian_blocks
            (_chain_rule_friction_jacobian
               [repeat (repeat 1%float 24) 6]
               [repeat (repeat 2%float 12) 12]).
Proof.
  apply friction_jacobian_shape.
  - repeat constructor.
  - repeat constructor.
  - reflexivity.
Defined.

(** * The inputs of the friction jacobian *)

Ltac twelve l :=
  do 12 (destruct l as [|? l]; [discriminate|]);
  destruct l; [|discriminate].

Lemma jacobian_input_row (e v f : vec) (mu_k : float) :
  length e = 12%nat -> length v = 12%nat -> length f = 12%nat ->
  let add_cols k (x row : vec) :=
    set_cols k (vadd (firstn (length x) (skipn k row)) x) row in
  add_cols 36%nat [mu_k]
    (add_cols 24%nat f (add_cols 12%nat v (add_cols 0%nat e (np.zeros 37))))
  = map (PrimFloat.add 0) (e ++ v ++ f ++ [mu_k]).
Proof.
  intros He Hv Hf. twelve e. twelve v. twelve f. reflexivity.
Qed.

(** X6: for one row of 12 edge coordinates, 12 velocities and 12 forces per
    pair, every row of the input of the friction jacobian has 37 entries
    laid out as edge coordinates, velocities, forces and the friction
    coefficient, each of them added to a zero. *)
Theorem ffr_jacobian_inputs_layout (edges : mat) :
  forall (velocities dE_dx : mat) (mu_k : float),
    width 12 edges -> width 12 velocities -> width 12 dE_dx ->
    length velocities = length edges -> length dE_dx = length edges ->
    _get_ffr_jacobian_inputs edges velocities dE_dx mu_k
    = map (fun x => map (PrimFloat.add 0)
                        (fst (fst x) ++ snd (fst x) ++ snd x ++ [mu_k]))
          (combine (combine edges velocities) dE_dx)
    /\ width 37 (_get_ffr_jacobian_inputs edges velocities dE_dx mu_k).
Proof.
  intros velocities dE_dx mu_k He Hv Hf Lv Lf.
  assert (E : _get_ffr_jacobian_inputs edges velocities dE_dx mu_k
              = map (fun x => map (PrimFloat.add 0)
                                  (fst (fst x) ++ snd (fst x) ++ snd x
                                     ++ [mu_k]))
                    (combine (combine edges velocities) dE_dx)).
  { unfold _get_ffr_jacobian_inputs. cbv zeta. unfold map2.
    revert velocities dE_dx He Hv Hf Lv Lf.
    induction edges as [|e es IH]; intros [|v vs] [|f fs] He Hv Hf Lv Lf;
      try discriminate; [reflexivity|].
    inversion He; inversion Hv; inversion Hf; subst.
    cbn [length np.zeros2 repeat combine map fst snd].
    f_equal.
    - now apply jacobian_input_row.
    - apply IH; try assumption; [now inversion Lv|now inversion Lf]. }
  split; [exact E|]. rewrite E. apply Forall_map.
  pose proof (Forall_combine3 _ _ _ _ _ _ He Hv Hf) as H.
  revert H. apply Forall_impl. intros [[e v] f]. cbn [fst snd].
  intros (H1 & H2 & H3).
  rewrite length_map, !length_app, H1, H2, H3. reflexivity.
Qed.

Lemma ffr_jacobian_inputs_layout_witness :
  _get_ffr_jacobian_inputs
    [repeat 1%float 12] [repeat 2%float 12] [repeat 3%float 12] 0.5
  = [repeat 1%float 12 ++ repeat 2%float 12 ++ repeat 3%float 12
       ++ [0.5%float]].
Proof.
  destruct (ffr_jacobian_inputs_layout
              [repeat 1%float 12] [repeat 2%float 12] [repeat 3%float 12]
              0.5%float) as [E _].
  - repeat constructor.
  - repeat constructor.
  - repeat constructor.
  - reflexivity.
  - reflexivity.
  - rewrite E. vm_compute. reflexivity.
Defined.

(** * The outcome of the two force computations *)

Lemma py_to_cpp_nohess_Ok (py_forces : mat) (cpp_forces : vec)
  (edge_ids : list (Z * Z)) :
  width 12 py_forces ->
  Forall (pair_in_range (length cpp_forces)) edge_ids ->
  exists cpp', _py_to_cpp_nohess py_forces cpp_forces edge_ids = Ok cpp'.
Proof.
  intros Hf Hr. unfold _py_to_cpp_nohess.
  apply (scatter_loop_Ok fst snd).
  exact (Forall_combine _ _ _ _ Hf Hr).
Qed.

Lemma validity_check_Ok f_test h_test :
  nonfinite f_test || nonfinite h_test = false ->
  validity_check f_test h_test = Ok tt.
Proof.
  unfold nonfinite, validity_check. intros H.
  apply orb_false_iff in H. destruct H as [Hf Hh].
  apply orb_false_iff in Hf. destruct Hf as [-> ->].
  apply orb_false_iff in Hh. destruct Hh as [-> ->].
  reflexivity.
Qed.

(** * Rods without eligible pairs *)

Lemma setslice_bcast_nil {A} (f : A -> A) a b : setslice_bcast f [] a b = [].
Proof.
  unfold setslice_bcast. now rewrite !skipn_nil, !firstn_nil.
Qed.

Lemma setslice_rows_nil {A B} (g : A -> B -> A) a b xs l' :
  setslice_rows g [] a b xs = Ok l' -> l' = [].
Proof.
  unfold setslice_rows. rewrite !skipn_nil, !firstn_nil.
  destruct (Nat.eqb _ _); [|discriminate]. intros H. now inversion H.
Qed.

Lemma combos_loop_nil (edges : mat) (n ia : Z) (l : list Z) :
  forall (s st : Z * mat),
    snd s = [] ->
    foldM
      (fun st i =>
         let ri := fst st in
         let base_edge := nth (Z.to_nat i) edges [] in
         let add := n - i - (ia + 1) in
         let combos := setslice_bcast (set_cols 0 base_edge)
                                      (snd st) ri (ri + add) in
         combos' <- setslice_rows (fun row e => set_cols 6 e row)
                                  combos ri (ri + add)
                                  (getslice_from edges (i + ia + 1)) ;;
         Ok (ri + add, combos'))
      l s = Ok st ->
    snd st = [].
Proof.
  induction l as [|i l IH]; intros s st Hs H; cbn [foldM] in H.
  - inversion H; subst. exact Hs.
  - apply bind_Ok in H. destruct H as (s1 & H1 & H).
    cbv zeta in H1. apply bind_Ok in H1. destruct H1 as (c' & Hc & H1).
    inversion H1; subst s1. rewrite Hs, setslice_bcast_nil in Hc.
    apply setslice_rows_nil in Hc. subst c'.
    exact (IH (fst s + (n - i - (ia + 1)), []) st eq_refl H).
Qed.

Section EmptyTable.
Context {num : Numerics}.
Variable min_dist_vectorized : mat -> vec.
Hypothesis one_distance_per_row :
  forall rows, length (min_dist_vectorized rows) = length rows.

(** With an empty table of pairs the detector has no distance to take the
    minimum of. *)
Lemma jit_detect_collisions_empty edges edge_ids lim nd cl ia :
  _jit_detect_collisions min_dist_vectorized edges [] edge_ids lim nd cl ia
  = Raise ValueError.
Proof.
  destruct (_jit_detect_collisions _ _ _ _ _ _ _ _) as [r|e] eqn:E.
  - exfalso. unfold _jit_detect_collisions in E. cbv zeta in E.
    apply bind_Ok in E. destruct E as (edges' & _ & E).
    apply bind_Ok in E. destruct E as (st & Hst & E).
    apply bind_Ok in E. destruct E as (cd & Hmin & _).
    apply (combos_loop_nil edges' (Z.of_nat (length edges)) ia) in Hst;
      [|reflexivity].
    pose proof (one_distance_per_row (snd st)) as Hl.
    rewrite Hst in *. cbn [length] in Hl.
    destruct (min_dist_vectorized []); discriminate.
  - now rewrite (jit_detect_collisions_raises min_dist_vectorized _ _ _ _ _ _
                   _ _ E).
Qed.

Lemma detect_collisions_empty self :
  edge_combos self = [] ->
  _detect_collisions min_dist_vectorized self = Raise ValueError.
Proof.
  intros H. unfold _detect_collisions.
  now rewrite H, jit_detect_collisions_empty.
Qed.

End EmptyTable.

(** C5 (as amended): for every position buffer of a rod with the table
    and scratch arrays that [__init__] sets up, and a distance primitive
    that gives one distance per pair. When the edge-pair table is not empty
    (five nodes or more), the collision detector returns as active exactly
    the entries of the table whose distance minus [contact_len] is strictly
    below [collision_limit], in table order, together with the [np.min] of
    the distances of all entries of the table, whether or not any of them
    is active; that value is one of the distances and not above any of them
    when no distance is NaN, and it is NaN when a distance is. When the
    table is empty (four nodes or fewer), the detector raises
    [ValueError] and returns nothing. *)
Theorem detect_collisions_active (min_dist_vectorized : mat -> vec)
  (self : IMC) :
  table_shapes self ->
  (forall rows, length (min_dist_vectorized rows) = length rows) ->
  (edge_ids self <> [] ->
   exists self' closest,
     _detect_collisions min_dist_vectorized self
     = Ok (self',
           within_limit (pair_distances min_dist_vectorized self)
                        (edge_ids self) (contact_len self)
                        (collision_limit self),
           closest)
     /\ (forall p,
           In p (within_limit (pair_distances min_dist_vectorized self)
                              (edge_ids self) (contact_len self)
                              (collision_limit self))
           <-> exists d,
                 In (d, p) (combine (pair_distances min_dist_vectorized self)
                                    (edge_ids self))
                 /\ (d - contact_len self <? collision_limit self)%float
                    = true)
     /\ np.min (pair_distances min_dist_vectorized self) = Ok closest
     /\ (existsb is_nan (pair_distances min_dist_vectorized self) = false ->
         In closest (pair_distances min_dist_vectorized self)
         /\ Forall (fun d => (closest <=? d)%float = true)
                   (pair_distances min_dist_vectorized self))
     /\ (existsb is_nan (pair_distances min_dist_vectorized self) = true ->
         is_nan closest = true)
     /\ edge_ids self' = edge_ids self)
  /\ (edge_ids self = [] ->
      _detect_collisions min_dist_vectorized self = Raise ValueError).
Proof.
  intros Hs Hmd. split.
  - intros Hne.
    destruct (jit_detect_collisions_Ok min_dist_vectorized Hmd self Hs Hne)
      as (closest & Hd & Hmin).
    unfold _detect_collisions. rewrite Hd. cbn [bind].
    do 2 eexists. split; [reflexivity|].
    split; [intros p; apply in_within_limit|].
    split; [exact Hmin|].
    split; [intros Hnan; now apply np_min_spec|].
    split; [intros Hnan; now apply (np_min_nan _ _ Hmin)|reflexivity].
  - intros He. apply detect_collisions_empty; [exact Hmd|].
    destruct Hs as (_ & _ & _ & _ & _ & Hc & _). rewrite He in Hc.
    now apply length_zero_iff_nil.
Qed.

Lemma detect_collisions_active_witness :
  table_shapes ex_self
  /\ (forall rows, length (ex_min_dist_vectorized rows) = length rows)
  /\ edge_ids ex_self <> []
  /\ exists self' closest,
       _detect_collisions ex_min_dist_vectorized ex_self
       = Ok (self', [(0, 3)], closest)
       /\ closest = 0.08%float.
Proof.
  assert (Hs : table_shapes ex_self).
  { unfold table_shapes, width.
    repeat split; try reflexivity; try (cbn; lia); repeat constructor. }
  assert (Hmd : forall rows,
             length (ex_min_dist_vectorized rows) = length rows)
    by (intros rows; apply length_map).
  assert (Hne : edge_ids ex_self <> []) by discriminate.
  split; [exact Hs|]. split; [exact Hmd|]. split; [exact Hne|].
  destruct (detect_collisions_active ex_min_dist_vectorized ex_self
              Hs Hmd) as [H _].
  destruct (H Hne) as (self' & closest & Hd & _ & Hmin & _).
  exists self', closest. split.
  - rewrite Hd. reflexivity.
  - assert (E : np.min (pair_distances ex_min_dist_vectorized ex_self)
                = Ok 0.08%float) by (vm_compute; reflexivity).
    rewrite E in Hmin. now inversion Hmin.
Defined.

(** C5 as it was stated fails on a short rod: for four nodes [__init__]
    builds an empty table, and on every position buffer the detector
    raises [ValueError] where the claim has it return an active set and a
    minimum distance. *)
Lemma detect_collisions_short_rod :
  exists self,
    __init__ {| param_radius := 0.05; param_S := 1; param_num_nodes := 4;
                param_collision_limit := 0.01; param_contact_stiffness := 1;
                param_ce_k := 50; param_mu_k := 0.5 |}
             (ex_functions 1 1) 5555
             (ex_shm (repeat 0%float 12) (repeat 0%float 12)
                     (repeat 0%float 12) (repeat (repeat 0%float 12) 12)
                     (repeat 0%float 6))
    = Ok self
    /\ num_edges self = 3 /\ edge_ids self = []
    /\ forall node_data,
         _detect_collisions ex_min_dist_vectorized
                            (set_node_coordinates node_data self)
         = Raise ValueError.
Proof.
  eexists. split; [vm_compute; reflexivity|].
  split; [reflexivity|]. split; [reflexivity|].
  intros node_data. apply detect_collisions_empty; [|reflexivity].
  intros rows. apply length_map.
Qed.

(** X9: a rod of one to four nodes has no eligible pair of edges:
    [__init__] returns with an empty table, and the first request of a run
    that asks for collision detection (readable control values,
    [first_iter] set) stops the server with a [ValueError] before any reply
    is sent: the detector has no distance for [np.min] to take the minimum
    of. *)
Theorem short_rod_stops (min_dist_vectorized : mat -> vec)
  (min_dist_f_out_vectorized : mat -> vec * mat)
  (params : Params) (functions : Functions) (argv1 : Z) (shm : SharedMemory)
  (req : Request) (reqs : list Request) (hessian_flag first_iter fr : Z) :
  (forall rows, length (min_dist_vectorized rows) = length rows) ->
  1 <= param_num_nodes params <= 4 ->
  py_int (nth 5 (req_meta_data req) 0%float) = Ok hessian_flag ->
  py_int (nth 0 (req_meta_data req) 0%float) = Ok first_iter ->
  py_int (nth 1 (req_meta_data req) 0%float) = Ok fr ->
  first_iter <> 0 ->
  exists self,
    __init__ params functions argv1 shm = Ok self
    /\ edge_ids self = []
    /\ start_server min_dist_vectorized min_dist_f_out_vectorized self
                    (req :: reqs)
       = Raise ValueError.
Proof.
  intros Hmd Hn H5 H0 H1 Hfi.
  destruct (init_Ok params functions argv1 shm) as
    (self & Hinit & Hids & _ & _ & _ & Hcombos & _); [lia|].
  assert (Hcount : count_edge_combos (param_num_nodes params - 1) 2 = 0
                   /\ eligible_pairs (param_num_nodes params - 1) 2 = []).
  { assert (Hc : param_num_nodes params = 1 \/ param_num_nodes params = 2
                 \/ param_num_nodes params = 3 \/ param_num_nodes params = 4)
      by lia.
    destruct Hc as [-> |[-> |[-> | ->]]]; split; reflexivity. }
  destruct Hcount as [Hcount Hpairs].
  rewrite Hcount in Hcombos. rewrite Hpairs in Hids.
  exists self. split; [exact Hinit|]. split; [exact Hids|].
  unfold start_server. cbn [serve]. unfold start_server_request.
  cbn [socket_recv meta_data set_meta_data]. rewrite H5, H0, H1.
  cbn [bind]. destruct (Z.eqb_spec first_iter 0) as [?|_]; [contradiction|].
  cbv zeta. rewrite (detect_collisions_empty min_dist_vectorized Hmd).
  - reflexivity.
  - exact Hcombos.
Qed.

Lemma short_rod_stops_witness :
  exists self,
    __init__ {| param_radius := 0.05; param_S := 1; param_num_nodes := 4;
                param_collision_limit := 0.01; param_contact_stiffness := 1;
                param_ce_k := 50; param_mu_k := 0.5 |}
             (ex_functions 1 1) 5555
             (ex_shm (repeat 0%float 12) (repeat 0%float 12)
                     (repeat 0%float 12) (repeat (repeat 0%float 12) 12)
                     (repeat 0%float 6))
    = Ok self
    /\ edge_ids self = []
    /\ start_server ex_min_dist_vectorized ex_min_dist_f_out_vectorized self
                    [{| req_node_coordinates := repeat 0%float 12;
                        req_velocities := repeat 0%float 12;
                        req_meta_data := ex_meta 1 0 |}]
       = Raise ValueError.
Proof.
  apply (short_rod_stops _ _ _ _ _ _ _ _ 0 1 0).
  - intros rows. apply length_map.
  - cbn. lia.
  - reflexivity.
  - reflexivity.
  - reflexivity.
  - lia.
Defined.

(** * The size of the edge-pair table *)

Lemma sum_Z_app l1 l2 : sum_Z (l1 ++ l2) = sum_Z l1 + sum_Z l2.
Proof.
  unfold sum_Z. induction l1 as [|a l1 IH]; cbn [app fold_right]; lia.
Qed.

(** The sum of the row counts of the first [k] edges. *)
Lemma pair_count_prefix n (k : nat) :
  3 <= n ->
  2 * sum_Z (map (fun i => Z.max 0 (n - i - (2 + 1)))
                 (range 0 (Z.of_nat k)))
  = 2 * Z.min (Z.of_nat k) (n - 2) * (n - 3)
    - Z.min (Z.of_nat k) (n - 2) * (Z.min (Z.of_nat k) (n - 2) - 1).
Proof.
  intros Hn. induction k as [|k IH].
  - change (Z.of_nat 0) with 0. rewrite range_nil by lia.
    rewrite Z.min_l by lia. reflexivity.
  - rewrite Nat2Z.inj_succ, <- Z.add_1_r, range_snoc by lia.
    rewrite map_app, sum_Z_app, Z.mul_add_distr_l, IH.
    cbn [map]. unfold sum_Z at 1. cbn [fold_right].
    destruct (Z.le_gt_cases (Z.of_nat k + 1) (n - 2)).
    + rewrite !Z.min_l by lia. nia.
    + destruct (Z.le_gt_cases (Z.of_nat k) (n - 2)).
      * rewrite Z.min_l, Z.min_r by lia. nia.
      * rewrite !Z.min_r by lia. nia.
Qed.

Lemma pair_count_closed n :
  3 <= n -> 2 * pair_count n 2 = (n - 3) * (n - 2).
Proof.
  intros Hn. pose proof (pair_count_prefix n (Z.to_nat n) Hn) as H.
  rewrite Z2Nat.id in H by lia. unfold pair_count. rewrite H.
  rewrite Z.min_r by lia. nia.
Qed.

(** X10: for a rod of 4 to 2^31 + 1 nodes, [__init__] allocates and fills a
    table of [(N - 4)(N - 3) / 2] edge pairs, [N] being the number of
    nodes, with one row of the scratch array [edge_combos] for each of
    them. *)
Theorem edge_pair_table_size (params : Params) (functions : Functions)
  (argv1 : Z) (shm : SharedMemory) :
  4 <= param_num_nodes params <= 2 ^ 31 + 1 ->
  exists self,
    __init__ params functions argv1 shm = Ok self
    /\ 2 * Z.of_nat (length (edge_ids self))
       = (param_num_nodes params - 4) * (param_num_nodes params - 3)
    /\ length (edge_combos self) = length (edge_ids self).
Proof.
  intros Hn.
  destruct (init_Ok params functions argv1 shm) as
    (self & Hinit & Hids & _ & _ & _ & Hcombos & _); [lia|].
  exists self. split; [exact Hinit|].
  assert (Hlen : Z.of_nat (length (edge_ids self))
                 = pair_count (param_num_nodes params - 1) 2)
    by (rewrite Hids; apply length_eligible_pairs).
  split.
  - rewrite Hlen, pair_count_closed by lia. f_equal; lia.
  - rewrite Hcombos. unfold np.zeros2. rewrite repeat_length.
    rewrite count_edge_combos_sum by lia. lia.
Qed.

Lemma edge_pair_table_size_witness :
  exists self,
    __init__ ex_params (ex_functions 1 1) 5555
             (ex_shm ex_hairpin (repeat 0%float 15) (repeat 7%float 15)
                     (repeat (repeat 7%float 15) 15) (repeat 0%float 6))
    = Ok self
    /\ length (edge_ids self) = 1%nat.
Proof.
  destruct (edge_pair_table_size ex_params (ex_functions 1 1) 5555
              (ex_shm ex_hairpin (repeat 0%float 15) (repeat 7%float 15)
                      (repeat (repeat 7%float 15) 15) (repeat 0%float 6)))
    as (self & Hinit & Hsize & _).
  - cbn. lia.
  - exists self. split; [exact Hinit|].
    change (param_num_nodes ex_params) with 5 in Hsize. lia.
Defined.

(** * What a request does to the buffers and to the scratch arrays *)

Section RunState.
Context {num : Numerics}.
Variable min_dist_vectorized : mat -> vec.
Variable min_dist_f_out_vectorized : mat -> vec * mat.

Local Abbreviation request :=
  (start_server_request min_dist_vectorized min_dist_f_out_vectorized).
Local Abbreviation contact := (contact_phase min_dist_f_out_vectorized).

(** The contact phase writes forces, Hessian and stiffness only. *)
Lemma contact_phase_geometry hf fi s vars ids s3 v3 :
  contact hf fi s vars ids = Ok (s3, v3) ->
  edges s3 = edges s /\ edge_combos s3 = edge_combos s
  /\ node_coordinates s3 = node_coordinates s
  /\ velocities s3 = velocities s /\ meta_data s3 = meta_data s
  /\ scale s3 = scale s.
Proof.
  destruct ids as [|id ids].
  - rewrite contact_phase_nil. intros H. inversion H; subst. auto 10.
  - intros H. apply contact_phase_Ok in H; [|discriminate].
    destruct H as (ec & cd & fo & vel & _ & _ & _ & H).
    assert (Hx : exists k,
               (if fi =? 0 then s
                else _update_contact_stiffness s cd (l_last_cd vars))
               = set_contact_stiffness k s).
    { destruct (fi =? 0).
      - exists (contact_stiffness s). symmetry.
        apply set_contact_stiffness_same.
      - apply update_contact_stiffness_sets. }
    destruct Hx as (k & Hx). rewrite Hx in H.
    destruct (hf =? 0).
    + apply get_forces_Ok in H. destruct H as (f & ->).
      cbn. auto 10.
    + apply get_forces_and_hessian_Ok in H. destruct H as (f & h & ->).
      cbn. auto 10.
Qed.

(** The positions are scaled in every request, the velocities and the
    scratch arrays are rewritten when [first_iter] is set. *)
Lemma request_geometry self vars self' vars' fi nc :
  request self vars = Ok (self', vars', fi, nc) ->
  node_coordinates self'
  = map (fun x => (x * scale self)%float) (node_coordinates self)
  /\ velocities self'
     = (if fi =? 0 then velocities self
        else map (fun x => (x * scale self)%float) (velocities self))
  /\ (fi = 0 ->
      edges self' = edges self /\ edge_combos self' = edge_combos self)
  /\ (fi <> 0 ->
      exists ids cd,
        _jit_detect_collisions min_dist_vectorized
          (edges self) (edge_combos self) (edge_ids self)
          (collision_limit self)
          (map (fun x => (x * scale self)%float) (node_coordinates self))
          (contact_len self) (ia self)
        = Ok (edges self', edge_combos self', ids, cd)).
Proof.
  intros H. apply request_Ok in H.
  destruct H as (hf & self1 & self2 & vars2 & ids & self3
                 & Hfl & Hd & Hids & Hnc & Hc & ->).
  apply flags_phase_Ok in Hfl. destruct Hfl as (_ & _ & fr & _ & ->).
  apply contact_phase_geometry in Hc.
  destruct Hc as (He & Hec & Hx & Hv & _ & _).
  unfold report_phase.
  cbn [node_coordinates velocities edges edge_combos set_meta_data].
  rewrite He, Hec, Hx, Hv. clear He Hec Hx Hv.
  apply detect_phase_Ok in Hd.
  destruct Hd as [(-> & -> & _)|(Hfi & e & c & ids' & cd & Hj & -> & _)].
  - unfold zero_phase. destruct (hf =? 0); cbn; repeat split; auto;
      intros; contradiction.
  - destruct (Z.eqb_spec fi 0) as [?|_]; [contradiction|].
    cbn in Hj.
    unfold zero_phase. destruct (hf =? 0); cbn; repeat split;
      try contradiction; intros _; exists ids', cd; exact Hj.
Qed.

End RunState.

(** * The shapes of the table and of the scratch arrays during a run *)

Lemma in_within_limit_table minDs (table : list (Z * Z)) cl lim p :
  In p (within_limit minDs table cl lim) -> In p table.
Proof.
  unfold within_limit. intros H. apply in_map_iff in H.
  destruct H as ([d p'] & <- & H). apply filter_In in H.
  destruct H as [H _]. now apply in_combine_r in H.
Qed.

Lemma table_shapes_positions self x :
  table_shapes self -> length x = length (node_coordinates self) ->
  table_shapes (set_node_coordinates x self).
Proof.
  unfold table_shapes. cbn. intros (H1 & H2 & H3 & H4 & H5 & H6 & H7 & H8) Hx.
  repeat split; try assumption. now rewrite Hx.
Qed.

Section Shapes.
Context {num : Numerics}.
Variable min_dist_vectorized : mat -> vec.
Variable min_dist_f_out_vectorized : mat -> vec * mat.
Hypothesis one_distance_per_row :
  forall rows, length (min_dist_vectorized rows) = length rows.

(** What the detector leaves in the scratch arrays has the shapes it
    found, and the pairs it returns are pairs of the table. *)
Lemma detect_shapes self e c ids cd :
  table_shapes self ->
  _jit_detect_collisions min_dist_vectorized (edges self) (edge_combos self)
    (edge_ids self) (collision_limit self) (node_coordinates self)
    (contact_len self) (ia self)
  = Ok (e, c, ids, cd) ->
  Z.of_nat (length e) = num_edges self /\ width 6 e
  /\ length c = length (edge_ids self) /\ width 12 c
  /\ forall p, In p ids -> In p (edge_ids self).
Proof.
  intros Hs H.
  assert (Hcase : edge_ids self = [] \/ edge_ids self <> [])
    by (destruct (edge_ids self); [left|right]; congruence).
  destruct Hcase as [Hnil|Hne].
  - destruct Hs as (_ & _ & _ & _ & _ & Hc & _).
    rewrite Hnil in Hc. destruct (edge_combos self); [|discriminate].
    rewrite (jit_detect_collisions_empty _ one_distance_per_row) in H.
    discriminate.
  - destruct (jit_detect_collisions_Ok _ one_distance_per_row self Hs Hne)
      as (closest & E & _).
    rewrite E in H. inversion H; subst; clear H E.
    destruct Hs as (H0 & _ & Hids & _ & _ & _ & _ & Hx).
    assert (He : forall i, In i (range 0 (num_edges self)) ->
                           length (edge_of (node_coordinates self) i)
                           = 6%nat).
    { intros i Hi. apply in_range_iff in Hi.
      apply (length_edge_of _ _ (num_edges self)); [exact Hx|lia]. }
    split; [rewrite length_map, length_range; lia|].
    split; [apply Forall_map, Forall_forall; exact He|].
    split; [now rewrite length_map|].
    split.
    + apply Forall_map, Forall_forall. intros [i j] Hp.
      rewrite Hids in Hp. apply in_eligible_pairs in Hp.
      unfold combined. cbn [fst snd]. rewrite length_app.
      rewrite !He by (apply in_range_iff; lia). reflexivity.
    + intros p. apply in_within_limit_table.
Qed.

Lemma request_table_shapes self vars self' vars' fi nc :
  table_shapes self ->
  start_server_request min_dist_vectorized min_dist_f_out_vectorized
                       self vars
  = Ok (self', vars', fi, nc) ->
  table_shapes self'.
Proof.
  intros Hs H.
  pose proof (request_frame _ _ _ _ _ _ _ _ H) as F.
  destruct (request_geometry _ _ _ _ _ _ _ _ H) as (Hx & _ & H0 & H1).
  destruct F as (_ & _ & Fn & _ & _ & _ & _ & _ & _ & _ & _ & _ & _ & Fia
                 & _ & Fids & _).
  destruct (Z.eq_dec fi 0) as [Hfi|Hfi].
  - destruct (H0 Hfi) as [He Hc].
    destruct Hs as (S1 & S2 & S3 & S4 & S5 & S6 & S7 & S8).
    unfold table_shapes.
    rewrite Fn, Fia, Fids, He, Hc, Hx, length_map. auto 10.
  - destruct (H1 Hfi) as (ids & cd & Hj).
    pose proof (table_shapes_positions self
                  (map (fun x => (x * scale self)%float)
                       (node_coordinates self)) Hs (length_map _ _)) as Hs1.
    destruct (detect_shapes _ _ _ _ _ Hs1 Hj) as (D1 & D2 & D3 & D4 & _).
    cbn in D1, D3.
    destruct Hs as (S1 & S2 & S3 & S4 & S5 & S6 & S7 & S8).
    unfold table_shapes.
    rewrite Fn, Fia, Fids, Hx, length_map. auto 10.
Qed.

Lemma serve_table_shapes reqs :
  forall self vars self' vars',
    table_shapes self ->
    Forall (fun req => length (req_node_coordinates req)
                       = length (node_coordinates self)) reqs ->
    serve min_dist_vectorized min_dist_f_out_vectorized reqs self vars
    = Ok (self', vars') ->
    table_shapes self'.
Proof.
  induction reqs as [|req reqs IH]; intros self vars self' vars' Hs Hr H;
    cbn [serve] in H.
  - inversion H; subst. exact Hs.
  - inversion Hr as [|? ? Hreq Hreqs]; subst.
    apply bind_Ok in H. destruct H as ([[[s1 v1] fi] nc] & H1 & H).
    apply bind_Ok in H. destruct H as (v2 & _ & H).
    assert (Hs0 : table_shapes (socket_recv req self)).
    { unfold socket_recv, table_shapes in *. cbn.
      destruct Hs as (S1 & S2 & S3 & S4 & S5 & S6 & S7 & S8).
      rewrite Hreq. auto 10. }
    pose proof (request_table_shapes _ _ _ _ _ _ Hs0 H1) as Hs1.
    apply (IH s1 v2 self' vars' Hs1); [|exact H].
    destruct (request_geometry _ _ _ _ _ _ _ _ H1) as (Hx & _).
    rewrite Hx, length_map. cbn. rewrite Hreq. exact Hreqs.
Qed.

End Shapes.

Lemma init_table_shapes params functions argv1 shm :
  1 <= param_num_nodes params <= 2 ^ 31 + 1 ->
  Z.of_nat (length (shm_node_coordinates shm)) = 3 * param_num_nodes params ->
  exists self,
    __init__ params functions argv1 shm = Ok self /\ table_shapes self
    /\ node_coordinates self = shm_node_coordinates shm.
Proof.
  intros Hn Hx.
  destruct (init_Ok params functions argv1 shm) as
    (self & Hinit & Hids & Hne & Hia & He & Hc & Hnd & _); [lia|].
  exists self. split; [exact Hinit|]. split; [|exact Hnd].
  unfold table_shapes. rewrite Hne, Hia, Hids, He, Hc, Hnd.
  unfold np.zeros2, width. rewrite !repeat_length.
  repeat split; try lia.
  - apply Forall_forall. intros r Hr. apply repeat_spec in Hr. subst r.
    apply repeat_length.
  - rewrite count_edge_combos_sum by lia.
    pose proof (length_eligible_pairs (param_num_nodes params - 1) 2). lia.
  - apply Forall_forall. intros r Hr. apply repeat_spec in Hr. subst r.
    apply repeat_length.
Qed.

(** X11: for a rod of 1 to 2^31 + 1 nodes whose position buffer holds three
    coordinates per node, at startup and in every request, and a distance
    primitive that gives one distance per row: the state that [__init__]
    returns has the table of eligible pairs, one row of 6 per edge in
    [edges], one row of 12 per pair in [edge_combos] and a position buffer
    of the right length, and so has the state at the end of every run that
    answers all its requests. *)
Theorem run_keeps_table_shapes (min_dist_vectorized : mat -> vec)
  (min_dist_f_out_vectorized : mat -> vec * mat)
  (params : Params) (functions : Functions) (argv1 : Z) (shm : SharedMemory)
  (reqs : list Request) :
  (forall rows, length (min_dist_vectorized rows) = length rows) ->
  1 <= param_num_nodes params <= 2 ^ 31 + 1 ->
  Z.of_nat (length (shm_node_coordinates shm)) = 3 * param_num_nodes params ->
  Forall (fun req => Z.of_nat (length (req_node_coordinates req))
                     = 3 * param_num_nodes params) reqs ->
  exists self,
    __init__ params functions argv1 shm = Ok self
    /\ table_shapes self
    /\ forall self' vars',
         start_server min_dist_vectorized min_dist_f_out_vectorized self reqs
         = Ok (self', vars') ->
         table_shapes self'.
Proof.
  intros Hmd Hn Hx Hreqs.
  destruct (init_table_shapes params functions argv1 shm Hn Hx)
    as (self & Hinit & Hs & Hnd).
  exists self. split; [exact Hinit|]. split; [exact Hs|].
  intros self' vars' H. unfold start_server in H.
  apply (serve_table_shapes min_dist_vectorized min_dist_f_out_vectorized
           Hmd reqs self initial_locals self' vars' Hs); [|exact H].
  revert Hreqs. apply Forall_impl. intros req Hreq. rewrite Hnd. lia.
Qed.

Lemma run_keeps_table_shapes_witness :
  exists self self' vars',
    __init__ ex_params (ex_functions 1 1) 5555
             (ex_shm ex_hairpin (repeat 0%float 15) (repeat 7%float 15)
                     (repeat (repeat 7%float 15) 15) (repeat 0%float 6))
    = Ok self
    /\ start_server ex_min_dist_vectorized ex_min_dist_f_out_vectorized self
                    [ex_request (ex_meta 1 1); ex_request (ex_meta 0 0)]
       = Ok (self', vars')
    /\ table_shapes self'.
Proof.
  destruct (run_keeps_table_shapes ex_min_dist_vectorized
              ex_min_dist_f_out_vectorized ex_params (ex_functions 1 1) 5555
              (ex_shm ex_hairpin (repeat 0%float 15) (repeat 7%float 15)
                      (repeat (repeat 7%float 15) 15) (repeat 0%float 6))
              [ex_request (ex_meta 1 1); ex_request (ex_meta 0 0)])
    as (self & Hinit & _ & Hrun).
  - intros rows. apply length_map.
  - cbn. lia.
  - reflexivity.
  - repeat constructor.
  - rewrite init_small_rod in Hinit. inversion Hinit; subst self.
    assert (H : match start_server ex_min_dist_vectorized
                        ex_min_dist_f_out_vectorized
                        (ex_imc 1 1 ex_hairpin (repeat 0%float 15)
                                (repeat 0%float 6))
                        [ex_request (ex_meta 1 1);
                         ex_request (ex_meta 0 0)] with
                | Ok _ => true
                | Raise _ => false
                end = true) by (vm_compute; reflexivity).
    destruct (start_server _ _ _ _) as [[s v]|] eqn:E; [|discriminate].
    exists (ex_imc 1 1 ex_hairpin (repeat 0%float 15) (repeat 0%float 6)),
      s, v.
    split; [apply init_small_rod|]. split; [exact E|].
    now apply (Hrun s v).
Defined.

(** * What a request reports *)

Lemma set_item_cons h t i x :
  set_item (h :: t) (S i) x = h :: set_item t i x.
Proof. reflexivity. Qed.

Lemma set_item_nth (a : vec) :
  forall i x,
    length (set_item a i x) = length a
    /\ (forall j, j <> i -> nth j (set_item a i x) 0%float = nth j a 0%float)
    /\ ((i < length a)%nat -> nth i (set_item a i x) 0%float = x).
Proof.
  induction a as [|h t IH]; intros i x.
  - unfold set_item. rewrite firstn_nil, skipn_nil. cbn.
    repeat split; try reflexivity. lia.
  - destruct i as [|i].
    + cbn. repeat split; try reflexivity.
      intros [|j] Hj; [contradiction|reflexivity].
    + rewrite set_item_cons. destruct (IH i x) as (L & N & V).
      cbn [length]. repeat split.
      * now rewrite L.
      * intros [|j] Hj; [reflexivity|]. cbn [nth]. apply N. lia.
      * intros Hi. cbn [nth]. apply V. lia.
Qed.

Section Report.
Context {num : Numerics}.
Variable min_dist_vectorized : mat -> vec.
Variable min_dist_f_out_vectorized : mat -> vec * mat.

Local Abbreviation request :=
  (start_server_request min_dist_vectorized min_dist_f_out_vectorized).
Local Abbreviation contact := (contact_phase min_dist_f_out_vectorized).

Lemma request_meta_data self vars self' vars' fi nc :
  request self vars = Ok (self', vars', fi, nc) ->
  meta_data self'
  = set_item (meta_data self) 4
             (l_closest_distance vars' / scale self)%float.
Proof.
  intros H. apply request_Ok in H.
  destruct H as (hf & self1 & self2 & vars2 & ids & self3
                 & Hfl & Hd & Hids & Hnc & Hc & ->).
  apply flags_phase_Ok in Hfl. destruct Hfl as (_ & _ & fr & _ & ->).
  apply contact_phase_geometry in Hc.
  destruct Hc as (_ & _ & _ & _ & Hm & Hsc).
  unfold report_phase. cbn [meta_data set_meta_data]. rewrite Hm, Hsc.
  apply detect_phase_Ok in Hd.
  destruct Hd as [(_ & -> & _)|(_ & e & c & ids' & cd & _ & -> & _)];
    unfold zero_phase; destruct (hf =? 0); reflexivity.
Qed.

(** Which distance a request ends with. *)
Lemma request_distance self vars self' vars' fi nc :
  request self vars = Ok (self', vars', fi, nc) ->
  (nc = 0%nat -> fi = 0 ->
   l_closest_distance vars' = l_closest_distance vars)
  /\ (nc = 0%nat -> fi <> 0 ->
      exists e c ids,
        _jit_detect_collisions min_dist_vectorized
          (edges self) (edge_combos self) (edge_ids self)
          (collision_limit self)
          (map (fun x => (x * scale self)%float) (node_coordinates self))
          (contact_len self) (ia self)
        = Ok (e, c, ids, l_closest_distance vars'))
  /\ (nc <> 0%nat ->
      exists active,
        l_edge_ids vars' = Some active /\ length active = nc
        /\ np.min
             (fst (min_dist_f_out_vectorized
                     (map (pair_row
                             (map (fun x => (x * scale self)%float)
                                  (node_coordinates self)))
                          active)))
           = Ok (l_closest_distance vars')).
Proof.
  intros H. apply request_Ok in H.
  destruct H as (hf & self1 & self2 & vars2 & ids & self3
                 & Hfl & Hd & Hids & Hnc & Hc & ->).
  apply flags_phase_Ok in Hfl. destruct Hfl as (_ & _ & fr & _ & ->).
  apply detect_phase_Ok in Hd.
  assert (Hx : node_coordinates (zero_phase hf self2)
               = map (fun x => (x * scale self)%float)
                     (node_coordinates self)).
  { destruct (zero_phase_fields hf self2) as (_ & _ & -> & _).
    destruct Hd as [(_ & -> & _)|(_ & e & c & ids' & cd & _ & -> & _)];
      reflexivity. }
  split; [|split].
  - intros Hz Hfi. subst nc. destruct ids; [|discriminate].
    rewrite contact_phase_nil in Hc. inversion Hc; subst.
    destruct Hd as [(_ & _ & ->)|(Hfi' & _)]; [reflexivity|contradiction].
  - intros Hz Hfi. subst nc. destruct ids; [|discriminate].
    rewrite contact_phase_nil in Hc. inversion Hc; subst.
    destruct Hd as [(Hfi' & _)|(_ & e & c & ids' & cd & Hj & _ & ->)];
      [contradiction|].
    cbn in Hj. exists e, c, ids'. exact Hj.
  - intros Hn. exists ids.
    pose proof (contact_phase_edge_ids _ _ _ _ _ _ _ _ Hc) as Hsame.
    split; [congruence|]. split; [congruence|].
    rewrite <- Hx. eapply contact_phase_distance; [|exact Hc].
    intros ->. now apply Hn.
Qed.

End Report.

(** X12: an answered request leaves the control vector as it found it
    except for entry 4, which holds the closest distance of the request
    divided by [scale]. That distance is the minimum over the active pairs,
    recomputed from the scaled positions, when there is an active pair; the
    closest distance returned by the collision detector when there is none
    and [first_iter] is set; and the value left by an earlier request when
    there is none and [first_iter] is unset. *)
Theorem request_reports_distance (min_dist_vectorized : mat -> vec)
  (min_dist_f_out_vectorized : mat -> vec * mat)
  (self : IMC) (vars : Locals) (self' : IMC) (vars' : Locals)
  (first_iter : Z) (num_con : nat) :
  start_server_request min_dist_vectorized min_dist_f_out_vectorized
                       self vars
  = Ok (self', vars', first_iter, num_con) ->
  length (meta_data self') = length (meta_data self)
  /\ (forall j, j <> 4%nat ->
                nth j (meta_data self') 0%float
                = nth j (meta_data self) 0%float)
  /\ ((4 < length (meta_data self))%nat ->
      nth 4 (meta_data self') 0%float
      = (l_closest_distance vars' / scale self)%float)
  /\ (num_con = 0%nat -> first_iter = 0 ->
      l_closest_distance vars' = l_closest_distance vars)
  /\ (num_con = 0%nat -> first_iter <> 0 ->
      exists e c ids,
        _jit_detect_collisions min_dist_vectorized
          (edges self) (edge_combos self) (edge_ids self)
          (collision_limit self)
          (map (fun x => (x * scale self)%float) (node_coordinates self))
          (contact_len self) (ia self)
        = Ok (e, c, ids, l_closest_distance vars'))
  /\ (num_con <> 0%nat ->
      exists active,
        l_edge_ids vars' = Some active /\ length active = num_con
        /\ np.min
             (fst (min_dist_f_out_vectorized
                     (map (pair_row
                             (map (fun x => (x * scale self)%float)
                                  (node_coordinates self)))
                          active)))
           = Ok (l_closest_distance vars')).
Proof.
  intros H.
  rewrite (request_meta_data _ _ _ _ _ _ _ _ H).
  destruct (set_item_nth (meta_data self) 4
              (l_closest_distance vars' / scale self)%float)
    as (L & N & V).
  destruct (request_distance _ _ _ _ _ _ _ _ H) as (D1 & D2 & D3).
  auto 10.
Qed.

Lemma request_reports_distance_witness :
  exists self' vars',
    start_server_request ex_min_dist_vectorized ex_min_dist_f_out_vectorized
      (ex_imc 1 1 ex_hairpin (repeat 0%float 15) (ex_meta 1 0))
      initial_locals
    = Ok (self', vars', 1, 1%nat)
    /\ nth 4 (meta_data self') 0%float
       = (l_closest_distance vars' / 1)%float
    /\ nth 0 (meta_data self') 0%float = 1%float.
Proof.
  destruct (start_server_request ex_min_dist_vectorized
              ex_min_dist_f_out_vectorized
              (ex_imc 1 1 ex_hairpin (repeat 0%float 15) (ex_meta 1 0))
              initial_locals)
    as [[[[self' vars'] fi] nc]|e] eqn:E.
  - assert (Hv : fi = 1 /\ nc = 1%nat).
    { vm_compute in E. inversion E. split; reflexivity. }
    destruct Hv as [-> ->]. exists self', vars'.
    destruct (request_reports_distance _ _ _ _ _ _ _ _ E)
      as (_ & N & V & _).
    split; [reflexivity|]. split.
    + apply V. cbn. lia.
    + rewrite N by lia. reflexivity.
  - vm_compute in E. discriminate.
Defined.

(** X13: an answered request has multiplied every coordinate of the shared
    position buffer by [scale], in place; it has done the same to the
    shared velocity buffer when [first_iter] is set and has left the
    velocities alone otherwise. *)
Theorem request_scales_buffers (min_dist_vectorized : mat -> vec)
  (min_dist_f_out_vectorized : mat -> vec * mat)
  (self : IMC) (vars : Locals) (self' : IMC) (vars' : Locals)
  (first_iter : Z) (num_con : nat) :
  start_server_request min_dist_vectorized min_dist_f_out_vectorized
                       self vars
  = Ok (self', vars', first_iter, num_con) ->
  node_coordinates self'
  = map (fun x => (x * scale self)%float) (node_coordinates self)
  /\ velocities self'
     = (if first_iter =? 0 then velocities self
        else map (fun x => (x * scale self)%float) (velocities self)).
Proof.
  intros H.
  destruct (request_geometry _ _ _ _ _ _ _ _ H) as (Hx & Hv & _).
  split; assumption.
Qed.

Lemma request_scales_buffers_witness :
  exists self' vars',
    start_server_request ex_min_dist_vectorized ex_min_dist_f_out_vectorized
      (ex_imc 1 1 ex_hairpin (repeat 3%float 15) (ex_meta 1 0))
      initial_locals
    = Ok (self', vars', 1, 1%nat)
    /\ node_coordinates self' = map (fun x => (x * 1)%float) ex_hairpin.
Proof.
  destruct (start_server_request ex_min_dist_vectorized
              ex_min_dist_f_out_vectorized
              (ex_imc 1 1 ex_hairpin (repeat 3%float 15) (ex_meta 1 0))
              initial_locals)
    as [[[[self' vars'] fi] nc]|e] eqn:E.
  - assert (Hv : fi = 1 /\ nc = 1%nat).
    { vm_compute in E. inversion E. split; reflexivity. }
    destruct Hv as [-> ->]. exists self', vars'.
    destruct (request_scales_buffers _ _ _ _ _ _ _ _ E) as (Hx & _).
    split; [reflexivity|exact Hx].
  - vm_compute in E. discriminate.
Defined.

(** * The forces that a request leaves in the buffer *)

Lemma get_forces_writes self cp self' :
  _get_forces self cp = Ok self' ->
  exists cpp',
    _py_to_cpp_nohess (force_terms self cp) (forces self) (pairs_of cp)
    = Ok cpp'
    /\ self' = set_forces
                 (map (fun x => (x * contact_stiffness self)%float) cpp')
                 self.
Proof.
  unfold _get_forces, force_terms, pairs_of.
  destruct cp as [[[e ids] v] s]. cbv zeta. intros H.
  apply bind_Ok in H. destruct H as (_ & _ & H).
  apply bind_Ok in H. destruct H as (_ & _ & H).
  apply bind_Ok in H. destruct H as (cpp' & Hc & H).
  inversion H. eauto.
Qed.

Lemma get_forces_and_hessian_writes self cp self' :
  _get_forces_and_hessian self cp = Ok self' ->
  exists total_jacobian r,
    _jit_py_to_cpp_hess (fst (aggregate_terms self cp)) total_jacobian
                        (forces self) (hessian self) (pairs_of cp)
    = Ok r
    /\ forces self'
       = map (fun x => (x * contact_stiffness self)%float) (fst r)
    /\ contact_stiffness self' = contact_stiffness self.
Proof.
  rewrite get_forces_and_hessian_write_out. unfold write_out, _py_to_cpp_hess.
  intros H. apply bind_Ok in H. destruct H as (s1 & H1 & H).
  apply bind_Ok in H1. destruct H1 as (r & Hr & H1).
  inversion H1; subst s1. inversion H; subst self'.
  do 2 eexists. split; [exact Hr|]. split; reflexivity.
Qed.

Lemma nth_scaled (l : vec) (k : float) i :
  (i < length l)%nat ->
  nth i (map (fun x => (x * k)%float) l) 0%float
  = (nth i l 0 * k)%float.
Proof.
  intros Hi.
  rewrite (nth_indep _ 0%float (0 * k)%float) by (rewrite length_map; lia).
  apply (map_nth (fun x => (x * k)%float)).
Qed.

(** Either force computation leaves, in the entries of the nodes of no
    active pair, what the buffer held times the stiffness. *)
Lemma force_frame hf self cp self' :
  (if hf =? 0 then _get_forces self cp else _get_forces_and_hessian self cp)
  = Ok self' ->
  Forall (pair_in_range (length (forces self))) (pairs_of cp) ->
  length (forces self') = length (forces self)
  /\ contact_stiffness self' = contact_stiffness self
  /\ forall i,
       (i < length (forces self))%nat ->
       touched (pairs_of cp) i = false ->
       nth i (forces self') 0%float
       = (nth i (forces self) 0 * contact_stiffness self)%float.
Proof.
  intros H Hr. destruct (hf =? 0).
  - apply get_forces_writes in H. destruct H as (cpp' & Hc & ->).
    unfold _py_to_cpp_nohess in Hc.
    destruct (scatter_loop_frame fst snd _ _ _ Hc) as [L N].
    { apply Forall_forall. intros [f p] Hin. cbn [snd].
      apply in_combine_r in Hin.
      exact (proj1 (Forall_forall _ _) Hr p Hin). }
    cbn [forces contact_stiffness set_forces]. rewrite length_map.
    split; [exact L|]. split; [reflexivity|]. intros i Hi Ht.
    rewrite nth_scaled by lia. f_equal. apply N.
    revert Ht. apply touched_sublist. apply in_map_snd_combine.
  - apply get_forces_and_hessian_writes in H.
    destruct H as (tj & r & Hj & Hf & Hk).
    unfold _jit_py_to_cpp_hess in Hj. apply hess_loop_scatter in Hj.
    cbn [fst] in Hj.
    destruct (scatter_loop_frame (fun x => fst (fst x)) snd _ _ _ Hj)
      as [L N].
    { apply Forall_forall. intros [[f j] p] Hin. cbn [snd].
      apply in_combine_r in Hin.
      exact (proj1 (Forall_forall _ _) Hr p Hin). }
    rewrite Hf, length_map.
    split; [exact L|]. split; [exact Hk|]. intros i Hi Ht.
    rewrite nth_scaled by lia. f_equal. apply N.
    revert Ht. apply touched_sublist. apply in_map_snd_combine.
Qed.

Lemma nth_zeroed (l : vec) i : nth i (map (fun _ => 0%float) l) 0%float = 0%float.
Proof.
  revert i. induction l as [|a l IH]; intros [|i]; cbn; auto.
Qed.

(** X14: after an answered request whose active pairs lie inside the force
    buffer, the buffer has the length it had, and every entry that belongs
    to no node of an active pair is the zero it was reset to: as it is when
    there is no active pair, multiplied by the contact stiffness when there
    is one. Whatever the buffer held before the request is gone. *)
Theorem forces_only_on_active_nodes (min_dist_vectorized : mat -> vec)
  (min_dist_f_out_vectorized : mat -> vec * mat)
  (self : IMC) (vars : Locals) (self' : IMC) (vars' : Locals)
  (first_iter : Z) (num_con : nat) (active : list (Z * Z)) :
  start_server_request min_dist_vectorized min_dist_f_out_vectorized
                       self vars
  = Ok (self', vars', first_iter, num_con) ->
  l_edge_ids vars' = Some active ->
  Forall (pair_in_range (length (forces self))) active ->
  length (forces self') = length (forces self)
  /\ forall i,
       (i < length (forces self))%nat ->
       touched active i = false ->
       nth i (forces self') 0%float
       = if Nat.eqb num_con 0 then 0%float
         else (0 * contact_stiffness self')%float.
Proof.
  intros H Hact Hr. apply request_before_contact in H.
  destruct H as (hf & self2 & vars2 & ids & self3 & _ & _ & Hids & Hnc
                 & _ & _ & _ & _ & Hf & _ & _ & Hc & ->).
  pose proof (contact_phase_edge_ids _ _ _ _ _ _ _ _ Hc) as Hsame.
  rewrite Hact, Hids in Hsame. inversion Hsame; subst active; clear Hsame.
  destruct (zero_phase_fields hf self2) as (_ & _ & _ & Hz & _).
  unfold report_phase. cbn [forces contact_stiffness set_meta_data].
  destruct ids as [|id ids].
  - rewrite contact_phase_nil in Hc. inversion Hc; subst.
    rewrite Hz, length_map, Hf. split; [reflexivity|].
    intros i _ _. apply nth_zeroed.
  - subst num_con. cbn [length Nat.eqb].
    apply contact_phase_Ok in Hc; [|discriminate].
    destruct Hc as (ec & cd & fo & vel & _ & _ & _ & Hc).
    assert (Hx : exists k,
               (if first_iter =? 0 then zero_phase hf self2
                else _update_contact_stiffness (zero_phase hf self2) cd
                                               (l_last_cd vars2))
               = set_contact_stiffness k (zero_phase hf self2)).
    { destruct (first_iter =? 0).
      - exists (contact_stiffness (zero_phase hf self2)). symmetry.
        apply set_contact_stiffness_same.
      - apply update_contact_stiffness_sets. }
    destruct Hx as (k & Hx). rewrite Hx in Hc.
    apply force_frame in Hc.
    + cbn [forces contact_stiffness set_contact_stiffness pairs_of] in Hc.
      rewrite Hz, length_map, Hf in Hc. destruct Hc as (L & K & N).
      split; [exact L|]. intros i Hi Ht.
      rewrite (N i Hi Ht), nth_zeroed, K. reflexivity.
    + cbn [forces set_contact_stiffness pairs_of].
      rewrite Hz, length_map, Hf. exact Hr.
Qed.

Lemma forces_only_on_active_nodes_witness :
  exists self' vars',
    start_server_request ex_min_dist_vectorized ex_min_dist_f_out_vectorized
      (ex_imc 1 1 ex_hairpin (repeat 0%float 15) (ex_meta 1 0))
      initial_locals
    = Ok (self', vars', 1, 1%nat)
    /\ l_edge_ids vars' = Some [(0, 3)]
    /\ nth 7 (forces self') 0%float = (0 * contact_stiffness self')%float.
Proof.
  destruct (start_server_request ex_min_dist_vectorized
              ex_min_dist_f_out_vectorized
              (ex_imc 1 1 ex_hairpin (repeat 0%float 15) (ex_meta 1 0))
              initial_locals)
    as [[[[self' vars'] fi] nc]|e] eqn:E.
  - assert (Hv : fi = 1 /\ nc = 1%nat /\ l_edge_ids vars' = Some [(0, 3)]).
    { vm_compute in E. inversion E. repeat split; reflexivity. }
    destruct Hv as (-> & -> & Hids). exists self', vars'.
    split; [reflexivity|]. split; [exact Hids|].
    destruct (forces_only_on_active_nodes _ _ _ _ _ _ _ _ _ E Hids)
      as (_ & N).
    + repeat constructor; cbn; lia.
    + apply (N 7%nat); [cbn; lia|reflexivity].
  - vm_compute in E. discriminate.
Defined.

(** * The rows prepared for the active pairs *)

Lemma pair_row_combined data n ids :
  Z.of_nat (length data) = 3 * (n + 1) ->
  0 <= fst ids < n -> 0 <= snd ids < n ->
  pair_row data ids = combined data ids.
Proof.
  intros Hd Hx Hy. destruct ids as [x y]. cbn [fst snd] in *.
  unfold pair_row, combined. cbn [fst snd].
  change (getslice data (3 * x) (3 * x + 6)) with (edge_of data x).
  change (getslice data (3 * y) (3 * y + 6)) with (edge_of data y).
  apply set_cols_pair.
  - now apply (length_edge_of _ _ n).
  - now apply (length_edge_of _ _ n).
  - apply repeat_length.
Qed.

(** X15: for a buffer of three values per node of a rod of [n] edges and
    pairs of edges of that rod, [_jit_prepare_velocities] and
    [_jit_prepare_edges] build one row of 12 per pair, holding the six
    values of the first edge followed by the six values of the second, with
    no entry left at its initial zero. With a distance primitive that gives
    one distance per row, [_jit_prepare_edges] raises [ValueError] on an
    empty list of pairs, and otherwise returns these rows with the [np.min]
    of their distances and the second output of the primitive. *)
Theorem prepared_rows (min_dist_f_out_vectorized : mat -> vec * mat)
  (data : vec) (n : Z) (edge_ids : list (Z * Z)) :
  Z.of_nat (length data) = 3 * (n + 1) ->
  Forall (fun p => 0 <= fst p < n /\ 0 <= snd p < n) edge_ids ->
  (forall rows, length (fst (min_dist_f_out_vectorized rows)) = length rows) ->
  _jit_prepare_velocities edge_ids data = map (combined data) edge_ids
  /\ width 12 (_jit_prepare_velocities edge_ids data)
  /\ (edge_ids = [] ->
      _jit_prepare_edges min_dist_f_out_vectorized edge_ids data
      = Raise ValueError)
  /\ (edge_ids <> [] ->
      exists closest_distance,
        np.min (fst (min_dist_f_out_vectorized
                       (map (combined data) edge_ids)))
        = Ok closest_distance
        /\ _jit_prepare_edges min_dist_f_out_vectorized edge_ids data
           = Ok (map (combined data) edge_ids, closest_distance,
                 snd (min_dist_f_out_vectorized
                        (map (combined data) edge_ids)))).
Proof.
  intros Hd Hr Hmd.
  assert (E : map (pair_row data) edge_ids = map (combined data) edge_ids).
  { apply map_ext_in. intros p Hp.
    destruct (proj1 (Forall_forall _ _) Hr p Hp) as [Hx Hy].
    now apply (pair_row_combined data n). }
  unfold _jit_prepare_velocities, _jit_prepare_edges. cbv zeta. rewrite E.
  split; [reflexivity|]. split; [|split].
  - apply Forall_map. revert Hr. apply Forall_impl. intros [x y] [Hx Hy].
    cbn [fst snd] in *. unfold combined. cbn [fst snd].
    rewrite length_app, !(length_edge_of _ _ n) by assumption. reflexivity.
  - intros ->. cbn [map]. pose proof (Hmd []) as H0.
    destruct (min_dist_f_out_vectorized []) as [dists fo]. cbn [fst] in H0.
    destruct dists; [reflexivity|discriminate].
  - intros Hne. pose proof (Hmd (map (combined data) edge_ids)) as Hl.
    destruct (min_dist_f_out_vectorized (map (combined data) edge_ids))
      as [dists fo]. cbn [fst snd] in *.
    destruct (np_min_Ok dists) as (m & Hm).
    { intros ->. rewrite length_map in Hl. destruct edge_ids;
        [congruence|discriminate]. }
    exists m. split; [exact Hm|]. rewrite Hm. reflexivity.
Qed.

Lemma prepared_rows_witness :
  _jit_prepare_velocities [(0, 3)] ex_hairpin
  = [[0; 0; 0; 1; 0; 0; 1; 0.08; 0; 0; 0.08; 0]%float]
  /\ exists closest_distance,
       _jit_prepare_edges ex_min_dist_f_out_vectorized [(0, 3)] ex_hairpin
       = Ok ([[0; 0; 0; 1; 0; 0; 1; 0.08; 0; 0; 0.08; 0]%float],
             closest_distance,
             [[0; 0; 0; 1; 0; 0; 1; 0.08; 0; 0; 0.08; 0]%float]).
Proof.
  destruct (prepared_rows ex_min_dist_f_out_vectorized ex_hairpin 4
              [(0, 3)]) as (Hv & _ & _ & He).
  - reflexivity.
  - repeat constructor; cbn; lia.
  - intros rows. apply length_map.
  - split; [rewrite Hv; reflexivity|].
    destruct He as (cd & _ & He); [discriminate|].
    exists cd. rewrite He. reflexivity.
Defined.

(** * After the reply *)

Section Summary.
Context {num : Numerics}.
Variable min_dist_vectorized : mat -> vec.
Variable min_dist_f_out_vectorized : mat -> vec * mat.

Local Abbreviation request :=
  (start_server_request min_dist_vectorized min_dist_f_out_vectorized).

Lemma request_last_cd self vars self' vars' fi nc :
  request self vars = Ok (self', vars', fi, nc) ->
  l_last_cd vars' = l_last_cd vars.
Proof.
  intros H. apply request_before_contact in H.
  destruct H as (hf & self2 & vars2 & ids & self3 & _ & _ & _ & _
                 & Hlast & _ & _ & _ & _ & _ & _ & Hc & _).
  destruct ids as [|id ids].
  - rewrite contact_phase_nil in Hc. inversion Hc; subst. exact Hlast.
  - apply contact_phase_Ok in Hc; [|discriminate].
    destruct Hc as (ec & cd & fo & vel & _ & _ & -> & _). exact Hlast.
Qed.

End Summary.

(** X16: once a request is answered, the loop reads the iteration counter
    [meta_data[3]] for the summary line only when [first_iter] is set. If
    the counter is NaN or infinite the server stops there with the error of
    [int], although the reply has been sent; otherwise the closest distance
    of this request becomes the previous distance of the stiffness
    controller. A request without [first_iter] reads no counter and leaves
    the previous distance alone, and no request changes it before the
    reply. *)
Theorem summary_after_reply (min_dist_vectorized : mat -> vec)
  (min_dist_f_out_vectorized : mat -> vec * mat)
  (self : IMC) (vars : Locals) (req : Request) (reqs : list Request)
  (s1 : IMC) (v1 : Locals) (first_iter : Z) (num_con : nat) :
  start_server_request min_dist_vectorized min_dist_f_out_vectorized
                       (socket_recv req self) vars
  = Ok (s1, v1, first_iter, num_con) ->
  l_last_cd v1 = l_last_cd vars
  /\ (first_iter = 0 ->
      serve min_dist_vectorized min_dist_f_out_vectorized (req :: reqs)
            self vars
      = serve min_dist_vectorized min_dist_f_out_vectorized reqs s1 v1)
  /\ (first_iter <> 0 ->
      forall e,
        py_int (nth 3 (req_meta_data req) 0%float) = Raise e ->
        serve min_dist_vectorized min_dist_f_out_vectorized (req :: reqs)
              self vars
        = Raise e)
  /\ (first_iter <> 0 ->
      forall it,
        py_int (nth 3 (req_meta_data req) 0%float) = Ok it ->
        serve min_dist_vectorized min_dist_f_out_vectorized (req :: reqs)
              self vars
        = serve min_dist_vectorized min_dist_f_out_vectorized reqs s1
                {| l_edge_ids := l_edge_ids v1;
                   l_velocities := l_velocities v1;
                   l_closest_distance := l_closest_distance v1;
                   l_last_cd := l_closest_distance v1 |}).
Proof.
  intros H.
  pose proof (request_last_cd _ _ _ _ _ _ _ _ H) as Hlast.
  assert (H3 : nth 3 (meta_data s1) 0%float
               = nth 3 (req_meta_data req) 0%float).
  { rewrite (request_meta_data _ _ _ _ _ _ _ _ H).
    destruct (set_item_nth (meta_data (socket_recv req self)) 4
                (l_closest_distance v1 / scale (socket_recv req self))%float)
      as (_ & N & _).
    rewrite N by lia. reflexivity. }
  split; [exact Hlast|].
  cbn [serve]. rewrite H. cbn [bind]. unfold start_server_summary.
  rewrite H3.
  split; [|split].
  - intros ->. reflexivity.
  - intros Hfi e He. destruct (Z.eqb_spec first_iter 0); [contradiction|].
    rewrite He. reflexivity.
  - intros Hfi it He. destruct (Z.eqb_spec first_iter 0); [contradiction|].
    rewrite He. reflexivity.
Qed.

Lemma summary_after_reply_witness :
  exists s1 v1,
    start_server_request ex_min_dist_vectorized ex_min_dist_f_out_vectorized
      (socket_recv (ex_request [1; 0; 0; nan; 0; 0]%float) (ex_server 1 1))
      initial_locals
    = Ok (s1, v1, 1, 1%nat)
    /\ serve ex_min_dist_vectorized ex_min_dist_f_out_vectorized
             [ex_request [1; 0; 0; nan; 0; 0]%float]
             (ex_server 1 1) initial_locals
       = Raise ValueError.
Proof.
  destruct (start_server_request ex_min_dist_vectorized
              ex_min_dist_f_out_vectorized
              (socket_recv (ex_request [1; 0; 0; nan; 0; 0]%float)
                           (ex_server 1 1))
              initial_locals)
    as [[[[s1 v1] fi] nc]|e] eqn:E.
  - assert (Hv : fi = 1 /\ nc = 1%nat).
    { vm_compute in E. inversion E. split; reflexivity. }
    destruct Hv as [-> ->]. exists s1, v1. split; [reflexivity|].
    destruct (summary_after_reply _ _ _ _ _ [] _ _ _ _ E)
      as (_ & _ & Hraise & _).
    apply Hraise; [lia|reflexivity].
  - vm_compute in E. discriminate.
Defined.

(** * The shapes of the chain rule *)

Lemma fold_left_invariant {A B} (P : A -> Prop) (f : A -> B -> A) l :
  (forall acc i, In i l -> P acc -> P (f acc i)) ->
  forall a, P a -> P (fold_left f l a).
Proof.
  induction l as [|i l IH]; intros Hf a Ha; cbn [fold_left]; [exact Ha|].
  apply IH.
  - intros acc j Hj. apply Hf. now right.
  - apply Hf; [now left|exact Ha].
Qed.

Lemma Forall_nth_lt {A} (P : A -> Prop) l i d :
  Forall P l -> (i < length l)%nat -> P (nth i l d).
Proof.
  intros H Hi. apply (proj1 (Forall_forall P l) H). now apply nth_In.
Qed.

Lemma Forall_last {A} (P : A -> Prop) l d :
  Forall P l -> l <> [] -> P (last l d).
Proof.
  intros H Hl. apply (proj1 (Forall_forall P l) H).
  destruct (exists_last Hl) as (l' & a & ->).
  rewrite last_last. apply in_or_app. right. now left.
Qed.

Lemma in_nat_range i n : In i (nat_range n) -> (i < n)%nat.
Proof. unfold nat_range. intros H. apply in_seq in H. lia. Qed.

Lemma zeros2_shape n : shape2 n (np.zeros2 n 12).
Proof.
  unfold shape2, np.zeros2, width. split; [apply repeat_length|].
  apply Forall_forall. intros r Hr. apply repeat_spec in Hr. subst r.
  apply repeat_length.
Qed.

Lemma madd_shape n a b : shape2 n a -> shape2 n b -> shape2 n (madd a b).
Proof.
  intros [La Wa] [Lb Wb]. unfold shape2, madd. split.
  - rewrite length_map2. lia.
  - eapply Forall_map2; [exact Wa|exact Wb|].
    cbv beta. intros u v Hu Hv. rewrite length_vadd. lia.
Qed.

Lemma madd_square a b : square12 a -> square12 b -> square12 (madd a b).
Proof. apply (madd_shape 12). Qed.

Lemma mscale_square x m : square12 m -> square12 (mscale x m).
Proof.
  intros [L W]. unfold square12, mscale. split; [now rewrite length_map|].
  eapply Forall_map_impl; [exact W|]. cbv beta. intros a Ha.
  now rewrite length_vscale.
Qed.

Lemma zeros3_shape n : shape3 n (np.zeros3 n 12 12).
Proof.
  unfold shape3, np.zeros3. split; [apply repeat_length|].
  apply Forall_forall. intros r Hr. apply repeat_spec in Hr. subst r.
  apply (zeros2_shape 12).
Qed.

Lemma tadd_shape n a b : shape3 n a -> shape3 n b -> shape3 n (tadd a b).
Proof.
  intros [La Wa] [Lb Wb]. unfold shape3, tadd. split.
  - rewrite length_map2. lia.
  - eapply Forall_map2; [exact Wa|exact Wb|]. apply madd_square.
Qed.

Lemma outer_square {num : Numerics} u v :
  product_shaped np_matmul ->
  length u = 12%nat -> length v = 12%nat -> square12 (outer u v).
Proof.
  intros Hm Hu Hv. unfold square12, outer.
  destruct (Hm 12%nat (map (fun x => [x]) u) [v]) as [L W].
  split; [now rewrite L, length_map|].
  apply W. now repeat constructor.
Qed.

Lemma col_times_rows_shape n (s : mat) k (f : mat) :
  length s = n -> shape2 n f -> shape2 n (col_times_rows s k f).
Proof.
  intros Ls [Lf Wf]. unfold shape2, col_times_rows. split.
  - rewrite length_map2. lia.
  - eapply Forall_map2; [apply Forall_trivial|exact Wf|].
    cbv beta. intros a b _ Hb. now rewrite length_vscale.
Qed.

Lemma col_times_row_shape n (s : mat) k (row : vec) :
  length s = n -> length row = 12%nat -> shape2 n (col_times_row s k row).
Proof.
  intros Ls Lr. unfold shape2, col_times_row.
  split; [now rewrite length_map|].
  apply Forall_map. apply Forall_forall. intros a _.
  now rewrite length_vscale.
Qed.

Lemma length_transpose n rows : length (transpose n rows) = n.
Proof. unfold transpose, nat_range. now rewrite length_map, length_seq. Qed.

Section ChainRuleShapes.
Context {num : Numerics}.
Hypothesis jit_matmul_shaped : product_shaped jit_matmul.
Variables (dd : mat) (f : list mat) (s : mat).
Hypothesis dd_width : width 12 dd.
Hypothesis f_six : length f = 6%nat.
Hypothesis f_shape : Forall (shape2 (length s)) f.

Lemma gradient_sum_shape :
  shape2 (length s)
    (fold_left
       (fun dE_dx i =>
          madd dE_dx (col_times_rows s (i + 9) (nth i f [])))
       (nat_range 6)
       (madd (np.zeros2 (length s) 12) (jit_matmul 12 (cols_to 9 s) dd))).
Proof.
  apply fold_left_invariant.
  - intros acc i Hi Hacc. apply in_nat_range in Hi.
    apply madd_shape; [exact Hacc|].
    apply col_times_rows_shape; [reflexivity|].
    apply Forall_nth_lt; [exact f_shape|lia].
  - apply madd_shape; [apply zeros2_shape|].
    destruct (jit_matmul_shaped 12%nat (cols_to 9 s) dd) as [L W].
    unfold shape2, cols_to in *. split; [now rewrite L, length_map|].
    now apply W.
Qed.

Lemma chain_rule_nohess_shape :
  shape2 (length s) (_chain_rule_contact_nohess dd f s).
Proof. unfold _chain_rule_contact_nohess. apply gradient_sum_shape. Qed.

Variable pre : list mat.
Hypothesis dd_nine : length dd = 9%nat.
Hypothesis pre_fifteen : length pre = 15%nat.
Hypothesis pre_rows : Forall (fun c : mat => length c = length s) pre.

Lemma optimize_chain_rule_shape dE_dx :
  length (snd (_optimize_chain_rule dd f s pre
                 (repeat (np.zeros2 (length s) 12) 15) dE_dx)) = 15%nat
  /\ Forall (shape2 (length s))
            (snd (_optimize_chain_rule dd f s pre
                    (repeat (np.zeros2 (length s) 12) 15) dE_dx)).
Proof.
  unfold _optimize_chain_rule. cbn [snd]. split.
  - rewrite length_map2, length_firstn, repeat_length. lia.
  - eapply Forall_map2 with (P := fun c : mat => length c = length s)
                            (Q := shape2 (length s)).
    + now apply Forall_firstn_of.
    + apply Forall_forall. intros r Hr. apply repeat_spec in Hr. subst r.
      apply zeros2_shape.
    + intros c acc Hc Hacc. apply fold_left_invariant.
      * intros a j Hj Ha. apply in_nat_range in Hj.
        apply madd_shape; [exact Ha|].
        apply col_times_rows_shape; [exact Hc|].
        apply Forall_nth_lt; [exact f_shape|lia].
      * apply fold_left_invariant; [|exact Hacc].
        intros a j Hj Ha. apply in_nat_range in Hj.
        apply madd_shape; [exact Ha|].
        apply col_times_row_shape; [exact Hc|].
        apply Forall_nth_lt; [exact dd_width|lia].
Qed.

End ChainRuleShapes.

Lemma outer_rows_shape {num : Numerics} n (a b : mat) :
  product_shaped np_matmul ->
  shape2 n a -> shape2 n b -> shape3 n (map2 outer a b).
Proof.
  intros Hm [La Wa] [Lb Wb]. unfold shape3. split.
  - rewrite length_map2. lia.
  - eapply Forall_map2; [exact Wa|exact Wb|].
    cbv beta. intros u v Hu Hv. now apply outer_square.
Qed.

Lemma chain_rule_hess_shape {num : Numerics} self (f : list mat) (s : mat)
  (f_hess_vals pre : list mat) :
  product_shaped jit_matmul -> product_shaped np_matmul ->
  width 12 (dd_grads self) -> length (dd_grads self) = 9%nat ->
  length f = 6%nat -> Forall (shape2 (length s)) f ->
  length (f_hess_const self) = 5%nat -> Forall square12 (f_hess_const self) ->
  shape3 (length s) f_hess_vals ->
  length pre = 15%nat -> Forall (fun c : mat => length c = length s) pre ->
  shape3 (length s)
         (snd (_chain_rule_contact_hess self f s f_hess_vals pre)).
Proof.
  intros Hm Hn Wdd Ldd Lf Sf Lc Sc Sh Lp Sp. unfold _chain_rule_contact_hess.
  cbv zeta.
  pose proof (optimize_chain_rule_shape (dd_grads self) f s Wdd Lf Sf pre
                Ldd Lp Sp (np.zeros2 (length s) 12)) as [L15 S15].
  destruct (_optimize_chain_rule _ _ _ _ _ _) as [dE_dx sh].
  cbn [snd] in *.
  apply tadd_shape; [apply tadd_shape|].
  - apply fold_left_invariant.
    + intros acc i Hi Hacc. apply in_nat_range in Hi.
      apply tadd_shape; [apply tadd_shape; [exact Hacc|]|].
      * unfold shape3. split; [now rewrite length_map|].
        apply Forall_map. apply Forall_forall. intros s_p _.
        apply mscale_square. apply Forall_nth_lt; [exact Sc|lia].
      * apply outer_rows_shape; [exact Hn| |].
        -- apply Forall_nth_lt; [exact S15|lia].
        -- apply Forall_nth_lt; [exact Sf|lia].
    + apply fold_left_invariant; [|apply zeros3_shape].
      intros acc i Hi Hacc. apply in_nat_range in Hi.
      apply tadd_shape; [exact Hacc|].
      assert (Hrow : shape2 (length s) (nth i sh []))
        by (apply Forall_nth_lt; [exact S15|lia]).
      destruct Hrow as [Lr Wr]. unfold shape3. split;
        [now rewrite length_map|].
      eapply Forall_map_impl; [exact Wr|]. cbv beta. intros u Hu.
      apply outer_square; [exact Hn|exact Hu|].
      apply Forall_nth_lt; [exact Wdd|lia].
  - destruct Sh as [Lh Wh]. unfold shape3. split.
    + rewrite length_map2. lia.
    + eapply Forall_map2; [apply Forall_trivial|exact Wh|].
      cbv beta. intros s_p h _ Hh. now apply mscale_square.
  - apply outer_rows_shape; [exact Hn| |].
    + apply Forall_last; [exact S15|]. intros ->. discriminate.
    + apply Forall_last; [exact Sf|]. intros ->. discriminate.
Qed.

(** * The shapes of the friction force and of the aggregate terms *)

Lemma length_get_ffr {num : Numerics} edges velocities forces mu_k :
  length velocities = length edges -> length forces = length edges ->
  length (_get_ffr edges velocities forces mu_k) = length edges.
Proof.
  intros Hv Hf. unfold _get_ffr, madd, mscale, cols_to, cols_from.
  cbv zeta. repeat (rewrite ?length_map2, ?length_map). lia.
Qed.

Lemma width_get_ffr {num : Numerics} edges velocities forces mu_k :
  width 12 edges -> width 12 (_get_ffr edges velocities forces mu_k).
Proof.
  intros He. unfold _get_ffr. cbv zeta. rewrite map2_map_r.
  assert (H9 : width 3 (cols_from 9 edges))
    by apply (width_cols_from 9 12 _ He).
  assert (H6 : width 3 (cols_to 3 (cols_from 6 edges)))
    by (apply (width_cols_to 3 6); [lia|apply (width_cols_from 6 12 _ He)]).
  assert (H3 : width 3 (cols_to 3 (cols_from 3 edges)))
    by (apply (width_cols_to 3 9); [lia|apply (width_cols_from 3 12 _ He)]).
  assert (H0 : width 3 (cols_to 3 edges))
    by (apply (width_cols_to 3 12); [lia|exact He]).
  assert (Hdir : forall (x y : mat) (d : list float) (fv : list float),
             width 3 x -> width 3 y ->
             width 3 (map2 (fun dT f => map (fun x => (x * f)%float) dT)
                        (map2 vscale d
                           (map (fun d => vdiv d (row_norm d))
                                (map2 vsub x y))) fv)).
  { intros x y d fv Hx Hy.
    apply width_map2_l; [intros; now rewrite length_map|].
    apply width_map2_r; [intros; now rewrite length_vscale|].
    apply width_map; [intros; now rewrite length_vdiv|].
    apply width_map2; [intros; now apply length_vsub|assumption|assumption]. }
  eapply Forall_map_impl.
  - apply width_map; [intros a Ha; rewrite length_vscale; exact Ha|].
    apply width_map2; [intros; now apply length_vsub| |];
      apply Hdir; assumption.
  - cbn beta. intros a Ha.
    rewrite friction_row
      by (unfold vneg; now rewrite ?length_vscale, ?length_map).
    rewrite !length_app, !length_vscale. unfold vneg.
    rewrite length_map. lia.
Qed.

Lemma length_jacobian_inputs edges velocities dE_dx mu_k :
  length velocities = length edges -> length dE_dx = length edges ->
  length (_get_ffr_jacobian_inputs edges velocities dE_dx mu_k)
  = length edges.
Proof.
  intros Hv Hf. unfold _get_ffr_jacobian_inputs, np.zeros2. cbv zeta.
  rewrite length_map, !length_map2, repeat_length. lia.
Qed.

Lemma friction_jacobian_shape3 {num : Numerics}
  (ffr_grad_s d2E_dx2 : list mat) n :
  product_shaped np_matmul ->
  length ffr_grad_s = n ->
  Forall (fun g : mat => length g = 6%nat /\ width 24 g) ffr_grad_s ->
  shape3 n d2E_dx2 ->
  shape3 n (_chain_rule_friction_jacobian ffr_grad_s d2E_dx2).
Proof.
  intros Hm Ln Hg [Lh Wh]. rewrite (friction_jacobian_rows Hm); [|
    revert Hg; apply Forall_impl; tauto|lia].
  unfold shape3. split; [rewrite length_map2; lia|].
  eapply Forall_map2; [exact Hg|exact Wh|].
  cbv beta. intros g h [Lg Wg] [_ Wh'].
  assert (W1 : width 24 (firstn 3 g)) by now apply Forall_firstn_of.
  assert (W2 : width 24 (skipn 3 g)) by now apply Forall_skipn_of.
  destruct (zero_rows_shape (ffr_rows (firstn 3 g) h)) as [La Wa].
  { rewrite (length_ffr_rows Hm), length_firstn. lia. }
  { now apply (width_ffr_rows Hm). }
  destruct (zero_rows_shape (ffr_rows (skipn 3 g) h)) as [Lb Wb].
  { rewrite (length_ffr_rows Hm), length_skipn. lia. }
  { now apply (width_ffr_rows Hm). }
  destruct (blocks_of_rows _ _ La Lb Wa Wb) as (L & W & _).
  split; assumption.
Qed.

(** The forces of the force-only path. *)
Lemma force_terms_shape {num : Numerics} self cp :
  lawful num -> gradient_shapes self cp ->
  let '(edges, edge_ids, velocities, s_input_vals) := cp in
  shape2 (length edges) (force_terms self cp).
Proof.
  intros (Hjm & Hnm & Hsum). destruct cp as [[[e ids] v] s].
  cbn [gradient_shapes].
  intros (Wdd & L6 & Sf & We & Lv & _). unfold force_terms.
  set (sg := transpose (length e)
               (map (fun s_grad => s_grad s) (s_grad_funcs self))).
  assert (Lsg : length sg = length e) by apply length_transpose.
  assert (SdE : shape2 (length e)
                  (_chain_rule_contact_nohess (dd_grads self)
                     (map (fun f_grad => f_grad e) (f_grad_funcs self)) sg)).
  { rewrite <- Lsg. apply chain_rule_nohess_shape.
    - exact Hjm.
    - exact Wdd.
    - now rewrite length_map.
    - rewrite Lsg. apply Forall_map. exact Sf. }
  destruct (friction self =? 0); [exact SdE|].
  apply madd_shape; [exact SdE|]. destruct SdE as [LdE WdE].
  split; [apply length_get_ffr; assumption|now apply width_get_ffr].
Qed.

(** The conservative and the aggregate terms of the Hessian path. *)
Lemma hessian_terms_shape {num : Numerics} self cp :
  lawful num -> gradient_shapes self cp -> hessian_shapes self cp ->
  let '(edges, edge_ids, velocities, s_input_vals) := cp in
  shape3 (length edges) (snd (conservative_terms self cp))
  /\ shape2 (length edges) (fst (aggregate_terms self cp))
  /\ shape3 (length edges) (snd (aggregate_terms self cp)).
Proof.
  intros Hnum Hg Hh. pose proof (force_terms_shape self cp Hnum Hg) as Sf.
  destruct Hnum as (Hjm & Hnm & Hsum).
  rewrite <- aggregate_forces in Sf.
  destruct cp as [[[e ids] v] s]. cbn [gradient_shapes hessian_shapes] in *.
  destruct Hg as (Wdd & L6 & Sg & We & Lv & _).
  destruct Hh as (L9 & L5 & Sc & Sfh & L15 & Sp & Hj).
  assert (Sc3 : shape3 (length e)
                  (snd (conservative_terms self (e, ids, v, s)))).
  { unfold conservative_terms.
    set (sg := transpose (length e)
                 (map (fun s_grad => s_grad s) (s_grad_funcs self))).
    assert (Lsg : length sg = length e) by apply length_transpose.
    rewrite <- Lsg. apply chain_rule_hess_shape; rewrite ?Lsg;
      try assumption; try (now rewrite length_map).
    - apply Forall_map. exact Sg.
    - apply Forall_map. exact Sp. }
  split; [exact Sc3|]. split; [exact Sf|].
  unfold aggregate_terms in *.
  destruct (conservative_terms self (e, ids, v, s)) as [dE_dx d2E_dx2]
    eqn:Ec.
  cbn [fst snd] in *.
  destruct (friction self =? 0); [exact Sc3|].
  apply tadd_shape; [exact Sc3|].
  assert (LdE : length dE_dx = length e).
  { assert (E : dE_dx = fst (conservative_terms self (e, ids, v, s)))
      by now rewrite Ec.
    rewrite E. unfold conservative_terms.
    unfold _chain_rule_contact_hess, _optimize_chain_rule. cbn [fst].
    set (sg := transpose (length e)
                 (map (fun s_grad => s_grad s) (s_grad_funcs self))).
    assert (Lsg : length sg = length e) by apply length_transpose.
    rewrite <- Lsg.
    apply (gradient_sum_shape Hjm (dd_grads self)
             (map (fun f_grad => f_grad e) (f_grad_funcs self)) sg).
    - exact Wdd.
    - now rewrite length_map.
    - rewrite Lsg. apply Forall_map. exact Sg. }
  destruct (Hj (_get_ffr_jacobian_inputs e v dE_dx (mu_k self)))
    as [Lj Wj].
  apply friction_jacobian_shape3; [exact Hnm| |exact Wj|exact Sc3].
  rewrite Lj. now apply length_jacobian_inputs.
Qed.

Lemma ex_gradient_shapes c cj :
  gradient_shapes (ex_friction_self c cj) ex_contact.
Proof.
  unfold gradient_shapes, ex_contact, shape2, width. cbn.
  repeat split; repeat constructor.
Qed.

Lemma ex_hessian_shapes c cj :
  hessian_shapes (ex_friction_self c cj) ex_contact.
Proof.
  unfold hessian_shapes, ex_contact, shape3, square12, width. cbn.
  repeat split; try (repeat constructor).
  - apply length_map.
  - apply Forall_map. apply Forall_forall. intros x _.
    split; repeat constructor.
Qed.

(** * What the force computations leave in the buffers *)

Lemma nth_scaled_rows (m : mat) (k : float) n r c :
  width n m -> (r < length m)%nat -> (c < n)%nat ->
  nth c (nth r (map (map (fun x => (x * k)%float)) m) []) 0%float
  = (nth c (nth r m []) 0 * k)%float.
Proof.
  intros Hw Hr Hc.
  rewrite (nth_indep _ [] (map (fun x => (x * k)%float) []))
    by (rewrite length_map; exact Hr).
  rewrite (map_nth (map (fun x => (x * k)%float))).
  apply nth_scaled.
  rewrite (proj1 (Forall_forall _ m) Hw); [exact Hc|].
  apply nth_In. exact Hr.
Qed.

(** The write-out of the Hessian path on well-shaped data: the state that
    it returns and every entry of the two buffers. *)
Lemma write_out_entries self total_forces total_jacobian edge_ids :
  buffers (length (forces self)) (forces self) (hessian self) ->
  width 12 total_forces -> Forall square12 total_jacobian ->
  Forall (pair_in_range (length (forces self))) edge_ids ->
  length total_jacobian = length total_forces ->
  exists f h,
    write_out self total_forces total_jacobian edge_ids
    = Ok (set_hessian h (set_forces f self))
    /\ buffers (length (forces self)) f h
    /\ (forall i,
          (i < length (forces self))%nat ->
          nth i f 0%float
          = (written_force total_forces edge_ids i (nth i (forces self) 0)
             * contact_stiffness self)%float)
    /\ (forall r c,
          (r < length (forces self))%nat ->
          (c < length (forces self))%nat ->
          nth c (nth r h []) 0%float
          = (written_hessian total_jacobian edge_ids r c
                             (nth c (nth r (hessian self) []) 0)
             * contact_stiffness self)%float).
Proof.
  intros Hb Hf Hj Hids Hl.
  destruct (jit_py_to_cpp_hess_entries _ _ _ _ _ _ Hb Hf Hj Hids Hl)
    as (f & h & E & (Lf & Lh & Wh) & Nf & Nh).
  unfold write_out, _py_to_cpp_hess. rewrite E. cbn [bind fst snd].
  exists (map (fun x => (x * contact_stiffness self)%float) f),
         (map (map (fun x => (x * contact_stiffness self)%float)) h).
  split; [destruct self; reflexivity|]. split.
  - unfold buffers. rewrite !length_map.
    split; [exact Lf|]. split; [exact Lh|].
    apply Forall_map. revert Wh. apply Forall_impl. intros row Hrow.
    now rewrite length_map.
  - split.
    + intros i Hi. rewrite nth_scaled by lia. now rewrite Nf.
    + intros r c Hr Hc.
      rewrite (nth_scaled_rows h _ (length (forces self))) by
        (try assumption; lia).
      now rewrite Nh.
Qed.

(** X7: the force-only computation, with gradients of the generated shapes
    and pairs inside the force buffer, has exactly three outcomes, decided
    by the library's sum of the aggregate forces alone, whatever the order
    in which the library adds and multiplies: the assertion error
    [Force had a nan] when the sum is NaN, the assertion error
    [Force had an inf] when it is infinite, and otherwise a normal return
    in which no attribute but the force buffer has changed, the buffer has
    kept its length, and each of its entries is what it held plus the
    aggregate forces of the pairs on its node, in the order of the pairs,
    multiplied by the contact stiffness. *)
Theorem get_forces_outcome {num : Numerics} (self : IMC)
  (cp : contact_points) :
  lawful num ->
  gradient_shapes self cp ->
  Forall (pair_in_range (length (forces self))) (pairs_of cp) ->
  (np.isnan (np.sum2 (force_terms self cp)) = true ->
   _get_forces self cp = Raise (AssertionError Force_had_a_nan))
  /\ (np.isnan (np.sum2 (force_terms self cp)) = false ->
      np.isinf (np.sum2 (force_terms self cp)) = true ->
      _get_forces self cp = Raise (AssertionError Force_had_an_inf))
  /\ (np.isnan (np.sum2 (force_terms self cp)) = false ->
      np.isinf (np.sum2 (force_terms self cp)) = false ->
      exists cpp',
        _get_forces self cp = Ok (set_forces cpp' self)
        /\ length cpp' = length (forces self)
        /\ forall i,
             (i < length (forces self))%nat ->
             nth i cpp' 0%float
             = (written_force (force_terms self cp) (pairs_of cp) i
                              (nth i (forces self) 0)
                * contact_stiffness self)%float).
Proof.
  intros Hnum Hg Hr.
  assert (Hw : width 12 (force_terms self cp)).
  { pose proof (force_terms_shape self cp Hnum Hg) as H.
    destruct cp as [[[e ids] v] s]. apply H. }
  destruct (py_to_cpp_nohess_entries _ _ _ Hw Hr) as (cpp' & E & L & N).
  unfold _get_forces, force_terms, pairs_of in *.
  destruct cp as [[[e ids] v] s]. cbv zeta in *.
  split; [|split].
  - intros ->. reflexivity.
  - intros -> ->. reflexivity.
  - intros -> ->. cbn [negb assert bind]. rewrite E. cbn [bind].
    eexists. split; [reflexivity|]. rewrite length_map.
    split; [exact L|]. intros i Hi.
    rewrite nth_scaled by lia. now rewrite N.
Qed.

Lemma get_forces_outcome_witness :
  exists cpp',
    _get_forces (ex_friction_self 1 1) ex_contact
    = Ok (set_forces cpp' (ex_friction_self 1 1))
    /\ length cpp' = length (forces (ex_friction_self 1 1))
    /\ forall i,
         (i < length (forces (ex_friction_self 1 1)))%nat ->
         nth i cpp' 0%float
         = (written_force (force_terms (ex_friction_self 1 1) ex_contact)
                          (pairs_of ex_contact) i
                          (nth i (forces (ex_friction_self 1 1)) 0)
            * contact_stiffness (ex_friction_self 1 1))%float.
Proof.
  destruct (get_forces_outcome (ex_friction_self 1 1) ex_contact)
    as (_ & _ & H).
  - exact reference_lawful.
  - apply ex_gradient_shapes.
  - vm_compute. repeat constructor; discriminate.
  - apply H; vm_compute; reflexivity.
Defined.

(** The Hessian path on well-shaped data: it returns, and every entry of
    the two buffers is known. *)
Lemma get_forces_and_hessian_entries {num : Numerics} (self : IMC)
  (cp : contact_points) :
  lawful num ->
  buffers (length (forces self)) (forces self) (hessian self) ->
  gradient_shapes self cp -> hessian_shapes self cp ->
  Forall (pair_in_range (length (forces self))) (pairs_of cp) ->
  exists f h,
    _get_forces_and_hessian self cp = Ok (set_hessian h (set_forces f self))
    /\ buffers (length (forces self)) f h
    /\ (forall i,
          (i < length (forces self))%nat ->
          nth i f 0%float
          = (written_force (fst (aggregate_terms self cp)) (pairs_of cp) i
                           (nth i (forces self) 0)
             * contact_stiffness self)%float)
    /\ (forall r c,
          (r < length (forces self))%nat ->
          (c < length (forces self))%nat ->
          nth c (nth r h []) 0%float
          = (written_hessian
               (match validity_check
                        (np.sum2 (fst (aggregate_terms self cp)))
                        (np.sum3 (snd (aggregate_terms self cp))) with
                | Ok _ => snd (aggregate_terms self cp)
                | Raise _ => snd (conservative_terms self cp)
                end)
               (pairs_of cp) r c (nth c (nth r (hessian self) []) 0)
             * contact_stiffness self)%float).
Proof.
  intros Hnum Hb Hg Hh Hr.
  assert (Hs : shape2 (length (pairs_of cp)) (fst (aggregate_terms self cp))
               /\ shape3 (length (pairs_of cp))
                         (snd (aggregate_terms self cp))
               /\ shape3 (length (pairs_of cp))
                         (snd (conservative_terms self cp))).
  { pose proof (hessian_terms_shape self cp Hnum Hg Hh) as H.
    destruct cp as [[[e ids] v] s]. cbn [pairs_of].
    cbn [gradient_shapes] in Hg.
    destruct Hg as (_ & _ & _ & _ & _ & ->).
    destruct H as (Hc & Hf & Hj). auto. }
  destruct Hs as ((Lf & Hf) & (Lj & Hj) & (Lc & Hc)).
  rewrite get_forces_and_hessian_write_out.
  destruct (validity_check _ _);
    apply write_out_entries; try assumption; congruence.
Qed.

(** X8: the computation with the Hessian, with generated functions of
    their shapes, a force buffer of [n] entries, an n x n Hessian buffer and
    pairs inside the buffers, always returns normally, whatever the values
    and whatever the order in which the library adds and multiplies. No
    attribute but the two buffers has changed; the buffers have kept their
    shapes; each entry of the force buffer is what it held plus the
    aggregate forces of the pairs on its node, and each entry of the
    Hessian buffer is what it held plus the entries of the four 6 x 6
    blocks of the pairs on its two nodes, taken from the aggregate jacobian
    when the library's sums of forces and jacobian are both finite and from
    the conservative contact Hessian otherwise; both are multiplied by the
    contact stiffness. *)
Theorem get_forces_and_hessian_total {num : Numerics} (self : IMC)
  (cp : contact_points) :
  lawful num ->
  buffers (length (forces self)) (forces self) (hessian self) ->
  gradient_shapes self cp -> hessian_shapes self cp ->
  Forall (pair_in_range (length (forces self))) (pairs_of cp) ->
  exists f h,
    _get_forces_and_hessian self cp = Ok (set_hessian h (set_forces f self))
    /\ buffers (length (forces self)) f h
    /\ (forall i,
          (i < length (forces self))%nat ->
          nth i f 0%float
          = (written_force (fst (aggregate_terms self cp)) (pairs_of cp) i
                           (nth i (forces self) 0)
             * contact_stiffness self)%float)
    /\ (forall r c,
          (r < length (forces self))%nat ->
          (c < length (forces self))%nat ->
          nth c (nth r h []) 0%float
          = (written_hessian
               (if nonfinite (np.sum2 (fst (aggregate_terms self cp)))
                   || nonfinite (np.sum3 (snd (aggregate_terms self cp)))
                then snd (conservative_terms self cp)
                else snd (aggregate_terms self cp))
               (pairs_of cp) r c (nth c (nth r (hessian self) []) 0)
             * contact_stiffness self)%float).
Proof.
  intros Hnum Hb Hg Hh Hr.
  destruct (get_forces_and_hessian_entries self cp Hnum Hb Hg Hh Hr)
    as (f & h & E & B & Nf & Nh).
  exists f, h. split; [exact E|]. split; [exact B|]. split; [exact Nf|].
  intros r c Hrn Hcn. rewrite (Nh r c Hrn Hcn).
  destruct (nonfinite (np.sum2 _) || nonfinite (np.sum3 _)) eqn:Hv.
  - destruct (validity_check_fails _ _ Hv) as (msg & ->). reflexivity.
  - now rewrite (validity_check_Ok _ _ Hv).
Qed.

Lemma get_forces_and_hessian_total_witness :
  exists f h,
    _get_forces_and_hessian (ex_friction_self 1 1) ex_contact
    = Ok (set_hessian h (set_forces f (ex_friction_self 1 1)))
    /\ buffers 15 f h
    /\ (forall r c,
          (r < 15)%nat -> (c < 15)%nat ->
          nth c (nth r h []) 0%float
          = (written_hessian
               (snd (aggregate_terms (ex_friction_self 1 1) ex_contact))
               (pairs_of ex_contact) r c
               (nth c (nth r (hessian (ex_friction_self 1 1)) []) 0)
             * contact_stiffness (ex_friction_self 1 1))%float).
Proof.
  destruct (get_forces_and_hessian_total (ex_friction_self 1 1) ex_contact)
    as (f & h & E & B & _ & Nh).
  - exact reference_lawful.
  - vm_compute. repeat split; repeat constructor.
  - apply ex_gradient_shapes.
  - apply ex_hessian_shapes.
  - vm_compute. repeat constructor; discriminate.
  - assert (Hv : nonfinite
                   (np.sum2 (fst (aggregate_terms (ex_friction_self 1 1)
                                                  ex_contact)))
                 || nonfinite
                      (np.sum3 (snd (aggregate_terms (ex_friction_self 1 1)
                                                     ex_contact)))
                 = false) by (vm_compute; reflexivity).
    rewrite Hv in Nh.
    exists f, h. split; [exact E|]. split; [exact B|exact Nh].
Defined.

(** X17: with generated functions of their shapes, every array on the way
    from the gradients to the write-out has its shape: one row of 12 forces
    per active pair in the force-only path and in the aggregate of the
    Hessian path, and one 12 x 12 matrix per active pair in the
    conservative contact Hessian and in the aggregate jacobian, with or
    without friction. *)
Theorem force_path_shapes (self : IMC) (edges : mat)
  (edge_ids : list (Z * Z)) (velocities s_input_vals : mat) :
  gradient_shapes self (edges, edge_ids, velocities, s_input_vals) ->
  hessian_shapes self (edges, edge_ids, velocities, s_input_vals) ->
  shape2 (length edges)
         (force_terms self (edges, edge_ids, velocities, s_input_vals))
  /\ shape2 (length edges)
            (fst (aggregate_terms self
                    (edges, edge_ids, velocities, s_input_vals)))
  /\ shape3 (length edges)
            (snd (conservative_terms self
                    (edges, edge_ids, velocities, s_input_vals)))
  /\ shape3 (length edges)
            (snd (aggregate_terms self
                    (edges, edge_ids, velocities, s_input_vals))).
Proof.
  intros Hg Hh.
  pose proof (force_terms_shape self _ reference_lawful Hg) as Hf.
  destruct (hessian_terms_shape self _ reference_lawful Hg Hh)
    as (Hc & Ha & Hj).
  auto.
Qed.

Lemma force_path_shapes_witness :
  shape2 1 (force_terms (ex_friction_self 1 1) ex_contact)
  /\ shape3 1 (snd (aggregate_terms (ex_friction_self 1 1) ex_contact)).
Proof.
  destruct (force_path_shapes (ex_friction_self 1 1)
              [combined ex_hairpin (0, 3)] [(0, 3)] [repeat 0%float 12]
              [combined ex_hairpin (0, 3)]
              (ex_gradient_shapes 1 1) (ex_hessian_shapes 1 1))
    as (Hf & _ & _ & Hj).
  split; [exact Hf|exact Hj].
Defined.

(** * Requests that are answered *)

Lemma generated_ok_frame self self' :
  frame self self' -> generated_ok self -> generated_ok self'.
Proof.
  unfold frame, generated_ok.
  intros (_ & _ & _ & _ & _ & _ & -> & -> & -> & -> & _ & -> & -> & _) H.
  exact H.
Qed.

Lemma shapes_of_generated self edges edge_ids velocities s_input_vals :
  generated_ok self ->
  width 12 edges -> length velocities = length edges ->
  length s_input_vals = length edges -> length edge_ids = length edges ->
  gradient_shapes self (edges, edge_ids, velocities, s_input_vals)
  /\ hessian_shapes self (edges, edge_ids, velocities, s_input_vals).
Proof.
  intros (Wdd & L9 & L6 & Sg & L5 & Sc & Sh & L15 & Sp & Hj) We Lv Ls Li.
  unfold gradient_shapes, hessian_shapes. split.
  - split; [exact Wdd|]. split; [exact L6|]. split; [apply Sg|].
    split; [exact We|]. split; [exact Lv|exact Li].
  - split; [exact L9|]. split; [exact L5|]. split; [exact Sc|].
    split; [apply Sh|]. split; [exact L15|].
    split; [rewrite <- Ls; apply Sp|exact Hj].
Qed.

Lemma width_pair_rows data n ids :
  Z.of_nat (length data) = 3 * (n + 1) ->
  Forall (fun p => 0 <= fst p < n /\ 0 <= snd p < n) ids ->
  width 12 (map (pair_row data) ids).
Proof.
  intros Hd Hr. apply Forall_map. revert Hr. apply Forall_impl.
  intros p [Hx Hy]. rewrite (pair_row_combined data n) by assumption.
  unfold combined. rewrite length_app.
  rewrite !(length_edge_of _ _ n) by assumption. reflexivity.
Qed.

Lemma get_forces_and_hessian_returns {num : Numerics} self cp :
  lawful num ->
  buffers (length (forces self)) (forces self) (hessian self) ->
  gradient_shapes self cp -> hessian_shapes self cp ->
  Forall (pair_in_range (length (forces self))) (pairs_of cp) ->
  exists self', _get_forces_and_hessian self cp = Ok self'.
Proof.
  intros Hnum Hb Hg Hh Hr.
  destruct (get_forces_and_hessian_entries self cp Hnum Hb Hg Hh Hr)
    as (f & h & E & _).
  eauto.
Qed.

Lemma get_forces_returns_or_asserts {num : Numerics} self cp :
  lawful num ->
  gradient_shapes self cp ->
  Forall (pair_in_range (length (forces self))) (pairs_of cp) ->
  (exists self', _get_forces self cp = Ok self')
  \/ exists msg, _get_forces self cp = Raise (AssertionError msg).
Proof.
  intros Hnum Hg Hr.
  assert (Hw : width 12 (force_terms self cp)).
  { pose proof (force_terms_shape self cp Hnum Hg) as H.
    destruct cp as [[[e ids] v] s]. apply H. }
  destruct (py_to_cpp_nohess_Ok _ _ _ Hw Hr) as (cpp' & E).
  unfold _get_forces, force_terms, pairs_of in *.
  destruct cp as [[[e ids] v] s]. cbv zeta in *.
  destruct (np.isnan _); [right; cbn; eauto|].
  destruct (np.isinf _); [right; cbn; eauto|].
  left. cbn [negb assert bind]. rewrite E. cbn [bind]. eauto.
Qed.

Lemma buffers_zeroed hf s n :
  buffers n (forces s) (hessian s) ->
  buffers n (forces (zero_phase hf s)) (hessian (zero_phase hf s)).
Proof.
  intros (Lf & Lh & Wh).
  destruct (zero_phase_fields hf s) as (_ & _ & _ & -> & ->).
  unfold buffers. rewrite length_map. split; [exact Lf|].
  destruct (hf =? 0); [split; assumption|].
  rewrite length_map. split; [exact Lh|].
  apply Forall_map. revert Wh. apply Forall_impl. intros r Hr.
  now rewrite length_map.
Qed.

Section Answered.
Context {num : Numerics}.
Variable min_dist_vectorized : mat -> vec.
Variable min_dist_f_out_vectorized : mat -> vec * mat.
Hypothesis num_lawful : lawful num.
Hypothesis one_distance_per_row :
  forall rows, length (min_dist_vectorized rows) = length rows.
Hypothesis one_output_per_row :
  forall rows,
    length (fst (min_dist_f_out_vectorized rows)) = length rows
    /\ length (snd (min_dist_f_out_vectorized rows)) = length rows.

Local Abbreviation request :=
  (start_server_request min_dist_vectorized min_dist_f_out_vectorized).
Local Abbreviation contact := (contact_phase min_dist_f_out_vectorized).

(** The contact phase, in the first iteration of a step or in a later one
    with the velocities of the first: it returns, or the force-only path
    stops on its assertion. *)
Lemma contact_answered hf fi s vars ids n :
  (fi = 0 -> ids <> [] ->
   exists v, l_velocities vars = Some v /\ length v = length ids) ->
  generated_ok s ->
  Z.of_nat (length (node_coordinates s)) = 3 * (n + 1) ->
  Z.of_nat (length (forces s)) = 3 * (n + 1) ->
  buffers (length (forces s)) (forces s) (hessian s) ->
  Forall (fun p => 0 <= fst p < n /\ 0 <= snd p < n) ids ->
  (exists s3 v3, contact hf fi s vars ids = Ok (s3, v3))
  \/ (hf = 0
      /\ exists msg, contact hf fi s vars ids = Raise (AssertionError msg)).
Proof.
  intros Hv Hgen Hx Hfl Hb Hr. unfold contact_phase.
  destruct ids as [|id ids']; [left; cbn; eauto|].
  set (ids := id :: ids') in *. cbn [length Nat.eqb]. cbv zeta.
  unfold _prepare_edges, _jit_prepare_edges. cbv zeta.
  destruct (one_output_per_row (map (pair_row (node_coordinates s)) ids))
    as [Ld Lo].
  destruct (min_dist_f_out_vectorized
              (map (pair_row (node_coordinates s)) ids)) as [dists fo].
  cbn [fst snd] in Ld, Lo.
  destruct (np_min_Ok dists) as (cd & ->).
  { intros ->. rewrite length_map in Ld. discriminate. }
  cbn [bind l_last_cd].
  assert (Hin : Forall (pair_in_range (length (forces s))) ids).
  { revert Hr. apply Forall_impl.
    intros p [H1 H2]. unfold pair_in_range. lia. }
  assert (Hend : forall s' (v' : mat) (vars' : Locals),
             generated_ok s' -> forces s' = forces s ->
             hessian s' = hessian s -> length v' = length ids ->
             (exists s3 v3,
                (self <- (if hf =? 0
                          then _get_forces s'
                                 (map (pair_row (node_coordinates s)) ids,
                                  ids, v', fo)
                          else _get_forces_and_hessian s'
                                 (map (pair_row (node_coordinates s)) ids,
                                  ids, v', fo)) ;;
                 Ok (self, vars'))
                = Ok (s3, v3))
             \/ (hf = 0
                 /\ exists msg,
                      (self <- (if hf =? 0
                                then _get_forces s'
                                       (map (pair_row (node_coordinates s))
                                            ids, ids, v', fo)
                                else _get_forces_and_hessian s'
                                       (map (pair_row (node_coordinates s))
                                            ids, ids, v', fo)) ;;
                       Ok (self, vars'))
                      = Raise (AssertionError msg))).
  { intros s' v' vars' Hgen' Ef Eh Lv.
    destruct (shapes_of_generated s'
                (map (pair_row (node_coordinates s)) ids) ids v' fo Hgen')
      as [Hg Hh].
    { now apply (width_pair_rows _ n). }
    { now rewrite length_map. }
    { exact Lo. }
    { now rewrite length_map. }
    assert (Hin' : Forall (pair_in_range (length (forces s'))) ids)
      by (rewrite Ef; exact Hin).
    destruct (Z.eqb_spec hf 0) as [->|Hhf].
    - destruct (get_forces_returns_or_asserts _ _ num_lawful Hg Hin')
        as [(s3 & ->)|(msg & ->)]; cbn [bind].
      + left. do 2 eexists. reflexivity.
      + right. split; [reflexivity|]. eexists. reflexivity.
    - assert (Hb' : buffers (length (forces s')) (forces s') (hessian s'))
        by (rewrite Ef, Eh; exact Hb).
      destruct (get_forces_and_hessian_returns s' _ num_lawful Hb' Hg Hh
                  Hin') as (s3 & ->).
      cbn [bind]. left. do 2 eexists. reflexivity. }
  destruct (Z.eqb_spec fi 0) as [Hz|Hnz].
  - destruct (Hv Hz ltac:(discriminate)) as (v & -> & Lv).
    now apply Hend.
  - destruct (update_contact_stiffness_sets s cd (l_last_cd vars))
      as (k & ->).
    apply Hend; try reflexivity.
    + apply (generated_ok_frame s); [apply frame_set_contact_stiffness
                                    |exact Hgen].
    + unfold _prepare_velocities, _jit_prepare_velocities.
      now rewrite !length_map.
Qed.

(** The division that ends a request. *)
Lemma report_answered (s3 : IMC) (v3 : Locals) (sc : float) fi n :
  scale s3 = sc ->
  if (sc =? 0)%float
  then (_ <- py_div (l_closest_distance v3) (scale s3) ;;
        Ok (report_phase s3 v3, v3, fi, n))
       = (Raise ZeroDivisionError : result (IMC * Locals * Z * nat))
  else exists self' vars' num_con,
         (_ <- py_div (l_closest_distance v3) (scale s3) ;;
          Ok (report_phase s3 v3, v3, fi, n))
         = Ok (self', vars', fi, num_con).
Proof.
  intros ->. unfold py_div.
  destruct (sc =? 0)%float; cbn [bind]; [reflexivity|].
  do 3 eexists. reflexivity.
Qed.

(** A request that opens a time step. *)
Lemma first_iter_answered (self : IMC) (vars : Locals)
  (hessian_flag first_iter fr : Z) :
  table_shapes self -> edge_ids self <> [] -> generated_ok self ->
  buffers (length (node_coordinates self)) (forces self) (hessian self) ->
  py_int (nth 5 (meta_data self) 0%float) = Ok hessian_flag ->
  py_int (nth 0 (meta_data self) 0%float) = Ok first_iter ->
  py_int (nth 1 (meta_data self) 0%float) = Ok fr ->
  first_iter <> 0 ->
  (hessian_flag = 0
   /\ exists msg, request self vars = Raise (AssertionError msg))
  \/ (if (scale self =? 0)%float
      then request self vars = Raise ZeroDivisionError
      else exists self' vars' num_con,
             request self vars = Ok (self', vars', first_iter, num_con)).
Proof.
  intros Hs Hne Hgen Hb H5 H0 H1 Hfi.
  rewrite request_phases. unfold flags_phase. rewrite H5, H0, H1.
  cbn [bind]. unfold detect_phase.
  destruct (Z.eqb_spec first_iter 0) as [?|_]; [contradiction|].
  cbv zeta. unfold _detect_collisions.
  match goal with
  | |- context [_jit_detect_collisions _ (edges ?s) _ _ _ _ _ _] =>
      set (s1 := s)
  end.
  assert (Hs1 : table_shapes s1).
  { unfold s1, table_shapes in *. cbn.
    destruct Hs as (S1 & S2 & S3 & S4 & S5 & S6 & S7 & S8).
    rewrite length_map. auto 10. }
  assert (Hne1 : edge_ids s1 <> []) by exact Hne.
  destruct (jit_detect_collisions_Ok min_dist_vectorized
              one_distance_per_row s1 Hs1 Hne1)
    as (closest & E & _).
  rewrite E. cbn [bind l_edge_ids].
  set (ids := within_limit _ _ _ _).
  set (s2 := zero_phase hessian_flag _).
  set (v2 := Build_Locals _ _ _ _).
  destruct Hs as (S1 & S2 & S3 & S4 & S5 & S6 & S7 & S8).
  destruct Hb as (Bf & Bh & Bw).
  assert (Fs2 : frame self s2).
  { unfold s2, zero_phase, s1. destruct (hessian_flag =? 0); frame_chain. }
  destruct (contact_answered hessian_flag first_iter s2 v2 ids
              (num_edges self) (fun Hz _ => False_ind _ (Hfi Hz)))
    as [(s3 & v3 & Hc)|(Hz & msg & ->)].
  - apply (generated_ok_frame self); [|exact Hgen].
    unfold s2, zero_phase, s1. destruct (hessian_flag =? 0); frame_chain.
  - unfold s2. destruct (zero_phase_fields hessian_flag
                           (set_scratch
                              (map (edge_of (node_coordinates s1))
                                   (range 0 (num_edges s1)))
                              (map (combined (node_coordinates s1))
                                   (edge_ids s1)) s1))
      as (_ & _ & -> & _).
    unfold s1. cbn. rewrite length_map. exact S8.
  - unfold s2. destruct (zero_phase_fields hessian_flag
                           (set_scratch
                              (map (edge_of (node_coordinates s1))
                                   (range 0 (num_edges s1)))
                              (map (combined (node_coordinates s1))
                                   (edge_ids s1)) s1))
      as (_ & _ & _ & -> & _).
    unfold s1. cbn. rewrite length_map, Bf. exact S8.
  - assert (Lf2 : length (forces s2) = length (node_coordinates self)).
    { unfold s2. destruct (zero_phase_fields hessian_flag
                             (set_scratch
                                (map (edge_of (node_coordinates s1))
                                     (range 0 (num_edges s1)))
                                (map (combined (node_coordinates s1))
                                     (edge_ids s1)) s1))
        as (_ & _ & _ & -> & _).
      rewrite length_map. exact Bf. }
    rewrite Lf2. unfold s2. apply buffers_zeroed. unfold buffers.
    split; [exact Bf|]. split; [exact Bh|exact Bw].
  - apply Forall_forall. intros [i j] Hp. unfold ids in Hp.
    apply in_within_limit_table in Hp. unfold s1 in Hp. cbn in Hp.
    rewrite S3 in Hp. apply in_eligible_pairs in Hp. cbn [fst snd]. lia.
  - right. rewrite Hc. cbn [bind].
    apply contact_phase_frame in Hc.
    apply report_answered.
    destruct (frame_trans _ _ _ Fs2 Hc) as [H _]. exact H.
  - left. split; [exact Hz|]. eexists. reflexivity.
Qed.

(** A later request of a time step, which works on the pairs and the
    velocities that the first request of the step has left. *)
Lemma later_iter_answered (self : IMC) (vars : Locals)
  (hessian_flag fr : Z) (ids : list (Z * Z)) :
  generated_ok self ->
  Z.of_nat (length (node_coordinates self)) = 3 * (num_edges self + 1) ->
  buffers (length (node_coordinates self)) (forces self) (hessian self) ->
  py_int (nth 5 (meta_data self) 0%float) = Ok hessian_flag ->
  py_int (nth 0 (meta_data self) 0%float) = Ok 0 ->
  py_int (nth 1 (meta_data self) 0%float) = Ok fr ->
  l_edge_ids vars = Some ids ->
  Forall (fun p => 0 <= fst p < num_edges self
                   /\ 0 <= snd p < num_edges self) ids ->
  (ids <> [] ->
   exists v, l_velocities vars = Some v /\ length v = length ids) ->
  (hessian_flag = 0
   /\ exists msg, request self vars = Raise (AssertionError msg))
  \/ (if (scale self =? 0)%float
      then request self vars = Raise ZeroDivisionError
      else exists self' vars' num_con,
             request self vars = Ok (self', vars', 0, num_con)).
Proof.
  intros Hgen S8 Hb H5 H0 H1 Hids Hr Hv.
  rewrite request_phases. unfold flags_phase. rewrite H5, H0, H1.
  cbn [bind]. unfold detect_phase. cbn [Z.eqb bind]. rewrite Hids.
  set (s2 := zero_phase hessian_flag _).
  destruct Hb as (Bf & Bh & Bw).
  assert (Fs2 : frame self s2).
  { unfold s2, zero_phase. destruct (hessian_flag =? 0); frame_chain. }
  assert (Lf2 : length (forces s2) = length (node_coordinates self)).
  { unfold s2. destruct (zero_phase_fields hessian_flag
                           (set_node_coordinates
                              (map (fun x => (x * scale (set_friction fr self))%float)
                                   (node_coordinates (set_friction fr self)))
                              (set_friction fr self)))
      as (_ & _ & _ & -> & _).
    rewrite length_map. exact Bf. }
  destruct (contact_answered hessian_flag 0 s2 vars ids (num_edges self)
              (fun _ => Hv))
    as [(s3 & v3 & Hc)|(Hz & msg & ->)].
  - apply (generated_ok_frame self); [exact Fs2|exact Hgen].
  - unfold s2. destruct (zero_phase_fields hessian_flag
                           (set_node_coordinates
                              (map (fun x => (x * scale (set_friction fr self))%float)
                                   (node_coordinates (set_friction fr self)))
                              (set_friction fr self)))
      as (_ & _ & -> & _).
    cbn. rewrite length_map. exact S8.
  - rewrite Lf2. exact S8.
  - rewrite Lf2. unfold s2. apply buffers_zeroed. unfold buffers. cbn.
    split; [exact Bf|]. split; [exact Bh|exact Bw].
  - exact Hr.
  - right. rewrite Hc. cbn [bind].
    apply contact_phase_frame in Hc.
    apply report_answered.
    destruct (frame_trans _ _ _ Fs2 Hc) as [H _]. exact H.
  - left. split; [exact Hz|]. eexists. reflexivity.
Qed.

End Answered.

(** X18: a request with [first_iter] set and readable control values, on a
    state with the table and scratch arrays of a rod that has eligible
    pairs, force and Hessian buffers of three entries per node, generated
    functions of their shapes and distance primitives that give one output
    per row, whatever the order in which the library adds and multiplies:
    with the Hessian requested and a scale other than zero it is always
    answered; without the Hessian it is answered or stops with the
    assertion error on the forces; and when the scale is zero and the
    forces have passed, the division of the closest distance by the scale
    raises ZeroDivisionError. No other exception is possible. *)
Theorem first_iteration_request_answered {num : Numerics}
  (min_dist_vectorized : mat -> vec)
  (min_dist_f_out_vectorized : mat -> vec * mat)
  (self : IMC) (vars : Locals) (hessian_flag first_iter fr : Z) :
  lawful num ->
  (forall rows, length (min_dist_vectorized rows) = length rows) ->
  (forall rows,
     length (fst (min_dist_f_out_vectorized rows)) = length rows
     /\ length (snd (min_dist_f_out_vectorized rows)) = length rows) ->
  table_shapes self -> edge_ids self <> [] -> generated_ok self ->
  buffers (length (node_coordinates self)) (forces self) (hessian self) ->
  py_int (nth 5 (meta_data self) 0%float) = Ok hessian_flag ->
  py_int (nth 0 (meta_data self) 0%float) = Ok first_iter ->
  py_int (nth 1 (meta_data self) 0%float) = Ok fr ->
  first_iter <> 0 ->
  (hessian_flag = 0
   /\ exists msg,
        start_server_request min_dist_vectorized
                             min_dist_f_out_vectorized self vars
        = Raise (AssertionError msg))
  \/ (if (scale self =? 0)%float
      then start_server_request min_dist_vectorized
                                min_dist_f_out_vectorized self vars
           = Raise ZeroDivisionError
      else exists self' vars' num_con,
             start_server_request min_dist_vectorized
                                  min_dist_f_out_vectorized self vars
             = Ok (self', vars', first_iter, num_con)).
Proof.
  intros Hnum Hmd Hmdf. now apply first_iter_answered.
Qed.

Lemma ex_generated_ok c cj x v m : generated_ok (ex_imc c cj x v m).
Proof.
  unfold generated_ok, shape3, shape2, square12, width. cbn.
  split; [repeat constructor|]. split; [reflexivity|].
  split; [reflexivity|]. split.
  { intros edges.
    repeat (apply Forall_cons;
            [cbv beta; split; [apply length_map|
                               apply Forall_map, Forall_forall; intros;
                               reflexivity]|]).
    apply Forall_nil. }
  split; [reflexivity|]. split; [repeat constructor|]. split.
  { intros edges. split; [apply length_map|].
    apply Forall_map, Forall_forall. intros e _.
    split; [reflexivity|repeat constructor]. }
  split; [reflexivity|]. split.
  { intros s. repeat (apply Forall_cons; [cbv beta; apply length_map|]).
    apply Forall_nil. }
  intros inp. split; [apply length_map|].
  apply Forall_map, Forall_forall. intros e _.
  split; [reflexivity|repeat constructor].
Qed.

Lemma first_iteration_request_answered_witness :
  exists self' vars' num_con,
    start_server_request ex_min_dist_vectorized ex_min_dist_f_out_vectorized
      (ex_imc 1 1 ex_hairpin (repeat 0%float 15) (ex_meta 1 1))
      initial_locals
    = Ok (self', vars', 1, num_con).
Proof.
  destruct (first_iteration_request_answered ex_min_dist_vectorized
              ex_min_dist_f_out_vectorized
              (ex_imc 1 1 ex_hairpin (repeat 0%float 15) (ex_meta 1 1))
              initial_locals 1 1 0) as [[Hz _]|H].
  - exact reference_lawful.
  - intros rows. apply length_map.
  - intros rows. split; [apply length_map|reflexivity].
  - unfold table_shapes, width.
    repeat split; try reflexivity; try (cbn; lia); repeat constructor.
  - discriminate.
  - apply ex_generated_ok.
  - repeat split. repeat constructor.
  - reflexivity.
  - reflexivity.
  - reflexivity.
  - lia.
  - discriminate.
  - exact H.
Defined.

(** * The fall-back of the Hessian path *)

(** C8: in the Hessian-requested path, when the aggregate of contact and
    friction terms (forces or jacobian) contains a NaN or an infinite
    value, the computation returns normally, whatever the order in which
    the library adds and multiplies, and what it has written is seen on
    the buffers: each entry of the Hessian buffer is what it held plus the
    entries of the conservative contact Hessian alone, block by block for
    the pairs on its two nodes, times the contact stiffness, the friction
    jacobian being discarded; the force buffer has received the aggregate
    forces; no other attribute has changed. And every request with the
    Hessian flag set, in the first iteration of a step or in a later one,
    on a scale other than zero, is answered: the reply follows. *)
Theorem hessian_fallback {num : Numerics}
  (min_dist_vectorized : mat -> vec)
  (min_dist_f_out_vectorized : mat -> vec * mat)
  (self : IMC) (cp : contact_points) :
  lawful num ->
  buffers (length (forces self)) (forces self) (hessian self) ->
  gradient_shapes self cp -> hessian_shapes self cp ->
  Forall (pair_in_range (length (forces self))) (pairs_of cp) ->
  invalid_aggregate (fst (aggregate_terms self cp))
                    (snd (aggregate_terms self cp)) = true ->
  (exists f h,
     _get_forces_and_hessian self cp = Ok (set_hessian h (set_forces f self))
     /\ buffers (length (forces self)) f h
     /\ (forall i,
           (i < length (forces self))%nat ->
           nth i f 0%float
           = (written_force (fst (aggregate_terms self cp)) (pairs_of cp) i
                            (nth i (forces self) 0)
              * contact_stiffness self)%float)
     /\ (forall r c,
           (r < length (forces self))%nat ->
           (c < length (forces self))%nat ->
           nth c (nth r h []) 0%float
           = (written_hessian (snd (conservative_terms self cp))
                              (pairs_of cp) r c
                              (nth c (nth r (hessian self) []) 0)
              * contact_stiffness self)%float))
  /\ (forall (s : IMC) (vars : Locals) (hessian_flag first_iter fr : Z),
        (forall rows, length (min_dist_vectorized rows) = length rows) ->
        (forall rows,
           length (fst (min_dist_f_out_vectorized rows)) = length rows
           /\ length (snd (min_dist_f_out_vectorized rows)) = length rows) ->
        table_shapes s -> generated_ok s ->
        buffers (length (node_coordinates s)) (forces s) (hessian s) ->
        py_int (nth 5 (meta_data s) 0%float) = Ok hessian_flag ->
        py_int (nth 0 (meta_data s) 0%float) = Ok first_iter ->
        py_int (nth 1 (meta_data s) 0%float) = Ok fr ->
        hessian_flag <> 0 -> (scale s =? 0)%float = false ->
        (if first_iter =? 0
         then exists ids,
                l_edge_ids vars = Some ids
                /\ Forall (fun p => 0 <= fst p < num_edges s
                                    /\ 0 <= snd p < num_edges s) ids
                /\ (ids <> [] ->
                    exists v, l_velocities vars = Some v
                              /\ length v = length ids)
         else edge_ids s <> []) ->
        exists s' vars' num_con,
          start_server_request min_dist_vectorized
                               min_dist_f_out_vectorized s vars
          = Ok (s', vars', first_iter, num_con)).
Proof.
  intros Hnum Hb Hg Hh Hr Hinv. split.
  - destruct (get_forces_and_hessian_entries self cp Hnum Hb Hg Hh Hr)
      as (f & h & E & B & Nf & Nh).
    exists f, h. split; [exact E|]. split; [exact B|].
    split; [exact Nf|].
    intros r c Hrn Hcn. rewrite (Nh r c Hrn Hcn).
    destruct Hnum as (_ & _ & Hsum).
    destruct (validity_check_fails _ _
                (invalid_aggregate_sums _ _ Hsum Hinv)) as (msg & ->).
    reflexivity.
  - intros s vars hf fi fr Hmd Hmdf Hs Hgen Hbs H5 H0 H1 Hhf Hsc Hcase.
    destruct (Z.eqb_spec fi 0) as [->|Hfi].
    + destruct Hcase as (ids & Hids & Hin & Hv).
      destruct (later_iter_answered min_dist_vectorized
                  min_dist_f_out_vectorized Hnum Hmdf s vars hf fr ids
                  Hgen (proj2 (proj2 (proj2 (proj2 (proj2 (proj2
                                                             (proj2 Hs)))))))
                  Hbs H5 H0 H1 Hids Hin Hv) as [[Hz _]|H];
        [contradiction|].
      rewrite Hsc in H. exact H.
    + destruct (first_iter_answered min_dist_vectorized
                  min_dist_f_out_vectorized Hnum Hmd Hmdf s vars hf fi fr
                  Hs Hcase Hgen Hbs H5 H0 H1 Hfi) as [[Hz _]|H];
        [contradiction|].
      rewrite Hsc in H. exact H.
Qed.

Lemma hessian_fallback_witness :
  invalid_aggregate (fst (aggregate_terms (ex_friction_self 1 nan) ex_contact))
                    (snd (aggregate_terms (ex_friction_self 1 nan) ex_contact))
  = true
  /\ (exists f h,
        _get_forces_and_hessian (ex_friction_self 1 nan) ex_contact
        = Ok (set_hessian h (set_forces f (ex_friction_self 1 nan)))
        /\ np.isnan
             (nth 0 (nth 0 (nth 0 (snd (aggregate_terms
                                          (ex_friction_self 1 nan)
                                          ex_contact)) []) []) 0%float)
           = true
        /\ nth 0 (nth 0 (nth 0 (snd (conservative_terms
                                       (ex_friction_self 1 nan)
                                       ex_contact)) []) []) 0%float
           = 231%float
        /\ nth 0 (nth 0 (hessian (ex_friction_self 1 nan)) []) 0%float
           = 7%float
        /\ nth 0 (nth 0 h []) 0%float = 238%float
        /\ nth 6 (nth 0 h []) 0%float = 7%float)
  /\ exists s' vars' num_con,
       start_server_request ex_min_dist_vectorized
         ex_min_dist_f_out_vectorized
         (ex_imc 1 nan ex_hairpin (repeat 0%float 15)
                 (ex_meta_friction 1 1))
         initial_locals
       = Ok (s', vars', 1, num_con)
       /\ nth 0 (nth 0 (hessian s') []) 0%float = 231%float
       /\ nth 6 (nth 0 (hessian s') []) 0%float = 0%float.
Proof.
  assert (Hinv : invalid_aggregate
                   (fst (aggregate_terms (ex_friction_self 1 nan) ex_contact))
                   (snd (aggregate_terms (ex_friction_self 1 nan) ex_contact))
                 = true) by (vm_compute; reflexivity).
  destruct (hessian_fallback ex_min_dist_vectorized
              ex_min_dist_f_out_vectorized (ex_friction_self 1 nan)
              ex_contact reference_lawful)
    as ((f & h & E & _ & _ & Nh) & Hreq).
  - vm_compute. repeat split; repeat constructor.
  - apply ex_gradient_shapes.
  - apply ex_hessian_shapes.
  - vm_compute. repeat constructor; discriminate.
  - exact Hinv.
  - split; [exact Hinv|]. split.
    + exists f, h. split; [exact E|].
      split; [vm_compute; reflexivity|].
      split; [vm_compute; reflexivity|].
      split; [vm_compute; reflexivity|].
      split.
      * rewrite (Nh 0%nat 0%nat) by (vm_compute; lia).
        vm_compute. reflexivity.
      * rewrite (Nh 0%nat 6%nat) by (vm_compute; lia).
        vm_compute. reflexivity.
    + destruct (Hreq (ex_imc 1 nan ex_hairpin (repeat 0%float 15)
                             (ex_meta_friction 1 1))
                     initial_locals 1 1 1) as (s' & vars' & n & Es).
      * intros rows. apply length_map.
      * intros rows. split; [apply length_map|reflexivity].
      * unfold table_shapes, width.
        repeat split; try reflexivity; try (cbn; lia); repeat constructor.
      * apply ex_generated_ok.
      * repeat split. repeat constructor.
      * reflexivity.
      * reflexivity.
      * reflexivity.
      * discriminate.
      * reflexivity.
      * discriminate.
      * assert (H : match start_server_request ex_min_dist_vectorized
                            ex_min_dist_f_out_vectorized
                            (ex_imc 1 nan ex_hairpin (repeat 0%float 15)
                                    (ex_meta_friction 1 1))
                            initial_locals with
                    | Ok (s, _, _, _) =>
                        PrimFloat.Leibniz.eqb
                          (nth 0 (nth 0 (hessian s) []) 0%float) 231%float
                        && PrimFloat.Leibniz.eqb
                             (nth 6 (nth 0 (hessian s) []) 0%float) 0%float
                    | Raise _ => false
                    end = true) by (vm_compute; reflexivity).
        rewrite Es in H. apply andb_true_iff in H. destruct H as [Ha Hz].
        exists s', vars', n. split; [exact Es|].
        split; now apply FloatAxioms.Leibniz.eqb_spec.
Defined.

(** * The stiffness controller on distances that are not numbers *)

Lemma ltb_nan_false x y :
  np.isnan x = true \/ np.isnan y = true -> (x <? y)%float = false.
Proof.
  intros H. destruct (x <? y)%float eqn:E; [|reflexivity].
  apply ltb_true_not_nan in E. destruct E as [Hx Hy].
  unfold np.isnan in H. rewrite !is_nan_spec in H.
  destruct H; contradiction.
Qed.

(** X19: when the current or the previous closest distance is NaN, the
    stiffness controller changes nothing: every comparison it makes is
    false. *)
Theorem update_contact_stiffness_nan (self : IMC) (curr_cd last_cd : float) :
  np.isnan curr_cd = true \/ np.isnan last_cd = true ->
  _update_contact_stiffness self curr_cd last_cd = self.
Proof.
  intros H. unfold _update_contact_stiffness. cbv zeta.
  rewrite sub_pos, sub_neg.
  rewrite (ltb_nan_false last_cd curr_cd) by tauto.
  rewrite (ltb_nan_false curr_cd last_cd) by tauto.
  now rewrite andb_false_r.
Qed.

Lemma update_contact_stiffness_nan_witness :
  _update_contact_stiffness ex_self nan 0.1 = ex_self.
Proof.
  apply update_contact_stiffness_nan. left. reflexivity.
Defined.
